(** * numba-mlir: the parallel-loop lowering pipeline

    A shallow embedding of the rewrite patterns of
    [ParallelToTbb.cpp] (the patterns [ParallelToTbb] and
    [HoistBufferAllocs]), of [LowerToLlvm.cpp] (the pattern
    [LowerParallel], [fixFuncSig], [ReturnOpLowering] and the array
    descriptor conversion thunks) and of [ExecutionEngine.cpp]
    ([loadModule] and [lookup]).

    The IR is a mutable graph in the source.  A pattern only looks at a
    fixed neighbourhood of the operation it is applied to: its operands,
    the users of its results and the chain of its parent operations.  The
    embedding gives each pattern exactly that neighbourhood as a record,
    and the pattern's effect on the IR as the sequence of rewriter actions
    it performs. *)

From Stdlib Require Import ZArith Lia.
From stdpp Require Import base option list strings pretty gmap.

#[local] Set Warnings "-register-all".
#[local] Open Scope Z_scope.

(** ** Types, attributes and values of the IR *)

Module IR.

Inductive Layout : Type :=
| IdentityLayout
| StridedLayout (offset : Z) (strides : list Z).

#[global] Instance Layout_eq_dec : EqDecision Layout.
Proof. solve_decision. Defined.

(** [mlir::Type].  Only the type constructors the modelled code tests for
    or builds are kept apart; [ShapedType::kDynamic] stands for a dynamic
    extent in a memref shape. *)
Inductive Ty : Type :=
| IntegerType (width : N)
| FloatType (width : N)
| IndexType
| NoneType
| OpaqueType
| TypeVarType
| ComplexType (elem : Ty)
| TupleType (elems : list Ty)
| MemRefType (shape : list Z) (elem : Ty) (layout : Layout) (memorySpace : N)
| FunctionType (inputs results : list Ty)
| LLVMPointerType
| LLVMStructType (body : list Ty)
| LLVMArrayType (elem : Ty) (numElements : nat).

Fixpoint Ty_eq_dec (t1 t2 : Ty) {struct t1} : Decision (t1 = t2).
Proof.
  refine (
    match t1, t2 with
    | IntegerType a, IntegerType b => cast_if (decide (a = b))
    | FloatType a, FloatType b => cast_if (decide (a = b))
    | IndexType, IndexType => left _
    | NoneType, NoneType => left _
    | OpaqueType, OpaqueType => left _
    | TypeVarType, TypeVarType => left _
    | ComplexType a, ComplexType b => cast_if (Ty_eq_dec a b)
    | TupleType a, TupleType b => cast_if (@list_eq_dec _ Ty_eq_dec a b)
    | MemRefType s1 e1 l1 m1, MemRefType s2 e2 l2 m2 =>
        cast_if_and4 (decide (s1 = s2)) (Ty_eq_dec e1 e2)
                     (decide (l1 = l2)) (decide (m1 = m2))
    | FunctionType i1 r1, FunctionType i2 r2 =>
        cast_if_and (@list_eq_dec _ Ty_eq_dec i1 i2)
                    (@list_eq_dec _ Ty_eq_dec r1 r2)
    | LLVMPointerType, LLVMPointerType => left _
    | LLVMStructType a, LLVMStructType b =>
        cast_if (@list_eq_dec _ Ty_eq_dec a b)
    | LLVMArrayType e1 n1, LLVMArrayType e2 n2 =>
        cast_if_and (Ty_eq_dec e1 e2) (decide (n1 = n2))
    | _, _ => right _
    end); abstract congruence.
Defined.
#[global] Existing Instance Ty_eq_dec.

Definition kDynamic : Z := - 2 ^ 63.

(** [Type::isIntOrFloat]: a builtin integer or float type; [index] is
    neither. *)
Definition isIntOrFloat (t : Ty) : bool :=
  match t with
  | IntegerType _ | FloatType _ => true
  | _ => false
  end.

Definition isMemRef (t : Ty) : bool :=
  match t with MemRefType _ _ _ _ => true | _ => false end.

Inductive FloatConst : Type := FZero | FOne | FNegInf | FPosInf.

Inductive Attribute : Type :=
| IntegerAttr (ty : Ty) (value : Z)
| FloatAttr (ty : Ty) (value : FloatConst)
| StringAttr (s : string)
| UnitAttr
| ParallelAttr
| OtherAttr (name : string).

(** An operation's attribute dictionary. *)
Abbreviation Attrs := (gmap string Attribute).

(** [op->getAttrOfType<mlir::IntegerAttr>(name)] *)
Definition getIntegerAttr (attrs : Attrs) (name : string) : option Z :=
  match attrs !! name with
  | Some (IntegerAttr _ v) => Some v
  | _ => None
  end.

(** [numba::util::attributes::getMaxConcurrencyName] and
    [getFastmathName]. *)
Definition getMaxConcurrencyName : string := "numba.max_concurrency".
Definition getFastmathName : string := "numba.fastmath".

Definition RegionId := nat.

(** An SSA value as the patterns see it: its identity, its type, the
    regions around its definition ([getParentRegion] first, then that
    region's parents) and whether it is the result of an operation with
    the [ConstantLike] trait. *)
Record Value : Type := mkValue {
  valueId : nat;
  valueType : Ty;
  enclosingRegions : list RegionId;
  definedByConstantLike : bool
}.

(** [reg.isAncestor(value.getParentRegion())] *)
Definition isAncestor (reg : RegionId) (v : Value) : bool :=
  bool_decide (reg ∈ enclosingRegions v).

(** [mlir::LogicalResult] *)
Inductive LogicalResult : Type := success | failure.

End IR.

Import IR.

(** ** Buffer allocation hoisting ([HoistBufferAllocs]) *)

Module HoistBufferAllocs.

(** The operations met on the use chains of a buffer and on the parent
    chain of an allocation. *)
Inductive OpKind : Type :=
| KAlloc
| KLoad
| KStore
| KDealloc
| KViewLike (name : string)
| KScfWhile
| KScfFor
| KScfParallel
| KUtilParallel
| KFunc
| KOther (name : string).

#[global] Instance OpKind_eq_dec : EqDecision OpKind.
Proof. solve_decision. Defined.

(** An operation together with the users of its results
    ([op->getUsers()], in use-list order).  Use chains of an SSA value
    are finite and acyclic, so they unfold into a tree. *)
Inductive Operation : Type :=
| mkOperation (kind : OpKind) (users : list Operation).

Definition opKind (op : Operation) : OpKind :=
  match op with mkOperation k _ => k end.
Definition getUsers (op : Operation) : list Operation :=
  match op with mkOperation _ us => us end.

Definition isLoadOrStore (op : Operation) : bool :=
  match opKind op with KLoad | KStore => true | _ => false end.
Definition isDealloc (op : Operation) : bool :=
  match opKind op with KDealloc => true | _ => false end.
Definition isViewLike (op : Operation) : bool :=
  match opKind op with KViewLike _ => true | _ => false end.

(** [canResultEscape]: the loop over the users, with [continue] as the
    recursive call of the inner loop and [return true] as [true]. *)
Fixpoint canResultEscape (op : Operation) (original : bool) : bool :=
  match op with
  | mkOperation _ users =>
      (fix loop (us : list Operation) : bool :=
         match us with
         | [] => false
         | user :: rest =>
             if isLoadOrStore user then loop rest
             else if original && isDealloc user then loop rest
             else if isViewLike user then
               if canResultEscape user false then true else loop rest
             else true
         end) users
  end.

(** The escape check as the specification words it: the result of [op]
    escapes when some use is none of the four accepted kinds. *)
Fixpoint escapesSpec (original : bool) (op : Operation) : Prop :=
  match op with
  | mkOperation _ users =>
      (fix some (us : list Operation) : Prop :=
         match us with
         | [] => False
         | user :: rest =>
             ¬ (opKind user = KLoad
                ∨ opKind user = KStore
                ∨ (original = true ∧ opKind user = KDealloc)
                ∨ (isViewLike user = true ∧ ¬ escapesSpec false user))
             ∨ some rest
         end) users
  end.

(** A parent operation on the chain [op->getParentOp()],
    [->getParentOp()], ...: its kind, its regions and its attributes. *)
Record ParentOp : Type := mkParentOp {
  parentKind : OpKind;
  parentRegions : list RegionId;
  parentAttrs : Attrs
}.

(** The [memref.alloc] the pattern is applied to: its result type
    ([op.getType()], always a memref), its operands, the users of its
    result and its parent chain, the direct parent first.  Parent
    operations are named by their position in [parents]. *)
Record AllocOp : Type := mkAllocOp {
  oldShape : list Z;
  oldElementType : Ty;
  oldLayout : Layout;
  oldMemorySpace : N;
  dynamicSizes : list Value;
  symbolOperands : list Value;
  alignment : option Z;
  users : list Operation;
  parents : list ParentOp
}.

Definition getType (op : AllocOp) : Ty :=
  MemRefType (oldShape op) (oldElementType op) (oldLayout op)
             (oldMemorySpace op).
Definition getOperands (op : AllocOp) : list Value :=
  dynamicSizes op ++ symbolOperands op.
Definition asOperation (op : AllocOp) : Operation :=
  mkOperation KAlloc (users op).

(** [isAnyArgDefinedInsideRegions] *)
Definition isAnyArgDefinedInsideRegions
    (regs : list RegionId) (operands : list Value) : bool :=
  existsb (λ arg, existsb (λ reg, isAncestor reg arg) regs) operands.

Record LoopInfo : Type := mkLoopInfo {
  outermostLoop : option nat;
  innermostParallel : option nat
}.

Definition isLoop (k : OpKind) : bool :=
  match k with
  | KScfWhile | KScfFor | KScfParallel | KUtilParallel => true
  | _ => false
  end.
Definition isUtilParallel (k : OpKind) : bool :=
  match k with KUtilParallel => true | _ => false end.

(** The [while (parent)] loop of [getLoopInfo]; [idx] is the position of
    the head of [chain] in the parent chain. *)
Fixpoint getLoopInfoWalk (operands : list Value) (chain : list ParentOp)
    (idx : nat) (ret : LoopInfo) : LoopInfo :=
  match chain with
  | [] => ret
  | parent :: rest =>
      if isAnyArgDefinedInsideRegions (parentRegions parent) operands
      then ret
      else
        let ret1 :=
          if isLoop (parentKind parent)
          then mkLoopInfo (Some idx) (innermostParallel ret) else ret in
        let ret2 :=
          if negb (bool_decide (is_Some (innermostParallel ret1)))
             && isUtilParallel (parentKind parent)
          then mkLoopInfo (outermostLoop ret1) (Some idx) else ret1 in
        getLoopInfoWalk operands rest (S idx) ret2
  end.

Definition getLoopInfo (op : AllocOp) : option LoopInfo :=
  let ret := getLoopInfoWalk (getOperands op) (parents op) 0%nat
                             (mkLoopInfo None None) in
  match outermostLoop ret with
  | None => None
  | Some _ => Some ret
  end.

(** [op->getParentOfType<mlir::func::FuncOp>()] *)
Definition getParentFunc (chain : list ParentOp) : option ParentOp :=
  find (λ p, bool_decide (parentKind p = KFunc)) chain.

(** Where the rewriter inserts: before or after a parent operation, or at
    the start of the body block of one. *)
Inductive InsertionPoint : Type :=
| BeforeOp (parent : nat)
| AfterOp (parent : nat)
| StartOfBody (parent : nat).

(** Values the pattern builds or refers to; [DynamicSize] is a size
    operand of the allocation. *)
Inductive NewValue : Type :=
| NewMemref
| BodyThreadIndex (parallel : nat)
| DynamicSize (operand : Value)
| DimOfNewMemref (index : nat)
| SubViewResult
| ApplyOffsetResult
| CastResult.

Inductive OpFoldResult : Type :=
| IndexAttr (value : Z)
| OfValue (v : NewValue).

(** [MemRefType::getDynamicDimIndex]: the number of dynamic extents
    before a position. *)
Definition getDynamicDimIndex (shape : list Z) (i : nat) : nat :=
  length (List.filter (λ d, bool_decide (d = kDynamic)) (take i shape)).

(** What the pattern does to the IR, in program order. *)
Inductive Action : Type :=
| EraseUser (user : nat)
| CreateAlloc (at_ : InsertionPoint) (type : Ty)
              (dynamicSizes : list Value) (alignment : option Z)
| CreateSubView (at_ : InsertionPoint) (resultType : Ty) (source : NewValue)
                (offsets sizes strides : list OpFoldResult)
| CreateMemrefApplyOffset (at_ : InsertionPoint) (resultType : Ty)
                          (source : NewValue)
| CreateCast (at_ : InsertionPoint) (resultType : Ty) (source : NewValue)
| ReplaceOp (replacement : NewValue)
| CreateDealloc (at_ : InsertionPoint) (memref : NewValue).

Section Pattern.

(** [mlir::memref::SubViewOp::inferRankReducedResultType], which belongs
    to MLIR: from the result shape, the source type and the offsets, sizes
    and strides to the type of the rank-reduced subview. *)
Variable inferRankReducedResultType :
  list Z → Ty → list OpFoldResult → list OpFoldResult → list OpFoldResult → Ty.

(** [mlir::getConstantIntValue], which belongs to MLIR: the integer a
    value is, when a constant defines it. *)
Variable getConstantIntValue : Value → option Z.

(** The users that are [memref.dealloc], by position in the use list. *)
Definition deallocUsers (op : AllocOp) : list nat :=
  (filter (λ iu, isDealloc iu.2 = true)
          (imap (λ i user, (i, user)) (users op))).*1.

(** [createOrFold<memref::DimOp>(newMemref, i)] followed by
    [getConstantIntValue].  [DimOp::fold], which belongs to MLIR, folds
    a static extent to a constant, and a dynamic extent of the result of
    a [memref.alloc] to the size operand of the allocation for that
    extent, which [getConstantIntValue] turns into a number when a
    constant defines it.  The verifier of [memref.alloc] makes the size
    operands as many as the dynamic extents; a [memref.dim] that has no
    fold stays. *)
Definition dimSize (shape : list Z) (sizes : list Value) (i : nat)
    : OpFoldResult :=
  match shape !! i with
  | Some d =>
      if decide (d = kDynamic) then
        match sizes !! getDynamicDimIndex shape i with
        | Some val =>
            match getConstantIntValue val with
            | Some fixed => IndexAttr fixed
            | None => OfValue (DynamicSize val)
            end
        | None => OfValue (DimOfNewMemref i)
        end
      else IndexAttr d
  | None => OfValue (DimOfNewMemref i)
  end.

(** [HoistBufferAllocs::matchAndRewrite]: the result and the actions
    appended to those the rewriter has already performed. *)
Definition matchAndRewrite (op : AllocOp) (rewriter : list Action)
    : LogicalResult * list Action :=
  if negb (bool_decide (symbolOperands op = [])) then (failure, rewriter)
  else if canResultEscape (asOperation op) true then (failure, rewriter)
  else
    match getLoopInfo op with
    | None => (failure, rewriter)
    | Some loopInfo =>
      match getParentFunc (parents op) with
      | None => (failure, rewriter)
      | Some func =>
        (* non-null, by [getLoopInfo] *)
        let outermost := default 0%nat (outermostLoop loopInfo) in
        let mc := getIntegerAttr (parentAttrs func) getMaxConcurrencyName in
        match innermostParallel loopInfo, mc with
        | Some _, None => (failure, rewriter)
        | parallel, _ =>
          let needParallel :=
            match parallel, mc with
            | Some par, Some n => if decide (0 < n) then Some (par, n) else None
            | _, _ => None
            end in
          let oldType := getType op in
          let memrefType :=
            match needParallel with
            | Some (_, n) =>
                MemRefType (n :: oldShape op) (oldElementType op)
                           IdentityLayout (oldMemorySpace op)
            | None => oldType
            end in
          let erased := EraseUser <$> deallocUsers op in
          let alloc :=
            [CreateAlloc (BeforeOp outermost) memrefType
                         (dynamicSizes op) (alignment op)] in
          let '(view, viewOps) :=
            match needParallel with
            | Some (par, n) =>
                let newShape := n :: oldShape op in
                let rank := length newShape in
                let offsets :=
                  <[0%nat := OfValue (BodyThreadIndex par)]>
                    (replicate rank (IndexAttr 0)) in
                let sizes :=
                  foldl (λ sizes i,
                           <[S i := dimSize newShape (dynamicSizes op) (S i)]>
                             sizes)
                        (replicate rank (IndexAttr 1))
                        (seq 0 (rank - 1)) in
                let strides := replicate rank (IndexAttr 1) in
                let newType :=
                  inferRankReducedResultType (oldShape op) memrefType
                                             offsets sizes strides in
                let subview :=
                  CreateSubView (StartOfBody par) newType NewMemref
                                offsets sizes strides in
                if decide (newType = oldType)
                then (SubViewResult, [subview])
                else (CastResult,
                      [subview;
                       CreateMemrefApplyOffset (StartOfBody par) oldType
                                               SubViewResult;
                       CreateCast (StartOfBody par) oldType
                                  ApplyOffsetResult])
            | None => (NewMemref, [])
            end in
          (success,
           rewriter ++ erased ++ alloc ++ viewOps
             ++ [ReplaceOp view; CreateDealloc (AfterOp outermost) NewMemref])
        end
      end
    end.

End Pattern.

(** *** Dynamic allocation events

    [execs !! k] is the number of times the region of parent [k] that
    holds the allocation runs each time parent [k] itself runs: the trip
    count of a loop, 0 or 1 for a branch, 1 for a function body.  An
    operation whose parent chain is [chain] then runs the product of these
    numbers each time the whole chain is entered once. *)
Definition executions (execs : list nat) : nat := foldr Nat.mul 1%nat execs.

(** The allocations performed by the operation of the pattern: before the
    rewrite the allocation sits under the whole chain; an allocation
    created [BeforeOp k] sits under the parents after position [k]. *)
Definition allocationEventsBefore (execs : list nat) : nat :=
  executions execs.
Definition allocationEventsAt (at_ : InsertionPoint) (execs : list nat) : nat :=
  match at_ with
  | BeforeOp k | AfterOp k => executions (drop (S k) execs)
  | StartOfBody k => executions (drop k execs)
  end.

(** The allocation events of a run of the rewritten IR: those of every
    [memref.alloc] the actions create (the original one is replaced). *)
Definition allocationEventsAfter (actions : list Action) (execs : list nat)
    : nat :=
  sum_list_with
    (λ a, match a with
          | CreateAlloc at_ _ _ _ => allocationEventsAt at_ execs
          | _ => 0%nat
          end) actions.

(** *** Notions the properties are stated with *)

(** A use the escape check accepts, in the words of the specification. *)
Definition acceptedUse (original : bool) (user : Operation) : Prop :=
  opKind user = KLoad
  ∨ opKind user = KStore
  ∨ (original = true ∧ opKind user = KDealloc)
  ∨ (isViewLike user = true ∧ ¬ escapesSpec false user).

(** The parents the loop-nest walk passes: those before the first one
    that holds the definition of an operand in one of its regions. *)
Fixpoint walkedParents (operands : list Value) (chain : list ParentOp)
    : list ParentOp :=
  match chain with
  | [] => []
  | parent :: rest =>
      if isAnyArgDefinedInsideRegions (parentRegions parent) operands
      then []
      else parent :: walkedParents operands rest
  end.

(** The position of the last element of a list that satisfies [p]. *)
Fixpoint lastIndex {A : Type} (p : A → bool) (l : list A) : option nat :=
  match l with
  | [] => None
  | x :: l =>
      match lastIndex p l with
      | Some i => Some (S i)
      | None => if p x then Some 0%nat else None
      end
  end.

(** The position of the first element of a list that satisfies [p]. *)
Fixpoint firstIndex {A : Type} (p : A → bool) (l : list A) : option nat :=
  match l with
  | [] => None
  | x :: l => if p x then Some 0%nat else S <$> firstIndex p l
  end.

(** The actions of a hoist that keeps the type. *)
Definition hoistUnchanged (op : AllocOp) (outermost : nat) : list Action :=
  (EraseUser <$> deallocUsers op)
  ++ [CreateAlloc (BeforeOp outermost) (getType op) (dynamicSizes op)
                  (alignment op);
      ReplaceOp NewMemref;
      CreateDealloc (AfterOp outermost) NewMemref].

(** The type with a leading dimension for the threads, and the subview
    of one thread: its offset is the thread index on the leading
    dimension, and it spans the other dimensions. *)
Definition perThreadType (op : AllocOp) (mc : Z) : Ty :=
  MemRefType (mc :: oldShape op) (oldElementType op) IdentityLayout
             (oldMemorySpace op).
Definition perThreadOffsets (op : AllocOp) (parallel : nat)
    : list OpFoldResult :=
  OfValue (BodyThreadIndex parallel)
  :: replicate (length (oldShape op)) (IndexAttr 0).
(** The extents of a buffer allocated with the size operands [sizes]: a
    static extent of the shape, and for a dynamic extent the next size
    operand, as a number when a constant defines it. *)
Fixpoint extentsOf (constant : Value → option Z) (shape : list Z)
    (sizes : list Value) : list OpFoldResult :=
  match shape with
  | [] => []
  | d :: shape =>
      if decide (d = kDynamic) then
        match sizes with
        | val :: sizes =>
            match constant val with
            | Some fixed => IndexAttr fixed
            | None => OfValue (DynamicSize val)
            end :: extentsOf constant shape sizes
        | [] => []
        end
      else IndexAttr d :: extentsOf constant shape sizes
  end.
Definition perThreadSizes (constant : Value → option Z) (op : AllocOp)
    : list OpFoldResult :=
  IndexAttr 1 :: extentsOf constant (oldShape op) (dynamicSizes op).

(** The allocation has a size operand for each dynamic extent, as the
    verifier of [memref.alloc] has it. *)
Definition sized (op : AllocOp) : Prop :=
  length (dynamicSizes op)
  = length (List.filter (λ d, bool_decide (d = kDynamic)) (oldShape op)).
Definition perThreadStrides (op : AllocOp) : list OpFoldResult :=
  replicate (S (length (oldShape op))) (IndexAttr 1).

Definition isCreateAlloc (a : Action) : bool :=
  match a with CreateAlloc _ _ _ _ => true | _ => false end.
Definition isCreateDealloc (a : Action) : bool :=
  match a with CreateDealloc _ _ => true | _ => false end.
Definition isEraseUser (a : Action) : bool :=
  match a with EraseUser _ => true | _ => false end.

(** *** Two allocations

    Concrete scenario 2: a 10x10 buffer allocated in a loop of a function
    whose "max concurrency" is 0; it is loaded from, stored to and
    deallocated. *)
Definition tenByTen : AllocOp :=
  mkAllocOp [10; 10] (FloatType 64) IdentityLayout 0 [] [] None
    [mkOperation KStore []; mkOperation KLoad []; mkOperation KDealloc []]
    [mkParentOp KScfFor [1%nat] ∅;
     mkParentOp KFunc [0%nat]
       {[ getMaxConcurrencyName := IntegerAttr (IntegerType 64) 0 ]}].

(** A buffer of a dynamic size allocated in a loop in the body (region
    2) of an explicit parallel construct; the size is computed in that
    body, before the loop.  The function has "max concurrency" 4, and in
    the second version no such attribute. *)
Definition sizedInParallelBody (attrs : Attrs) : AllocOp :=
  mkAllocOp [kDynamic] (FloatType 64) IdentityLayout 0
    [mkValue 7 IndexType [2%nat; 0%nat] false] [] None
    [mkOperation KStore []; mkOperation KLoad []]
    [mkParentOp KScfFor [3%nat] ∅;
     mkParentOp KUtilParallel [2%nat] ∅;
     mkParentOp KFunc [0%nat] attrs].
Definition fourThreads : Attrs :=
  {[ getMaxConcurrencyName := IntegerAttr (IntegerType 64) 4 ]}.

(** A buffer of [?x8] elements allocated in a loop in the body of an
    explicit parallel construct, with a size that is an argument of the
    function. *)
Definition sizedByArgument : AllocOp :=
  mkAllocOp [kDynamic; 8] (FloatType 64) IdentityLayout 0
    [mkValue 5 IndexType [0%nat] false] [] None
    [mkOperation KStore []; mkOperation KDealloc []]
    [mkParentOp KScfFor [3%nat] ∅;
     mkParentOp KUtilParallel [2%nat] ∅;
     mkParentOp KFunc [0%nat] fourThreads].

(** A buffer allocated in the inner of two loops, with a dynamic size
    that is computed in the body of the outer loop (region 1). *)
Definition sizedInOuterLoop : AllocOp :=
  mkAllocOp [kDynamic] (FloatType 64) IdentityLayout 0
    [mkValue 7 IndexType [1%nat; 0%nat] false] [] None
    [mkOperation KStore []; mkOperation KDealloc []]
    [mkParentOp KScfFor [2%nat] ∅;
     mkParentOp KScfFor [1%nat] ∅;
     mkParentOp KFunc [0%nat] ∅].

End HoistBufferAllocs.

(** ** Data-parallel loops to the explicit parallel construct
       ([ParallelToTbb]) *)

Module ParallelToTbb.

(** *** Reduction regions *)

Inductive OpName : Type :=
| AddI | MulI | AndI | OrI | XOrI | MaxSI | MinSI | MaxUI | MinUI
| SubI
| AddF | MulF | MaximumF | MinimumF
| OtherOp (name : string).

(** An operand inside a reduction block: a block argument, the result of
    an earlier operation of the block, or a value defined above the loop
    (with the value it has at run time). *)
Inductive ValueRef : Type :=
| BlockArgument (n : nat)
| OpResult (n : nat)
| OuterValue (v : Z).

Record Operation : Type := mkOperation {
  opName : OpName;
  opOperands : list ValueRef;
  opResultType : Ty
}.

(** A reduction block: [without_terminator()] and the operand of the
    [scf.reduce.return] terminator. *)
Record Block : Type := mkBlock {
  blockOps : list Operation;
  returned : ValueRef
}.

Abbreviation Region := (list Block).

(** *** Fixed-width integers: an [iN] value is a [Z] in [0, 2^N) *)

Definition modulus (w : N) : Z := 2 ^ Z.of_N w.
Definition trunc (w : N) (z : Z) : Z := z mod modulus w.
Definition signed (w : N) (z : Z) : Z :=
  if decide (2 * z < modulus w) then z else z - modulus w.

(** The arith operations on [iN]. *)
Definition evalInt (w : N) (name : OpName) (a b : Z) : option Z :=
  match name with
  | AddI => Some (trunc w (a + b))
  | SubI => Some (trunc w (a - b))
  | MulI => Some (trunc w (a * b))
  | AndI => Some (Z.land a b)
  | OrI => Some (Z.lor a b)
  | XOrI => Some (Z.lxor a b)
  | MaxSI => Some (if decide (signed w a < signed w b) then b else a)
  | MinSI => Some (if decide (signed w b < signed w a) then b else a)
  | MaxUI => Some (Z.max a b)
  | MinUI => Some (Z.min a b)
  | _ => None
  end.

(** Modelled from the spec: [mlir::arith::getNeutralElement] belongs to
    MLIR and is not under src/; the spec gives "0 for add, 1 for
    multiply".  The identity is built for the result type of the
    operation: all ones for and, the least and greatest values for the
    signed and unsigned maximum and minimum, zero for or and xor. *)
Definition getNeutralElement (op : Operation) : option Attribute :=
  match opResultType op with
  | IntegerType w =>
      let ty := IntegerType w in
      match opName op with
      | AddI | OrI | XOrI | MaxUI => Some (IntegerAttr ty 0)
      | MulI => Some (IntegerAttr ty (trunc w 1))
      | AndI | MinUI => Some (IntegerAttr ty (modulus w - 1))
      | MaxSI => Some (IntegerAttr ty (trunc w (- (modulus w / 2))))
      | MinSI => Some (IntegerAttr ty (trunc w (modulus w / 2 - 1)))
      | _ => None
      end
  | FloatType w =>
      let ty := FloatType w in
      match opName op with
      | AddF => Some (FloatAttr ty FZero)
      | MulF => Some (FloatAttr ty FOne)
      | MaximumF => Some (FloatAttr ty FNegInf)
      | MinimumF => Some (FloatAttr ty FPosInf)
      | _ => None
      end
  | _ => None
  end.

(** *** The loop the pattern is applied to *)

Inductive ParentOp : Type :=
| PUtilParallel
| PScfParallel
| PEnvironmentRegion (environment : Attribute)
| PFunc (attrs : Attrs)
| POther (name : string).

(** An [scf.parallel]: the run-time values of its bound, step and init
    operands, its result types, the values its body hands to the
    [scf.reduce] terminator at an iteration point, the regions of that
    terminator, and its parent chain. *)
Record ScfParallelOp : Type := mkScfParallelOp {
  lowerBound : list Z;
  upperBound : list Z;
  step : list Z;
  initVals : list Z;
  resultTypes : list Ty;
  body : list Z → list Z;
  reductions : list Region;
  parentOp : ParentOp;
  outerParents : list ParentOp
}.

(** A value of type [iN] is [N] bits wide. *)
Definition ofType (ty : Ty) (z : Z) : Z :=
  match ty with IntegerType w => trunc w z | _ => z end.
Definition getInitVals (op : ScfParallelOp) : list Z :=
  zip_with ofType (resultTypes op) (initVals op).
Definition reduceOperands (op : ScfParallelOp) (point : list Z) : list Z :=
  zip_with ofType (resultTypes op) (body op point).

(** *** Running a loop sequentially *)

Fixpoint rangeFrom (n : nat) (lo st : Z) : list Z :=
  match n with
  | O => []
  | S n => lo :: rangeFrom n (lo + st) st
  end.
Definition tripCount (lo hi st : Z) : nat :=
  if decide (0 < st) then Z.to_nat ((hi - lo + st - 1) / st) else 0%nat.
Definition range (lo hi st : Z) : list Z := rangeFrom (tripCount lo hi st) lo st.

(** The iteration points of a loop nest, the last dimension fastest. *)
Fixpoint points (lbs ubs sts : list Z) : list (list Z) :=
  match lbs, ubs, sts with
  | lb :: lbs, ub :: ubs, st :: sts =>
      i ← range lb ub st; (i ::.) <$> points lbs ubs sts
  | _, _, _ => [[]]
  end.

Definition lookupRef (args results : list Z) (r : ValueRef) : option Z :=
  match r with
  | BlockArgument n => args !! n
  | OpResult n => results !! n
  | OuterValue v => Some v
  end.

Definition execOperation (o : Operation) (args results : list Z) : option Z :=
  match opOperands o, opResultType o with
  | [x; y], IntegerType w =>
      a ← lookupRef args results x;
      b ← lookupRef args results y;
      evalInt w (opName o) a b
  | _, _ => None
  end.

Fixpoint execOps (ops : list Operation) (args results : list Z)
    : option (list Z) :=
  match ops with
  | [] => Some results
  | o :: rest =>
      r ← execOperation o args results;
      execOps rest args (results ++ [r])
  end.

(** A reduction block applied to the accumulated value and an operand. *)
Definition execBlock (b : Block) (lhs rhs : Z) : option Z :=
  results ← execOps (blockOps b) [lhs; rhs] [];
  lookupRef [lhs; rhs] results (returned b).

Definition execRegion (r : Region) (lhs rhs : Z) : option Z :=
  b ← head r; execBlock b lhs rhs.

Fixpoint execReductions (regions : list Region) (accs operands : list Z)
    : option (list Z) :=
  match regions, accs, operands with
  | [], [], [] => Some []
  | r :: regions, a :: accs, x :: operands =>
      v ← execRegion r a x;
      vs ← execReductions regions accs operands;
      Some (v :: vs)
  | _, _, _ => None
  end.

Fixpoint foldM {A B : Type} (f : A → B → option A) (a : A) (l : list B)
    : option A :=
  match l with
  | [] => Some a
  | x :: l => a' ← f a x; foldM f a' l
  end.

(** The loop over the given bounds, from the given initial values: the
    points in order, each result combined with the operand of the point
    by its reduction region. *)
Definition execScfParallel (op : ScfParallelOp) (lower upper inits : list Z)
    : option (list Z) :=
  foldM (λ accs point, execReductions (reductions op) accs
                                      (reduceOperands op point))
        inits (points lower upper (step op)).

(** The unrewritten loop: a straightforward sequential accumulation. *)
Definition execSequential (op : ScfParallelOp) : option (list Z) :=
  execScfParallel op (lowerBound op) (upperBound op) (getInitVals op).

(** *** The pattern *)

Definition getReduceType (type : Ty) (count : Z) : option Ty :=
  if isIntOrFloat type then Some (MemRefType [count] type IdentityLayout 0)
  else None.

Definition getReduceInitVal (type : option Ty) (reduceBlock : Block)
    : option Attribute :=
  match blockOps reduceBlock with
  | [op] => getNeutralElement op
  | _ => None
  end.

Definition isInsideParalleRegion (op : ScfParallelOp) : bool :=
  match parentOp op with
  | PEnvironmentRegion ParallelAttr => true
  | _ => false
  end.

Definition getParents (op : ScfParallelOp) : list ParentOp :=
  parentOp op :: outerParents op.

Definition isUtilParallel (p : ParentOp) : bool :=
  match p with PUtilParallel => true | _ => false end.
Definition isScfParallel (p : ParentOp) : bool :=
  match p with PScfParallel => true | _ => false end.
Definition isFunc (p : ParentOp) : bool :=
  match p with PFunc _ => true | _ => false end.

(** [op->getParentOfType<T>()]: the closest parent of that kind. *)
Definition getParentOfType (isa : ParentOp → bool) (op : ScfParallelOp)
    : option ParentOp :=
  find isa (getParents op).

(** The loop over [reduceOp.getReductions()] that collects the neutral
    elements; [initVals] holds those found so far. *)
Fixpoint collectInitVals (op : ScfParallelOp) (regions : list Region)
    (initVals : list Attribute) : option (list Attribute) :=
  match regions with
  | [] => Some initVals
  | region :: rest =>
      match region with
      | [front] =>
          let ind := length initVals in
          match getReduceInitVal (resultTypes op !! ind) front with
          | None => None
          | Some reduceInitVal =>
              collectInitVals op rest (initVals ++ [reduceInitVal])
          end
      | _ => None
      end
  end.

(** What the pattern creates, in program order. *)
Inductive Action : Type :=
| CreateAlloca (type : Ty)
| CreateConstantIndex (value : Z)
| CreateInitLoop (lowerBound upperBound step : Z)
| CreateUtilParallel (lowerBound upperBound step : list Z)
| CreateReduceLoop (lowerBound upperBound step : Z) (iterArgs : nat)
| ReplaceOpWithReduceLoopResults.

(** What the rewritten IR is built from. *)
Record Rewritten : Type := mkRewritten {
  source : ScfParallelOp;
  maxConcurrency : Z;
  neutralInitVals : list Attribute
}.

(** [ParallelToTbb::matchAndRewrite]: the outcome and the actions appended
    to those the rewriter has already performed. *)
Definition matchAndRewrite (op : ScfParallelOp) (rewriter : list Action)
    : option Rewritten * list Action :=
  if isUtilParallel (parentOp op) then (None, rewriter)
  else
    let needParallel :=
      isInsideParalleRegion op
      || negb (bool_decide (is_Some (getParentOfType isScfParallel op))) in
    if negb needParallel then (None, rewriter)
    else
      match getParentOfType isFunc op with
      | Some (PFunc attrs) =>
          let maxConcurrency :=
            default 0 (getIntegerAttr attrs getMaxConcurrencyName) in
          if decide (maxConcurrency ≤ 1) then (None, rewriter)
          else if negb (forallb
                          (λ type, bool_decide
                                     (is_Some (getReduceType type maxConcurrency)))
                          (resultTypes op))
          then (None, rewriter)
          else
            match collectInitVals op (reductions op) [] with
            | None => (None, rewriter)
            | Some initVals =>
                let allocas :=
                  omap (λ type, CreateAlloca <$> getReduceType type maxConcurrency)
                       (resultTypes op) in
                (Some (mkRewritten op maxConcurrency initVals),
                 rewriter ++ allocas
                   ++ [CreateConstantIndex 0;
                       CreateConstantIndex maxConcurrency;
                       CreateConstantIndex 1;
                       CreateInitLoop 0 maxConcurrency 1;
                       CreateUtilParallel (lowerBound op) (upperBound op)
                                          (step op);
                       CreateReduceLoop 0 maxConcurrency 1
                                        (length (getInitVals op));
                       ReplaceOpWithReduceLoopResults])
            end
      | _ => (None, rewriter)
      end.

(** *** The rewritten IR at run time

    The reduction buffers [reduceVars] are the memory of the rewritten
    loop: buffer [i] belongs to result [i] and has one slot per thread.
    A slot holds [None] until it is first written; an access outside a
    buffer, or a load from a slot never written, has no result. *)

Abbreviation Memory := (list (list (option Z))).

Definition load (mem : Memory) (var : nat) (idx : Z) : option Z :=
  buf ← mem !! var;
  if decide (0 ≤ idx) then mjoin (buf !! Z.to_nat idx) else None.

Definition store (mem : Memory) (v : Z) (var : nat) (idx : Z)
    : option Memory :=
  buf ← mem !! var;
  if decide (0 ≤ idx < Z.of_nat (length buf))
  then Some (<[var := <[Z.to_nat idx := Some v]> buf]> mem)
  else None.

(** [scf.for] from [index], [n] trips, with the loop-carried state [s]. *)
Fixpoint scfFor {State : Type} (n : nat) (index st : Z)
    (body : Z → State → option State) (s : State) : option State :=
  match n with
  | O => Some s
  | S n => s' ← body index s; scfFor n (index + st) st body s'
  end.
Definition execFor {State : Type} (lb ub st : Z)
    (body : Z → State → option State) (s : State) : option State :=
  scfFor (tripCount lb ub st) lb st body s.

(** [arith.constant] of an integer attribute. *)
Definition constantValue (a : Attribute) : option Z :=
  match a with IntegerAttr _ v => Some v | _ => None end.

(** [reduceInitBodyBuilder]: the body of the init loop. *)
Fixpoint reduceInitBodyBuilder (reduceVars : list nat)
    (initVals : list Attribute) (index : Z) (mem : Memory) : option Memory :=
  match reduceVars, initVals with
  | [], _ => Some mem
  | reduce :: reduceVars, initVal :: initVals =>
      init ← constantValue initVal;
      mem' ← store mem init reduce index;
      reduceInitBodyBuilder reduceVars initVals index mem'
  | _ :: _, [] => None
  end.

(** The stores that end [bodyBuilder]. *)
Fixpoint storeResults (results : list Z) (reduceVars : list nat)
    (threadIndex : Z) (mem : Memory) : option Memory :=
  match results, reduceVars with
  | [], _ => Some mem
  | val :: results, reduceVar :: reduceVars =>
      mem' ← store mem val reduceVar threadIndex;
      storeResults results reduceVars threadIndex mem'
  | _ :: _, [] => None
  end.

(** [bodyBuilder]: the body of the explicit parallel construct, run for
    one slice by the thread [threadIndex].  The clone of the loop runs
    over the bounds of the slice from the values loaded. *)
Definition bodyBuilder (op : ScfParallelOp) (reduceVars : list nat)
    (lowerBound upperBound : list Z) (threadIndex : Z) (mem : Memory)
    : option Memory :=
  initVals ← mapM (λ reduceVar, load mem reduceVar threadIndex) reduceVars;
  results ← execScfParallel op lowerBound upperBound initVals;
  storeResults results reduceVars threadIndex mem.

(** The clone of a reduction block in the combine loop: the mapping
    holds the two block arguments and the results of the cloned
    operations, and [mapping.lookupOrNull] of the returned value must
    find it there. *)
Definition cloneReduceBody (b : Block) (arg prevVal : Z) : option Z :=
  results ← execOps (blockOps b) [arg; prevVal] [];
  match returned b with
  | OuterValue _ => None
  | r => lookupRef [arg; prevVal] results r
  end.

(** [reduceBodyBuilder]: the body of the combine loop; it yields the new
    loop-carried values. *)
Fixpoint reduceBodyBuilder (regions : list Region) (reduceVars : list nat)
    (mem : Memory) (index : Z) (args : list Z) : option (list Z) :=
  match regions, reduceVars, args with
  | [], _, _ => Some []
  | reduceOpRegion :: regions, reduceVar :: reduceVars, arg :: args =>
      prevVal ← load mem reduceVar index;
      reduceOpBody ← head reduceOpRegion;
      result ← cloneReduceBody reduceOpBody arg prevVal;
      yieldArgs ← reduceBodyBuilder regions reduceVars mem index args;
      Some (result :: yieldArgs)
  | _, _, _ => None
  end.

(** One call of the body of the explicit parallel construct by the
    runtime: a slice of the iteration space and the calling thread. *)
Record Task : Type := mkTask {
  sliceLower : list Z;
  sliceUpper : list Z;
  threadIndex : Z
}.

(** The rewritten IR: the allocas, the init loop, the explicit parallel
    construct (its body run once per task, in the order given) and the
    combine loop, whose results replace those of the loop. *)
Definition execRewritten (rw : Rewritten) (schedule : list Task)
    : option (list Z) :=
  let op := source rw in
  let mc := maxConcurrency rw in
  let reduceVars := seq 0 (length (resultTypes op)) in
  let mem0 : Memory :=
    (λ _, replicate (Z.to_nat mc) None) <$> resultTypes op in
  mem1 ← execFor 0 mc 1
            (reduceInitBodyBuilder reduceVars (neutralInitVals rw)) mem0;
  mem2 ← foldM (λ mem task,
                  bodyBuilder op reduceVars (sliceLower task)
                              (sliceUpper task) (threadIndex task) mem)
               mem1 schedule;
  execFor 0 mc 1 (reduceBodyBuilder (reductions op) reduceVars mem2)
          (getInitVals op).

(** The runtime hands every iteration point to exactly one task, and
    thread indices stay below the maximal concurrency. *)
Definition validSchedule (op : ScfParallelOp) (mc : Z) (schedule : list Task)
    : Prop :=
  Forall (λ task, 0 ≤ threadIndex task < mc) schedule
  ∧ (task ← schedule; points (sliceLower task) (sliceUpper task) (step op))
      ≡ₚ points (lowerBound op) (upperBound op) (step op).

(** A reduction over [iN] whose region combines its two block arguments
    by one operation and returns the result. *)
Definition integerReduction (type : Ty) (region : Region) : Prop :=
  ∃ w name x y,
    type = IntegerType w
    ∧ region = [mkBlock [mkOperation name [x; y] (IntegerType w)] (OpResult 0)]
    ∧ ((x = BlockArgument 0 ∧ y = BlockArgument 1)
       ∨ (x = BlockArgument 1 ∧ y = BlockArgument 0)).

(** *** Notions the properties are stated with *)

(** The operand lists of a well-formed loop have one entry per result. *)
Definition wellFormed (op : ScfParallelOp) : Prop :=
  length (initVals op) = length (resultTypes op)
  ∧ ∀ point, length (body op point) = length (resultTypes op).

(** The conditions under which the pattern applies. *)
Definition eligible (op : ScfParallelOp) : Prop :=
  parentOp op ≠ PUtilParallel
  ∧ (parentOp op = PEnvironmentRegion ParallelAttr
     ∨ PScfParallel ∉ getParents op)
  ∧ (∃ attrs mc,
       getParentOfType isFunc op = Some (PFunc attrs)
       ∧ getIntegerAttr attrs getMaxConcurrencyName = Some mc
       ∧ 1 < mc)
  ∧ Forall (λ type, isIntOrFloat type = true) (resultTypes op)
  ∧ Forall (λ region : Region,
              ∃ front o, region = [front] ∧ blockOps front = [o]
                         ∧ is_Some (getNeutralElement o))
           (reductions op).

Definition inRange (w : N) (z : Z) : Prop := 0 ≤ z < modulus w.

Definition inType (ty : Ty) (z : Z) : Prop :=
  match ty with IntegerType w => inRange w z | _ => False end.

(** A commutative monoid on the elements that satisfy [P]. *)
Record CommMonoid {A : Type} (P : A → Prop) (f : A → A → A) (e : A)
    : Prop := mkCommMonoid {
  cm_closed : ∀ a b, P a → P b → P (f a b);
  cm_unit_closed : P e;
  cm_assoc : ∀ a b c, P a → P b → P c → f (f a b) c = f a (f b c);
  cm_comm : ∀ a b, P a → P b → f a b = f b a;
  cm_unit : ∀ a, P a → f a e = a
}.

Definition intOp (w : N) (name : OpName) (a b : Z) : Z :=
  match evalInt w name a b with Some z => z | None => 0 end.

(** The binary operation a reduction region computes, and the operation
    all regions of a loop compute on the vectors of their values. *)
Definition regionOp (r : Region) (a x : Z) : Z :=
  match execRegion r a x with Some z => z | None => 0 end.

Fixpoint combineAll (regions : list Region) (accs xs : list Z) : list Z :=
  match regions, accs, xs with
  | r :: regions, a :: accs, x :: xs =>
      regionOp r a x :: combineAll regions accs xs
  | _, _, _ => []
  end.

(** A reduction whose region is a commutative monoid on its type, with
    unit [e], both as it stands in the loop and as the combine loop
    clones it. *)
Definition Good (ty : Ty) (r : Region) (e : Z) : Prop :=
  ∃ w b, ty = IntegerType w ∧ r = [b]
    ∧ CommMonoid (inRange w) (regionOp r) e
    ∧ (∀ x y, execBlock b x y = Some (regionOp r x y))
    ∧ (∀ x y, cloneReduceBody b x y = Some (regionOp r x y)).

(** The slots of one thread across the buffers. *)
Definition column (mem : Memory) (t : nat) : option (list Z) :=
  mapM (λ buf, mjoin (buf !! t)) mem.
Definition setColumn (mem : Memory) (t : nat) (v : list Z) : Memory :=
  zip_with (λ buf x, <[t := Some x]> buf) mem v.
Definition Shape (n m : nat) (mem : Memory) : Prop :=
  length mem = n ∧ Forall (λ buf, length buf = m) mem.

(** The memory holds the per-thread partial results [cols]. *)
Definition Cols (op : ScfParallelOp) (mc : Z) (mem : Memory)
    (cols : list (list Z)) : Prop :=
  Shape (length (resultTypes op)) (Z.to_nat mc) mem
  ∧ length cols = Z.to_nat mc
  ∧ Forall (Forall2 inType (resultTypes op)) cols
  ∧ ∀ t col, cols !! t = Some col → column mem t = Some col.

(** *** Two loops

    Concrete scenario 1: the sum of [0, 100) on four threads. *)
Definition i64 : Ty := IntegerType 64.
Definition sumRegion : Region :=
  [mkBlock [mkOperation AddI [BlockArgument 0; BlockArgument 1] i64]
           (OpResult 0)].
Definition func4 : ParentOp :=
  PFunc {[ getMaxConcurrencyName := IntegerAttr i64 4 ]}.
Definition sumLoop : ScfParallelOp :=
  mkScfParallelOp [0] [100] [1] [0] [i64]
                  (λ point, [default 0 (head point)]) [sumRegion] func4 [].
Definition quarters : list Task :=
  [mkTask [0] [25] 0; mkTask [25] [50] 1; mkTask [50] [75] 2;
   mkTask [75] [100] 3].

(** A loop over [0, 3) from 1 whose reduction block is the single
    operation [arith.addi %lhs, %lhs]. *)
Definition doublingRegion : Region :=
  [mkBlock [mkOperation AddI [BlockArgument 0; BlockArgument 0] i64]
           (OpResult 0)].
Definition doublingLoop : ScfParallelOp :=
  mkScfParallelOp [0] [3] [1] [1] [i64]
                  (λ point, [default 0 (head point)]) [doublingRegion]
                  func4 [].

End ParallelToTbb.

(** ** Lowering the explicit parallel construct ([LowerParallel]) *)

Module LowerParallel.

#[global] Instance Value_eq_dec : EqDecision Value.
Proof. solve_decision. Defined.

(** An operation nested in the construct: its operands and its regions,
    each a list of blocks, each a list of operations. *)
Inductive Operation : Type :=
| mkOperation (name : string) (operands : list Value)
              (regions : list (list (list Operation))).

Definition getOperands (inner : Operation) : list Value :=
  match inner with mkOperation _ operands _ => operands end.

(** The explicit parallel construct: its bounds and steps, its region
    ([op.getRegion()]) and the blocks of that region. *)
Record ParallelOp : Type := mkParallelOp {
  numLoops : nat;
  lowerBounds : list Value;
  upperBounds : list Value;
  steps : list Value;
  region : RegionId;
  body : list (list Operation)
}.

(** [Operation::walk] in its default post-order: the operations nested
    in an operation come before it. *)
Fixpoint walk (inner : Operation) : list Operation :=
  match inner with
  | mkOperation _ _ regions =>
      (blocks ← regions; block ← blocks; nested ← block; walk nested)
      ++ [inner]
  end.

(** The operations [op->walk] hands to the callback before the construct
    itself, which the callback skips ([op != inner]). *)
Definition nestedOperations (op : ParallelOp) : list Operation :=
  block ← body op; nested ← block; walk nested.

(** [isDefinedInside]: the region of the construct is the parent region
    of the value or one of the regions around it. *)
Definition isDefinedInside (op : ParallelOp) (value : Value) : bool :=
  bool_decide (region op ∈ enclosingRegions value).

(** [contextVars], [contextConstants] (a constant-like operation stands
    for its result) and [contextVarsSet]. *)
Record Captures : Type := mkCaptures {
  contextVars : list Value;
  contextConstants : list Value;
  contextVarsSet : list Value
}.

Definition addContextVar (c : Captures) (value : Value) : Captures :=
  if bool_decide (value ∈ contextVarsSet c) then c
  else
    let set := contextVarsSet c ++ [value] in
    if definedByConstantLike value
    then mkCaptures (contextVars c) (contextConstants c ++ [value]) set
    else mkCaptures (contextVars c ++ [value]) (contextConstants c) set.

(** The walk with its callback. *)
Definition captureWalk (op : ParallelOp) : Captures :=
  foldl (λ c inner,
           foldl (λ c arg,
                    if isDefinedInside op arg then c else addContextVar c arg)
                 c (getOperands inner))
        (mkCaptures [] [] []) (nestedOperations op).

(** Values of the lowered IR. *)
Inductive Val : Type :=
| OfValue (v : Value)
| UnrealizedConversionCast (type : Ty) (src : Val)
| I32Constant (value : Z)
| IndexConstant (value : Z)
| Context
| ContextAbstract
| InputRanges
| OutlinedFuncAddr.

(** [doCast] *)
Definition doCast (src : Val) (srcType dstType : Ty) : Val :=
  if decide (srcType = dstType) then src
  else UnrealizedConversionCast dstType src.

(** What the pattern creates, in program order.  A store to a field is
    the [llvm.getelementptr] of the field ([0, index]) and the
    [llvm.store] to it; the outlined function starts with the clones of
    the constants and the loads of the fields. *)
Inductive Action : Type :=
| CreateContextAlloca (structType : Ty) (count : Val)
| CreateStoreToField (structType : Ty) (index : nat) (value : Val)
| CreateBitcast (dstType : Ty) (src : Val)
| CreateOutlinedFunc (funcType : Ty) (clonedConstants : list Value)
                     (loadedFields : list (nat * Ty * Value))
| CreateInputRangesAlloca (count : nat)
| CreateStoreInputRange (index : nat) (lower upper step : Val)
| ReplaceOpWithCall (callee : string) (args : list Val).

Section Pattern.

(** [mlir::LLVMTypeConverter], which belongs to MLIR: the conversion of
    a type, and the type [index] converts to. *)
Variable convertType : Ty → option Ty.
Variable llvmIndexType : Ty.

Definition voidPtrType : Ty := LLVMPointerType.

(** The fields of the context struct; none when a type does not
    convert. *)
Definition contextFields (contextVars : list Value) : option (list Ty) :=
  mapM (λ var, convertType (valueType var)) contextVars.

Definition toLLVMIndex (val : Value) : Val :=
  if decide (valueType val = llvmIndexType) then OfValue val
  else UnrealizedConversionCast llvmIndexType (OfValue val).

(** [LowerParallel::matchAndRewrite]: the result and the actions appended
    to those the rewriter has already performed. *)
Definition matchAndRewrite (op : ParallelOp) (rewriter : list Action)
    : LogicalResult * list Action :=
  let c := captureWalk op in
  match contextFields (contextVars c) with
  | None => (failure, rewriter)
  | Some fields =>
      let contextType := LLVMStructType fields in
      let rangePtr := LLVMPointerType in
      let funcType :=
        FunctionType [rangePtr; IndexType; voidPtrType] [] in
      let stores :=
        imap (λ i vt, CreateStoreToField contextType i
                        (doCast (OfValue vt.1) (valueType vt.1) vt.2))
             (zip (contextVars c) fields) in
      let loads :=
        imap (λ i vt, (i, vt.2, vt.1)) (zip (contextVars c) fields) in
      let ranges :=
        imap (λ i b, CreateStoreInputRange i (toLLVMIndex b.1.1)
                       (toLLVMIndex b.1.2) (toLLVMIndex b.2))
             (take (numLoops op)
                   (zip (zip (lowerBounds op) (upperBounds op)) (steps op))) in
      (success,
       rewriter
         ++ [CreateContextAlloca contextType (I32Constant 1)]
         ++ stores
         ++ [CreateBitcast voidPtrType Context;
             CreateOutlinedFunc funcType (contextConstants c) loads;
             CreateInputRangesAlloca (numLoops op)]
         ++ ranges
         ++ [ReplaceOpWithCall "nmrtParallelFor"
               [InputRanges; IndexConstant (Z.of_nat (numLoops op));
                OutlinedFuncAddr; ContextAbstract]])
  end.

End Pattern.

(** *** Notions the properties are stated with *)

Definition getRegions (inner : Operation) : list (list (list Operation)) :=
  match inner with mkOperation _ _ regions => regions end.

(** An operation of one of the blocks. *)
Definition inBlocks (inner : Operation) (blocks : list (list Operation))
    : Prop :=
  ∃ block, block ∈ blocks ∧ inner ∈ block.

(** The operations nested in the construct: those of the blocks of its
    region, and those of the blocks of a region of an operation nested
    in it. *)
Inductive nestedIn (op : ParallelOp) : Operation → Prop :=
| nested_body inner : inBlocks inner (body op) → nestedIn op inner
| nested_region outer blocks inner :
    nestedIn op outer → blocks ∈ getRegions outer → inBlocks inner blocks →
    nestedIn op inner.

(** The operands the walk meets, in the order it meets them. *)
Definition visitedOperands (op : ParallelOp) : list Value :=
  inner ← nestedOperations op; getOperands inner.

(** The position at which a value is first met. *)
Definition discovery (value : Value) (visited : list Value) : option nat :=
  fst <$> list_find (λ v, v = value) visited.

Definition isCreateContextAlloca (a : Action) : bool :=
  match a with CreateContextAlloca _ _ => true | _ => false end.

(** The callback of the walk on one operand. *)
Definition step (op : ParallelOp) (c : Captures) (arg : Value) : Captures :=
  if isDefinedInside op arg then c else addContextVar c arg.

(** The state of the walk after the operands [visited]: the set holds
    the operands defined outside, split by the constant-like trait into
    the two lists, each without repetition, the captured values in
    the order of their discovery. *)
Record Walked (op : ParallelOp) (visited : list Value) (c : Captures)
    : Prop := mkWalked {
  w_set : ∀ v, v ∈ contextVarsSet c
               ↔ v ∈ visited ∧ isDefinedInside op v = false;
  w_vars : ∀ v, v ∈ contextVars c
                ↔ v ∈ contextVarsSet c ∧ definedByConstantLike v = false;
  w_constants : ∀ v, v ∈ contextConstants c
                     ↔ v ∈ contextVarsSet c ∧ definedByConstantLike v = true;
  w_vars_NoDup : NoDup (contextVars c);
  w_constants_NoDup : NoDup (contextConstants c);
  w_order : ∀ i j v1 v2,
      contextVars c !! i = Some v1 → contextVars c !! j = Some v2 →
      (i < j)%nat →
      ∃ a b, discovery v1 visited = Some a ∧ discovery v2 visited = Some b
             ∧ (a < b)%nat
}.

End LowerParallel.

(** ** The function boundary ([fixFuncSig], [ReturnOpLowering] and the
       array descriptor conversion thunks) *)

Module FunctionBoundary.

(** How a step of the lowering ends: with a value, with
    [mlir::failure()], or in a failed [assert]. *)
Inductive Result (A : Type) : Type :=
| Ok (a : A)
| Failed
| AssertionFailed.
Arguments Ok {A} a.
Arguments Failed {A}.
Arguments AssertionFailed {A}.

Definition bind {A B : Type} (r : Result A) (f : A → Result B) : Result B :=
  match r with
  | Ok a => f a
  | Failed => Failed
  | AssertionFailed => AssertionFailed
  end.

(** [assert(x)] of a nullable [x] *)
Definition assertSome {A : Type} (x : option A) : Result A :=
  match x with Some a => Ok a | None => AssertionFailed end.

(** A memref type. *)
Record MemRef : Type := mkMemRef {
  shape : list Z;
  elementType : Ty;
  layout : Layout;
  memorySpace : N
}.
Definition toType (m : MemRef) : Ty :=
  MemRefType (shape m) (elementType m) (layout m) (memorySpace m).
Definition getRank (m : MemRef) : nat := length (shape m).
Definition asMemRef (type : Ty) : option MemRef :=
  match type with
  | MemRefType shape elem layout space => Some (mkMemRef shape elem layout space)
  | _ => None
  end.

(** A symbol of the module: a [func.func] or an operation of another
    kind. *)
Record SymbolOp : Type := mkSymbolOp {
  symName : string;
  isFuncOp : bool;
  symPrivate : bool;
  symInputs : list Ty;
  symResults : list Ty;
  symAttrs : Attrs
}.
Abbreviation ModuleOp := (list SymbolOp).

(** [module.lookupSymbol(name)]: the first operation of that name. *)
Definition lookupSymbol (module : ModuleOp) (name : string)
    : option SymbolOp :=
  find (λ sym, bool_decide (symName sym = name)) module.

(** [module.lookupSymbol<mlir::func::FuncOp>(name)] *)
Definition lookupFunc (module : ModuleOp) (name : string) : option SymbolOp :=
  match lookupSymbol module name with
  | Some sym => if isFuncOp sym then Some sym else None
  | None => None
  end.

(** Modelled from the spec: [numba::addFunction] is in FuncUtils.cpp, not
    under src/; the thunks are "generated small functions" added to the
    module's symbol table.  The new function is private and goes to the
    end of the module. *)
Definition addFunction (module : ModuleOp) (name : string)
    (inputs results : list Ty) : SymbolOp * ModuleOp :=
  let func := mkSymbolOp name true true inputs results ∅ in
  (func, module ++ [func]).

(** Modelled from the spec: [numba::getOrInserLLVMFunc] is in
    FuncUtils.cpp, not under src/; the module's symbol table is "queried
    before insertion".  What it inserts is an [llvm.func], not a
    [func.func]. *)
Definition getOrInserLLVMFunc (module : ModuleOp) (name : string)
    : ModuleOp :=
  match lookupSymbol module name with
  | Some _ => module
  | None => module ++ [mkSymbolOp name false false [] [] ∅]
  end.

(** [itemSize]: the size of an element in bytes; other element types are
    [llvm_unreachable]. *)
Fixpoint itemSize (type : Ty) : Result N :=
  match type with
  | IntegerType width | FloatType width =>
      if decide (width `mod` 8 = 0)%N then Ok (width `div` 8)%N
      else AssertionFailed
  | ComplexType elem => bind (itemSize elem) (λ size, Ok (size * 2)%N)
  | _ => AssertionFailed
  end.

Section Boundary.

(** [mlir::LLVMTypeConverter::convertType] with the additional
    conversions, and [mlir::Type::print], which belong to MLIR. *)
Variable convertType : Ty → option Ty.
Variable printType : Ty → string.

Definition i8 : Ty := IntegerType 8.
Definition i32 : Ty := IntegerType 32.
Definition i64 : Ty := IntegerType 64.

(** [getLLVMPointerType]: pointers are opaque. *)
Definition getLLVMPointerType (elemType : Ty) : Ty := LLVMPointerType.

(** [LLVMTypeHelper::ptr] *)
Definition ptr (type : Ty) : Result Ty :=
  bind (assertSome (convertType type)) (λ llType, Ok (getLLVMPointerType llType)).

(** [convertTupleTypes]; [None] is the null type. *)
Definition convertTupleTypes (types : list Ty) : option Ty :=
  match types with
  | [] => Some (LLVMStructType [])
  | elemType :: tail =>
      if forallb (λ t, bool_decide (t = elemType)) tail
      then newType ← convertType elemType;
           Some (LLVMArrayType newType (length types))
      else LLVMStructType <$> mapM convertType types
  end.

(** [getExceptInfoType] *)
Definition getExceptInfoType : Result Ty :=
  bind (ptr i8) (λ p1, bind (ptr i8) (λ p2, Ok (LLVMStructType [p1; i32; p2]))).

(** [getArrayType]: the array descriptor of a memref type. *)
Definition getArrayType (type : MemRef) : Result Ty :=
  let i8p := getLLVMPointerType i8 in
  bind (assertSome (convertType (elementType type))) (λ dataType,
    if decide (0 < getRank type)%nat then
      let shapeType := LLVMArrayType i64 (getRank type) in
      Ok (LLVMStructType [i8p; i8p; i64; i64; getLLVMPointerType dataType;
                          shapeType; shapeType])
    else
      Ok (LLVMStructType [i8p; i8p; i64; i64; getLLVMPointerType dataType])).

(** [flattenType]: the leaves of a struct or array type, in order. *)
Fixpoint flattenType (type : Ty) : list Ty :=
  match type with
  | LLVMStructType body => elem ← body; flattenType elem
  | LLVMArrayType elem size => _ ← seq 0 size; flattenType elem
  | _ => [type]
  end.

(** [writeMemrefDesc]; a [MemRefType] has a rank. *)
Definition writeMemrefDesc (memrefType : MemRef) : string :=
  (if decide (0 < getRank memrefType)%nat
   then pretty (getRank memrefType) +:+ "x" else "")
  +:+ printType (elementType memrefType).

Definition genToMemrefConversionFuncName (memrefType : MemRef) : string :=
  "__convert_to_memref_" +:+ writeMemrefDesc memrefType.
Definition genFromMemrefConversionFuncName (memrefType : MemRef) : string :=
  "__convert_from_memref_" +:+ writeMemrefDesc memrefType.

(** The two asserts on a thunk that was found. *)
Definition assertResult (func : SymbolOp) (dstType : Ty) : Result unit :=
  match symResults func with
  | [result] => if decide (result = dstType) then Ok tt else AssertionFailed
  | _ => AssertionFailed
  end.

(** [getToMemrefConversionFunc]: the thunk and the module, to which the
    thunk has been added when it was not there.  The body of a new thunk
    calls [nmrtCreateAllocToken] ([wrapAllocPtr]; [ensureUniqueAllocPtr]
    is [true]) and holds the size of an element. *)
Definition getToMemrefConversionFunc (module : ModuleOp) (memrefType : MemRef)
    (srcType dstType : Ty) : Result (SymbolOp * ModuleOp) :=
  let funcName := genToMemrefConversionFuncName memrefType in
  match lookupFunc module funcName with
  | Some func => bind (assertResult func dstType) (λ _, Ok (func, module))
  | None =>
      let '(newFunc, module1) :=
        addFunction module funcName [srcType] [dstType] in
      let module2 := getOrInserLLVMFunc module1 "nmrtCreateAllocToken" in
      bind (itemSize (elementType memrefType)) (λ _, Ok (newFunc, module2))
  end.

(** [getFromMemrefConversionFunc]; the body of a new thunk calls
    [nmrtDestroyAllocToken] ([freeAllocPtrWrapper]). *)
Definition getFromMemrefConversionFunc (module : ModuleOp)
    (memrefType : MemRef) (srcType dstType : Ty)
    : Result (SymbolOp * ModuleOp) :=
  let funcName := genFromMemrefConversionFuncName memrefType in
  match lookupFunc module funcName with
  | Some func => bind (assertResult func dstType) (λ _, Ok (func, module))
  | None =>
      let '(newFunc, module1) :=
        addFunction module funcName [srcType] [dstType] in
      let module2 := getOrInserLLVMFunc module1 "nmrtDestroyAllocToken" in
      bind (itemSize (elementType memrefType)) (λ _, Ok (newFunc, module2))
  end.

(** [getFunctionResType]; the inner [None] is the null type. *)
Definition getFunctionResType (types : list Ty) : Result (option Ty) :=
  match types with
  | [] => Ok (Some (getLLVMPointerType i8))
  | _ =>
      bind (foldr (λ type acc,
                     bind acc (λ rest,
                       match asMemRef type with
                       | Some memreftype =>
                           bind (getArrayType memreftype)
                                (λ t, Ok (t :: rest))
                       | None => Ok (type :: rest)
                       end))
                  (Ok []) types)
           (λ newResTypes,
              match newResTypes with
              | [front] => Ok (Some front)
              | _ => Ok (convertTupleTypes newResTypes)
              end)
  end.

(** An argument of the entry block: its type and, for an argument the
    function had before, its position then. *)
Record BlockArgument : Type := mkBlockArgument {
  argType : Ty;
  argOrigin : option nat
}.

(** A [func.func] whose signature is fixed. *)
Record FuncOp : Type := mkFuncOp {
  funcName : string;
  isPrivate : bool;
  funcAttrs : Attrs;
  funcInputs : list Ty;
  funcResults : list Ty;
  entryArguments : list BlockArgument
}.

(** The conversion of a memref argument at the start of the body: the
    descriptor rebuilt from the new arguments, the call of the thunk,
    the cast, which replaces the uses of the old argument. *)
Record ArgConversion : Type := mkArgConversion {
  convertedType : MemRef;
  firstNewArgument : nat;
  newArgumentCount : nat;
  thunk : string
}.

(** The state of [fixFuncSig] while it goes through the arguments. *)
Record SigState : Type := mkSigState {
  args : list Ty;
  index : nat;
  entry : list BlockArgument;
  prologue : list ArgConversion;
  module_ : ModuleOp
}.

(** [addArg]: [insertArgument] at [index]. *)
Definition addArg (st : SigState) (type : Ty) : SigState :=
  mkSigState (args st ++ [type]) (S (index st))
             (take (index st) (entry st)
                ++ mkBlockArgument type None :: drop (index st) (entry st))
             (prologue st) (module_ st).

(** [processArg] *)
Definition processArg (st : SigState) (type : Ty) : Result SigState :=
  match asMemRef type with
  | Some memrefType =>
      bind (getArrayType memrefType) (λ arrType,
        let st1 := foldl addArg st (flattenType arrType) in
        bind (assertSome (convertType type)) (λ dstType,
          bind (getToMemrefConversionFunc (module_ st1) memrefType arrType
                                          dstType)
               (λ '(convFunc, module'),
                  Ok (mkSigState (args st1) (index st1)
                        (delete (index st1) (entry st1))
                        (prologue st1
                           ++ [mkArgConversion memrefType (index st)
                                 (length (flattenType arrType))
                                 (symName convFunc)])
                        module'))))
  | None =>
      Ok (mkSigState (args st ++ [type]) (S (index st)) (entry st)
                     (prologue st) (module_ st))
  end.

Fixpoint processArgs (st : SigState) (types : list Ty) : Result SigState :=
  match types with
  | [] => Ok st
  | type :: types => bind (processArg st type) (λ st', processArgs st' types)
  end.

(** [getFastmathAttrs], as the name of the attribute set. *)
Definition getFastmathAttrs : Attribute := OtherAttr "fastmath-passthrough".

(** [fixFuncSig]: the function, the conversions at the start of its
    body, and the module. *)
Definition fixFuncSig (module : ModuleOp) (func : FuncOp)
    : Result (FuncOp * list ArgConversion * ModuleOp) :=
  if isPrivate func then Ok (func, [], module)
  else
    let attrs :=
      if bool_decide (is_Some (funcAttrs func !! getFastmathName))
      then <["passthrough" := getFastmathAttrs]> (funcAttrs func)
      else funcAttrs func in
    bind (getFunctionResType (funcResults func)) (λ origRetType,
      match origRetType with
      | None => Failed
      | Some origRetType =>
          match convertType origRetType with
          | None => Failed
          | Some _ =>
              let st0 :=
                mkSigState [] 0 (entryArguments func) [] module in
              bind (ptr origRetType) (λ retPtr,
                let st1 := addArg st0 retPtr in
                bind getExceptInfoType (λ exceptInfo,
                  bind (ptr exceptInfo) (λ p,
                    bind (ptr p) (λ excPtr,
                      let st2 := addArg st1 excPtr in
                      bind (processArgs st2 (funcInputs func)) (λ st,
                        Ok (mkFuncOp (funcName func) false attrs (args st)
                                     [i32] (entry st),
                            prologue st, module_ st))))))
          end
      end).

(** *** Return operations *)

(** Values of the lowered IR. *)
Inductive Val : Type :=
| Operand (n : nat)
| EntryArgument (n : nat)
| Zero (type : Ty)
| Undef (type : option Ty)
| Cast (type : Ty) (src : Val)
| CallResult (callee : string) (arg : Val)
| InsertValue (container value : Val) (position : nat)
| I32Constant (value : Z).

Inductive Action : Type :=
| CreateOp (result : Val)
| CreateStore (value addr : Val)
| ReplaceOpWithLLVMReturn (value : Val).

(** A [func.return]: the types of its operands, its parent function and
    the module around it, where it has them. *)
Record ReturnOp : Type := mkReturnOp {
  operandTypes : list Ty;
  parent : option FuncOp;
  parentModule : option ModuleOp
}.

(** [doCast] *)
Definition doCast (src : Val) (srcType dstType : Ty) : Val * list Action :=
  if decide (srcType = dstType) then (src, [])
  else (Cast dstType src, [CreateOp (Cast dstType src)]).

(** [convertVal]: the converted value, the operations created for it and
    the module; [Ok None] is the null value. *)
Definition convertVal (module : ModuleOp) (val : Val) (origType : Ty)
    : Result (option (Val * list Action * ModuleOp)) :=
  match convertType origType with
  | None => Ok None
  | Some llRetType =>
      match origType with
      | NoneType =>
          Ok (Some (Zero llRetType, [CreateOp (Zero llRetType)], module))
      | _ =>
          let '(val1, casts) := doCast val origType llRetType in
          match asMemRef origType with
          | Some memrefType =>
              bind (assertSome (convertType (elementType memrefType)))
                (λ elemType,
                   bind (getArrayType memrefType) (λ dstType,
                     bind (getFromMemrefConversionFunc module memrefType
                                                       llRetType dstType)
                          (λ '(func, module'),
                             let call := CallResult (symName func) val1 in
                             Ok (Some (call, casts ++ [CreateOp call],
                                       module')))))
          | None => Ok (Some (val1, casts, module))
          end
      end
  end.

(** The loop over the operands of a return of several values: the struct
    built so far, the actions so far and the module. *)
Fixpoint insertOperands (module : ModuleOp) (val : Val) (i : nat)
    (types : list Ty) (actions : list Action)
    : Result (option Val * list Action * ModuleOp) :=
  match types with
  | [] => Ok (Some val, actions, module)
  | type :: types =>
      bind (convertVal module (Operand i) type) (λ converted,
        match converted with
        | None => Ok (None, actions, module)
        | Some (arg, created, module') =>
            let val' := InsertValue val arg i in
            insertOperands module' val' (S i) types
                           (actions ++ created ++ [CreateOp val'])
        end)
  end.

(** [ReturnOpLowering::matchAndRewrite]: the result, the actions appended
    to those the rewriter has already performed, and the module. *)
Definition matchAndRewrite (op : ReturnOp) (rewriter : list Action)
    : Result (LogicalResult * list Action * option ModuleOp) :=
  match parent op with
  | None => Ok (failure, rewriter, parentModule op)
  | Some parentFunc =>
      if isPrivate parentFunc then Ok (failure, rewriter, parentModule op)
      else
        match parentModule op with
        | None => Ok (failure, rewriter, None)
        | Some mod_ =>
            let finish (actions : list Action) (val addr : Val)
                (m : ModuleOp) :=
              Ok (success,
                  rewriter ++ actions
                    ++ [CreateStore val addr;
                        CreateOp (I32Constant 0);
                        ReplaceOpWithLLVMReturn (I32Constant 0)],
                  Some m) in
            bind (assertSome (head (entryArguments parentFunc))) (λ arg0,
              let addr := EntryArgument 0 in
              match operandTypes op with
              | [] =>
                  match argType arg0 with
                  | LLVMPointerType =>
                      finish [CreateOp (Zero LLVMPointerType)]
                             (Zero LLVMPointerType) addr mod_
                  | _ => AssertionFailed
                  end
              | [type] =>
                  bind (convertVal mod_ (Operand 0) type) (λ converted,
                    match converted with
                    | None => Ok (failure, rewriter, Some mod_)
                    | Some (val, created, m) => finish created val addr m
                    end)
              | types =>
                  bind (getFunctionResType types) (λ resType,
                    let undef := Undef resType in
                    bind (insertOperands mod_ undef 0 types [CreateOp undef])
                      (λ '(val, created, m),
                         match val with
                         | None => Ok (failure, rewriter ++ created, Some m)
                         | Some val => finish created val addr m
                         end))
              end)
        end
  end.

End Boundary.

(** *** Notions the properties are stated with *)

(** The parameters that stand for one parameter of the function: the
    leaves of the array descriptor for a memref, the parameter itself
    otherwise. *)
Definition flattenedParameter (convertType : Ty → option Ty) (type : Ty)
    : Result (list Ty) :=
  match asMemRef type with
  | Some memrefType =>
      bind (getArrayType convertType memrefType)
           (λ arrType, Ok (flattenType arrType))
  | None => Ok [type]
  end.

Fixpoint flattenedParameters (convertType : Ty → option Ty)
    (types : list Ty) : Result (list Ty) :=
  match types with
  | [] => Ok []
  | type :: types =>
      bind (flattenedParameter convertType type) (λ flat,
        bind (flattenedParameters convertType types) (λ rest,
          Ok (flat ++ rest)))
  end.

(** The arguments [addArg] inserts into the entry block for the types
    [flat]. *)
Definition newArguments (flat : list Ty) : list BlockArgument :=
  (λ type, mkBlockArgument type None) <$> flat.

(** The [func.func] operations of a module with a given name. *)
Definition funcsNamed (name : string) (module : ModuleOp) : list SymbolOp :=
  List.filter (λ sym, isFuncOp sym && bool_decide (symName sym = name)) module.

(** What a lowered return ends with: the store of the value through the
    first argument of the entry block, and the return of the [i32]
    constant 0. *)
Definition returnOfStatus (val : Val) : list Action :=
  [CreateStore val (EntryArgument 0);
   CreateOp (I32Constant 0);
   ReplaceOpWithLLVMReturn (I32Constant 0)].

(** A value as a value of a type: the value itself when it has the type,
    the cast of it otherwise. *)
Definition castTo (src : Val) (srcType dstType : Ty) : Val :=
  if decide (srcType = dstType) then src else Cast dstType src.

(** The converted value of operand [i] of a return, of type [type] that
    converts to [llType]: the zero of [llType] for [none]; for a memref
    the result of the call of the thunk from the memref type, on the
    operand as a value of [llType]; the operand as a value of [llType]
    for any other type. *)
Definition returnedOperand (printType : Ty → string) (i : nat)
    (type llType : Ty) : Val :=
  match type with
  | NoneType => Zero llType
  | MemRefType shape elem layout space =>
      CallResult
        (genFromMemrefConversionFuncName printType
           (mkMemRef shape elem layout space))
        (castTo (Operand i) type llType)
  | _ => castTo (Operand i) type llType
  end.

Definition returnedOperands (printType : Ty → string)
    (types llTypes : list Ty) : list Val :=
  imap (λ i tl, returnedOperand printType i tl.1 tl.2) (zip types llTypes).

(** The value a return stores: the null pointer when it has no operand,
    the converted operand when it has one, and for more the struct of
    the converted operands, each inserted at its position into an
    undefined value of the result type. *)
Definition storedValue (resType : option Ty) (converted : list Val) : Val :=
  match converted with
  | [] => Zero LLVMPointerType
  | [val] => val
  | _ =>
      foldl (λ container iv, InsertValue container iv.2 iv.1)
            (Undef resType) (imap (λ i val, (i, val)) converted)
  end.

Definition isCreateOp (a : Action) : bool :=
  match a with CreateOp _ => true | _ => false end.

(** A [func.func] of that name is in the module. *)
Definition hasFunc (module : ModuleOp) (name : string) : Prop :=
  ∃ func, func ∈ module ∧ isFuncOp func = true ∧ symName func = name.

(** [itemSize] gives a size. *)
Definition hasItemSize (type : Ty) : Prop :=
  match itemSize type with Ok _ => True | _ => False end.

(** *** A function and its returns

    The examples use the conversions of MLIR's LLVM type converter for
    the builtin types, with those [populateToLLVMAdditionalTypeConversion]
    adds for [none], opaque and type variable types, and MLIR's spelling
    of the scalar types. *)

Definition convertExample (type : Ty) : option Ty :=
  match type with
  | IntegerType _ | FloatType _ | LLVMPointerType
  | LLVMStructType _ | LLVMArrayType _ _ => Some type
  | IndexType => Some (IntegerType 64)
  | NoneType | OpaqueType | TypeVarType => Some LLVMPointerType
  | MemRefType shape elem _ _ =>
      if isIntOrFloat elem then
        let sizes := LLVMArrayType (IntegerType 64) (length shape) in
        Some (LLVMStructType
                ([LLVMPointerType; LLVMPointerType; IntegerType 64]
                   ++ if decide (0 < length shape)%nat then [sizes; sizes]
                      else []))
      else None
  | _ => None
  end.

Definition printExample (type : Ty) : string :=
  match type with
  | IntegerType width => "i" +:+ pretty width
  | FloatType width => "f" +:+ pretty width
  | IndexType => "index"
  | _ => "?"
  end.

Definition f64 : Ty := FloatType 64.
Definition vectorOfF64 : Ty := MemRefType [kDynamic] f64 IdentityLayout 0.
Definition cubeOfF64 (d0 d1 d2 : Z) : Ty :=
  MemRefType [d0; d1; d2] f64 IdentityLayout 0.

(** [func.func @kernel(%a: f64, %x: memref<?xf64>) -> i64] *)
Definition kernel : FuncOp :=
  mkFuncOp "kernel" false ∅ [f64; vectorOfF64] [IntegerType 64]
           [mkBlockArgument f64 (Some 0%nat);
            mkBlockArgument vectorOfF64 (Some 1%nat)].

(** The same function, private. *)
Definition helper : FuncOp :=
  mkFuncOp "helper" true ∅ [f64; vectorOfF64] [IntegerType 64]
           [mkBlockArgument f64 (Some 0%nat);
            mkBlockArgument vectorOfF64 (Some 1%nat)].

(** The leaves of the array descriptor of [memref<?xf64>]. *)
Definition vectorLeaves : list Ty :=
  [LLVMPointerType; LLVMPointerType; IntegerType 64; IntegerType 64;
   LLVMPointerType; IntegerType 64; IntegerType 64].

(** [@kernel] with its signature fixed. *)
Definition kernelFixed : FuncOp :=
  mkFuncOp "kernel" false ∅
           (LLVMPointerType :: LLVMPointerType :: f64 :: vectorLeaves)
           [IntegerType 32]
           (mkBlockArgument LLVMPointerType None
              :: mkBlockArgument LLVMPointerType None
              :: mkBlockArgument f64 (Some 0%nat)
              :: newArguments vectorLeaves).

(** Two functions with fixed signatures; each returns an array of rank
    3, of different extents. *)
Definition producer (name : string) : FuncOp :=
  mkFuncOp name false ∅ [LLVMPointerType; LLVMPointerType] [IntegerType 32]
           [mkBlockArgument LLVMPointerType None;
            mkBlockArgument LLVMPointerType None].
Definition firstReturn (module : ModuleOp) : ReturnOp :=
  mkReturnOp [cubeOfF64 2 3 4] (Some (producer "first")) (Some module).
Definition secondReturn (module : ModuleOp) : ReturnOp :=
  mkReturnOp [cubeOfF64 kDynamic kDynamic kDynamic]
             (Some (producer "second")) (Some module).

(** What a return pattern returned. *)
Definition resultOf
    (r : Result (LogicalResult * list Action * option ModuleOp))
    : option LogicalResult :=
  match r with
  | Ok (result, _, _) => Some result
  | _ => None
  end.

(** The module after a return pattern has run, or the empty module. *)
Definition moduleAfter
    (r : Result (LogicalResult * list Action * option ModuleOp)) : ModuleOp :=
  match r with
  | Ok (_, _, Some module) => module
  | _ => []
  end.

End FunctionBoundary.

(** ** Replacing the allocation calls ([replaceNRTAllocPass]) *)

Module ReplaceNRTAlloc.

(** An operand of an instruction: a value, or a function. *)
Inductive Operand : Type :=
| ValueOperand (id : nat)
| FunctionOperand (name : string).

(** An instruction: a call, with the function it calls when the call is
    direct, or another instruction. *)
Inductive Instruction : Type :=
| CallInst (calledFunction : option string) (args : list Operand)
| OtherInst (opcode : string) (operands : list Operand).

(** A function is its blocks. *)
Definition Function : Type := list (list Instruction).

(** How the pass stops short: in a call through a null pointer, or in
    the assertion on an operand number. *)
Inductive Stop : Type :=
| NullDereference
| OperandOutOfRange.

(** How the pass ends: stopped, or with the function and the functions
    the module has got. *)
Abbreviation Outcome := (Stop + (Function * list string))%type.

(** [ci->getCalledFunction()->getName() == ...]; nothing when the call
    is indirect. *)
Definition isAlloc (i : Instruction) : option bool :=
  match i with
  | CallInst (Some fname) _ =>
      Some (bool_decide (fname = "NRT_MemInfo_alloc_safe_aligned"))
  | CallInst None _ => None
  | OtherInst _ _ => Some false
  end.

(** The first loop: the positions of the calls to replace. *)
Definition replaceList (f : Function) : option (list bool) :=
  mapM isAlloc (concat f).

(** The operands of a call: its arguments, then the function called. *)
Definition getOperands (calledFunction : option string) (args : list Operand)
    : list Operand :=
  args ++ match calledFunction with
          | Some name => [FunctionOperand name]
          | None => []
          end.

(** [m->getOrInsertFunction] *)
Definition getOrInsertFunction (declared : list string) (name : string)
    : list string :=
  if bool_decide (name ∈ declared) then declared else declared ++ [name].

Section Pass.

(** [std::getenv("NM_TAPIRTARGET")] *)
Variable tapirTarget : option string.

Definition memCalleeName : option string :=
  match tapirTarget with
  | Some target =>
      Some (if bool_decide (target = "opencilk")
            then "__kitcuda_mem_alloc_managed_numba_oc"
            else "__kitcuda_mem_alloc_managed_numba_cu")
  | None => None
  end.

(** The body of the second loop, for one instruction. *)
Definition replaceCall (declared : list string) (i : Instruction)
    : Stop + (Instruction * list string) :=
  match i with
  | CallInst (Some fname) args =>
      if bool_decide (fname = "NRT_MemInfo_alloc_safe_aligned") then
        let operands := getOperands (Some fname) args in
        match operands !! 0%nat, operands !! 1%nat with
        | Some op0, Some op1 =>
            match memCalleeName with
            | Some name =>
                inr (CallInst (Some name) [op0; op1],
                     getOrInsertFunction declared name)
            | None => inl NullDereference
            end
        | _, _ => inl OperandOutOfRange
        end
      else inr (i, declared)
  | _ => inr (i, declared)
  end.

Fixpoint replaceBlock (declared : list string) (block : list Instruction)
    : Stop + (list Instruction * list string) :=
  match block with
  | [] => inr ([], declared)
  | i :: block =>
      match replaceCall declared i with
      | inl stopped => inl stopped
      | inr (i', declared') =>
          match replaceBlock declared' block with
          | inl stopped => inl stopped
          | inr (block', declared'') => inr (i' :: block', declared'')
          end
      end
  end.

Fixpoint replaceBlocks (declared : list string) (f : Function)
    : Outcome :=
  match f with
  | [] => inr ([], declared)
  | block :: f =>
      match replaceBlock declared block with
      | inl stopped => inl stopped
      | inr (block', declared') =>
          match replaceBlocks declared' f with
          | inl stopped => inl stopped
          | inr (f', declared'') => inr (block' :: f', declared'')
          end
      end
  end.

(** [replaceNRTAllocPass::run] *)
Definition run (f : Function) (declared : list string) : Outcome :=
  match replaceList f with
  | None => inl NullDereference
  | Some _ => replaceBlocks declared f
  end.

End Pass.

(** *** Notions the properties are stated with *)

(** A direct call of the allocation function. *)
Definition callsAlloc (i : Instruction) : bool :=
  match i with
  | CallInst (Some fname) _ =>
      bool_decide (fname = "NRT_MemInfo_alloc_safe_aligned")
  | _ => false
  end.

Definition isIndirectCall (i : Instruction) : bool :=
  match i with CallInst None _ => true | _ => false end.

(** A direct call of the allocation function without arguments: it has
    one operand, the function. *)
Definition lacksOperand (i : Instruction) : bool :=
  match i with
  | CallInst (Some fname) [] =>
      bool_decide (fname = "NRT_MemInfo_alloc_safe_aligned")
  | _ => false
  end.

(** What the pass leaves of an instruction: no call of the allocation
    function, and the instruction itself where it was none. *)
Definition replacedBy (i i' : Instruction) : Prop :=
  callsAlloc i' = false ∧ isIndirectCall i' = isIndirectCall i ∧
  (callsAlloc i = false → i' = i).

(** *** An example

    A function of two blocks: an allocation, a store, and a call
    of another function. *)

Definition allocating : Function :=
  [ [ CallInst (Some "NRT_MemInfo_alloc_safe_aligned")
        [ValueOperand 0; ValueOperand 1];
      OtherInst "store" [ValueOperand 2; ValueOperand 3] ];
    [ CallInst (Some "NRT_decref") [ValueOperand 3] ] ].

Definition allocatingReplaced : Function :=
  [ [ CallInst (Some "__kitcuda_mem_alloc_managed_numba_oc")
        [ValueOperand 0; ValueOperand 1];
      OtherInst "store" [ValueOperand 2; ValueOperand 3] ];
    [ CallInst (Some "NRT_decref") [ValueOperand 3] ] ].

End ReplaceNRTAlloc.

(** ** The execution engine ([ExecutionEngine::loadModule] and
       [ExecutionEngine::lookup]) *)

Module ExecutionEngine.

(** An [llvm::Error] that holds a failure, with what its [log] writes. *)
Record Error : Type := mkError { log : string }.

(** [makeStringError] *)
Definition makeStringError (message : string) : Error := mkError message.

(** What ends the process. *)
Inductive Fatal : Type :=
| CantFail (e : Error)
| ReportFatalError (message : string)
| FailedAssertion (message : string).

(** How a call into the engine ends: it returns a value, it returns an
    error value, the process is terminated, or a member function is
    called through a null pointer. *)
Inductive Outcome (A : Type) : Type :=
| Returned (a : A)
| ErrorValue (e : Error)
| Aborted (reason : Fatal)
| NullDereference
| OutOfFuel.
Arguments Returned {A} a.
Arguments ErrorValue {A} e.
Arguments Aborted {A} reason.
Arguments NullDereference {A}.
Arguments OutOfFuel {A}.

(** The [llvm::Module] settings [loadModule] writes. *)
Inductive CodeModel : Type := CodeModelDefault | CodeModelLarge.
Inductive PICLevel : Type := NotPIC | SmallPIC | BigPIC.
Inductive PIELevel : Type := PIEDefault | PIESmall | PIELarge.

Record Module : Type := mkModule {
  source : FunctionBoundary.ModuleOp;
  codeModel : CodeModel;
  picLevel : PICLevel;
  pieLevel : PIELevel;
  directAccessExternalData : bool
}.

(** A [ModuleHandle] is the [JITDylib] of the module, which has a name;
    an address is null when it is 0. *)
Definition ModuleHandle : Type := string.
Definition Addr : Type := N.
Definition DlHandle : Type := nat.

(** What the engine holds: the counter of the names, the names of the
    libraries of the JIT, whether it has a transformer and a symbol map,
    and what has been written to [llvm::errs()]. *)
Record Engine : Type := mkEngine {
  uniqueNameCounter : nat;
  dylibs : list string;
  hasTransformer : bool;
  hasSymbolMap : bool;
  errs : list string
}.

(** What the compile function of the engine meets: the environment of
    the process, the late transformer and the printer of the options of
    the engine, the level of the target machine and what LLVM answers.
    The first pipeline leaves the functions of the module that have a
    body, on which the function passes run, and the names of all the
    functions of the module; LLVM may end the process in a pipeline. *)
Record Compiler : Type := mkCompiler {
  getenv : string → option string;
  lateTransformer : option (Module → option Error);
  getOptLevel : nat;
  firstPipeline :
    Module → Fatal + (list ReplaceNRTAlloc.Function * list string);
  laterPasses : Module → option Fatal;
  asmPrinter : bool;
  addPassesToEmitFile : Module → bool;
  simpleCompiler : Module → option Error
}.

(** What LLVM, the dynamic linker and the engine's callbacks answer.
    The JIT compiles a module when a symbol of it is first needed, with
    the compile function the engine gave it and in the call that needs
    the symbol: [jit->initialize] needs the initializers of a module
    that has static ones, [jit->lookup] the symbol it looks up
    ([materializes] is the module of the library when it defines the
    symbol and is not compiled yet).  [initialize] and [jitLookup] are
    the answers of the JIT when nothing is left to compile, and
    [failedToMaterialize] is its error when the compile function has
    returned one. *)
Record World : Type := mkWorld {
  translateModuleToLLVMIR : FunctionBoundary.ModuleOp → option Module;
  transformer : Module → option Error;
  createJITDylib : string → option Error;
  getForCurrentProcess : option Error;
  defineSymbolMap : ModuleHandle → option Error;
  addIRModule : ModuleHandle → Module → option Error;
  dlopen : string → option DlHandle;
  dlsym : DlHandle → string → option Addr;
  Mangle : string → string;
  defineAbsoluteSymbols : ModuleHandle → gmap string Addr → option Error;
  initialize : ModuleHandle → option Error;
  jitLookup : ModuleHandle → string → Error + Addr;
  compiler : Compiler;
  hasInitializers : Module → bool;
  materializes : ModuleHandle → string → option Module;
  failedToMaterialize : Error → Error
}.

(** Calls on the engine change it. *)
Definition M (A : Type) : Type := Engine → Outcome A * Engine.

Definition ret {A : Type} (a : A) : M A := λ engine, (Returned a, engine).

Definition bind {A B : Type} (m : M A) (f : A → M B) : M B :=
  λ engine,
    match m engine with
    | (Returned a, engine') => f a engine'
    | (ErrorValue e, engine') => (ErrorValue e, engine')
    | (Aborted reason, engine') => (Aborted reason, engine')
    | (NullDereference, engine') => (NullDereference, engine')
    | (OutOfFuel, engine') => (OutOfFuel, engine')
    end.

Definition stop {A : Type} (outcome : Outcome A) : M A :=
  λ engine, (outcome, engine).

(** [llvm::cantFail] of an [llvm::Error] *)
Definition cantFail (result : option Error) : M unit :=
  match result with
  | None => ret tt
  | Some e => stop (Aborted (CantFail e))
  end.

(** [llvm::errs() << message] *)
Definition writeErrs (message : string) : M unit :=
  λ engine,
    (Returned tt,
     mkEngine (uniqueNameCounter engine) (dylibs engine)
              (hasTransformer engine) (hasSymbolMap engine)
              (errs engine ++ [message])).

Section Engine.

Variable world : World.

(** The four member calls through [llvmModule]. *)
Definition setOptions (llvmModule : option Module) : M (option Module) :=
  match llvmModule with
  | None => stop NullDereference
  | Some module =>
      ret (Some (mkModule (source module) CodeModelLarge BigPIC PIELarge true))
  end.

(** The name the loop tries at a value of the counter. *)
Definition uniqueNameAt (counter : nat) : string :=
  "module" +:+ pretty counter.

(** The loop that makes the [JITDylib]: [fuel] bounds the number of
    names it tries. *)
Fixpoint createDylib (fuel : nat) : M ModuleHandle :=
  λ engine,
    match fuel with
    | O => (OutOfFuel, engine)
    | S fuel =>
        let uniqueName := uniqueNameAt (uniqueNameCounter engine) in
        let engine1 :=
          mkEngine (S (uniqueNameCounter engine)) (dylibs engine)
                   (hasTransformer engine) (hasSymbolMap engine)
                   (errs engine) in
        if bool_decide (uniqueName ∈ dylibs engine) then
          createDylib fuel engine1
        else
          match createJITDylib world uniqueName with
          | Some e => (ErrorValue e, engine1)
          | None =>
              (Returned uniqueName,
               mkEngine (uniqueNameCounter engine1)
                        (dylibs engine1 ++ [uniqueName])
                        (hasTransformer engine1) (hasSymbolMap engine1)
                        (errs engine1))
          end
    end.

(** The character [\n]. *)
Definition newline : string := String (Ascii.ascii_of_nat 10) "".

(** *** The compile function ([CustomCompiler])

    [if (transformer) { auto err = transformer(M); if (err) return err; }];
    [M] is [llvmModule] here *)
Definition transformed (llvmModule : Module) : option Error :=
  match lateTransformer (compiler world) with
  | Some transformer => transformer llvmModule
  | None => None
  end.

(** The function pass [replaceNRTAllocPass] over the functions of the
    module. *)
Fixpoint replaceNRTAllocs (functions : list ReplaceNRTAlloc.Function)
    (declared : list string)
    : ReplaceNRTAlloc.Stop + (list ReplaceNRTAlloc.Function * list string) :=
  match functions with
  | [] => inr ([], declared)
  | f :: functions =>
      match ReplaceNRTAlloc.run
              (getenv (compiler world) "NM_TAPIRTARGET") f declared with
      | inl stopped => inl stopped
      | inr (f', declared') =>
          match replaceNRTAllocs functions declared' with
          | inl stopped => inl stopped
          | inr (functions', declared'') =>
              inr (f' :: functions', declared'')
          end
      end
  end.

(** [runOptimizationPasses].  The three writes of the level are one
    entry of [errs].  [strcmp] reads through the pointer [getenv]
    returns, which is null when the variable is not set.  Then the first
    pass manager runs: the O1 pipeline of LLVM, [replaceNRTAllocPass]
    and [tapirifyLoopPass]; the loops of [tapirifyLoopPass] are those of
    LLVM's loop analysis, and this pass and the second pipeline are what
    [laterPasses] stands for. *)
Definition runOptimizationPasses (llvmModule : Module) : M unit :=
  bind (writeErrs ("TM CodeGenOptLevel: "
                     +:+ pretty (getOptLevel (compiler world)) +:+ newline))
       (λ _,
    match getenv (compiler world) "NM_TAPIRTARGET" with
    | None => stop NullDereference
    | Some _ =>
        match firstPipeline (compiler world) llvmModule with
        | inl reason => stop (Aborted reason)
        | inr (functions, declared) =>
            match replaceNRTAllocs functions declared with
            | inl ReplaceNRTAlloc.NullDereference => stop NullDereference
            | inl ReplaceNRTAlloc.OperandOutOfRange =>
                stop (Aborted (FailedAssertion "getOperand() out of range!"))
            | inr _ =>
                match laterPasses (compiler world) llvmModule with
                | Some reason => stop (Aborted reason)
                | None => ret tt
                end
            end
        end
    end).

(** [CustomCompiler::operator()]: the error it returns, if any.
    [setupModule] writes the data layout, the triple and attributes of
    the functions and does not fail. *)
Definition CustomCompiler (llvmModule : Module) : M (option Error) :=
  match transformed llvmModule with
  | Some err => ret (Some err)
  | None =>
      bind (runOptimizationPasses llvmModule) (λ _,
        if asmPrinter (compiler world)
           && addPassesToEmitFile (compiler world) llvmModule
        then ret (Some (makeStringError
                          "Target does not support Asm emission"))
        else ret (simpleCompiler (compiler world) llvmModule))
  end.

(** A call of the JIT that needs symbols of the module [pending], if
    any: the module is compiled first. *)
Definition materialized {A : Type} (pending : option Module)
    (failed : Error → A) (answer : A) : M A :=
  match pending with
  | Some llvmModule =>
      bind (CustomCompiler llvmModule) (λ compiled,
        match compiled with
        | Some err => ret (failed (failedToMaterialize world err))
        | None => ret answer
        end)
  | None => ret answer
  end.

(** [jit->initialize] for the library of the module [tsm]. *)
Definition jitInitialize (dylib : ModuleHandle) (tsm : Module)
    : M (option Error) :=
  materialized (if hasInitializers world tsm then Some tsm else None)
               Some (initialize world dylib).

(** [jit->lookup] for a library and a name. *)
Definition jitLookupSymbol (dylib : ModuleHandle) (name : string)
    : M (Error + Addr) :=
  materialized (materializes world dylib name) inl
               (jitLookup world dylib name).

(** A runtime library: its path, the functions looked up in it, the
    message of the fatal error when one is not found and what is written
    when the library is not opened. *)
Record RuntimeLibrary : Type := mkRuntimeLibrary {
  path : string;
  functions : list string;
  notFound : string;
  notOpened : string
}.

(** The loop over the functions of a library that was opened. *)
Fixpoint addFunctions (dlHandle : DlHandle) (fns : list string)
    (notFound : string) (symMap : gmap string Addr)
    : M (gmap string Addr) :=
  match fns with
  | [] => ret symMap
  | fn :: fns =>
      match dlsym world dlHandle fn with
      | Some funcAddr =>
          addFunctions dlHandle fns notFound
                       (<[Mangle world fn := funcAddr]> symMap)
      | None => stop (Aborted (ReportFatalError notFound))
      end
  end.

Definition addLibrary (symMap : gmap string Addr) (library : RuntimeLibrary)
    : M (gmap string Addr) :=
  match dlopen world (path library) with
  | Some dlHandle =>
      addFunctions dlHandle (functions library) (notFound library) symMap
  | None => bind (writeErrs (notOpened library)) (λ _, ret symMap)
  end.

Fixpoint addLibraries (symMap : gmap string Addr)
    (libraries : list RuntimeLibrary) : M (gmap string Addr) :=
  match libraries with
  | [] => ret symMap
  | library :: libraries =>
      bind (addLibrary symMap library) (λ symMap',
        addLibraries symMap' libraries)
  end.

Definition kitcuda : RuntimeLibrary :=
  mkRuntimeLibrary
    "/vast/home/josephsarrao/kitinstall_t/lib/clang/18/lib/libkitrt.so"
    ["__cudaRegisterFatBinary"; "__cudaRegisterFatBinaryEnd";
     "__cudaUnregisterFatBinary"; "__kitcuda_use_occupancy_launch";
     "__kitcuda_initialize"; "__kitcuda_destroy"; "__kitcuda_launch_kernel";
     "__kitcuda_mem_gpu_prefetch"; "__kitcuda_set_default_threads_per_blk";
     "__kitcuda_sync_thread_stream"; "__kitcuda_mem_alloc_managed_numba_cu";
     "__kitcuda_mem_alloc_managed_numba_oc"]
    ("error finding kitcuda function in libkitrt.so" +:+ newline)
    ("Could not find dlHandle for libkitrt.so" +:+ newline).

Definition openCilk : RuntimeLibrary :=
  mkRuntimeLibrary
    "/vast/home/josephsarrao/kitinstall_t/lib/clang/18/lib/x86_64-unknown-linux-gnu/libopencilk.so"
    ["Cilk_exception_handler"; "Cilk_set_return"; "cilkg_nproc";
     "__pedigree_dprng_m_array"; "__cilkrts_check_exception_raise";
     "__cilkrts_cleanup_fiber"; "__cilkrts_internal_exit_cilkified_root";
     "__cilkrts_internal_invoke_cilkified_root"; "__cilkrts_need_to_cilkify";
     "__cilkrts_sync"; "__cilkrts_use_extension";
     "__emutls_v.__cilkrts_current_fh"]
    ("error finding opencilk function in libopencilk.so" +:+ newline)
    ("Could not find dlHandle for libopencilk.so" +:+ newline).

Definition openCilkPers : RuntimeLibrary :=
  mkRuntimeLibrary
    "/vast/home/josephsarrao/kitinstall_t/lib/clang/18/lib/x86_64-unknown-linux-gnu/libopencilk-personality-c.so"
    ["__cilk_personality_v0"]
    ("error finding opencilk function in libopencilk-personality-c.so" +:+ newline)
    ("Could not find dlHandle for libopencilk-personality-cpp.so" +:+ newline).

Definition timer : RuntimeLibrary :=
  mkRuntimeLibrary
    "/vast/home/josephsarrao/python_experiments/numba-mlir/yw_therm/timerFuncs.so"
    ["startKitTimer"; "endKitTimer"]
    ("error finding timer func" +:+ newline)
    ("Could not find dlHandle for timerFuncs.so" +:+ newline).

(** [ExecutionEngine::loadModule] *)
Definition loadModule (m : FunctionBoundary.ModuleOp) : M ModuleHandle :=
  λ engine,
    bind (setOptions (translateModuleToLLVMIR world m)) (λ llvmModule,
      match llvmModule with
      | None =>
          stop (ErrorValue (makeStringError "could not convert to LLVM IR"))
      | Some tsm =>
          bind (if hasTransformer engine
                then cantFail (transformer world tsm) else ret tt) (λ _,
          bind (createDylib (S (length (dylibs engine)))) (λ dylib,
          bind (cantFail (getForCurrentProcess world)) (λ _,
          bind (if hasSymbolMap engine
                then cantFail (defineSymbolMap world dylib) else ret tt) (λ _,
          bind (cantFail (addIRModule world dylib tsm)) (λ _,
          bind (addLibraries ∅ [kitcuda; openCilk; openCilkPers; timer])
               (λ symMap,
          bind (cantFail (defineAbsoluteSymbols world dylib symMap)) (λ _,
          bind (bind (jitInitialize dylib tsm) cantFail) (λ _,
          ret dylib))))))))
      end) engine.

(** [ExecutionEngine::lookup]; it is a [const] member function: of the
    engine only what was written to [llvm::errs()] changes.  A handle is
    the name of its library, so that the assertion on the null handle
    holds. *)
Definition lookup (handle : ModuleHandle) (name : string) : M Addr :=
  bind (jitLookupSymbol handle name) (λ expectedSymbol,
    match expectedSymbol with
    | inl e => stop (ErrorValue (makeStringError (log e)))
    | inr fptr =>
        if decide (fptr = 0%N)
        then stop (ErrorValue (makeStringError "looked up function is null"))
        else ret fptr
    end).

End Engine.

(** *** Notions the properties are stated with *)

Definition libraries : list RuntimeLibrary :=
  [kitcuda; openCilk; openCilkPers; timer].

(** The functions [replaceNRTAllocPass] runs on. *)
Definition functionsOf (world : World) (M : Module)
    : list ReplaceNRTAlloc.Function :=
  match firstPipeline (compiler world) M with
  | inr (functions, _) => functions
  | inl _ => []
  end.

(** A function of the module has an instruction of some kind. *)
Definition hasInstruction (world : World) (M : Module)
    (kind : ReplaceNRTAlloc.Instruction → bool) : Prop :=
  ∃ f i, f ∈ functionsOf world M ∧ i ∈ concat f ∧ kind i = true.

(** The passes run through on a module: NM_TAPIRTARGET is set, LLVM does
    not end the process in a pipeline, and no function the first
    pipeline leaves has an indirect call or a call of the allocation
    function without arguments. *)
Definition passesRun (world : World) (M : Module) : Prop :=
  is_Some (getenv (compiler world) "NM_TAPIRTARGET")
  ∧ (∃ result, firstPipeline (compiler world) M = inr result)
  ∧ Forall (λ f, Forall (λ i, ReplaceNRTAlloc.isIndirectCall i = false
                              ∧ ReplaceNRTAlloc.lacksOperand i = false)
                        (concat f))
           (functionsOf world M)
  ∧ laterPasses (compiler world) M = None.

(** What the compile function returns when the passes have run. *)
Definition emitted (world : World) (M : Module) : option Error :=
  if asmPrinter (compiler world) && addPassesToEmitFile (compiler world) M
  then Some (makeStringError "Target does not support Asm emission")
  else simpleCompiler (compiler world) M.

(** What the compile function can end with for a module, and why. *)
Definition compileExplained (world : World) (M : Module)
    (outcome : Outcome (option Error)) : Prop :=
  match outcome with
  | Returned compiled =>
      (is_Some (transformed world M) ∧ compiled = transformed world M)
      ∨ (transformed world M = None ∧ passesRun world M
         ∧ compiled = emitted world M)
  | Aborted reason =>
      transformed world M = None
      ∧ is_Some (getenv (compiler world) "NM_TAPIRTARGET")
      ∧ (firstPipeline (compiler world) M = inl reason
         ∨ laterPasses (compiler world) M = Some reason
         ∨ (reason = FailedAssertion "getOperand() out of range!"
            ∧ hasInstruction world M ReplaceNRTAlloc.lacksOperand))
  | NullDereference =>
      transformed world M = None
      ∧ (getenv (compiler world) "NM_TAPIRTARGET" = None
         ∨ hasInstruction world M ReplaceNRTAlloc.isIndirectCall)
  | ErrorValue _ | OutOfFuel => False
  end.

(** What [lookup] makes of the answer of the JIT. *)
Definition answered (world : World) (handle : ModuleHandle) (name : string)
    : Outcome Addr :=
  match jitLookup world handle name with
  | inl e => ErrorValue (makeStringError (log e))
  | inr fptr =>
      if decide (fptr = 0%N)
      then ErrorValue (makeStringError "looked up function is null")
      else Returned fptr
  end.

(** What [lookup] can end with, and why. *)
Definition lookupExplained (world : World) (handle : ModuleHandle)
    (name : string) (outcome : Outcome Addr) : Prop :=
  match materializes world handle name with
  | None => outcome = answered world handle name
  | Some M =>
      match outcome with
      | Returned fptr =>
          compileExplained world M (Returned None)
          ∧ answered world handle name = Returned fptr
      | ErrorValue e =>
          (compileExplained world M (Returned None)
           ∧ answered world handle name = ErrorValue e)
          ∨ ∃ err,
              compileExplained world M (Returned (Some err))
              ∧ e = makeStringError (log (failedToMaterialize world err))
      | Aborted reason => compileExplained world M (Aborted reason)
      | NullDereference => compileExplained world M NullDereference
      | OutOfFuel => False
      end
  end.

(** The compile function ends in some way for a module with static
    initializers. *)
Definition initializersEnd (world : World)
    (outcome : Outcome (option Error)) : Prop :=
  ∃ tsm, hasInitializers world tsm = true
         ∧ compileExplained world tsm outcome.

(** The errors [loadModule] passes to [cantFail] in a world, for a
    module and a handle. *)
Definition cantFailErrors (world : World) (engine : Engine)
    (e : Error) : Prop :=
  (hasTransformer engine = true ∧ ∃ tsm, transformer world tsm = Some e)
  ∨ getForCurrentProcess world = Some e
  ∨ (hasSymbolMap engine = true ∧ ∃ dylib, defineSymbolMap world dylib = Some e)
  ∨ (∃ dylib tsm, addIRModule world dylib tsm = Some e)
  ∨ (∃ dylib symMap, defineAbsoluteSymbols world dylib symMap = Some e)
  ∨ (∃ dylib, initialize world dylib = Some e)
  ∨ (∃ err, e = failedToMaterialize world err
            ∧ initializersEnd world (Returned (Some err))).

(** A library that opens and lacks one of its functions. *)
Definition lacksFunction (world : World) (library : RuntimeLibrary) : Prop :=
  ∃ dlHandle fn,
    dlopen world (path library) = Some dlHandle
    ∧ fn ∈ functions library ∧ dlsym world dlHandle fn = None.

(** A call ends in a value or an error value. *)
Definition reported {A : Type} (outcome : Outcome A) : Prop :=
  match outcome with
  | Returned _ | ErrorValue _ => True
  | _ => False
  end.

(** What [loadModule] can end with, and why. *)
Definition explained (world : World) (engine : Engine)
    (m : FunctionBoundary.ModuleOp) (outcome : Outcome ModuleHandle) : Prop :=
  match outcome with
  | Returned dylib =>
      is_Some (translateModuleToLLVMIR world m)
      ∧ createJITDylib world dylib = None
      ∧ Forall (λ library, ¬ lacksFunction world library) libraries
  | ErrorValue e =>
      is_Some (translateModuleToLLVMIR world m)
      ∧ ∃ uniqueName, createJITDylib world uniqueName = Some e
  | Aborted reason =>
      is_Some (translateModuleToLLVMIR world m)
      ∧ (match reason with
         | CantFail e => cantFailErrors world engine e
         | ReportFatalError message =>
             ∃ library, library ∈ libraries
               ∧ message = notFound library ∧ lacksFunction world library
         | FailedAssertion _ => False
         end
         ∨ initializersEnd world (Aborted reason))
  | NullDereference =>
      translateModuleToLLVMIR world m = None
      ∨ initializersEnd world NullDereference
  | OutOfFuel => False
  end.

(** Nothing the engine calls fails. *)
Definition nothingFails (world : World) : Prop :=
  (∀ tsm, transformer world tsm = None)
  ∧ (∀ uniqueName, createJITDylib world uniqueName = None)
  ∧ getForCurrentProcess world = None
  ∧ (∀ dylib, defineSymbolMap world dylib = None)
  ∧ (∀ dylib tsm, addIRModule world dylib tsm = None)
  ∧ (∀ library, library ∈ libraries → ¬ lacksFunction world library)
  ∧ (∀ dylib symMap, defineAbsoluteSymbols world dylib symMap = None)
  ∧ (∀ dylib, initialize world dylib = None)
  ∧ (∀ tsm, hasInitializers world tsm = true →
            transformed world tsm = None ∧ passesRun world tsm
            ∧ emitted world tsm = None).

(** *** Four worlds

    In the first every call succeeds, every library opens with all its
    functions, NM_TAPIRTARGET is [opencilk], and a lookup compiles a
    module of one function; in the second [libkitrt.so] opens without
    its functions. *)

Definition translated (m : FunctionBoundary.ModuleOp) : Module :=
  mkModule m CodeModelDefault NotPIC PIEDefault false.

Definition compiling (tapirTarget : option string) : Compiler :=
  mkCompiler (λ name, if bool_decide (name = "NM_TAPIRTARGET")
                      then tapirTarget else None)
             None 2
             (λ _, inr ([ReplaceNRTAlloc.allocating],
                        ["NRT_MemInfo_alloc_safe_aligned"; "NRT_decref"]))
             (λ _, None) false (λ _, false) (λ _, None).

Definition sound : World :=
  mkWorld (λ m, Some (translated m)) (λ _, None) (λ _, None) None
          (λ _, None) (λ _ _, None) (λ _, Some 0%nat) (λ _ _, Some 4096%N)
          id (λ _ _, None) (λ _, None) (λ _ _, inr 4096%N)
          (compiling (Some "opencilk")) (λ _, false)
          (λ _ _, Some (translated [])) id.

Definition missingFunction : World :=
  mkWorld (λ m, Some (translated m)) (λ _, None) (λ _, None) None
          (λ _, None) (λ _ _, None) (λ _, Some 0%nat) (λ _ _, None)
          id (λ _ _, None) (λ _, None) (λ _ _, inr 4096%N)
          (compiling (Some "opencilk")) (λ _, false)
          (λ _ _, Some (translated [])) id.

(** In the third the module is not translated. *)
Definition untranslatable : World :=
  mkWorld (λ _, None) (λ _, None) (λ _, None) None
          (λ _, None) (λ _ _, None) (λ _, Some 0%nat) (λ _ _, Some 4096%N)
          id (λ _ _, None) (λ _, None) (λ _ _, inr 4096%N)
          (compiling (Some "opencilk")) (λ _, false)
          (λ _ _, Some (translated [])) id.

(** The fourth is the first without NM_TAPIRTARGET. *)
Definition withoutTarget : World :=
  mkWorld (λ m, Some (translated m)) (λ _, None) (λ _, None) None
          (λ _, None) (λ _ _, None) (λ _, Some 0%nat) (λ _ _, Some 4096%N)
          id (λ _ _, None) (λ _, None) (λ _ _, inr 4096%N)
          (compiling None) (λ _, false)
          (λ _ _, Some (translated [])) id.

Definition newEngine : Engine := mkEngine 0 [] false false [].

End ExecutionEngine.

(** ** Array descriptors rebuilt from their leaves ([unflatten]) *)

Module Unflatten.
Import FunctionBoundary.

(** The callable [fixFuncSig] hands to [unflatten]: it reads [newArgs]
    through the iterator [it] and moves it on; there is nothing to read
    when the iterator is at the end. *)
Definition nextFunc (newArgs : list Val) (it : nat) : option (Val * nat) :=
  match newArgs !! it with
  | Some ret => Some (ret, S it)
  | None => None
  end.

(** The loop of [unflatten] over the elements of an aggregate: each
    element is rebuilt and inserted at its position. *)
Fixpoint insertElements {A : Type}
    (element : A → nat → option (Val * list Action * nat))
    (elements : list A) (i : nat) (val : Val) (created : list Action)
    (it : nat) : option (Val * list Action * nat) :=
  match elements with
  | [] => Some (val, created, it)
  | elem :: elements =>
      match element elem it with
      | Some (elemVal, more, it') =>
          let val' := InsertValue val elemVal i in
          insertElements element elements (S i) val'
                         (created ++ more ++ [CreateOp val']) it'
      | None => None
      end
  end.

(** [unflatten]: the value, the operations created and the iterator. *)
Fixpoint unflatten (type : Ty) (newArgs : list Val) (it : nat)
    : option (Val * list Action * nat) :=
  match type with
  | LLVMStructType body =>
      insertElements (λ elemType, unflatten elemType newArgs) body 0%nat
                     (Undef (Some type)) [CreateOp (Undef (Some type))] it
  | LLVMArrayType elemType size =>
      insertElements (λ _ : nat, unflatten elemType newArgs)
                     (seq 0 size) 0%nat
                     (Undef (Some type)) [CreateOp (Undef (Some type))] it
  | _ =>
      match nextFunc newArgs it with
      | Some (ret, it') => Some (ret, [], it')
      | None => None
      end
  end.

(** *** Notions the properties are stated with *)

(** The values put into an aggregate, in the order of their positions;
    a value that is not built by [llvm.insertvalue] from [llvm.undef]
    stands for itself. *)
Fixpoint insertedLeaves (val : Val) : list Val :=
  match val with
  | Undef _ => []
  | InsertValue container value _ =>
      insertedLeaves container ++ insertedLeaves value
  | _ => [val]
  end.

(** A value that [insertedLeaves] takes as it is. *)
Definition isScalar (val : Val) : Prop :=
  match val with
  | Undef _ | InsertValue _ _ _ => False
  | _ => True
  end.

(** What [unflatten] does for a type with [n] leaves at the iterator
    [it]: it takes the next [n] values, or finds too few. *)
Definition unflattened (newArgs : list Val) (n it : nat)
    (result : option (Val * list Action * nat)) : Prop :=
  match result with
  | Some (val, _, it') =>
      (it' = it + n)%nat
      ∧ insertedLeaves val = take n (drop it newArgs)
      ∧ (0 < n → it + n ≤ length newArgs)%nat
  | None => (length newArgs < it + n)%nat
  end.

(** The array descriptor of [memref<?xf64>]. *)
Definition vectorLeavesType : list Ty :=
  [LLVMPointerType; LLVMPointerType; IntegerType 64; IntegerType 64;
   LLVMPointerType; LLVMArrayType (IntegerType 64) 1;
   LLVMArrayType (IntegerType 64) 1].

End Unflatten.

(** ** The characters of the thunk names *)

Module ThunkNames.

(** A decimal digit. *)
Definition isDigit (c : Ascii.ascii) : bool :=
  (48 <=? Ascii.nat_of_ascii c)%nat && (Ascii.nat_of_ascii c <=? 57)%nat.

(** The first character of a string, if there is one, is a digit. *)
Definition startsWithDigit (s : string) : bool :=
  match s with
  | String c _ => isDigit c
  | EmptyString => false
  end.

(** All characters are digits. *)
Fixpoint allDigits (s : string) : bool :=
  match s with
  | String c s => isDigit c && allDigits s
  | EmptyString => true
  end.

End ThunkNames.

(** ** The conversions of the parameters ([fixFuncSig]) *)

Module Signatures.
Import FunctionBoundary.

(** The conversion a parameter gets: one for a memref, none for another
    type. *)
Definition conversionOf (type : Ty) : list MemRef :=
  match asMemRef type with Some memrefType => [memrefType] | None => [] end.

End Signatures.

(** ** Fast-math flags on operations ([ApplyFastmathFlags]) *)

Module ApplyFastmathFlags.

(** An operation with fast-math flags, a bit set, and the attributes of
    its parent operation, which is an [llvm.func]: the pattern casts the
    parent to one. *)
Record Op : Type := mkOp {
  fastmathFlags : Z;
  parentAttrs : Attrs
}.

Section Pattern.

(** [mlir::LLVM::FastmathFlags::fast] and [bitEnumContainsAny], which
    belong to MLIR. *)
Variable fast : Z.
Variable bitEnumContainsAny : Z → Z → bool.

(** [getFastmathFlags]: the flags handed to [sink]. *)
Definition getFastmathFlags (func : Attrs) : list Z :=
  if bool_decide (is_Some (func !! getFastmathName)) then [fast] else [].

(** [ApplyFastmathFlags::matchAndRewrite]: the result and the operation
    after it. *)
Definition matchAndRewrite (op : Op) : LogicalResult * Op :=
  let '(fmf, changed) :=
    foldl (λ '(fmf, changed) flag,
             if negb (bitEnumContainsAny fmf flag)
             then (Z.lor fmf flag, true)
             else (fmf, changed))
          (fastmathFlags op, false) (getFastmathFlags (parentAttrs op)) in
  if changed then (success, mkOp fmf (parentAttrs op))
  else (failure, op).

End Pattern.

End ApplyFastmathFlags.

(** ** The name of an outlined function ([LowerParallel]) *)

Module OutlinedNames.
Import FunctionBoundary.

(** The name tried at [i]. *)
Definition outlinedName (oldName : string) (i : nat) : string :=
  if decide (i = 0%nat) then oldName +:+ "_outlined"
  else oldName +:+ "_outlined_" +:+ pretty i.

(** The loop of the lambda [funcName]: the first name, from [i] on, that
    is not the name of a [func.func] of the module; [fuel] bounds the
    number of names it tries. *)
Fixpoint funcNameFrom (fuel : nat) (mod_ : ModuleOp) (oldName : string)
    (i : nat) : option string :=
  match fuel with
  | O => None
  | S fuel =>
      let name := outlinedName oldName i in
      match lookupFunc mod_ name with
      | None => Some name
      | Some _ => funcNameFrom fuel mod_ oldName (S i)
      end
  end.

Definition funcName (mod_ : ModuleOp) (oldName : string) : option string :=
  funcNameFrom (S (length mod_)) mod_ oldName 0.

End OutlinedNames.

(** ** Releasing a module ([ExecutionEngine::releaseModule]) *)

Module EngineLifecycle.
Import ExecutionEngine.

(** What the JIT answers when a library is released. *)
Record ReleaseWorld : Type := mkReleaseWorld {
  deinitialize : ModuleHandle → option Error;
  removeJITDylib : ModuleHandle → option Error
}.

(** The session forgets a library that was removed. *)
Definition forget (handle : ModuleHandle) : M unit :=
  λ engine,
    (Returned tt,
     mkEngine (uniqueNameCounter engine)
              (List.filter (λ name, negb (bool_decide (name = handle)))
                           (dylibs engine))
              (hasTransformer engine) (hasSymbolMap engine) (errs engine)).

(** [ExecutionEngine::releaseModule].  A handle is the name of its
    library, so that the assertion on the null handle holds. *)
Definition releaseModule (world : ReleaseWorld) (handle : ModuleHandle)
    : M unit :=
  bind (cantFail (deinitialize world handle)) (λ _,
  bind (cantFail (removeJITDylib world handle)) (λ _,
  forget handle)).

(** *** Notions the properties are stated with *)

(** Every library named like a module was named by the counter. *)
Definition namedByCounter (engine : Engine) : Prop :=
  ∀ k, uniqueNameAt k ∈ dylibs engine → (k < uniqueNameCounter engine)%nat.

(** A call that leaves the counter and the libraries as they are, and
    returns nothing but [a]. *)
Definition keeps {A : Type} (a : option A) (m : M A) : Prop :=
  ∀ engine,
    uniqueNameCounter (m engine).2 = uniqueNameCounter engine
    ∧ dylibs (m engine).2 = dylibs engine
    ∧ ∀ a' b, a = Some a' → (m engine).1 = Returned b → b = a'.

(** What [loadModule] leaves of such an engine: it is such an engine,
    its counter is not lower, and a handle that is returned is the name at
    the old counter, which was not a library and is the one library
    added. *)
Definition advanced (engine : Engine)
    (result : Outcome ModuleHandle * Engine) : Prop :=
  namedByCounter result.2
  ∧ (uniqueNameCounter engine ≤ uniqueNameCounter result.2)%nat
  ∧ ∀ dylib,
      result.1 = Returned dylib →
      dylib = uniqueNameAt (uniqueNameCounter engine)
      ∧ (dylib ∉ dylibs engine)
      ∧ dylibs result.2 = dylibs engine ++ [dylib]
      ∧ uniqueNameCounter result.2 = S (uniqueNameCounter engine).

End EngineLifecycle.

(** ** Setting up a module for the machine ([setupModule]) *)

Module SetupModule.

(** What [setupModule] reads of an [llvm::TargetMachine]; the triple is
    the normalized one. *)
Record TargetMachine : Type := mkTargetMachine {
  createDataLayout : string;
  getTargetTriple : string;
  getTargetCPU : string;
  getTargetFeatureString : string
}.

(** An [llvm::Module]: its data layout, its triple and the attributes of
    its functions. *)
Record Module : Type := mkModule {
  dataLayout : string;
  targetTriple : string;
  functions : list (gmap string string)
}.

(** The body of the loop over the functions. *)
Definition setupFunction (TM : TargetMachine) (func : gmap string string)
    : gmap string string :=
  let func1 :=
    if bool_decide (is_Some (func !! "target-cpu")) then func
    else <["target-cpu" := getTargetCPU TM]> func in
  if bool_decide (is_Some (func1 !! "target-features")) then func1
  else
    let featStr := getTargetFeatureString TM in
    if bool_decide (featStr = "") then func1
    else <["target-features" := featStr]> func1.

(** [setupModule] *)
Definition setupModule (M : Module) (TM : TargetMachine) : Module :=
  mkModule (createDataLayout TM) (getTargetTriple TM)
           (setupFunction TM <$> functions M).

End SetupModule.

(** ** The object cache ([SimpleObjectCache]) *)

Module SimpleObjectCache.

Record MemoryBuffer : Type := {
  getBuffer : string;
  getBufferIdentifier : string;
}.

(** [cachedObjects], by module identifier. *)
Abbreviation Cache := (gmap string MemoryBuffer).

(** [getMemBufferCopy] *)
Definition getMemBufferCopy (buffer identifier : string) : MemoryBuffer :=
  {| getBuffer := buffer; getBufferIdentifier := identifier |}.

Definition notifyObjectCompiled (moduleIdentifier : string)
    (objBuffer : MemoryBuffer) (cachedObjects : Cache) : Cache :=
  <[moduleIdentifier :=
      getMemBufferCopy (getBuffer objBuffer) (getBufferIdentifier objBuffer)]>
    cachedObjects.

(** [getObject]; nothing is the null pointer. *)
Definition getObject (moduleIdentifier : string) (cachedObjects : Cache)
    : option MemoryBuffer :=
  match cachedObjects !! moduleIdentifier with
  | None => None
  | Some object => Some object
  end.

(** What [dumpToObjectFile] does: it prints the message of the file that
    did not open, fails its assertion, or writes the file. *)
Inductive Dump : Type :=
| ErrorPrinted (errorMessage : string)
| AssertionFailed
| FileKept (content : string).

(** [dumpToObjectFile]; [file] is what [openOutputFile] gives: the error
    message when the file does not open. *)
Definition dumpToObjectFile (file : string + unit) (cachedObjects : Cache)
    : Dump :=
  match file with
  | inl errorMessage => ErrorPrinted errorMessage
  | inr _ =>
      if bool_decide (size cachedObjects = 1%nat) then
        match map_to_list cachedObjects with
        | (_, cachedObject) :: _ => FileKept (getBuffer cachedObject)
        | [] => AssertionFailed
        end
      else AssertionFailed
  end.

(** *** Notions the properties are stated with *)

(** The cache after the compilations of a list of modules, each with its
    identifier and its object. *)
Definition compiled (objects : list (string * MemoryBuffer)) : Cache :=
  foldl (λ cachedObjects object,
           notifyObjectCompiled object.1 object.2 cachedObjects)
        ∅ objects.

End SimpleObjectCache.

(** ** Structs passed to external functions ([FixLLVMStructABIPass]) *)

Module FixLLVMStructABI.

(** An SSA value: a value of the program, or the result of an operation
    the pass creates.  [id] tells the operations created apart. *)
Inductive Val : Type :=
| Operand (id : nat) (type : Ty)
| ConstantResult (id : nat) (type : Ty) (value : Z)
| AllocaResult (id : nat) (resType elemType : Ty) (arraySize : Val)
    (alignment : Z).

Definition getType (v : Val) : Ty :=
  match v with
  | Operand _ type => type
  | ConstantResult _ type _ => type
  | AllocaResult _ resType _ _ _ => resType
  end.

(** [mlir::LLVM::LLVMFuncOp]: its symbol, its function type and whether
    it has no body. *)
Record LLVMFuncOp : Type := mkLLVMFuncOp {
  symName : string;
  getParams : list Ty;
  getReturnType : Ty;
  isVarArg : bool;
  isExternal : bool;
}.

(** The operations of the function bodies: a call, with its callee when
    it is direct, a store, or another operation with the symbols it
    refers to. *)
Inductive Operation : Type :=
| CallOp (callee : option string) (operands : list Val)
| StoreOp (value addr : Val)
| OtherOp (symbols : list string) (operands : list Val).

(** The module: its LLVM functions and the operations of their bodies,
    both in the order of the walk, the operations created at the alloca
    insertion points, and the number of operations created. *)
Record ModuleOp : Type := mkModuleOp {
  funcs : list LLVMFuncOp;
  ops : list Operation;
  allocas : list Val;
  created : nat;
}.

Definition isLLVMStruct (type : Ty) : bool :=
  match type with LLVMStructType _ => true | _ => false end.

(** [getLLVMPointerType] *)
Definition getLLVMPointerType (elemType : Ty) : Ty := LLVMPointerType.

(** The first loop over the parameters: [newFuncTypes]. *)
Definition newFuncTypes (params : list Ty) : list Ty :=
  (λ type, if isLLVMStruct type then getLLVMPointerType type else type)
    <$> params.

(** [changed] after that loop. *)
Definition changed (params : list Ty) : bool := existsb isLLVMStruct params.

(** The loop given to [allocaHelper.insert], over the operands zipped
    with the new parameter types: the new arguments, the values created
    and the number of operations created. *)
Fixpoint newArgs (next : nat) (operands : list Val) (types : list Ty)
    : list Val * list Val * nat :=
  match operands, types with
  | arg :: operands, newType :: types =>
      let origType := getType arg in
      if decide (origType = newType) then
        let '(args, values, next') := newArgs next operands types in
        (arg :: args, values, next')
      else
        let one := ConstantResult next (IntegerType 32) 1 in
        let res := AllocaResult (S next) newType origType one 0 in
        let '(args, values, next') :=
          newArgs (S (S next)) operands types in
        (res :: args, one :: res :: values, next')
  | _, _ => ([], [], next)
  end.

(** The loop over the operands zipped with the new arguments: the stores
    put before the call. *)
Fixpoint stores (operands args : list Val) : list Operation :=
  match operands, args with
  | arg :: operands, newArg :: args =>
      if decide (getType arg = getType newArg) then stores operands args
      else StoreOp arg newArg :: stores operands args
  | _, _ => []
  end.

(** The loop over the uses of the function [name]; nothing stands for
    the call of [emitError] through the null pointer that the cast of a
    user that is no call gives. *)
Fixpoint rewriteUses (name : string) (types : list Ty) (next : nat)
    (body : list Operation)
    : option (list Operation * list Val * nat) :=
  match body with
  | [] => Some ([], [], next)
  | CallOp (Some callee) operands :: body =>
      if decide (callee = name) then
        let '(args, values, next1) := newArgs next operands types in
        match rewriteUses name types next1 body with
        | Some (body', values', next2) =>
            Some (stores operands args
                    ++ CallOp (Some callee) args :: body',
                  values ++ values', next2)
        | None => None
        end
      else
        match rewriteUses name types next body with
        | Some (body', values', next') =>
            Some (CallOp (Some callee) operands :: body', values', next')
        | None => None
        end
  | OtherOp symbols operands :: body =>
      if decide (name ∈ symbols) then None
      else
        match rewriteUses name types next body with
        | Some (body', values', next') =>
            Some (OtherOp symbols operands :: body', values', next')
        | None => None
        end
  | op :: body =>
      match rewriteUses name types next body with
      | Some (body', values', next') => Some (op :: body', values', next')
      | None => None
      end
  end.

(** [func.setFunctionType] *)
Definition setFunctionType (func : LLVMFuncOp) (types : list Ty)
    : LLVMFuncOp :=
  mkLLVMFuncOp (symName func) types (getReturnType func) (isVarArg func)
               (isExternal func).

(** The walk over the functions of the module. *)
Fixpoint walk (todo : list LLVMFuncOp) (body : list Operation)
    (values : list Val) (next : nat)
    : option (list LLVMFuncOp * list Operation * list Val * nat) :=
  match todo with
  | [] => Some ([], body, values, next)
  | func :: todo =>
      if negb (isExternal func) then
        match walk todo body values next with
        | Some (done, body', values', next') =>
            Some (func :: done, body', values', next')
        | None => None
        end
      else if negb (changed (getParams func)) then
        match walk todo body values next with
        | Some (done, body', values', next') =>
            Some (func :: done, body', values', next')
        | None => None
        end
      else
        let types := newFuncTypes (getParams func) in
        match rewriteUses (symName func) types next body with
        | Some (body1, values1, next1) =>
            match walk todo body1 (values ++ values1) next1 with
            | Some (done, body', values', next') =>
                Some (setFunctionType func types :: done,
                      body', values', next')
            | None => None
            end
        | None => None
        end
  end.

(** [FixLLVMStructABIPass::runOnOperation]; nothing is the null
    dereference. *)
Definition runOnOperation (mod_ : ModuleOp) : option ModuleOp :=
  match walk (funcs mod_) (ops mod_) (allocas mod_) (created mod_) with
  | Some (funcs', ops', allocas', created') =>
      Some (mkModuleOp funcs' ops' allocas' created')
  | None => None
  end.

(** *** Notions the properties are stated with *)

(** The external function of a name, if the module has one. *)
Definition lookupExternal (funcs : list LLVMFuncOp) (name : string)
    : option LLVMFuncOp :=
  find (λ func, bool_decide (symName func = name) && isExternal func) funcs.

(** A call of an external function passes a value of the type of each
    parameter. *)
Definition callMatches (funcs : list LLVMFuncOp) (op : Operation) : Prop :=
  match op with
  | CallOp (Some callee) operands =>
      ∀ func, func ∈ funcs → symName func = callee → isExternal func = true →
              getType <$> operands = getParams func
  | _ => True
  end.

(** No external function takes a struct. *)
Definition noStructParams (funcs : list LLVMFuncOp) : Prop :=
  ∀ func type, func ∈ funcs → isExternal func = true →
               type ∈ getParams func → isLLVMStruct type = false.

(** An external function with its struct parameters turned into
    pointers; another function as it is. *)
Definition fixed (func : LLVMFuncOp) : LLVMFuncOp :=
  if isExternal func then setFunctionType func (newFuncTypes (getParams func))
  else func.

(** The operations that are no calls and no stores. *)
Definition others (body : list Operation) : list Operation :=
  List.filter (λ op, match op with OtherOp _ _ => true | _ => false end) body.

(** Every call of the operations matches. *)
Definition callsMatch (funcs : list LLVMFuncOp) (body : list Operation)
    : Prop :=
  Forall (callMatches funcs) body.

(** *** An example

    [llvm.func @show(!llvm.struct<(f64, f64)>, i32)], external, and a
    function that calls it. *)

Definition point : Ty := LLVMStructType [FloatType 64; FloatType 64].

Definition showsPoint : ModuleOp :=
  mkModuleOp
    [mkLLVMFuncOp "show" [point; IntegerType 32] NoneType false true;
     mkLLVMFuncOp "main" [] NoneType false false]
    [CallOp (Some "show") [Operand 0 point; Operand 1 (IntegerType 32)]]
    [] 0.

Definition showsPointFixed : ModuleOp :=
  let one := ConstantResult 0 (IntegerType 32) 1 in
  let slot := AllocaResult 1 LLVMPointerType point one 0 in
  mkModuleOp
    [mkLLVMFuncOp "show" [LLVMPointerType; IntegerType 32] NoneType false true;
     mkLLVMFuncOp "main" [] NoneType false false]
    [StoreOp (Operand 0 point) slot;
     CallOp (Some "show") [slot; Operand 1 (IntegerType 32)]]
    [one; slot] 2.

End FixLLVMStructABI.

(** ** The results of an environment region
    ([EnvRegionPropagateOutsideValues], [CleanupRegionYieldArgs]) *)

Module EnvironmentRegion.

(** [numba_util.env_region] as the two patterns see it: its region,
    for each result whether it has uses, and the operands of the
    terminator of its body, that is, the values it yields. *)
Record EnvironmentRegionOp : Type := mkEnvironmentRegionOp {
  environment : Attribute;
  args : list Value;
  region : RegionId;
  resultUsed : list bool;
  yieldArgs : list Value;
}.

(** What stands for a result of the operation that is replaced: the
    null value, a value, or a result of the new operation. *)
Inductive Replacement : Type :=
| NullValue
| Direct (v : Value)
| NewResult (index : nat).

(** How a pattern ends: in a failed assertion, in failure, or with the
    values the new operation yields and what replaces the results of the
    old one. *)
Inductive Outcome : Type :=
| AssertionFailed
| Failed
| Rewritten (newYieldArgs : list Value) (newResults : list Replacement).

(** *** [EnvRegionPropagateOutsideValues] *)

Module Propagate.

(** The first loop: [newResults], with nothing for a null value, and
    [newYieldArgs]. *)
Definition visit (op : EnvironmentRegionOp)
    (st : list (option Value) * list Value) (i : nat)
    : list (option Value) * list Value :=
  match yieldArgs op !! i with
  | Some arg =>
      if negb (isAncestor (region op) arg)
      then (<[i := Some arg]> st.1, st.2)
      else (st.1, st.2 ++ [arg])
  | None => st
  end.

(** The second loop: the results that are null take the results of the
    new operation, from the front; [taken] counts those dropped from the
    front of the [available] ones, and nothing stands for the front of
    an empty range. *)
Fixpoint fill (newResults : list (option Value)) (taken available : nat)
    : option (list Replacement * nat) :=
  match newResults with
  | [] => Some ([], taken)
  | Some v :: newResults =>
      match fill newResults taken available with
      | Some (filled, taken') => Some (Direct v :: filled, taken')
      | None => None
      end
  | None :: newResults =>
      if decide (taken < available)%nat then
        match fill newResults (S taken) available with
        | Some (filled, taken') => Some (NewResult taken :: filled, taken')
        | None => None
        end
      else None
  end.

Definition matchAndRewrite (op : EnvironmentRegionOp) : Outcome :=
  let count := length (resultUsed op) in
  if negb (bool_decide (count = length (yieldArgs op))) then AssertionFailed
  else
    let '(newResults, newYieldArgs) :=
      foldl (visit op) (replicate count None, []) (seq 0 count) in
    if bool_decide (length newYieldArgs = count) then Failed
    else
      match fill newResults 0 (length newYieldArgs) with
      | Some (newResults, taken) =>
          if negb (bool_decide (taken = length newYieldArgs))
          then AssertionFailed
          else Rewritten newYieldArgs newResults
      | None => AssertionFailed
      end.

End Propagate.

(** *** [CleanupRegionYieldArgs] *)

Module Cleanup.

(** [argsMap.find_as] *)
Definition find_as (argsMap : list (Value * Z)) (arg : Value) : option Z :=
  snd <$> List.find (λ entry, bool_decide (entry.1 = arg)) argsMap.

Record State : Type := mkState {
  newYieldArgs : list Value;
  newResultsMapping : list Z;
  argsMap : list (Value * Z);
}.

(** The body of the first loop. *)
Definition visit (op : EnvironmentRegionOp) (st : State) (i : nat) : State :=
  match resultUsed op !! i, yieldArgs op !! i with
  | Some true, Some arg =>
      match find_as (argsMap st) arg with
      | None =>
          let ind := Z.of_nat (length (newYieldArgs st)) in
          mkState (newYieldArgs st ++ [arg])
                  (<[i := ind]> (newResultsMapping st))
                  ((arg, ind) :: argsMap st)
      | Some ind =>
          mkState (newYieldArgs st)
                  (<[i := ind]> (newResultsMapping st))
                  (argsMap st)
      end
  | _, _ => st
  end.

Definition matchAndRewrite (op : EnvironmentRegionOp) : Outcome :=
  let count := length (resultUsed op) in
  if negb (bool_decide (count = length (yieldArgs op))) then AssertionFailed
  else
    let st :=
      foldl (visit op) (mkState [] (replicate count (-1)) []) (seq 0 count) in
    if bool_decide (length (newYieldArgs st) = count) then Failed
    else
      Rewritten (newYieldArgs st)
                ((λ mapInd : Z,
                    if bool_decide (mapInd ≠ -1)
                    then NewResult (Z.to_nat mapInd) else NullValue)
                   <$> newResultsMapping st).

End Cleanup.

(** *** Notions the properties are stated with *)

(** The value that stands for a result after the rewrite: the value
    itself, or what the new operation yields for its result. *)
Definition standsFor (newYieldArgs : list Value) (r : Replacement)
    : option Value :=
  match r with
  | NullValue => None
  | Direct v => Some v
  | NewResult index => newYieldArgs !! index
  end.

(** The new operation: a result of it has uses when it replaces a
    result that had uses. *)
Definition newOp (op : EnvironmentRegionOp) (newYieldArgs : list Value)
    (newResults : list Replacement) : EnvironmentRegionOp :=
  mkEnvironmentRegionOp
    (environment op) (args op) (region op)
    ((λ index,
        existsb (λ i, match resultUsed op !! i, newResults !! i with
                      | Some true, Some (NewResult k) =>
                          bool_decide (k = index)
                      | _, _ => false
                      end)
                (seq 0 (length (resultUsed op))))
       <$> seq 0 (length newYieldArgs))
    newYieldArgs.

(** What the first loop of [CleanupRegionYieldArgs] has built when it
    has visited the results before [n]. *)
Record visited (op : EnvironmentRegionOp) (n : nat) (st : Cleanup.State)
    : Prop := mkVisited {
  visited_NoDup : NoDup (Cleanup.newYieldArgs st);
  visited_argsMap : ∀ arg,
    match Cleanup.find_as (Cleanup.argsMap st) arg with
    | Some ind =>
        ∃ k, ind = Z.of_nat k ∧ Cleanup.newYieldArgs st !! k = Some arg
    | None => arg ∉ Cleanup.newYieldArgs st
    end;
  visited_length :
    length (Cleanup.newResultsMapping st) = length (resultUsed op);
  visited_used : ∀ i,
    (i < n)%nat → resultUsed op !! i = Some true →
    ∃ k arg,
      Cleanup.newResultsMapping st !! i = Some (Z.of_nat k)
      ∧ Cleanup.newYieldArgs st !! k = Some arg
      ∧ yieldArgs op !! i = Some arg;
  visited_unused : ∀ i,
    (n ≤ i)%nat ∨ resultUsed op !! i = Some false →
    (i < length (resultUsed op))%nat →
    Cleanup.newResultsMapping st !! i = Some (-1);
  visited_from : ∀ k arg,
    Cleanup.newYieldArgs st !! k = Some arg →
    ∃ i, (i < n)%nat ∧ resultUsed op !! i = Some true
         ∧ yieldArgs op !! i = Some arg
         ∧ Cleanup.newResultsMapping st !! i = Some (Z.of_nat k);
  visited_count : (length (Cleanup.newYieldArgs st) ≤ n)%nat;
  visited_all :
    length (Cleanup.newYieldArgs st) = n ↔
    (∀ i, (i < n)%nat → resultUsed op !! i = Some true)
    ∧ NoDup (take n (yieldArgs op));
}.

(** *** An example

    A region that yields [%a, %c, %a, %b], where [%a] and [%b] are
    defined in it and [%c] is defined outside; its last result has no
    uses. *)

Definition valueIn (regions : list RegionId) (id : nat) : Value :=
  mkValue id (IntegerType 64) regions false.

Definition yieldsFour : EnvironmentRegionOp :=
  mkEnvironmentRegionOp
    ParallelAttr [] 7%nat [true; true; true; false]
    [valueIn [7; 1]%nat 0; valueIn [1%nat] 2; valueIn [7; 1]%nat 0;
     valueIn [7; 1]%nat 1].

End EnvironmentRegion.

(** ** Loads promoted to the stored value ([promoteLoads]) *)

Module PromoteLoads.

(** An SSA value. *)
Abbreviation ValueId := nat.

(** An operation: a load with its result, a store, or another
    operation with its result, its operands, the memory effects it
    declares when it has the effect interface (whether it writes, whether
    it reads), the trait [HasRecursiveSideEffects] and its regions, each
    a list of blocks. *)
Inductive Operation : Type :=
| LoadOp (result memref : ValueId) (indices : list ValueId)
| StoreOp (value memref : ValueId) (indices : list ValueId)
| OtherOp (result : ValueId) (operands : list ValueId)
    (effects : option (bool * bool)) (hasRecursiveSideEffects : bool)
    (regions : list (list (list Operation))).

Abbreviation Block := (list Operation).
Abbreviation Region := (list Block).

(** [isWrite] and [isRead] *)
Definition isWrite (effects : option (bool * bool)) : bool :=
  match effects with Some (write, _) => write | None => false end.
Definition isRead (effects : option (bool * bool)) : bool :=
  match effects with Some (_, read) => read | None => false end.

(** [struct Result] *)
Record Result : Type := mkResult {
  changed : bool;
  hasWrites : bool;
  hasReads : bool;
}.

(** The uses the rewriter has replaced: the value that stands for a
    replaced result. *)
Abbreviation Replaced := (gmap ValueId ValueId).

Definition current (replaced : Replaced) (v : ValueId) : ValueId :=
  default v (replaced !! v).

(** The state of the loops: the locals of [promoteLoadsImpl], the store
    [currentStore] with its place in the block, the block as the
    rewriter has left it so far, and the uses replaced. *)
Record State : Type := mkState {
  st_changed : bool;
  st_hasWrites : bool;
  st_hasReads : bool;
  storeDead : bool;
  currentStore : option (nat * (ValueId * ValueId * list ValueId));
  block : Block;
  replaced : Replaced;
}.

(** The loop over the operations of a block. *)
Definition opsLoop (visit : Operation → State → State)
    : Block → State → State :=
  fix loop ops st :=
    match ops with
    | [] => st
    | op :: ops => loop ops (visit op st)
    end.

(** The loop over the blocks of a region, from the locals as they are
    declared: the result, the blocks and the uses replaced. *)
Definition blocksLoop (visit : Operation → State → State)
    : Region → State → list Block → State * list Block :=
  fix loop blocks st done :=
    match blocks with
    | [] => (st, done)
    | ops :: blocks =>
        let st' :=
          opsLoop visit ops
            (mkState (st_changed st) (st_hasWrites st) (st_hasReads st)
                     (storeDead st) None [] (replaced st)) in
        loop blocks st' (done ++ [block st'])
    end.

Definition regionImpl (visit : Operation → State → State)
    (region : Region) (replaced : Replaced) : Result * Region * Replaced :=
  let '(st, blocks) :=
    blocksLoop visit region
               (mkState false false false false None [] replaced) [] in
  (mkResult (st_changed st) (st_hasWrites st) (st_hasReads st),
   blocks, PromoteLoads.replaced st).

(** The loop over the regions of an operation. *)
Definition regionsLoop (visit : Operation → State → State)
    : list Region → State → list Region → State * list Region :=
  fix loop regions st done :=
    match regions with
    | [] => (st, done)
    | nestedRegion :: regions =>
        let '(res, region', replaced') :=
          regionImpl visit nestedRegion (replaced st) in
        loop regions
             (mkState (if changed res then true else st_changed st)
                      (st_hasWrites st) (st_hasReads st)
                      (if hasReads res then false else storeDead st)
                      (if hasWrites res then None else currentStore st)
                      (block st) replaced')
             (done ++ [region'])
    end.

(** The body of the loop over the operations. *)
Fixpoint visit (op : Operation) (st : State) : State :=
  let now := current (replaced st) in
  match op with
  | LoadOp result memref indices =>
      match currentStore st with
      | Some (_, (value, storeMemref, storeIndices)) =>
          if bool_decide (now memref = storeMemref
                          ∧ now <$> indices = storeIndices) then
            mkState true (st_hasWrites st) true (storeDead st)
                    (currentStore st) (block st)
                    (<[result := value]> (replaced st))
          else
            mkState (st_changed st) (st_hasWrites st) true false
                    (currentStore st)
                    (block st ++ [LoadOp result (now memref) (now <$> indices)])
                    (replaced st)
      | None =>
          mkState (st_changed st) (st_hasWrites st) true (storeDead st)
                  (currentStore st)
                  (block st ++ [LoadOp result (now memref) (now <$> indices)])
                  (replaced st)
      end
  | StoreOp value memref indices =>
      let erased :=
        match currentStore st with
        | Some (place, (_, storeMemref, storeIndices)) =>
            if storeDead st
               && bool_decide (storeMemref = now memref
                               ∧ storeIndices = now <$> indices)
            then delete place (block st) else block st
        | None => block st
        end in
      mkState (st_changed st) true (st_hasReads st) true
              (Some (length erased, (now value, now memref, now <$> indices)))
              (erased ++ [StoreOp (now value) (now memref) (now <$> indices)])
              (replaced st)
  | OtherOp result operands effects recursive regions =>
      match regions with
      | _ :: _ =>
          let '(st', regions') := regionsLoop visit regions st [] in
          mkState (st_changed st') (st_hasWrites st') (st_hasReads st')
                  (storeDead st') (currentStore st')
                  (block st'
                     ++ [OtherOp result (now <$> operands) effects recursive
                                 regions'])
                  (replaced st')
      | [] =>
          let op' := OtherOp result (now <$> operands) effects recursive [] in
          if isWrite effects then
            mkState (st_changed st) true (st_hasReads st) (storeDead st) None
                    (block st ++ [op']) (replaced st)
          else if isRead effects then
            mkState (st_changed st) (st_hasWrites st) true false
                    (currentStore st) (block st ++ [op']) (replaced st)
          else if recursive then
            mkState (st_changed st) true true false None
                    (block st ++ [op']) (replaced st)
          else
            mkState (st_changed st) (st_hasWrites st) (st_hasReads st)
                    (storeDead st) (currentStore st) (block st ++ [op'])
                    (replaced st)
      end
  end.

(** [promoteLoadsImpl] *)
Definition promoteLoadsImpl (region : Region) (replaced : Replaced)
    : Result * Region * Replaced :=
  regionImpl visit region replaced.

(** [plier::promoteLoads] *)
Definition promoteLoads (region : Region) : LogicalResult * Region :=
  let '(res, region', _) := promoteLoadsImpl region ∅ in
  (if changed res then success else failure, region').

(** *** The meaning of straight-line code *)

(** The memory, by address; a cell never written holds 0. *)
Abbreviation Memory := (gmap Z Z).

Record Machine : Type := mkMachine {
  env : ValueId → Z;
  mem : Memory;
}.

(** The values with a value defined. *)
Definition define (result : ValueId) (x : Z) (env : ValueId → Z)
    : ValueId → Z :=
  λ v, if decide (v = result) then x else env v.

Section Semantics.

(** The address of an element, from the value of the memref and the
    values of the indices, and what another operation computes from the
    values of its operands and the memory: its result and the memory it
    leaves. *)
Variable address : Z → list Z → Z.
Variable effect : ValueId → list Z → Memory → Z * Memory.

Definition step (s : Machine) (op : Operation) : Machine :=
  match op with
  | LoadOp result memref indices =>
      mkMachine
        (define result
                (default 0 (mem s !! address (env s memref)
                                             (env s <$> indices)))
                (env s))
        (mem s)
  | StoreOp value memref indices =>
      mkMachine
        (env s)
        (<[address (env s memref) (env s <$> indices) := env s value]>
           (mem s))
  | OtherOp result operands _ _ _ =>
      let '(x, mem') := effect result (env s <$> operands) (mem s) in
      mkMachine (define result x (env s)) mem'
  end.

Definition run (ops : Block) (s : Machine) : Machine := foldl step s ops.

(** An operation of straight-line code that declares its effects, and
    keeps to them: it has the effect interface and no regions; it leaves
    the memory as it is unless it writes, and what it computes does not
    depend on the memory unless it writes or reads. *)
Definition declared (op : Operation) : Prop :=
  match op with
  | OtherOp result _ effects _ regions =>
      regions = []
      ∧ ∃ write read,
          effects = Some (write, read)
          ∧ (write = false → ∀ vals m, (effect result vals m).2 = m)
          ∧ (write = false → read = false →
             ∀ vals m m', (effect result vals m).1 = (effect result vals m').1)
  | _ => True
  end.

(** What the loop over a block keeps, when it has visited the
    operations [visited], which mention the values [seen]: the block it
    has built computes what they compute, up to the uses replaced; the
    cell of [currentStore] holds the value stored; and while the store is
    dead, the block without it differs in that cell at most. *)
Record simulates (s0 : Machine) (seen : list ValueId) (visited : Block)
    (st : State) : Prop := mkSimulates {
  sim_env : ∀ v,
    env (run visited s0) v
    = env (run (block st) s0) (current (replaced st) v);
  sim_mem : mem (run visited s0) = mem (run (block st) s0);
  sim_replaced : ∀ v v',
    replaced st !! v = Some v' → v ∈ seen ∧ v' ∈ seen;
  sim_store : ∀ place value memref indices,
    currentStore st = Some (place, (value, memref, indices)) →
    let s := run (block st) s0 in
    block st !! place = Some (StoreOp value memref indices)
    ∧ mem s !! address (env s memref) (env s <$> indices)
      = Some (env s value)
    ∧ Forall (λ v, v ∈ seen) (value :: memref :: indices);
  sim_dead : ∀ place value memref indices,
    currentStore st = Some (place, (value, memref, indices)) →
    storeDead st = true →
    let s := run (block st) s0 in
    let s' := run (delete place (block st)) s0 in
    (∀ v, env s' v = env s v)
    ∧ ∀ a, a ≠ address (env s memref) (env s <$> indices) →
           mem s' !! a = mem s !! a;
}.

End Semantics.

(** The values an operation mentions, and its result. *)
Definition mentions (op : Operation) : list ValueId :=
  match op with
  | LoadOp result memref indices => result :: memref :: indices
  | StoreOp value memref indices => value :: memref :: indices
  | OtherOp result operands _ _ _ => result :: operands
  end.

Definition resultOf (op : Operation) : option ValueId :=
  match op with
  | LoadOp result _ _ => Some result
  | StoreOp _ _ _ => None
  | OtherOp result _ _ _ _ => Some result
  end.

(** SSA form: no operation defines a value that an operation before it
    mentions. *)
Fixpoint ssa (seen : list ValueId) (ops : Block) : Prop :=
  match ops with
  | [] => True
  | op :: ops =>
      (∀ result, resultOf op = Some result → result ∉ seen)
      ∧ ssa (mentions op ++ seen) ops
  end.

(** *** Notions the properties are stated with *)

(** An operation without regions that sets [hasWrites], or [hasReads], of
    the loop that visits it. *)
Definition writesDirectly (op : Operation) : bool :=
  match op with
  | StoreOp _ _ _ => true
  | OtherOp _ _ effects recursive [] =>
      isWrite effects || (negb (isRead effects) && recursive)
  | _ => false
  end.

Definition readsDirectly (op : Operation) : bool :=
  match op with
  | LoadOp _ _ _ => true
  | OtherOp _ _ effects recursive [] =>
      negb (isWrite effects) && (isRead effects || recursive)
  | _ => false
  end.

Definition hasRegions (op : Operation) : bool :=
  match op with
  | OtherOp _ _ _ _ (_ :: _) => true
  | _ => false
  end.

(** *** An example

    [store %10, %1[%2]; %3 = load %1[%2]; store %11, %1[%2];
    %4 = add %3, %3] *)

Definition storesTwice : Block :=
  [StoreOp 10 1 [2%nat]; LoadOp 3 1 [2%nat]; StoreOp 11 1 [2%nat];
   OtherOp 4 [3%nat; 3%nat] (Some (false, false)) false []].

(** Addresses as in a buffer of rows of 16 elements, and operations that
    add their operands. *)
Definition rowMajor (memref : Z) (indices : list Z) : Z :=
  foldl (λ offset index, 16 * offset + index) memref indices.

Definition adds (result : ValueId) (vals : list Z) (m : Memory)
    : Z * Memory :=
  (foldr Z.add 0 vals, m).

End PromoteLoads.

(** ** The bodies of the conversion thunks
    ([getToMemrefConversionFunc], [getFromMemrefConversionFunc]) *)

Module Thunks.
Import FunctionBoundary.

(** A value of a thunk body: the argument of the entry block, or the
    result of an operation the builder creates. *)
Inductive Value : Type :=
| BlockArgument (type : Ty)
| ExtractValueOp (resType : Ty) (container : Value) (position : nat)
| InsertValueOp (container value : Value) (position : nat)
| UndefOp (type : Ty)
| ConstantOp (type : Ty) (value : Z)
| ZeroOp (type : Ty)
| SDivOp (lhs rhs : Value)
| MulOp (lhs rhs : Value)
| GEPOp (resType elemType : Ty) (base index : Value)
| CallOp (resType : Ty) (callee : string)
| LoadOp (resType : Ty) (addr : Value).

Fixpoint getType (v : Value) : Ty :=
  match v with
  | BlockArgument type => type
  | ExtractValueOp resType _ _ => resType
  | InsertValueOp container _ _ => getType container
  | UndefOp type => type
  | ConstantOp type _ => type
  | ZeroOp type => type
  | SDivOp lhs _ => getType lhs
  | MulOp lhs _ => getType lhs
  | GEPOp resType _ _ _ => resType
  | CallOp resType _ => resType
  | LoadOp resType _ => resType
  end.

(** The operations of a body that act on the memory, in the order they
    are created. *)
Inductive Effect : Type :=
| CallEffect (callee : string) (args : list Value)
| StoreEffect (value addr : Value)
| LoadEffect (addr : Value).

(** The body of a thunk: those operations and the value returned. *)
Record Body : Type := mkBody {
  effects : list Effect;
  returned : Value;
}.

Definition i64 : Ty := IntegerType 64.
Definition ptrType : Ty := LLVMPointerType.

(** [divStrides] *)
Definition divStrides (strides m : Value) : Result Value :=
  match getType strides with
  | LLVMArrayType elementType count =>
      Ok (foldl (λ array i,
                   let prev := ExtractValueOp elementType strides i in
                   let val := SDivOp prev m in
                   InsertValueOp array val i)
                (UndefOp (LLVMArrayType elementType count)) (seq 0 count))
  | _ => AssertionFailed
  end.

(** [mulStrides] *)
Definition mulStrides (strides m : Value) : Result Value :=
  match getType strides with
  | LLVMArrayType elementType count =>
      Ok (foldl (λ array i,
                   let prev := ExtractValueOp elementType strides i in
                   let val := MulOp prev m in
                   InsertValueOp array val i)
                (UndefOp (LLVMArrayType elementType count)) (seq 0 count))
  | _ => AssertionFailed
  end.

(** The lambda [extract] of both thunks; [srcType] is the body of the
    struct type. *)
Definition extract (srcType : list Ty) (arg : Value) (index : nat)
    : Result Value :=
  bind (assertSome (srcType !! index)) (λ resType,
    Ok (ExtractValueOp resType arg index)).

(** [rank > 0 ? extract(index) : mlir::Value()] *)
Definition extractRanked (rank : nat) (srcType : list Ty) (arg : Value)
    (index : nat) : Result (option Value) :=
  if decide (0 < rank)%nat
  then bind (extract srcType arg index) (λ v, Ok (Some v))
  else Ok None.

(** The body [getToMemrefConversionFunc] gives a new thunk, from an
    array descriptor to a memref descriptor; [wrapAllocPtr] with
    [ensureUniqueAllocPtr]. *)
Definition toMemrefBody (memrefType : MemRef) (srcType dstType : list Ty)
    : Result Body :=
  let arg := BlockArgument (LLVMStructType srcType) in
  bind (extract srcType arg 0) (λ meminfo,
  bind (extract srcType arg 4) (λ ptr,
  let rank := getRank memrefType in
  bind (extractRanked rank srcType arg 5) (λ shape,
  bind (extractRanked rank srcType arg 6) (λ strides,
  let offset := ConstantOp i64 0 in
  let res := UndefOp (LLVMStructType dstType) in
  let token := CallOp ptrType "nmrtCreateAllocToken" in
  let wrapped :=
    [CallEffect "nmrtCreateAllocToken" []; StoreEffect meminfo token] in
  bind (itemSize (elementType memrefType)) (λ size,
  let itemsize := ConstantOp i64 (Z.of_N size) in
  let res := InsertValueOp res token 0 in
  let res := InsertValueOp res ptr 1 in
  let res := InsertValueOp res offset 2 in
  match shape, strides with
  | Some shape, Some strides =>
      bind (divStrides strides itemsize) (λ divided,
        Ok (mkBody wrapped
                   (InsertValueOp (InsertValueOp res shape 3) divided 4)))
  | _, _ => Ok (mkBody wrapped res)
  end))))).

(** The body [getFromMemrefConversionFunc] gives a new thunk, from a
    memref descriptor to an array descriptor; [unwrapAllocPtr] and
    [freeAllocPtrWrapper] with [ensureUniqueAllocPtr]. *)
Definition fromMemrefBody (memrefType : MemRef) (elemType : Ty)
    (srcType dstType : list Ty) : Result Body :=
  let arg := BlockArgument (LLVMStructType srcType) in
  let i8ptrType := ptrType in
  let i64Type := i64 in
  bind (extract srcType arg 0) (λ allocPtr,
  bind (extract srcType arg 1) (λ origPtr,
  bind (extract srcType arg 2) (λ offset,
  let rank := getRank memrefType in
  bind (extractRanked rank srcType arg 3) (λ shape,
  bind (extractRanked rank srcType arg 4) (λ strides,
  let meminfo := LoadOp ptrType allocPtr in
  let unwrapped :=
    [LoadEffect allocPtr; CallEffect "nmrtDestroyAllocToken" [allocPtr]] in
  let ptr := GEPOp (getType origPtr) elemType origPtr offset in
  let res := UndefOp (LLVMStructType dstType) in
  let null := ZeroOp i8ptrType in
  let nitems :=
    match shape with
    | Some shape =>
        foldl (λ nitems i,
                 let dim := ExtractValueOp (getType nitems) shape i in
                 MulOp nitems dim)
              (ConstantOp i64Type 1) (seq 0 rank)
    | None => ConstantOp i64Type 1
    end in
  bind (itemSize (elementType memrefType)) (λ size,
  let itemsize := ConstantOp i64Type (Z.of_N size) in
  let res := InsertValueOp res meminfo 0 in
  let res := InsertValueOp res null 1 in
  let res := InsertValueOp res nitems 2 in
  let res := InsertValueOp res itemsize 3 in
  let res := InsertValueOp res ptr 4 in
  match shape, strides with
  | Some shape, Some strides =>
      bind (mulStrides strides itemsize) (λ multiplied,
        Ok (mkBody unwrapped
                   (InsertValueOp (InsertValueOp res shape 5) multiplied 6)))
  | _, _ => Ok (mkBody unwrapped res)
  end)))))).

(** *** What a body computes *)

(** A value at run time: an integer of 64 bits, a pointer, a struct, an
    array, or an undefined value. *)
Inductive RV : Type :=
| Int (z : Z)
| Ptr (p : Z)
| Struct (fields : list RV)
| Array (elems : list RV)
| Undef.

Definition undefOf (type : Ty) : RV :=
  match type with
  | LLVMStructType body => Struct (replicate (length body) Undef)
  | LLVMArrayType _ count => Array (replicate count Undef)
  | _ => Undef
  end.

(** The signed integer of 64 bits a number wraps to. *)
Definition wrap64 (z : Z) : Z := (z + 2 ^ 63) `mod` 2 ^ 64 - 2 ^ 63.

(** The memory the tokens live in. *)
Abbreviation Heap := (gmap Z RV).

(** What the entry argument, the call of [nmrtCreateAllocToken] and the
    load have given. *)
Record Env : Type := mkEnv {
  argument : RV;
  token : Z;
  loaded : RV;
}.

Section Run.

(** The size of a type in bytes, and the runtime's allocation of a
    token: the address it returns in a heap. *)
Variable sizeOf : Ty → Z.
Variable createToken : Heap → Z.

Fixpoint eval (env : Env) (v : Value) : RV :=
  match v with
  | BlockArgument _ => argument env
  | ExtractValueOp _ container position =>
      match eval env container with
      | Struct fields => default Undef (fields !! position)
      | Array elems => default Undef (elems !! position)
      | _ => Undef
      end
  | InsertValueOp container value position =>
      match eval env container with
      | Struct fields => Struct (<[position := eval env value]> fields)
      | Array elems => Array (<[position := eval env value]> elems)
      | _ => Undef
      end
  | UndefOp type => undefOf type
  | ConstantOp _ value => Int value
  | ZeroOp _ => Ptr 0
  | SDivOp lhs rhs =>
      match eval env lhs, eval env rhs with
      | Int a, Int b => if decide (b = 0) then Undef else Int (wrap64 (a ÷ b))
      | _, _ => Undef
      end
  | MulOp lhs rhs =>
      match eval env lhs, eval env rhs with
      | Int a, Int b => Int (wrap64 (a * b))
      | _, _ => Undef
      end
  | GEPOp _ elemType base index =>
      match eval env base, eval env index with
      | Ptr p, Int i => Ptr (p + i * sizeOf elemType)
      | _, _ => Undef
      end
  | CallOp _ _ => Ptr (token env)
  | LoadOp _ _ => loaded env
  end.

(** An operation on the memory.  [nmrtCreateAllocToken] returns the
    address of a new cell, [nmrtDestroyAllocToken] gives the cell of its
    argument back. *)
Definition perform (st : Env * Heap) (e : Effect) : Env * Heap :=
  let '(env, heap) := st in
  match e with
  | CallEffect callee args =>
      if bool_decide (callee = "nmrtCreateAllocToken") then
        let t := createToken heap in
        (mkEnv (argument env) t (loaded env), <[t := Undef]> heap)
      else if bool_decide (callee = "nmrtDestroyAllocToken") then
        match eval env <$> args with
        | [Ptr p] => (env, delete p heap)
        | _ => st
        end
      else st
  | StoreEffect value addr =>
      match eval env addr with
      | Ptr p => (env, <[p := eval env value]> heap)
      | _ => st
      end
  | LoadEffect addr =>
      match eval env addr with
      | Ptr p =>
          (mkEnv (argument env) (token env) (default Undef (heap !! p)), heap)
      | _ => st
      end
  end.

(** A thunk called with an argument in a heap: the value it returns and
    the heap it leaves. *)
Definition call (body : Body) (arg : RV) (heap : Heap) : RV * Heap :=
  let '(env, heap') := foldl perform (mkEnv arg 0 Undef, heap) (effects body) in
  (eval env (returned body), heap').

End Run.

(** *** Notions the properties are stated with *)

(** The body of the descriptor of a memref of a rank, as MLIR's LLVM
    type converter gives it. *)
Definition memrefDescriptor (rank : nat) : list Ty :=
  [ptrType; ptrType; i64]
    ++ if decide (0 < rank)%nat
       then [LLVMArrayType i64 rank; LLVMArrayType i64 rank] else [].

(** An array descriptor at run time. *)
Definition arrayValue (meminfo parent nitems itemsize data : Z)
    (extents strides : list Z) : RV :=
  Struct ([Ptr meminfo; Ptr parent; Int nitems; Int itemsize; Ptr data]
            ++ match extents with
               | [] => []
               | _ => [Array (Int <$> extents); Array (Int <$> strides)]
               end).

(** A memref descriptor at run time. *)
Definition memrefValue (allocated aligned offset : Z)
    (extents strides : list Z) : RV :=
  Struct ([Ptr allocated; Ptr aligned; Int offset]
            ++ match extents with
               | [] => []
               | _ => [Array (Int <$> extents); Array (Int <$> strides)]
               end).

(** The number of elements, as the thunk multiplies the extents. *)
Definition countItems (extents : list Z) : Z :=
  foldl (λ nitems dim, wrap64 (nitems * dim)) 1 extents.

(** A stride in bytes divided by the size of an element and multiplied
    by it again. *)
Definition roundStride (size : Z) (stride : Z) : Z :=
  wrap64 (wrap64 (stride ÷ size) * size).

(** *** An example

    [memref<?x?xf64>], elements of 8 bytes, and a runtime that gives the
    tokens addresses no cell of the heap has. *)

Definition matrixOfF64 : MemRef :=
  mkMemRef [kDynamic; kDynamic] f64 IdentityLayout 0.

Definition freshToken (heap : Heap) : Z := fresh (dom heap : gset Z).

End Thunks.

(** * Properties *)

Section EscapeAnalysis.
Import HoistBufferAllocs.

(** Induction over use trees. *)
Lemma Operation_users_ind (P : Operation → Prop) :
  (∀ kind users, Forall P users → P (mkOperation kind users)) →
  ∀ op, P op.
Proof.
  intros step. fix IH 1. intros [kind users]. apply step.
  induction users as [|u us IHus]; constructor; [apply IH | exact IHus].
Qed.

Lemma canResultEscape_cons kind user rest original :
  canResultEscape (mkOperation kind (user :: rest)) original =
    if isLoadOrStore user then canResultEscape (mkOperation kind rest) original
    else if original && isDealloc user
         then canResultEscape (mkOperation kind rest) original
    else if isViewLike user then
      if canResultEscape user false then true
      else canResultEscape (mkOperation kind rest) original
    else true.
Proof. reflexivity. Qed.

Lemma escapesSpec_cons kind user rest original :
  escapesSpec original (mkOperation kind (user :: rest)) ↔
    ¬ (opKind user = KLoad
       ∨ opKind user = KStore
       ∨ (original = true ∧ opKind user = KDealloc)
       ∨ (isViewLike user = true ∧ ¬ escapesSpec false user))
    ∨ escapesSpec original (mkOperation kind rest).
Proof. reflexivity. Qed.

Lemma canResultEscape_escapesSpec op original :
  canResultEscape op original = true ↔ escapesSpec original op.
Proof.
  revert original. induction op as [kind users IH] using Operation_users_ind.
  induction users as [|user rest IHrest]; intros original.
  { split; [discriminate | intros []]. }
  apply Forall_cons in IH as [IHuser IHtail].
  specialize (IHrest IHtail original). specialize (IHuser false).
  rewrite canResultEscape_cons, escapesSpec_cons, <- IHrest, <- IHuser.
  unfold isLoadOrStore, isDealloc, isViewLike.
  destruct (canResultEscape user false), original, (opKind user);
    cbn [andb]; intuition congruence.
Qed.

Lemma escapesSpec_exists original op :
  escapesSpec original op
  ↔ ∃ user, user ∈ getUsers op ∧ ¬ acceptedUse original user.
Proof.
  destruct op as [kind users]. cbn [getUsers].
  induction users as [|user rest IH].
  - split; [intros []|intros (user & Hin & _); by apply elem_of_nil in Hin].
  - rewrite escapesSpec_cons, IH. split.
    + intros [H|(user' & Hin & H)].
      * exists user. split; [left|exact H].
      * exists user'. split; [by right|exact H].
    + intros (user' & [->|Hin]%elem_of_cons & H); [left; exact H|].
      right. eauto.
Qed.

(** C5: the result of an operation can escape exactly when some use of it
    is neither a load, nor a store, nor a deallocation of the original
    allocation, nor a view-like operation whose own result does not
    escape. *)
Theorem canResultEscape_iff_unaccepted_use op original :
  (canResultEscape op original = true ↔ escapesSpec original op)
  ∧ (escapesSpec original op
     ↔ ∃ user, user ∈ getUsers op ∧ ¬ acceptedUse original user).
Proof.
  split; [apply canResultEscape_escapesSpec|apply escapesSpec_exists].
Qed.

End EscapeAnalysis.


(** ** Hoisting leaves one allocation per loop nest *)

Section Hoisting.
Import HoistBufferAllocs.
Variable infer :
  list Z → Ty → list OpFoldResult → list OpFoldResult → list OpFoldResult → Ty.
Variable constant : Value → option Z.

Lemma getLoopInfoWalk_walked operands chain idx ret :
  outermostLoop (getLoopInfoWalk operands chain idx ret)
  = match lastIndex (λ p, isLoop (parentKind p))
                    (walkedParents operands chain) with
    | Some i => Some (idx + i)%nat
    | None => outermostLoop ret
    end
  ∧ innermostParallel (getLoopInfoWalk operands chain idx ret)
    = match innermostParallel ret with
      | Some p => Some p
      | None => (λ i, (idx + i)%nat)
                  <$> firstIndex (λ p, isUtilParallel (parentKind p))
                                 (walkedParents operands chain)
      end.
Proof.
  revert idx ret. induction chain as [|parent rest IH]; intros idx ret.
  - cbn. by destruct (innermostParallel ret).
  - cbn [getLoopInfoWalk walkedParents].
    destruct (isAnyArgDefinedInsideRegions _ _).
    { cbn. by destruct (innermostParallel ret). }
    cbn [lastIndex firstIndex]. destruct (IH (S idx)
      (if negb (bool_decide (is_Some (innermostParallel
            (if isLoop (parentKind parent)
             then mkLoopInfo (Some idx) (innermostParallel ret) else ret))))
          && isUtilParallel (parentKind parent)
       then mkLoopInfo
              (outermostLoop
                 (if isLoop (parentKind parent)
                  then mkLoopInfo (Some idx) (innermostParallel ret) else ret))
              (Some idx)
       else if isLoop (parentKind parent)
            then mkLoopInfo (Some idx) (innermostParallel ret) else ret))
      as [-> ->].
    destruct ret as [out inn].
    destruct (lastIndex _ (walkedParents operands rest)) as [i|],
             (firstIndex _ (walkedParents operands rest)) as [j|],
             (parentKind parent), inn;
      cbn; repeat split; try (f_equal; lia); try reflexivity.
Qed.

Lemma getLoopInfo_walked op loopInfo :
  getLoopInfo op = Some loopInfo →
  outermostLoop loopInfo
  = lastIndex (λ p, isLoop (parentKind p))
              (walkedParents (getOperands op) (parents op))
  ∧ innermostParallel loopInfo
    = firstIndex (λ p, isUtilParallel (parentKind p))
                 (walkedParents (getOperands op) (parents op))
  ∧ is_Some (outermostLoop loopInfo).
Proof.
  unfold getLoopInfo.
  destruct (getLoopInfoWalk_walked (getOperands op) (parents op) 0
              (mkLoopInfo None None)) as [Hout Hinn].
  destruct (outermostLoop (getLoopInfoWalk _ _ _ _)) as [k|] eqn:Hk;
    [|discriminate].
  intros [= <-]. rewrite Hk, Hinn. cbn [innermostParallel outermostLoop] in *.
  split; [|split; [|eauto]].
  - rewrite Hout. by destruct (lastIndex _ _).
  - destruct (firstIndex _ _); reflexivity.
Qed.

Lemma insert_S_cons {A} i (x y : A) l :
  <[S i := x]> (y :: l) = y :: <[i := x]> l.
Proof. reflexivity. Qed.

Lemma sizes_foldl (f : nat → OpFoldResult) one L m :
  (L ≤ m)%nat →
  foldl (λ sizes i, <[S i := f i]> sizes) (replicate (S m) one) (seq 0 L)
  = one :: (f <$> seq 0 L) ++ replicate (m - L) one.
Proof.
  induction L as [|L IH]; intros HL.
  - cbn. by rewrite Nat.sub_0_r.
  - rewrite seq_S, foldl_app, IH by lia. cbn [foldl plus].
    rewrite insert_S_cons. f_equal.
    rewrite insert_app_r_alt by (rewrite length_fmap, length_seq; lia).
    rewrite length_fmap, length_seq, Nat.sub_diag.
    replace (m - L)%nat with (S (m - S L)) by lia.
    rewrite fmap_app. cbn. by rewrite <- app_assoc.
Qed.

Lemma fmap_seq_imap {A B} (g : nat → B) (h : nat → A → B) (l : list A) :
  (∀ i d, l !! i = Some d → g i = h i d) →
  g <$> seq 0 (length l) = imap h l.
Proof.
  intros Hgh. apply list_eq. intros i.
  rewrite list_lookup_fmap, list_lookup_imap.
  destruct (l !! i) as [d|] eqn:Hd; cbn.
  - rewrite lookup_seq_lt by (eapply lookup_lt_Some; eassumption).
    cbn. f_equal. by apply Hgh.
  - rewrite lookup_seq_ge by (by apply lookup_ge_None). reflexivity.
Qed.

Lemma fmap_seq_S {B} (f : nat → B) n :
  f <$> seq 0 (S n) = f 0%nat :: ((λ i, f (S i)) <$> seq 0 n).
Proof. cbn. f_equal. by rewrite <- fmap_S_seq, <- list_fmap_compose. Qed.

Lemma getDynamicDimIndex_app pre rest :
  getDynamicDimIndex (pre ++ rest) (length pre)
  = length (List.filter (λ d, bool_decide (d = kDynamic)) pre).
Proof.
  unfold getDynamicDimIndex. by rewrite take_app_length.
Qed.

(** The sizes the loop over the dimensions reads off the new
    allocation are the extents of the old one. *)
Lemma dimSize_extentsOf pre shape sizesPre sizes :
  length sizesPre
  = length (List.filter (λ d, bool_decide (d = kDynamic)) pre) →
  length sizes
  = length (List.filter (λ d, bool_decide (d = kDynamic)) shape) →
  (λ i, dimSize constant (pre ++ shape) (sizesPre ++ sizes)
                (length pre + i))
    <$> seq 0 (length shape)
  = extentsOf constant shape sizes.
Proof.
  revert pre sizesPre sizes.
  induction shape as [|d shape IH]; intros pre sizesPre sizes Hpre Hsizes;
    [done|].
  cbn [length]. rewrite fmap_seq_S. cbn [extentsOf].
  assert (∀ sizes',
            (λ i, dimSize constant (pre ++ d :: shape) (sizesPre ++ sizes')
                          (length pre + S i))
              <$> seq 0 (length shape)
            = (λ i, dimSize constant ((pre ++ [d]) ++ shape)
                            (sizesPre ++ sizes')
                            (length (pre ++ [d]) + i))
                <$> seq 0 (length shape)) as Hshift.
  { intros sizes'. apply list_fmap_ext. intros _ i _.
    rewrite <- app_assoc, length_app. cbn. f_equal. lia. }
  unfold dimSize at 1.
  rewrite Nat.add_0_r, lookup_app_r, Nat.sub_diag by lia.
  rewrite getDynamicDimIndex_app, <- Hpre.
  cbn [List.filter] in Hsizes. cbn [lookup list_lookup].
  destruct (decide (d = kDynamic)) as [Hd|Hd].
  - rewrite bool_decide_eq_true_2 in Hsizes by done.
    destruct sizes as [|val sizes]; [discriminate|].
    rewrite lookup_app_r, Nat.sub_diag by lia. cbn [lookup list_lookup].
    f_equal. rewrite Hshift.
    replace (sizesPre ++ val :: sizes) with ((sizesPre ++ [val]) ++ sizes)
      by by rewrite <- app_assoc.
    apply IH.
    + rewrite List.filter_app, !length_app. cbn.
      rewrite bool_decide_eq_true_2 by done. cbn. lia.
    + cbn in Hsizes. lia.
  - rewrite bool_decide_eq_false_2 in Hsizes by done. f_equal.
    rewrite Hshift. apply IH; [|done].
    rewrite List.filter_app, length_app. cbn.
    rewrite bool_decide_eq_false_2 by done. cbn. lia.
Qed.

Lemma perThread_sizes op (n : Z) :
  n ≠ kDynamic → sized op →
  foldl (λ sizes i,
           <[S i := dimSize constant (n :: oldShape op) (dynamicSizes op)
                            (S i)]> sizes)
        (replicate (length (n :: oldShape op)) (IndexAttr 1))
        (seq 0 (length (n :: oldShape op) - 1))
  = perThreadSizes constant op.
Proof.
  intros Hn Hsized.
  cbn [length]. rewrite Nat.sub_succ, Nat.sub_0_r.
  rewrite (sizes_foldl
             (λ i, dimSize constant (n :: oldShape op) (dynamicSizes op)
                           (S i))) by lia.
  rewrite Nat.sub_diag. cbn [replicate].
  rewrite app_nil_r. unfold perThreadSizes. f_equal.
  apply (dimSize_extentsOf [n] (oldShape op) [] (dynamicSizes op));
    [|exact Hsized].
  cbn. by rewrite bool_decide_eq_false_2.
Qed.

Lemma matchAndRewrite_hoist op rewriter loopInfo func :
  symbolOperands op = [] →
  canResultEscape (asOperation op) true = false →
  getLoopInfo op = Some loopInfo →
  getParentFunc (parents op) = Some func →
  ∃ outermost,
    outermostLoop loopInfo = Some outermost
    ∧ match innermostParallel loopInfo,
            getIntegerAttr (parentAttrs func) getMaxConcurrencyName with
      | Some parallel, None =>
          matchAndRewrite infer constant op rewriter = (failure, rewriter)
      | Some parallel, Some mc =>
          if decide (0 < mc) then
            ∃ sizes view casts,
              (sized op → sizes = perThreadSizes constant op)
              ∧ let newType :=
                  infer (oldShape op) (perThreadType op mc)
                        (perThreadOffsets op parallel) sizes
                        (perThreadStrides op) in
                matchAndRewrite infer constant op rewriter
                = (success,
                   rewriter ++ (EraseUser <$> deallocUsers op)
                     ++ [CreateAlloc (BeforeOp outermost)
                                     (perThreadType op mc)
                                     (dynamicSizes op) (alignment op)]
                     ++ [CreateSubView (StartOfBody parallel) newType
                                       NewMemref
                                       (perThreadOffsets op parallel)
                                       sizes
                                       (perThreadStrides op)]
                     ++ casts
                     ++ [ReplaceOp view;
                         CreateDealloc (AfterOp outermost) NewMemref])
                ∧ ((newType = getType op ∧ view = SubViewResult
                    ∧ casts = [])
                   ∨ (newType ≠ getType op ∧ view = CastResult
                      ∧ casts
                        = [CreateMemrefApplyOffset (StartOfBody parallel)
                                                   (getType op)
                                                   SubViewResult;
                           CreateCast (StartOfBody parallel) (getType op)
                                      ApplyOffsetResult]))
          else matchAndRewrite infer constant op rewriter
               = (success, rewriter ++ hoistUnchanged op outermost)
      | None, _ =>
          matchAndRewrite infer constant op rewriter
          = (success, rewriter ++ hoistUnchanged op outermost)
      end.
Proof.
  intros Hsym Hesc Hli Hf.
  destruct (getLoopInfo_walked _ _ Hli) as (_ & _ & [outermost Hout]).
  exists outermost. split; [exact Hout|].
  unfold matchAndRewrite. rewrite Hsym, Hesc, Hli, Hf, Hout.
  rewrite bool_decide_eq_true_2 by reflexivity. cbn [negb default from_option].
  unfold id.
  destruct (innermostParallel loopInfo) as [parallel|],
           (getIntegerAttr (parentAttrs func) getMaxConcurrencyName) as [mc|];
    try reflexivity.
  case_decide as Hmc; [|reflexivity].
  fold (perThreadType op mc). cbn [length replicate insert list_insert].
  fold (perThreadOffsets op parallel).
  change (IndexAttr 1 :: replicate (length (oldShape op)) (IndexAttr 1))
    with (perThreadStrides op).
  match goal with
  | |- context [CreateSubView _ _ _ _ ?sizes _] => exists sizes
  end.
  cbv zeta. case_decide as Heq.
  - exists SubViewResult, []. split.
    + intros Hsized. rewrite <- (perThread_sizes op mc); [done| |done].
      unfold kDynamic. lia.
    + split; [|left; auto]. reflexivity.
  - eexists CastResult, _. split.
    + intros Hsized. rewrite <- (perThread_sizes op mc); [done| |done].
      unfold kDynamic. lia.
    + split; [|right; split; [exact Heq|split; reflexivity]].
      reflexivity.
Qed.

Lemma matchAndRewrite_success op rewriter actions :
  matchAndRewrite infer constant op rewriter = (success, actions) →
  symbolOperands op = []
  ∧ canResultEscape (asOperation op) true = false
  ∧ ∃ loopInfo func,
      getLoopInfo op = Some loopInfo
      ∧ getParentFunc (parents op) = Some func.
Proof.
  unfold matchAndRewrite. case_bool_decide as Hsym; [|discriminate].
  cbn [negb].
  destruct (canResultEscape (asOperation op) true); [discriminate|].
  destruct (getLoopInfo op) as [loopInfo|]; [|discriminate].
  destruct (getParentFunc (parents op)) as [func|]; [|discriminate].
  eauto 10.
Qed.

Lemma matchAndRewrite_failure op rewriter actions :
  matchAndRewrite infer constant op rewriter = (failure, actions) → actions = rewriter.
Proof.
  unfold matchAndRewrite.
  repeat match goal with
         | |- context [match ?x with _ => _ end] => destruct x
         end; intros [=]; congruence.
Qed.

Lemma filter_EraseUser p (l : list nat) :
  (∀ i, p (EraseUser i) = false) → List.filter p (EraseUser <$> l) = [].
Proof.
  intros Hp. induction l as [|i l IH]; [reflexivity|].
  cbn. rewrite Hp. exact IH.
Qed.

Lemma events_EraseUser (l : list nat) execs :
  allocationEventsAfter (EraseUser <$> l) execs = 0%nat.
Proof. induction l as [|i l IH]; [reflexivity|exact IH]. Qed.

Lemma events_app l k execs :
  allocationEventsAfter (l ++ k) execs
  = (allocationEventsAfter l execs + allocationEventsAfter k execs)%nat.
Proof. apply sum_list_with_app. Qed.

Lemma elem_of_deallocUsers op i :
  i ∈ deallocUsers op
  ↔ ∃ user, users op !! i = Some user ∧ isDealloc user = true.
Proof.
  unfold deallocUsers. rewrite list_elem_of_fmap. split.
  - intros ([j user] & -> & Hin). apply list_elem_of_filter in Hin as [Hd Hin].
    apply list_elem_of_lookup in Hin as [k Hk].
    rewrite list_lookup_imap in Hk.
    destruct (users op !! k) as [u|] eqn:Hu; [|discriminate].
    injection Hk as <- <-. eauto.
  - intros (user & Hu & Hd). exists (i, user). split; [reflexivity|].
    apply list_elem_of_filter. split; [exact Hd|].
    apply list_elem_of_lookup. exists i. rewrite list_lookup_imap, Hu.
    reflexivity.
Qed.

Lemma executions_ones execs :
  Forall (λ c, c = 1%nat) execs → executions execs = 1%nat.
Proof.
  induction 1 as [|c execs -> _ IH]; [reflexivity|].
  unfold executions in *. cbn [foldr]. rewrite IH. reflexivity.
Qed.

Lemma hoist_frame op rewriter actions execs :
  matchAndRewrite infer constant op rewriter = (success, actions) →
  ∃ loopInfo outermost new,
    actions = rewriter ++ new
    ∧ getLoopInfo op = Some loopInfo
    ∧ outermostLoop loopInfo = Some outermost
    ∧ (∀ i, EraseUser i ∈ new
            ↔ ∃ user, users op !! i = Some user ∧ isDealloc user = true)
    ∧ List.filter isCreateDealloc new
      = [CreateDealloc (AfterOp outermost) NewMemref]
    ∧ (∃ type,
         List.filter isCreateAlloc new
         = [CreateAlloc (BeforeOp outermost) type (dynamicSizes op)
                        (alignment op)])
    ∧ allocationEventsAfter new execs = executions (drop (S outermost) execs).
Proof.
  intros Hrun.
  destruct (matchAndRewrite_success _ _ _ Hrun)
    as (Hsym & Hesc & loopInfo & func & Hli & Hf).
  destruct (matchAndRewrite_hoist op rewriter loopInfo func Hsym Hesc Hli Hf)
    as (outermost & Hout & Hcase).
  exists loopInfo, outermost.
  assert (∀ mid view,
            Forall (λ a, isCreateAlloc a = false ∧ isCreateDealloc a = false
                         ∧ isEraseUser a = false
                         ∧ allocationEventsAfter [a] execs = 0%nat) mid →
            ∀ type,
            let new := (EraseUser <$> deallocUsers op)
                       ++ [CreateAlloc (BeforeOp outermost) type
                                       (dynamicSizes op) (alignment op)]
                       ++ mid
                       ++ [ReplaceOp view;
                           CreateDealloc (AfterOp outermost) NewMemref] in
            (∀ i, EraseUser i ∈ new
                  ↔ ∃ user, users op !! i = Some user ∧ isDealloc user = true)
            ∧ List.filter isCreateDealloc new
              = [CreateDealloc (AfterOp outermost) NewMemref]
            ∧ (∃ type,
                 List.filter isCreateAlloc new
                 = [CreateAlloc (BeforeOp outermost) type (dynamicSizes op)
                                (alignment op)])
            ∧ allocationEventsAfter new execs
              = executions (drop (S outermost) execs)) as Hshape.
  { intros mid view Hmid type new. subst new.
    assert (List.filter isCreateDealloc mid = []
            ∧ List.filter isCreateAlloc mid = []
            ∧ allocationEventsAfter mid execs = 0%nat
            ∧ ∀ i, EraseUser i ∉ mid) as (Hd & Ha & He & Hu).
    { induction Hmid as [|a mid (Ha & Hd & Hu & He) Hmid (IHd & IHa & IHe & IHu)].
      - repeat split. intros i Hin. by apply elem_of_nil in Hin.
      - cbn [List.filter]. rewrite Ha, Hd.
        repeat split; try assumption.
        + change (a :: mid) with ([a] ++ mid). rewrite events_app, He, IHe.
          reflexivity.
        + intros i [Heq|Hin]%elem_of_cons; [subst a; discriminate|].
          by apply (IHu i). }
    split; [|split; [|split]].
    - intros i. rewrite <- elem_of_deallocUsers.
      rewrite !elem_of_app, list_elem_of_fmap. split.
      + intros [(j & [= ->] & Hj)|[Hin|[Hin|Hin]]]; [exact Hj| | |].
        * apply list_elem_of_singleton in Hin. discriminate.
        * destruct (Hu _ Hin).
        * apply elem_of_cons in Hin as [[=]|Hin].
          apply list_elem_of_singleton in Hin. discriminate.
      + intros Hin. left. eauto.
    - rewrite !List.filter_app, filter_EraseUser, Hd by reflexivity.
      reflexivity.
    - exists type.
      rewrite !List.filter_app, filter_EraseUser, Ha by reflexivity.
      reflexivity.
    - rewrite !events_app, events_EraseUser, He. cbn.
      unfold allocationEventsAfter. cbn. lia. }
  destruct (innermostParallel loopInfo) as [parallel|],
           (getIntegerAttr (parentAttrs func) getMaxConcurrencyName) as [mc|].
  - case_decide.
    + destruct Hcase as (sizes & view & casts & _ & Heq & Hcasts).
      rewrite Heq in Hrun. injection Hrun as <-.
      eexists. split; [reflexivity|]. split; [exact Hli|]. split; [exact Hout|].
      refine (Hshape (CreateSubView _ _ _ _ _ _ :: casts) view _ _).
      destruct Hcasts as [(_ & _ & ->)|(_ & _ & ->)]; repeat constructor.
    + rewrite Hcase in Hrun. injection Hrun as <-.
      eexists. split; [reflexivity|]. split; [exact Hli|]. split; [exact Hout|].
      apply (Hshape [] NewMemref). constructor.
  - rewrite Hcase in Hrun. discriminate.
  - rewrite Hcase in Hrun. injection Hrun as <-.
    eexists. split; [reflexivity|]. split; [exact Hli|]. split; [exact Hout|].
    apply (Hshape [] NewMemref). constructor.
  - rewrite Hcase in Hrun. injection Hrun as <-.
    eexists. split; [reflexivity|]. split; [exact Hli|]. split; [exact Hout|].
    apply (Hshape [] NewMemref). constructor.
Qed.

Lemma firstIndex_None {A} (p : A → bool) l :
  Forall (λ x, p x = false) l → firstIndex p l = None.
Proof.
  induction 1 as [|x l Hx _ IH]; [reflexivity|].
  cbn. by rewrite Hx, IH.
Qed.

Lemma walkedParents_Forall (P : ParentOp → Prop) operands chain :
  Forall P chain → Forall P (walkedParents operands chain).
Proof.
  induction 1 as [|parent rest Hp _ IH]; [constructor|].
  cbn. destruct (isAnyArgDefinedInsideRegions _ _); by constructor.
Qed.

(** C3, amended: for a non-escaping allocation without symbol operands
    in a loop nest, inside a function.  The nest is made of the parents
    the loop-nest walk passes: those before the first one that holds the
    definition of an operand of the allocation.  With an explicit
    parallel construct in the nest and a positive "max concurrency"
    [mc], the hoisted type is the old one with a leading dimension [mc],
    and the subview of the thread replaces the allocation at the start of
    the body of the innermost such construct, cast to the old type where
    the types differ; its offset is the thread index on the leading
    dimension and 0 on the others, its size 1 on the leading dimension
    and the extent on the others (for a dynamic extent the size operand
    of the allocation, as a number when a constant defines it), its
    strides 1.  Without an explicit parallel construct in the nest, as
    when there is none around the allocation, or with a "max concurrency"
    that is not positive, the allocation moves above the outermost loop
    of the nest with its type.  With a construct in the nest but without
    the attribute the pattern declines and has done nothing. *)
Theorem hoisted_allocation_type op rewriter loopInfo func :
  symbolOperands op = [] →
  canResultEscape (asOperation op) true = false →
  sized op →
  getLoopInfo op = Some loopInfo →
  getParentFunc (parents op) = Some func →
  innermostParallel loopInfo
  = firstIndex (λ p, isUtilParallel (parentKind p))
               (walkedParents (getOperands op) (parents op))
  ∧ outermostLoop loopInfo
    = lastIndex (λ p, isLoop (parentKind p))
                (walkedParents (getOperands op) (parents op))
  ∧ (Forall (λ p, isUtilParallel (parentKind p) = false) (parents op)
     → innermostParallel loopInfo = None)
  ∧ ∃ outermost,
      outermostLoop loopInfo = Some outermost
      ∧ match innermostParallel loopInfo,
              getIntegerAttr (parentAttrs func) getMaxConcurrencyName with
        | Some parallel, None =>
            matchAndRewrite infer constant op rewriter = (failure, rewriter)
        | Some parallel, Some mc =>
            if decide (0 < mc) then
              let newType :=
                infer (oldShape op) (perThreadType op mc)
                      (perThreadOffsets op parallel)
                      (perThreadSizes constant op)
                      (perThreadStrides op) in
              ∃ view casts,
                matchAndRewrite infer constant op rewriter
                = (success,
                   rewriter ++ (EraseUser <$> deallocUsers op)
                     ++ [CreateAlloc (BeforeOp outermost)
                                     (perThreadType op mc)
                                     (dynamicSizes op) (alignment op)]
                     ++ [CreateSubView (StartOfBody parallel) newType
                                       NewMemref
                                       (perThreadOffsets op parallel)
                                       (perThreadSizes constant op)
                                       (perThreadStrides op)]
                     ++ casts
                     ++ [ReplaceOp view;
                         CreateDealloc (AfterOp outermost) NewMemref])
                ∧ ((newType = getType op ∧ view = SubViewResult
                    ∧ casts = [])
                   ∨ (newType ≠ getType op ∧ view = CastResult
                      ∧ casts
                        = [CreateMemrefApplyOffset (StartOfBody parallel)
                                                   (getType op)
                                                   SubViewResult;
                           CreateCast (StartOfBody parallel) (getType op)
                                      ApplyOffsetResult]))
            else matchAndRewrite infer constant op rewriter
                 = (success, rewriter ++ hoistUnchanged op outermost)
        | None, _ =>
            matchAndRewrite infer constant op rewriter
            = (success, rewriter ++ hoistUnchanged op outermost)
        end.
Proof.
  intros Hsym Hesc Hsized Hli Hf.
  destruct (getLoopInfo_walked _ _ Hli) as (Hout & Hinn & _).
  split; [exact Hinn|]. split; [exact Hout|]. split.
  - intros Hno. rewrite Hinn. apply firstIndex_None.
    by apply walkedParents_Forall.
  - destruct (matchAndRewrite_hoist op rewriter loopInfo func Hsym Hesc
                Hli Hf) as (outermost & Hfound & Hcase).
    exists outermost. split; [exact Hfound|].
    destruct (innermostParallel loopInfo) as [parallel|],
             (getIntegerAttr (parentAttrs func) getMaxConcurrencyName)
      as [mc|]; try exact Hcase.
    case_decide; [|exact Hcase].
    destruct Hcase as (sizes & view & casts & Hsizes & Hrun).
    rewrite (Hsizes Hsized) in Hrun. by exists view, casts.
Qed.

(** C4, with the count as the pattern achieves it: the deallocations of
    the original allocation are erased and no other user is; one
    deallocation of the new buffer is created, after the outermost loop
    of the nest; one allocation is created, before that loop, so it runs
    once each time that loop is reached, whatever the trip counts of the
    loops of the nest: once, when everything around that loop runs its
    body once. *)
Theorem hoist_moves_deallocation_and_allocates_per_nest
    op rewriter actions execs :
  matchAndRewrite infer constant op rewriter = (success, actions) →
  ∃ loopInfo outermost new,
    actions = rewriter ++ new
    ∧ getLoopInfo op = Some loopInfo
    ∧ outermostLoop loopInfo = Some outermost
    ∧ (∀ i, EraseUser i ∈ new
            ↔ ∃ user, users op !! i = Some user ∧ isDealloc user = true)
    ∧ List.filter isCreateDealloc new
      = [CreateDealloc (AfterOp outermost) NewMemref]
    ∧ (∃ type,
         List.filter isCreateAlloc new
         = [CreateAlloc (BeforeOp outermost) type (dynamicSizes op)
                        (alignment op)])
    ∧ allocationEventsAfter new execs = executions (drop (S outermost) execs)
    ∧ (Forall (λ c, c = 1%nat) (drop (S outermost) execs)
       → allocationEventsAfter new execs = 1%nat).
Proof.
  intros Hrun.
  destruct (hoist_frame _ _ _ execs Hrun)
    as (loopInfo & outermost & new & -> & Hli & Hout & He & Hd & Ha & Hn).
  exists loopInfo, outermost, new.
  repeat (split; [assumption || reflexivity|]).
  intros Hones. rewrite Hn. by apply executions_ones.
Qed.

End Hoisting.

Section HoistingScenarios.
Import HoistBufferAllocs.

(** The 10x10 buffer of scenario 2 is hoisted above its loop as it is. *)
Lemma hoisted_allocation_type_witness :
  ∃ outermost,
    Some 0%nat = Some outermost
    ∧ matchAndRewrite (λ _ type _ _ _, type) (λ _, None) tenByTen []
      = (success,
         [] ++ [EraseUser 2;
                CreateAlloc (BeforeOp outermost)
                  (MemRefType [10; 10] (FloatType 64) IdentityLayout 0)
                  [] None;
                ReplaceOp NewMemref;
                CreateDealloc (AfterOp outermost) NewMemref]).
Proof.
  exact (proj2 (proj2 (proj2
    (hoisted_allocation_type (λ _ type _ _ _, type) (λ _, None) tenByTen []
       (mkLoopInfo (Some 0%nat) None)
       (mkParentOp KFunc [0%nat]
          {[ getMaxConcurrencyName := IntegerAttr (IntegerType 64) 0 ]})
       eq_refl eq_refl eq_refl eq_refl eq_refl)))).
Defined.

Lemma hoist_moves_deallocation_and_allocates_per_nest_witness :
  ∃ loopInfo outermost new,
    (matchAndRewrite (λ _ type _ _ _, type) (λ _, None) tenByTen []).2 = [] ++ new
    ∧ getLoopInfo tenByTen = Some loopInfo
    ∧ outermostLoop loopInfo = Some outermost
    ∧ (∀ i, EraseUser i ∈ new
            ↔ ∃ user, users tenByTen !! i = Some user
                      ∧ isDealloc user = true)
    ∧ List.filter isCreateDealloc new
      = [CreateDealloc (AfterOp outermost) NewMemref]
    ∧ (∃ type,
         List.filter isCreateAlloc new
         = [CreateAlloc (BeforeOp outermost) type (dynamicSizes tenByTen)
                        (alignment tenByTen)])
    ∧ allocationEventsAfter new [100; 1]%nat
      = executions (drop (S outermost) [100; 1]%nat)
    ∧ (Forall (λ c, c = 1%nat) (drop (S outermost) [100; 1]%nat)
       → allocationEventsAfter new [100; 1]%nat = 1%nat).
Proof.
  exact (hoist_moves_deallocation_and_allocates_per_nest
           (λ _ type _ _ _, type) (λ _, None) tenByTen []
           (matchAndRewrite (λ _ type _ _ _, type) (λ _, None) tenByTen []).2
           [100; 1]%nat eq_refl).
Defined.

(** A buffer sized by an argument of the function, in a loop in an
    explicit parallel construct, with "max concurrency" 4: one buffer of
    [4x?x8] elements is allocated before the construct and deallocated
    after it, and each thread takes its [1x?x8] part at the start of the
    body; the dynamic extent is the size operand, and the number 16 when
    the operand is that constant. *)
Lemma hoist_in_parallel_nest_adds_dimension :
  let threadIndex := OfValue (BodyThreadIndex 1) in
  let size := mkValue 5 IndexType [0%nat] false in
  ∀ extent constant,
    (constant size = None ∧ extent = OfValue (DynamicSize size))
    ∨ (constant size = Some 16 ∧ extent = IndexAttr 16) →
    matchAndRewrite (λ _ type _ _ _, type) constant sizedByArgument []
    = (success,
       [EraseUser 1;
        CreateAlloc (BeforeOp 1)
          (MemRefType [4; kDynamic; 8] (FloatType 64) IdentityLayout 0)
          [size] None;
        CreateSubView (StartOfBody 1)
          (MemRefType [4; kDynamic; 8] (FloatType 64) IdentityLayout 0)
          NewMemref
          [threadIndex; IndexAttr 0; IndexAttr 0]
          [IndexAttr 1; extent; IndexAttr 8]
          [IndexAttr 1; IndexAttr 1; IndexAttr 1];
        CreateMemrefApplyOffset (StartOfBody 1)
          (MemRefType [kDynamic; 8] (FloatType 64) IdentityLayout 0)
          SubViewResult;
        CreateCast (StartOfBody 1)
          (MemRefType [kDynamic; 8] (FloatType 64) IdentityLayout 0)
          ApplyOffsetResult;
        ReplaceOp CastResult;
        CreateDealloc (AfterOp 1) NewMemref]).
Proof.
  intros threadIndex size extent constant [[Hc ->]|[Hc ->]];
    subst threadIndex size; vm_compute; vm_compute in Hc; rewrite Hc;
    reflexivity.
Qed.

(** C3 as stated fails: the allocation in a loop in the body of an
    explicit parallel construct, whose size is computed in that body, is
    inside the construct, and the function has "max concurrency" 4; the
    loop-nest walk ends at the construct, the allocation moves above the
    loop with its type, and no dimension is added.  Without the attribute
    the pattern does the same: it does not decline. *)
Lemma hoist_in_parallel_body_adds_no_dimension :
  symbolOperands (sizedInParallelBody fourThreads) = []
  ∧ canResultEscape (asOperation (sizedInParallelBody fourThreads)) true
    = false
  ∧ sized (sizedInParallelBody fourThreads)
  ∧ Exists (λ p, isUtilParallel (parentKind p) = true)
           (parents (sizedInParallelBody fourThreads))
  ∧ (getParentFunc (parents (sizedInParallelBody fourThreads))
       ≫= λ func, getIntegerAttr (parentAttrs func) getMaxConcurrencyName)
    = Some 4
  ∧ matchAndRewrite (λ _ type _ _ _, type) (λ _, None)
                    (sizedInParallelBody fourThreads) []
    = (success, hoistUnchanged (sizedInParallelBody fourThreads) 0)
  ∧ (getParentFunc (parents (sizedInParallelBody ∅))
       ≫= λ func, getIntegerAttr (parentAttrs func) getMaxConcurrencyName)
    = None
  ∧ matchAndRewrite (λ _ type _ _ _, type) (λ _, None)
                    (sizedInParallelBody ∅) []
    = (success, hoistUnchanged (sizedInParallelBody ∅) 0).
Proof.
  split; [reflexivity|]. split; [reflexivity|]. split; [reflexivity|].
  split; [by right; left|]. repeat split; reflexivity.
Qed.

(** C4 as stated fails: the allocation in the inner of two loops whose
    size is computed in the outer loop is hoisted above the inner loop
    only, and runs once per trip of the outer loop: three times for three
    trips. *)
Lemma hoist_under_outer_loop_allocates_per_trip :
  symbolOperands sizedInOuterLoop = []
  ∧ canResultEscape (asOperation sizedInOuterLoop) true = false
  ∧ ∃ new,
      matchAndRewrite (λ _ type _ _ _, type) (λ _, None) sizedInOuterLoop []
      = (success, new)
      ∧ allocationEventsBefore [5; 3; 1]%nat = 15%nat
      ∧ allocationEventsAfter new [5; 3; 1]%nat = 3%nat.
Proof.
  split; [reflexivity|]. split; [reflexivity|].
  eexists. split; [reflexivity|]. split; reflexivity.
Qed.

End HoistingScenarios.

(** ** The rewritten loop computes what the loop computes *)

Section Reductions.
Import ParallelToTbb.

Lemma modulus_pos w : 0 < modulus w.
Proof. unfold modulus. apply Z.pow_pos_nonneg; lia. Qed.

Lemma modulus_half w : modulus w = 1 ∨ (modulus w = 2 * (modulus w / 2) ∧ 0 < modulus w / 2).
Proof.
  unfold modulus. destruct w as [|p]; [left; reflexivity|right].
  replace (Z.of_N (N.pos p)) with (Z.succ (Z.of_N (N.pos p) - 1)) by lia.
  rewrite Z.pow_succ_r by lia.
  rewrite (Z.mul_comm 2), Z.div_mul by lia.
  split; [lia|apply Z.pow_pos_nonneg; lia].
Qed.

Lemma inRange_trunc w z : inRange w (trunc w z).
Proof. apply Z.mod_pos_bound, modulus_pos. Qed.

Lemma trunc_small w z : inRange w z → trunc w z = z.
Proof. intros. apply Z.mod_small. assumption. Qed.

Lemma inRange_land_ones w z : inRange w z ↔ Z.land z (Z.ones (Z.of_N w)) = z.
Proof.
  rewrite Z.land_ones by lia. fold (modulus w). split.
  - apply Z.mod_small.
  - intros <-. apply Z.mod_pos_bound, modulus_pos.
Qed.

Lemma ones_modulus w : modulus w - 1 = Z.ones (Z.of_N w).
Proof. rewrite Z.ones_equiv. unfold modulus. lia. Qed.


Lemma land_lxor_distr_l a b c :
  Z.land (Z.lxor a b) c = Z.lxor (Z.land a c) (Z.land b c).
Proof.
  apply Z.bits_inj'. intros n _.
  rewrite Z.land_spec, !Z.lxor_spec, !Z.land_spec.
  destruct (Z.testbit a n), (Z.testbit b n), (Z.testbit c n); reflexivity.
Qed.

Lemma signed_bounds w a :
  inRange w a → - (modulus w / 2) ≤ signed w a ≤ modulus w / 2 - 1 ∨ modulus w = 1.
Proof.
  unfold inRange, signed. intros Ha.
  destruct (modulus_half w) as [->|[Hm Hh]]; [tauto|left].
  case_decide; lia.
Qed.

Lemma neutral_CommMonoid w name operands ty e :
  getNeutralElement (mkOperation name operands (IntegerType w))
    = Some (IntegerAttr ty e) →
  (∀ a b, evalInt w name a b = Some (intOp w name a b))
  ∧ CommMonoid (inRange w) (intOp w name) e.
Proof.
  pose proof (modulus_pos w) as Hm.
  unfold getNeutralElement, intOp. cbn [opResultType opName].
  destruct name; intros [= <- <-]; (split; [reflexivity|]);
    cbn [evalInt]; split; intros.
  (* AddI *)
  - apply inRange_trunc.
  - unfold inRange; lia.
  - unfold trunc. rewrite Zplus_mod_idemp_l, Zplus_mod_idemp_r. f_equal; lia.
  - f_equal; lia.
  - rewrite Z.add_0_r. by apply trunc_small.
  (* MulI *)
  - apply inRange_trunc.
  - apply inRange_trunc.
  - unfold trunc. rewrite Zmult_mod_idemp_l, Zmult_mod_idemp_r. f_equal; lia.
  - f_equal; lia.
  - unfold trunc. rewrite Zmult_mod_idemp_r, Z.mul_1_r. by apply Z.mod_small.
  (* AndI *)
  - apply inRange_land_ones. rewrite <- Z.land_assoc.
    f_equal. by apply inRange_land_ones.
  - unfold inRange; lia.
  - symmetry. apply Z.land_assoc.
  - apply Z.land_comm.
  - rewrite ones_modulus. by apply inRange_land_ones.
  (* OrI *)
  - apply inRange_land_ones. rewrite Z.land_lor_distr_l.
    f_equal; by apply inRange_land_ones.
  - unfold inRange; lia.
  - symmetry. apply Z.lor_assoc.
  - apply Z.lor_comm.
  - apply Z.lor_0_r.
  (* XOrI *)
  - apply inRange_land_ones. rewrite land_lxor_distr_l.
    f_equal; by apply inRange_land_ones.
  - unfold inRange; lia.
  - apply Z.lxor_assoc.
  - apply Z.lxor_comm.
  - apply Z.lxor_0_r.
  (* MaxSI *)
  - case_decide; assumption.
  - apply inRange_trunc.
  - unfold inRange, signed in *. repeat case_decide; lia.
  - unfold inRange, signed in *. repeat case_decide; lia.
  - destruct (modulus_half w) as [Hw|[Hw Hh]].
    + unfold trunc, inRange in *. rewrite Hw in *. rewrite Z.mod_1_r.
      case_decide; lia.
    + assert (trunc w (- (modulus w / 2)) = modulus w / 2) as ->.
      { unfold trunc. symmetry.
        apply (Z.mod_unique_pos _ _ (-1)); lia. }
      unfold inRange, signed in *. repeat case_decide; lia.
  (* MinSI *)
  - case_decide; assumption.
  - apply inRange_trunc.
  - unfold inRange, signed in *. repeat case_decide; lia.
  - unfold inRange, signed in *. repeat case_decide; lia.
  - destruct (modulus_half w) as [Hw|[Hw Hh]].
    + unfold trunc, inRange in *. rewrite Hw in *. rewrite Z.mod_1_r.
      case_decide; lia.
    + rewrite trunc_small by (unfold inRange; lia).
      unfold inRange, signed in *. repeat case_decide; lia.
  (* MaxUI *)
  - unfold inRange in *. lia.
  - unfold inRange; lia.
  - lia.
  - lia.
  - unfold inRange in *. lia.
  (* MinUI *)
  - unfold inRange in *. lia.
  - unfold inRange; lia.
  - lia.
  - lia.
  - unfold inRange in *. lia.
Qed.

Section Folding.
Context {A : Type} (P : A → Prop) (f : A → A → A) (e : A).
Hypothesis M : CommMonoid P f e.

Lemma foldl_closed a l : P a → Forall P l → P (foldl f a l).
Proof.
  intros Ha Hl. revert a Ha. induction Hl as [|x l Hx Hl IH]; intros a Ha.
  - exact Ha.
  - cbn. apply IH. by apply (cm_closed _ _ _ M).
Qed.

Lemma foldl_shift a b l :
  P a → P b → Forall P l → foldl f (f a b) l = f a (foldl f b l).
Proof.
  intros Ha Hb Hl. revert b Hb. induction Hl as [|x l Hx Hl IH]; intros b Hb.
  - reflexivity.
  - cbn. rewrite <- IH by by apply (cm_closed _ _ _ M).
    f_equal. by apply (cm_assoc _ _ _ M).
Qed.

Lemma foldl_from_unit a l :
  P a → Forall P l → foldl f a l = f a (foldl f e l).
Proof.
  intros Ha Hl. pose proof (cm_unit_closed _ _ _ M) as He.
  rewrite <- foldl_shift by assumption.
  by rewrite (cm_unit _ _ _ M).
Qed.

Lemma foldl_app_unit l k :
  Forall P l → Forall P k →
  foldl f e (l ++ k) = f (foldl f e l) (foldl f e k).
Proof.
  intros Hl Hk. rewrite foldl_app. apply foldl_from_unit; [|exact Hk].
  apply foldl_closed; [apply (cm_unit_closed _ _ _ M)|exact Hl].
Qed.

Lemma foldl_perm a l k :
  l ≡ₚ k → P a → Forall P l → foldl f a l = foldl f a k.
Proof.
  intros Hperm. revert a.
  induction Hperm as [|x l k Hperm IH|x y l|l k m H1 IH1 H2 IH2];
    intros a Ha Hl.
  - reflexivity.
  - apply Forall_cons in Hl as [Hx Hl]. cbn. apply IH; [|exact Hl].
    by apply (cm_closed _ _ _ M).
  - apply Forall_cons in Hl as [Hy Hl]. apply Forall_cons in Hl as [Hx Hl].
    cbn. f_equal.
    rewrite !(cm_assoc _ _ _ M) by assumption. f_equal.
    by apply (cm_comm _ _ _ M).
  - rewrite IH1 by assumption. apply IH2; [exact Ha|].
    by rewrite <- H1.
Qed.

Lemma foldl_replicate_unit n : foldl f e (replicate n e) = e.
Proof.
  induction n as [|n IH]; [reflexivity|]. cbn.
  rewrite (cm_unit _ _ _ M) by apply (cm_unit_closed _ _ _ M). exact IH.
Qed.

(** Folding more values into one slot adds them to the total. *)
Lemma foldl_insert_slot cols t col vals :
  Forall P cols → Forall P vals → cols !! t = Some col →
  foldl f e (<[t := foldl f col vals]> cols)
  = f (foldl f e cols) (foldl f e vals).
Proof.
  intros Hcols Hvals Ht.
  assert (P e) as He by apply (cm_unit_closed _ _ _ M).
  assert (P col) as Hcol by exact (Forall_lookup_1 _ _ _ _ Hcols Ht).
  pose proof (take_drop_middle _ _ _ Ht) as Hsplit.
  assert (Forall P (take t cols)) as Hpre by (apply Forall_take; assumption).
  assert (Forall P (drop (S t) cols)) as Hpost
    by (apply Forall_drop; assumption).
  assert (P (foldl f e vals)) as Hv by (apply foldl_closed; assumption).
  assert (P (foldl f e (take t cols))) as Hp
    by (apply foldl_closed; assumption).
  assert (P (foldl f e (drop (S t) cols))) as Hd
    by (apply foldl_closed; assumption).
  assert (P (foldl f col vals)) as Hcv by (apply foldl_closed; assumption).
  rewrite <- Hsplit at 2.
  rewrite insert_take_drop by (eapply lookup_lt_Some; eassumption).
  rewrite !foldl_app_unit
    by (try assumption; apply Forall_cons; split; assumption).
  cbn. rewrite !(cm_comm _ _ _ M e) by assumption.
  rewrite !(cm_unit _ _ _ M) by assumption.
  rewrite (foldl_from_unit (foldl f col vals)) by assumption.
  rewrite (foldl_from_unit col (drop (S t) cols)) by assumption.
  rewrite (foldl_from_unit col vals) by assumption.
  set (p := foldl f e (take t cols)) in *.
  set (d := foldl f e (drop (S t) cols)) in *.
  set (v := foldl f e vals) in *.
  assert (∀ x y, P x → P y → P (f x y)) as Hc by apply (cm_closed _ _ _ M).
  rewrite !(cm_assoc _ _ _ M) by auto.
  f_equal. f_equal. apply (cm_comm _ _ _ M); assumption.
Qed.

End Folding.

Lemma CommMonoid_flip {A} (P : A → Prop) f e :
  CommMonoid P f e → CommMonoid P (λ a b, f b a) e.
Proof.
  intros [Hc He Ha Hcomm Hu]. split; auto.
  - intros a b c Pa Pb Pc. rewrite (Hcomm c (f b a)), (Hcomm (f c b) a) by auto.
    rewrite (Hcomm b a), (Hcomm c b) by auto. apply Ha; auto.
  - intros a Pa. rewrite Hcomm by auto. apply Hu; auto.
Qed.

Lemma CommMonoid_ext {A} (P : A → Prop) f g e :
  (∀ a b, f a b = g a b) → CommMonoid P f e → CommMonoid P g e.
Proof.
  intros Hfg [Hc He Ha Hcomm Hu]. split; intros; rewrite <- ?Hfg; auto.
Qed.

Lemma integerReduction_Good ty r b a oty :
  integerReduction ty r → r = [b] → getReduceInitVal oty b = Some a →
  ∃ e, constantValue a = Some e ∧ Good ty r e.
Proof.
  intros (w & name & x & y & -> & -> & Hxy) [= <-].
  unfold getReduceInitVal. cbn [blockOps]. intros Hn.
  assert (∃ e, a = IntegerAttr (IntegerType w) e) as [e ->].
  { revert Hn. unfold getNeutralElement. cbn [opResultType opName].
    destruct name; intros [= <-]; eauto. }
  exists e. split; [reflexivity|].
  destruct (neutral_CommMonoid _ _ _ _ _ Hn) as [Heval HM].
  exists w, (mkBlock [mkOperation name [x; y] (IntegerType w)] (OpResult 0)).
  split; [reflexivity|]. split; [reflexivity|].
  destruct Hxy as [[-> ->]|[-> ->]].
  - assert (∀ a b, regionOp [mkBlock [mkOperation name [BlockArgument 0; BlockArgument 1] (IntegerType w)] (OpResult 0)] a b = intOp w name a b) as Hop.
    { intros a b. unfold regionOp, execRegion, execBlock, execOperation. cbn.
      rewrite Heval. reflexivity. }
    split; [|split].
    + eapply CommMonoid_ext; [|exact HM]. intros; symmetry; apply Hop.
    + intros a b. rewrite Hop. unfold execBlock, execOperation. cbn.
      rewrite Heval. reflexivity.
    + intros a b. rewrite Hop. unfold cloneReduceBody, execOperation. cbn.
      rewrite Heval. reflexivity.
  - assert (∀ a b, regionOp [mkBlock [mkOperation name [BlockArgument 1; BlockArgument 0] (IntegerType w)] (OpResult 0)] a b = intOp w name b a) as Hop.
    { intros a b. unfold regionOp, execRegion, execBlock, execOperation. cbn.
      rewrite Heval. reflexivity. }
    split; [|split].
    + eapply CommMonoid_ext; [|apply CommMonoid_flip; exact HM].
      intros; symmetry; apply Hop.
    + intros a b. rewrite Hop. unfold execBlock, execOperation. cbn.
      rewrite Heval. reflexivity.
    + intros a b. rewrite Hop. unfold cloneReduceBody, execOperation. cbn.
      rewrite Heval. reflexivity.
Qed.

Lemma collectInitVals_Good op types regions acc attrs :
  Forall2 integerReduction types regions →
  collectInitVals op regions acc = Some attrs →
  ∃ attrs' es, attrs = acc ++ attrs'
    ∧ Forall2 (λ a e, constantValue a = Some e) attrs' es
    ∧ Forall3 Good types regions es.
Proof.
  intros HF. revert acc. induction HF as [|ty r types regions Hr HF IH]; intros acc.
  - intros [= <-]. exists [], []. rewrite app_nil_r. repeat constructor.
  - cbn [collectInitVals].
    destruct r as [|b [|? ?]]; try discriminate.
    destruct (getReduceInitVal _ b) as [a|] eqn:Ha; [|discriminate].
    intros Hc. destruct (IH _ Hc) as (attrs' & es & -> & Hes & HG).
    destruct (integerReduction_Good _ _ _ _ _ Hr eq_refl Ha) as (e & He & Hg).
    exists (a :: attrs'), (e :: es). rewrite <- app_assoc. split; [reflexivity|].
    split; constructor; assumption.
Qed.

Lemma Good_vector types regions es :
  Forall3 Good types regions es →
  CommMonoid (Forall2 inType types) (combineAll regions) es.
Proof.
  induction 1 as [|ty r e types regions es (w & b & -> & -> & HM & _) HF IH].
  - split; intros; repeat match goal with H : Forall2 _ [] _ |- _ => inversion H; clear H; subst end; cbn; try constructor.
  - destruct HM as [Hc He Ha Hcomm Hu], IH as [Hc' He' Ha' Hcomm' Hu'].
    split; intros;
      repeat match goal with
             | H : Forall2 _ (_ :: _) _ |- _ => inversion H; clear H; subst
             end; cbn [combineAll].
    + constructor; [apply Hc; assumption|apply Hc'; assumption].
    + constructor; assumption.
    + f_equal; [apply Ha; assumption|apply Ha'; assumption].
    + f_equal; [apply Hcomm; assumption|apply Hcomm'; assumption].
    + f_equal; [apply Hu; assumption|apply Hu'; assumption].
Qed.

Lemma execReductions_Good types regions es accs xs :
  Forall3 Good types regions es →
  length accs = length regions → length xs = length regions →
  execReductions regions accs xs = Some (combineAll regions accs xs).
Proof.
  intros HF. revert accs xs.
  induction HF as [|ty r e types regions es (w & b & -> & -> & _ & Hex & _) HF IH];
    intros [|a accs] [|x xs] Ha Hx; try discriminate.
  - reflexivity.
  - injection Ha as Ha. injection Hx as Hx.
    cbn [execReductions combineAll]. unfold execRegion. cbn [head mbind option_bind].
    rewrite Hex. cbn. rewrite IH by assumption. reflexivity.
Qed.

Lemma length_combineAll regions accs xs :
  length accs = length regions → length xs = length regions →
  length (combineAll regions accs xs) = length regions.
Proof.
  revert accs xs. induction regions as [|r regions IH];
    intros [|a accs] [|x xs] Ha Hx; try discriminate.
  - reflexivity.
  - injection Ha as Ha. injection Hx as Hx. cbn. f_equal. by apply IH.
Qed.

Lemma foldl_combineAll_length regions inits data :
  length inits = length regions →
  Forall (λ xs, length xs = length regions) data →
  length (foldl (combineAll regions) inits data) = length regions.
Proof.
  intros Hi Hd. revert inits Hi. induction Hd as [|xs data Hx Hd IH]; intros inits Hi.
  - exact Hi.
  - cbn. apply IH. by apply length_combineAll.
Qed.

Lemma foldM_execReductions types regions es inits data :
  Forall3 Good types regions es →
  length inits = length regions →
  Forall (λ xs, length xs = length regions) data →
  foldM (λ accs xs, execReductions regions accs xs) inits data
  = Some (foldl (combineAll regions) inits data).
Proof.
  intros HF Hi Hd. revert inits Hi. induction Hd as [|xs data Hx Hd IH]; intros inits Hi.
  - reflexivity.
  - cbn [foldM foldl]. erewrite execReductions_Good by eassumption. cbn.
    apply IH. by apply length_combineAll.
Qed.

Lemma foldM_fmap {A B C} (f : A → C → option A) (g : B → C) a l :
  foldM (λ a x, f a (g x)) a l = foldM f a (g <$> l).
Proof.
  revert a. induction l as [|x l IH]; intros a; [reflexivity|].
  cbn. destruct (f a (g x)); cbn; [apply IH|reflexivity].
Qed.

Lemma setColumn_Shape n m mem t v :
  Shape n m mem → length v = n → Shape n m (setColumn mem t v).
Proof.
  intros [Hn Hm] Hv. split.
  - unfold setColumn. rewrite length_zip_with. lia.
  - unfold setColumn. clear Hn Hv. revert v.
    induction Hm as [|buf mem Hb Hm IH]; intros [|x v]; cbn; constructor.
    + by rewrite length_insert.
    + apply IH.
Qed.

Lemma column_setColumn_eq n m mem t v :
  Shape n m mem → length v = n → (t < m)%nat →
  column (setColumn mem t v) t = Some v.
Proof.
  intros [Hn Hm] Hv Ht. subst n. unfold column, setColumn. revert v Hv.
  induction Hm as [|buf mem Hb Hm IH]; intros [|x v] Hv; try discriminate.
  - reflexivity.
  - injection Hv as Hv. cbn.
    rewrite list_lookup_insert_eq by lia. cbn.
    rewrite IH by assumption. reflexivity.
Qed.

Lemma column_setColumn_ne mem t t' v :
  length v = length mem → t ≠ t' →
  column (setColumn mem t v) t' = column mem t'.
Proof.
  intros Hv Hne. unfold column, setColumn. revert v Hv.
  induction mem as [|buf mem IH]; intros [|x v] Hv; try discriminate.
  - reflexivity.
  - injection Hv as Hv. cbn.
    rewrite list_lookup_insert_ne by assumption.
    rewrite IH by assumption. reflexivity.
Qed.

Lemma column_length mem t v : column mem t = Some v → length v = length mem.
Proof.
  unfold column. intros H. apply length_mapM in H. lia.
Qed.

Lemma mapM_cons {A B} (f : A → option B) x l :
  mapM f (x :: l) = y ← f x; k ← mapM f l; Some (y :: k).
Proof. reflexivity. Qed.

Lemma load_middle pre buf bufs t :
  0 ≤ t → load (pre ++ buf :: bufs) (length pre) t = mjoin (buf !! Z.to_nat t).
Proof.
  intros Ht. unfold load. rewrite lookup_app_r, Nat.sub_diag by lia.
  cbn. by rewrite decide_True.
Qed.

Lemma store_middle pre buf bufs v t :
  0 ≤ t < Z.of_nat (length buf) →
  store (pre ++ buf :: bufs) v (length pre) t
  = Some (pre ++ <[Z.to_nat t := Some v]> buf :: bufs).
Proof.
  intros Ht. unfold store. rewrite lookup_app_r, Nat.sub_diag by lia.
  cbn. rewrite decide_True by assumption.
  by rewrite insert_app_r_alt, Nat.sub_diag by lia.
Qed.

Lemma snoc_middle {A} (pre : list A) x l :
  (pre ++ [x]) ++ l = pre ++ x :: l ∧ length (pre ++ [x]) = S (length pre).
Proof. rewrite <- app_assoc, length_app. split; [reflexivity|cbn; lia]. Qed.

(** the loads *)
Lemma mapM_load pre bufs t :
  0 ≤ t →
  mapM (λ var, load (pre ++ bufs) var t) (seq (length pre) (length bufs))
  = column bufs (Z.to_nat t).
Proof.
  intros Ht. revert pre. induction bufs as [|buf bufs IH]; intros pre.
  - reflexivity.
  - cbn [length seq]. unfold column. rewrite !mapM_cons.
    rewrite load_middle by assumption.
    destruct (snoc_middle pre buf bufs) as [Happ Hlen].
    specialize (IH (pre ++ [buf])). rewrite Happ, Hlen in IH.
    rewrite IH. reflexivity.
Qed.

(** the stores *)
Lemma storeResults_setColumn pre bufs v t m :
  length v = length bufs → Forall (λ buf, length buf = m) bufs →
  0 ≤ t < Z.of_nat m →
  storeResults v (seq (length pre) (length bufs)) t (pre ++ bufs)
  = Some (pre ++ setColumn bufs (Z.to_nat t) v).
Proof.
  intros Hv Hm Ht. revert pre v Hv.
  induction Hm as [|buf bufs Hb Hm IH]; intros pre [|x v] Hv; try discriminate.
  - reflexivity.
  - injection Hv as Hv. cbn [length seq storeResults].
    rewrite store_middle by lia. cbn [mbind option_bind].
    destruct (snoc_middle pre (<[Z.to_nat t:=Some x]> buf) bufs) as [Happ Hlen].
    specialize (IH (pre ++ [<[Z.to_nat t:=Some x]> buf]) v Hv).
    rewrite Happ, Hlen in IH. rewrite IH.
    rewrite <- app_assoc. reflexivity.
Qed.

Lemma reduceInitBodyBuilder_setColumn pre bufs attrs es index m :
  Forall2 (λ a e, constantValue a = Some e) attrs es →
  length es = length bufs → Forall (λ buf, length buf = m) bufs →
  0 ≤ index < Z.of_nat m →
  reduceInitBodyBuilder (seq (length pre) (length bufs)) attrs index (pre ++ bufs)
  = Some (pre ++ setColumn bufs (Z.to_nat index) es).
Proof.
  intros Hes Hv Hm Ht. revert pre attrs es Hes Hv.
  induction Hm as [|buf bufs Hb Hm IH]; intros pre attrs es Hes Hv.
  - destruct es; [|discriminate]. reflexivity.
  - destruct Hes as [|a e attrs es Ha Hes]; [discriminate|].
    injection Hv as Hv. cbn [length seq reduceInitBodyBuilder].
    rewrite Ha. cbn [mbind option_bind].
    rewrite store_middle by lia. cbn [mbind option_bind].
    destruct (snoc_middle pre (<[Z.to_nat index:=Some e]> buf) bufs)
      as [Happ Hlen].
    specialize (IH (pre ++ [<[Z.to_nat index:=Some e]> buf]) attrs es Hes Hv).
    rewrite Happ, Hlen in IH. rewrite IH.
    rewrite <- app_assoc. reflexivity.
Qed.

Lemma reduceBodyBuilder_combineAll types regions es pre bufs index args col :
  Forall3 Good types regions es →
  0 ≤ index →
  column bufs (Z.to_nat index) = Some col →
  length bufs = length regions → length args = length regions →
  reduceBodyBuilder regions (seq (length pre) (length bufs)) (pre ++ bufs)
                    index args
  = Some (combineAll regions args col).
Proof.
  intros HF Hi. revert pre bufs args col.
  induction HF
    as [|ty r e types regions es (w & b & -> & -> & _ & _ & Hcl) HF IH];
    intros pre bufs args col Hcol Hb Ha.
  - reflexivity.
  - destruct bufs as [|buf bufs]; [discriminate|].
    destruct args as [|arg args]; [discriminate|].
    injection Hb as Hb. injection Ha as Ha.
    unfold column in Hcol. rewrite mapM_cons in Hcol.
    destruct (mjoin (buf !! Z.to_nat index)) as [prev|] eqn:Hprev;
      [|discriminate].
    cbn [mbind option_bind] in Hcol.
    destruct (mapM _ bufs) as [col'|] eqn:Hcol'; [|discriminate].
    injection Hcol as <-.
    cbn [length seq reduceBodyBuilder combineAll].
    rewrite load_middle by assumption. rewrite Hprev.
    cbn [head mbind option_bind]. rewrite Hcl. cbn [mbind option_bind].
    destruct (snoc_middle pre buf bufs) as [Happ Hlen].
    specialize (IH (pre ++ [buf]) bufs args col' Hcol' Hb Ha).
    rewrite Happ, Hlen in IH. rewrite IH. reflexivity.
Qed.

Lemma scfFor_seq {St} n k (body : Z → St → option St) s :
  scfFor n (Z.of_nat k) 1 body s
  = foldM (λ s j, body (Z.of_nat j) s) s (seq k n).
Proof.
  revert k s. induction n as [|n IH]; intros k s; [reflexivity|].
  cbn [scfFor seq foldM]. destruct (body (Z.of_nat k) s) as [s'|]; [|reflexivity].
  cbn. replace (Z.of_nat k + 1) with (Z.of_nat (S k)) by lia. apply IH.
Qed.

Lemma execFor_seq {St} mc (body : Z → St → option St) s :
  execFor 0 mc 1 body s
  = foldM (λ s j, body (Z.of_nat j) s) s (seq 0 (Z.to_nat mc)).
Proof.
  unfold execFor, tripCount. rewrite decide_True by lia.
  replace ((mc - 0 + 1 - 1) `div` 1) with mc by (rewrite Z.div_1_r; lia).
  apply (scfFor_seq _ 0).
Qed.

Lemma Forall3_Good_integer types regions es :
  Forall3 Good types regions es → Forall (λ ty, inType ty 0) types.
Proof.
  induction 1 as [|ty r e types regions es (w & b & -> & _) HF IH];
    constructor; [|exact IH].
  cbn. pose proof (modulus_pos w). unfold inRange. lia.
Qed.

Lemma zip_with_ofType_inType types raw :
  Forall (λ ty, inType ty 0) types → length raw = length types →
  Forall2 inType types (zip_with ofType types raw).
Proof.
  intros Hty. revert raw. induction Hty as [|ty types Hty Htys IH];
    intros [|z raw] Hlen; try discriminate; cbn; constructor.
  - destruct ty; try contradiction. cbn. apply inRange_trunc.
  - apply IH. by injection Hlen.
Qed.

Section RewrittenLoop.
Context (op : ScfParallelOp) (es : list Z) (attrs : list Attribute) (mc : Z).
Hypothesis HF : Forall3 Good (resultTypes op) (reductions op) es.
Hypothesis Hattrs : Forall2 (λ a e, constantValue a = Some e) attrs es.
Hypothesis Hwf : wellFormed op.
Hypothesis Hmc : 0 ≤ mc.

Local Abbreviation n := (length (resultTypes op)).
Local Abbreviation m := (Z.to_nat mc).
Local Abbreviation FV := (combineAll (reductions op)).
Local Abbreviation PV := (Forall2 inType (resultTypes op)).
Local Abbreviation vars := (seq 0 (length (resultTypes op))).

Lemma len_regions : length (reductions op) = n.
Proof. symmetry. eapply Forall3_length_lm, HF. Qed.
Lemma len_es : length es = n.
Proof. symmetry. eapply Forall3_length_lr, HF. Qed.
Lemma PV_length v : PV v → length v = n.
Proof. intros H. symmetry. eapply Forall2_length, H. Qed.
Lemma PV_operands point : PV (reduceOperands op point).
Proof.
  apply zip_with_ofType_inType; [eapply Forall3_Good_integer, HF|apply Hwf].
Qed.
Lemma PV_inits : PV (getInitVals op).
Proof.
  apply zip_with_ofType_inType; [eapply Forall3_Good_integer, HF|apply Hwf].
Qed.
Lemma PV_data pts : Forall PV (reduceOperands op <$> pts).
Proof. apply Forall_fmap, Forall_forall. intros p _. apply PV_operands. Qed.
Lemma MV : CommMonoid PV FV es.
Proof. apply Good_vector, HF. Qed.

Lemma execScfParallel_foldl lower upper inits :
  length inits = n →
  execScfParallel op lower upper inits
  = Some (foldl FV inits (reduceOperands op <$> points lower upper (step op))).
Proof.
  intros Hi. unfold execScfParallel.
  rewrite (foldM_fmap (execReductions (reductions op)) (reduceOperands op)).
  eapply foldM_execReductions; [exact HF|by rewrite len_regions|].
  rewrite len_regions. eapply Forall_impl; [apply PV_data|].
  intros v. apply PV_length.
Qed.

(** Phase A: the init loop *)
Lemma initLoop_aux j k mem :
  Shape n m mem → (k + j = m)%nat →
  (∀ t, (t < k)%nat → column mem t = Some es) →
  ∃ mem', foldM (λ mem i, reduceInitBodyBuilder vars attrs (Z.of_nat i) mem)
                mem (seq k j) = Some mem'
          ∧ Shape n m mem'
          ∧ ∀ t, (t < m)%nat → column mem' t = Some es.
Proof.
  revert k mem. induction j as [|j IH]; intros k mem Hsh Hk Hcol.
  - exists mem. split; [reflexivity|]. split; [exact Hsh|].
    intros t Ht. apply Hcol. lia.
  - cbn [seq foldM].
    destruct Hsh as [Hn Hm].
    pose proof (reduceInitBodyBuilder_setColumn [] mem attrs es (Z.of_nat k) m
                  Hattrs) as Hbody.
    cbn [length app] in Hbody. rewrite Hn in Hbody.
    rewrite Hbody by (rewrite ?len_es; first [assumption|lia]).
    cbn [mbind option_bind]. rewrite Nat2Z.id.
    apply IH.
    + apply setColumn_Shape; [split; assumption|apply len_es].
    + lia.
    + intros t Ht. destruct (decide (t = k)) as [->|Hne].
      * eapply column_setColumn_eq; [split; eassumption|apply len_es|lia].
      * rewrite column_setColumn_ne by (rewrite ?len_es; first [lia|congruence]).
        apply Hcol. lia.
Qed.

Lemma initLoop :
  ∃ mem1,
    execFor 0 mc 1 (reduceInitBodyBuilder vars attrs)
            ((λ _, replicate m None) <$> resultTypes op) = Some mem1
    ∧ Cols op mc mem1 (replicate m es).
Proof.
  rewrite execFor_seq.
  destruct (initLoop_aux m 0 ((λ _, replicate m None) <$> resultTypes op))
    as (mem1 & Hrun & Hsh & Hcol).
  - split; [by rewrite length_fmap|].
    apply Forall_fmap, Forall_forall. intros ty _. cbn. apply length_replicate.
  - lia.
  - intros t Ht. lia.
  - exists mem1. split; [exact Hrun|]. split; [exact Hsh|].
    split; [apply length_replicate|]. split.
    + apply Forall_replicate. apply (cm_unit_closed _ _ _ MV).
    + intros t col [-> Ht]%lookup_replicate. by apply Hcol.
Qed.

(** Phase B: the tasks *)
Lemma bodyBuilder_task mem cols lower upper tid :
  Cols op mc mem cols → 0 ≤ tid < mc →
  ∃ col,
    cols !! Z.to_nat tid = Some col
    ∧ bodyBuilder op vars lower upper tid mem
      = Some (setColumn mem (Z.to_nat tid)
                (foldl FV col (reduceOperands op <$> points lower upper (step op))))
    ∧ Cols op mc (setColumn mem (Z.to_nat tid)
              (foldl FV col (reduceOperands op <$> points lower upper (step op))))
           (<[Z.to_nat tid :=
                foldl FV col (reduceOperands op <$> points lower upper (step op))]> cols).
Proof.
  intros (Hsh & Hlen & HPV & Hcol) Htid.
  destruct (lookup_lt_is_Some_2 cols (Z.to_nat tid)) as [col Hc]; [lia|].
  exists col. split; [exact Hc|].
  assert (PV col) as HPcol by exact (Forall_lookup_1 _ _ _ _ HPV Hc).
  set (res := foldl FV col (reduceOperands op <$> points lower upper (step op))).
  assert (PV res) as HPres.
  { apply (foldl_closed _ _ _ MV); [exact HPcol|apply PV_data]. }
  destruct Hsh as [Hn Hm].
  split.
  - unfold bodyBuilder.
    pose proof (mapM_load [] mem tid) as Hload. cbn [length app] in Hload.
    rewrite Hn in Hload. rewrite Hload by lia.
    rewrite (Hcol _ _ Hc). cbn [mbind option_bind].
    rewrite execScfParallel_foldl by by apply PV_length.
    cbn [mbind option_bind]. fold res.
    pose proof (storeResults_setColumn [] mem res tid m) as Hstore.
    cbn [length app] in Hstore. rewrite Hn in Hstore.
    apply Hstore; [by rewrite PV_length|assumption|lia].
  - split; [|split; [|split]].
    + apply setColumn_Shape; [split; assumption|by apply PV_length].
    + by rewrite length_insert.
    + by apply Forall_insert.
    + intros t c Ht. destruct (decide (t = Z.to_nat tid)) as [->|Hne].
      * rewrite list_lookup_insert_eq in Ht by lia. injection Ht as <-.
        eapply column_setColumn_eq; [split; eassumption|by apply PV_length|lia].
      * rewrite list_lookup_insert_ne in Ht by congruence.
        rewrite column_setColumn_ne
          by (rewrite ?PV_length by assumption; first [lia|congruence]).
        by apply Hcol.
Qed.

Lemma parallel_tasks schedule mem cols :
  Cols op mc mem cols → Forall (λ task, 0 ≤ threadIndex task < mc) schedule →
  ∃ mem' cols',
    foldM (λ mem task, bodyBuilder op vars (sliceLower task) (sliceUpper task)
                                   (threadIndex task) mem) mem schedule
    = Some mem'
    ∧ Cols op mc mem' cols'
    ∧ foldl FV es cols'
      = FV (foldl FV es cols)
           (foldl FV es
              (reduceOperands op <$>
                 (task ← schedule;
                  points (sliceLower task) (sliceUpper task) (step op)))).
Proof.
  intros HC Hs. revert mem cols HC.
  induction Hs as [|task schedule Htid Hs IH]; intros mem cols HC.
  - exists mem, cols. split; [reflexivity|]. split; [exact HC|].
    cbn. symmetry. apply (cm_unit _ _ _ MV).
    apply (foldl_closed _ _ _ MV); [apply (cm_unit_closed _ _ _ MV)|apply HC].
  - destruct (bodyBuilder_task mem cols (sliceLower task) (sliceUpper task)
                (threadIndex task) HC Htid) as (col & Hc & Hrun & HC').
    destruct (IH _ _ HC') as (mem' & cols' & Hrun' & HC'' & Hsum).
    exists mem', cols'. split; [|split; [exact HC''|]].
    + cbn [foldM]. rewrite Hrun. exact Hrun'.
    + rewrite Hsum. rewrite bind_cons, fmap_app.
      pose proof (cm_unit_closed _ _ _ MV) as He.
      destruct HC as (_ & _ & HPV & _).
      rewrite (foldl_insert_slot _ _ _ MV) by (first [assumption|apply PV_data]).
      rewrite (foldl_app_unit _ _ _ MV) by apply PV_data.
      apply (cm_assoc _ _ _ MV); apply (foldl_closed _ _ _ MV);
        first [assumption|apply PV_data].
Qed.

(** Phase C: the combine loop *)
Lemma reduceLoop_aux mem cols j k args :
  Cols op mc mem cols → (k + j = m)%nat → length args = n →
  foldM (λ args i, reduceBodyBuilder (reductions op) vars mem (Z.of_nat i) args)
        args (seq k j)
  = Some (foldl FV args (drop k cols)).
Proof.
  intros (Hsh & Hlen & HPV & Hcol). revert k args.
  induction j as [|j IH]; intros k args Hk Ha.
  - rewrite drop_ge by lia. reflexivity.
  - destruct (lookup_lt_is_Some_2 cols k) as [col Hc]; [lia|].
    rewrite (drop_S _ _ _ Hc). cbn [seq foldM foldl].
    assert (PV col) as HPcol by exact (Forall_lookup_1 _ _ _ _ HPV Hc).
    destruct Hsh as [Hn Hm].
    pose proof (reduceBodyBuilder_combineAll _ _ _ [] mem (Z.of_nat k) args col
                  HF) as Hbody.
    cbn [length app] in Hbody. rewrite Hn in Hbody.
    rewrite Hbody; [|lia|rewrite Nat2Z.id; by apply Hcol
                    |by rewrite len_regions|by rewrite len_regions].
    cbn [mbind option_bind]. apply IH; [lia|].
    rewrite length_combineAll; rewrite ?len_regions; auto using PV_length.
Qed.

Lemma reduceLoop mem cols :
  Cols op mc mem cols →
  execFor 0 mc 1 (reduceBodyBuilder (reductions op) vars mem) (getInitVals op)
  = Some (foldl FV (getInitVals op) cols).
Proof.
  intros HC. rewrite execFor_seq.
  rewrite (reduceLoop_aux mem cols m 0) by
    first [assumption | lia | apply PV_length, PV_inits].
  reflexivity.
Qed.

Lemma rewritten_eq_sequential schedule :
  validSchedule op mc schedule →
  ∃ results,
    execSequential op = Some results
    ∧ execRewritten (mkRewritten op mc attrs) schedule = Some results.
Proof.
  intros [Htid Hperm].
  pose proof MV as M. pose proof (cm_unit_closed _ _ _ M) as He.
  pose proof PV_inits as Hinits.
  set (data := reduceOperands op <$>
                 points (lowerBound op) (upperBound op) (step op)).
  exists (foldl FV (getInitVals op) data). split.
  - unfold execSequential. apply execScfParallel_foldl. by apply PV_length.
  - unfold execRewritten. cbn [source maxConcurrency neutralInitVals].
    destruct initLoop as (mem1 & -> & HC1). cbn [mbind option_bind].
    destruct (parallel_tasks schedule mem1 _ HC1 Htid)
      as (mem2 & cols2 & -> & HC2 & Hsum).
    cbn [mbind option_bind]. rewrite (reduceLoop _ _ HC2). f_equal.
    rewrite (foldl_from_unit _ _ _ M) by (first [assumption|apply HC2]).
    rewrite Hsum, (foldl_replicate_unit _ _ _ M).
    rewrite (cm_comm _ _ _ M es)
      by (first [assumption|apply (foldl_closed _ _ _ M); [assumption|apply PV_data]]).
    rewrite (cm_unit _ _ _ M)
      by (apply (foldl_closed _ _ _ M); [assumption|apply PV_data]).
    rewrite <- (foldl_from_unit _ _ _ M) by (first [assumption|apply PV_data]).
    apply (foldl_perm _ _ _ M); [|assumption|apply PV_data].
    unfold data. by apply fmap_Permutation.
Qed.

End RewrittenLoop.

Lemma find_isFunc op p :
  getParentOfType isFunc op = Some p → ∃ attrs, p = PFunc attrs.
Proof.
  unfold getParentOfType. intros [_ H]%find_some. destruct p; try discriminate. eauto.
Qed.

Lemma find_isScfParallel_None op :
  getParentOfType isScfParallel op = None ↔ PScfParallel ∉ getParents op.
Proof.
  unfold getParentOfType. split.
  - intros H Hin. apply list_elem_of_In in Hin.
    pose proof (find_none _ _ H _ Hin) as Hf. discriminate.
  - intros Hnin. destruct (find isScfParallel (getParents op)) as [p|] eqn:E; [|reflexivity].
    apply find_some in E as [Hin Hp]. destruct p; try discriminate.
    exfalso. apply Hnin. by apply list_elem_of_In.
Qed.

Lemma collectInitVals_is_Some op regions acc :
  is_Some (collectInitVals op regions acc)
  ↔ Forall (λ region : Region,
              ∃ front o, region = [front] ∧ blockOps front = [o]
                         ∧ is_Some (getNeutralElement o)) regions.
Proof.
  revert acc. induction regions as [|region regions IH]; intros acc.
  - split; [constructor|eauto].
  - cbn [collectInitVals]. rewrite Forall_cons.
    destruct region as [|front [|? ?]];
      try solve [split; [intros [? [=]]|intros [(? & ? & [=] & _) _]]].
    unfold getReduceInitVal.
    destruct (blockOps front) as [|o [|? ?]] eqn:Hops;
      try solve [split; [intros [? [=]]
                        |intros [(? & ? & [= <-] & Hb & _) _]; congruence]].
    destruct (getNeutralElement o) as [a|] eqn:Ha.
    + rewrite IH. split.
      * intros H. split; [|exact H]. exists front, o. eauto.
      * intros [_ H]. exact H.
    + split; [intros [? [=]]|].
      intros [(f & o' & [= <-] & Hb & [a Hn]) _].
      rewrite Hops in Hb. injection Hb as <-. congruence.
Qed.

Lemma matchAndRewrite_Some op rewriter rw actions :
  matchAndRewrite op rewriter = (Some rw, actions) →
  ∃ attrs,
    getParentOfType isFunc op = Some (PFunc attrs)
    ∧ getIntegerAttr attrs getMaxConcurrencyName = Some (maxConcurrency rw)
    ∧ 1 < maxConcurrency rw
    ∧ source rw = op
    ∧ collectInitVals op (reductions op) [] = Some (neutralInitVals rw).
Proof.
  unfold matchAndRewrite.
  destruct (isUtilParallel (parentOp op)); [discriminate|].
  destruct (negb _); [discriminate|].
  destruct (getParentOfType isFunc op) as [[| | |attrs|]|]; try discriminate.
  destruct (getIntegerAttr attrs getMaxConcurrencyName) as [mc|] eqn:Hmc;
    cbn [default from_option]; unfold id; [|discriminate].
  case_decide; [discriminate|].
  destruct (negb _); [discriminate|].
  destruct (collectInitVals op (reductions op) []) as [initVals|]; [|discriminate].
  intros [= <- <-]. exists attrs. cbn. repeat split; try reflexivity; [assumption|lia].
Qed.

Ltac declined :=
  let H := fresh in intros H; cbn in H; destruct (is_Some_None H).

Lemma matchAndRewrite_eligible op rewriter :
  is_Some (matchAndRewrite op rewriter).1 ↔ eligible op.
Proof.
  unfold matchAndRewrite, eligible.
  split.
  - destruct (isUtilParallel (parentOp op)) eqn:Hup; [declined|].
    destruct (isInsideParalleRegion op || _) eqn:Hneed; cbn [negb];
      [|declined].
    destruct (getParentOfType isFunc op) as [[| | |attrs|]|] eqn:Hf;
      try declined.
    destruct (getIntegerAttr attrs getMaxConcurrencyName) as [mc|] eqn:Hmc;
      cbn [default from_option]; unfold id;
      (case_decide as Hmc1; [declined|]); [|lia].
    destruct (forallb _ (resultTypes op)) eqn:Hty; cbn [negb]; [|declined].
    destruct (collectInitVals op (reductions op) []) as [initVals|] eqn:Hc;
      [|declined].
    intros _. split; [|split; [|split; [|split]]].
    + intros Hp. rewrite Hp in Hup. discriminate.
    + apply orb_true_iff in Hneed as [Hin|Hno].
      * left. unfold isInsideParalleRegion in Hin.
        destruct (parentOp op) as [| |[]| |]; try discriminate. reflexivity.
      * right. apply find_isScfParallel_None.
        apply negb_true_iff, bool_decide_eq_false in Hno.
        destruct (getParentOfType isScfParallel op); [|reflexivity].
        exfalso. apply Hno. eauto.
    + exists attrs, mc. repeat split; [assumption|lia].
    + apply Forall_forall. intros ty Hin.
      rewrite forallb_forall in Hty. apply list_elem_of_In in Hin.
      specialize (Hty _ Hin). apply bool_decide_eq_true in Hty as [? Hty].
      unfold getReduceType in Hty.
      destruct (isIntOrFloat ty); [reflexivity|discriminate].
    + apply (collectInitVals_is_Some op _ []). rewrite Hc. eauto.
  - intros (Hup & Hneed & (attrs & mc & Hf & Hmc & Hmc1) & Hty & Hreg).
    destruct (isUtilParallel (parentOp op)) eqn:Hup'.
    { destruct (parentOp op); try discriminate. contradiction. }
    assert (isInsideParalleRegion op
            || negb (bool_decide
                       (is_Some (getParentOfType isScfParallel op))) = true)
      as ->.
    { apply orb_true_iff. destruct Hneed as [Hin|Hno].
      - left. unfold isInsideParalleRegion. by rewrite Hin.
      - right. apply find_isScfParallel_None in Hno. rewrite Hno.
        apply negb_true_iff, bool_decide_eq_false. apply is_Some_None. }
    cbn [negb]. rewrite Hf, Hmc. cbn [default from_option]. unfold id.
    rewrite decide_False by lia.
    assert (forallb (λ type, bool_decide (is_Some (getReduceType type mc)))
                    (resultTypes op) = true) as ->.
    { apply forallb_forall. intros ty Hin. apply list_elem_of_In in Hin.
      rewrite Forall_forall in Hty. specialize (Hty _ Hin).
      apply bool_decide_eq_true. unfold getReduceType. rewrite Hty. eauto. }
    cbn [negb].
    apply (collectInitVals_is_Some op _ []) in Hreg as [initVals ->].
    cbn. eauto.
Qed.

Lemma matchAndRewrite_None op rewriter :
  (matchAndRewrite op rewriter).1 = None → (matchAndRewrite op rewriter).2 = rewriter.
Proof.
  unfold matchAndRewrite.
  repeat match goal with
         | |- context [match ?x with _ => _ end] => destruct x; try reflexivity
         end; discriminate.
Qed.


Lemma rewritten_refines op rewriter rw actions schedule :
  wellFormed op →
  Forall2 integerReduction (resultTypes op) (reductions op) →
  matchAndRewrite op rewriter = (Some rw, actions) →
  validSchedule op (maxConcurrency rw) schedule →
  ∃ results,
    execSequential op = Some results
    ∧ execRewritten rw schedule = Some results.
Proof.
  intros Hwf Hint Hrw Hsched.
  destruct (matchAndRewrite_Some _ _ _ _ Hrw)
    as (fattrs & _ & _ & Hmc & Hsrc & Hinit).
  destruct (collectInitVals_Good _ _ _ _ _ Hint Hinit)
    as (attrs & es & Hattrs & Hes & HF).
  destruct rw as [src mc initVals]. cbn in *. subst src initVals.
  eapply rewritten_eq_sequential; try eassumption; lia.
Qed.

(** C1, for loops whose reduction regions combine their two block
    arguments: the rewritten loop (the init loop, the tasks of the
    explicit parallel construct in any order and on any threads, the
    combine loop over the thread slots in ascending order) yields what
    the sequential loop yields.  The sum over [0, 100) on four threads
    is 4950. *)
Theorem rewritten_loop_equals_sequential_accumulation :
  (∀ op rewriter rw actions schedule,
     wellFormed op →
     Forall2 integerReduction (resultTypes op) (reductions op) →
     matchAndRewrite op rewriter = (Some rw, actions) →
     validSchedule op (maxConcurrency rw) schedule →
     ∃ results,
       execSequential op = Some results
       ∧ execRewritten rw schedule = Some results)
  ∧ (∀ schedule,
       validSchedule sumLoop 4 schedule →
       ∃ rw, matchAndRewrite sumLoop []
             = (Some rw,
                [CreateAlloca (MemRefType [4] i64 IdentityLayout 0);
                 CreateConstantIndex 0; CreateConstantIndex 4;
                 CreateConstantIndex 1; CreateInitLoop 0 4 1;
                 CreateUtilParallel [0] [100] [1]; CreateReduceLoop 0 4 1 1;
                 ReplaceOpWithReduceLoopResults])
             ∧ execRewritten rw schedule = Some [4950]).
Proof.
  split; [apply rewritten_refines|].
  intros schedule Hsched.
  exists (mkRewritten sumLoop 4 [IntegerAttr i64 0]).
  split; [vm_compute; reflexivity|].
  destruct (rewritten_refines sumLoop []
              (mkRewritten sumLoop 4 [IntegerAttr i64 0])
              (matchAndRewrite sumLoop []).2 schedule)
    as (results & Hseq & Hrw); [| |vm_compute; reflexivity|exact Hsched|].
  - split; [reflexivity|intros; reflexivity].
  - repeat constructor. exists 64%N, AddI, (BlockArgument 0), (BlockArgument 1).
    auto.
  - rewrite Hrw, <- Hseq. vm_compute. reflexivity.
Qed.

Lemma rewritten_loop_equals_sequential_accumulation_witness :
  ∃ results,
    execSequential sumLoop = Some results
    ∧ execRewritten (mkRewritten sumLoop 4 [IntegerAttr i64 0]) quarters
      = Some results.
Proof.
  apply (proj1 rewritten_loop_equals_sequential_accumulation sumLoop []
           (mkRewritten sumLoop 4 [IntegerAttr i64 0])
           (matchAndRewrite sumLoop []).2 quarters).
  - split; [reflexivity|intros; reflexivity].
  - repeat constructor. exists 64%N, AddI, (BlockArgument 0), (BlockArgument 1).
    auto.
  - vm_compute. reflexivity.
  - split.
    + repeat constructor; cbn; lia.
    + vm_compute. reflexivity.
Defined.

(** C1 as stated fails: the pattern accepts the block
    [arith.addi %lhs, %lhs], and the loop over [0, 3) from 1 yields 8
    sequentially and 16 once rewritten for four threads. *)
Lemma doubling_reduction_differs :
  wellFormed doublingLoop
  ∧ resultTypes doublingLoop = [IntegerType 64]
  ∧ validSchedule doublingLoop 4 [mkTask [0] [3] 0]
  ∧ execSequential doublingLoop = Some [8]
  ∧ ∃ rw, (matchAndRewrite doublingLoop []).1 = Some rw
          ∧ maxConcurrency rw = 4
          ∧ execRewritten rw [mkTask [0] [3] 0] = Some [16].
Proof.
  split; [split; [reflexivity|intros; reflexivity]|].
  split; [reflexivity|]. split.
  { split; [repeat constructor; cbn; lia|vm_compute; reflexivity]. }
  split; [vm_compute; reflexivity|].
  eexists. split; [vm_compute; reflexivity|].
  split; vm_compute; reflexivity.
Qed.

End Reductions.

(** ** The walk meets the operations nested in the construct *)

Section Walk.
Import LowerParallel.

(** Induction over nested operations. *)
Lemma Operation_regions_ind (P : Operation → Prop) :
  (∀ name operands regions,
     Forall (Forall (Forall P)) regions →
     P (mkOperation name operands regions)) →
  ∀ inner, P inner.
Proof.
  intros step. fix IH 1. intros [name operands regions]. apply step.
  induction regions as [|blocks regions IHregions]; constructor;
    [|exact IHregions].
  induction blocks as [|block blocks IHblocks]; constructor;
    [|exact IHblocks].
  induction block as [|nested block IHblock]; constructor;
    [apply IH|exact IHblock].
Qed.

Lemma walk_elem inner x :
  x ∈ walk inner
  ↔ x = inner
    ∨ ∃ blocks child,
        blocks ∈ getRegions inner ∧ inBlocks child blocks ∧ x ∈ walk child.
Proof.
  destruct inner as [name operands regions]. cbn [walk getRegions].
  rewrite elem_of_app, list_elem_of_singleton. split.
  - intros [Hin| ->]; [right|by left].
    apply list_elem_of_bind in Hin as (blocks & Hin & Hblocks).
    apply list_elem_of_bind in Hin as (block & Hin & Hblock).
    apply list_elem_of_bind in Hin as (child & Hin & Hchild).
    exists blocks, child. split; [done|]. split; [|done]. by exists block.
  - intros [-> |(blocks & child & Hblocks & (block & Hblock & Hchild) & Hin)];
      [by right|left].
    apply list_elem_of_bind. exists blocks. split; [|done].
    apply list_elem_of_bind. exists block. split; [|done].
    apply list_elem_of_bind. by exists child.
Qed.

Lemma walk_self inner : inner ∈ walk inner.
Proof. apply walk_elem. by left. Qed.

Lemma walk_trans outer inner x :
  inner ∈ walk outer → x ∈ walk inner → x ∈ walk outer.
Proof.
  induction outer as [name operands regions IH] using Operation_regions_ind.
  intros [-> |(blocks & child & Hblocks & Hchild & Hin)]%walk_elem Hx; [done|].
  apply walk_elem. right. exists blocks, child. split; [done|].
  split; [done|]. cbn in Hblocks.
  destruct Hchild as (block & Hblock & Hchild).
  rewrite Forall_forall in IH. specialize (IH blocks Hblocks).
  rewrite Forall_forall in IH. specialize (IH block Hblock).
  rewrite Forall_forall in IH. by apply (IH child Hchild).
Qed.

Lemma nestedOperations_elem op x :
  x ∈ nestedOperations op
  ↔ ∃ top, inBlocks top (body op) ∧ x ∈ walk top.
Proof.
  unfold nestedOperations. rewrite list_elem_of_bind. split.
  - intros (block & Hin & Hblock).
    apply list_elem_of_bind in Hin as (top & Hin & Htop).
    exists top. split; [by exists block|done].
  - intros (top & (block & Hblock & Htop) & Hin). exists block.
    split; [|done]. apply list_elem_of_bind. by exists top.
Qed.

Lemma nestedIn_walk op outer :
  nestedIn op outer → ∀ x, x ∈ walk outer → nestedIn op x.
Proof.
  induction outer as [name operands regions IH] using Operation_regions_ind.
  intros Houter x
    [->|(blocks & child & Hblocks & Hchild & Hin)]%walk_elem; [done|].
  pose proof Hchild as (block & Hblock & Hc).
  cbn in Hblocks.
  rewrite Forall_forall in IH. specialize (IH blocks Hblocks).
  rewrite Forall_forall in IH. specialize (IH block Hblock).
  rewrite Forall_forall in IH. apply (IH child Hc); [|done].
  by eapply nested_region.
Qed.

Lemma nestedIn_visited op x :
  nestedIn op x ↔ x ∈ nestedOperations op.
Proof.
  rewrite nestedOperations_elem. split.
  - induction 1 as [inner Hbody|outer blocks inner _ (top & Htop & Hin)
                                  Hblocks Hchild].
    + exists inner. split; [done|apply walk_self].
    + exists top. split; [done|].
      apply (walk_trans top outer); [done|].
      apply walk_elem. right. exists blocks, inner.
      split; [done|]. split; [done|apply walk_self].
  - intros (top & Htop & Hin).
    apply (nestedIn_walk op top); [by apply nested_body|done].
Qed.

Lemma visitedOperands_elem op v :
  v ∈ visitedOperands op
  ↔ ∃ inner, nestedIn op inner ∧ v ∈ getOperands inner.
Proof.
  unfold visitedOperands. rewrite list_elem_of_bind.
  split; intros (inner & H1 & H2); exists inner.
  - by rewrite nestedIn_visited.
  - by rewrite <- nestedIn_visited.
Qed.
End Walk.

(** ** The context struct holds the captured values *)

Section Capture.
Import LowerParallel.
Variable op : ParallelOp.

Local Abbreviation step := (LowerParallel.step op).
Local Abbreviation Walked := (LowerParallel.Walked op).

Lemma foldl_bind {A B C} (f : A → C → A) (g : B → list C) a l :
  foldl f a (l ≫= g) = foldl (λ a x, foldl f a (g x)) a l.
Proof.
  revert a. induction l as [|x l IH]; intros a; [reflexivity|].
  rewrite bind_cons, foldl_app. apply IH.
Qed.

Lemma captureWalk_visited :
  captureWalk op = foldl step (mkCaptures [] [] []) (visitedOperands op).
Proof. unfold captureWalk, visitedOperands. by rewrite foldl_bind. Qed.

Lemma discovery_app_l v l k :
  v ∈ l → discovery v (l ++ k) = discovery v l.
Proof.
  unfold discovery. intros Hin.
  destruct (list_find (λ v0, v0 = v) l) as [[i x]|] eqn:Hf.
  - by rewrite (list_find_app_l _ _ _ _ _ Hf).
  - apply list_find_None in Hf. rewrite Forall_forall in Hf.
    destruct (Hf v Hin). reflexivity.
Qed.

Lemma discovery_elem v l : v ∈ l → ∃ a, discovery v l = Some a ∧ (a < length l)%nat.
Proof.
  intros Hin. unfold discovery.
  destruct (list_find (λ v0, v0 = v) l) as [[i x]|] eqn:Hf.
  - exists i. split; [reflexivity|].
    apply list_find_Some in Hf as (Hl & _). by eapply lookup_lt_Some.
  - apply list_find_None in Hf. rewrite Forall_forall in Hf.
    destruct (Hf v Hin). reflexivity.
Qed.

Lemma discovery_new v l : v ∉ l → discovery v (l ++ [v]) = Some (length l).
Proof.
  intros Hnin. unfold discovery.
  assert (list_find (λ v0, v0 = v) (l ++ [v]) = Some (length l, v)) as ->; [|reflexivity].
  apply list_find_Some. split; [|split; [reflexivity|]].
  - rewrite lookup_app_r, Nat.sub_diag by lia. reflexivity.
  - intros j y Hj Hlt Heq. subst y. apply Hnin.
    rewrite lookup_app_l in Hj by lia. by eapply list_elem_of_lookup_2.
Qed.

Lemma Walked_nil : Walked [] (mkCaptures [] [] []).
Proof.
  split; cbn.
  - intros v. split; [intros []%elem_of_nil|intros [[]%elem_of_nil _]].
  - intros v. split; [intros []%elem_of_nil|intros [[]%elem_of_nil _]].
  - intros v. split; [intros []%elem_of_nil|intros [[]%elem_of_nil _]].
  - constructor.
  - constructor.
  - intros i j v1 v2 [=].
Qed.

Lemma Walked_step visited c arg :
  Walked visited c → Walked (visited ++ [arg]) (step c arg).
Proof.
  intros [Hset Hvars Hconst Hnd Hndc Hord]. unfold step.
  destruct (isDefinedInside op arg) eqn:Hin.
  { split; try assumption.
    - intros v. rewrite Hset, elem_of_app, list_elem_of_singleton.
      split; [intros [? ?]; auto|].
      intros [[?| ->] ?]; [auto|congruence].
    - intros i j v1 v2 H1 H2 Hlt.
      destruct (Hord _ _ _ _ H1 H2 Hlt) as (a & b & Ha & Hb & Hab).
      exists a, b. 
      assert (v1 ∈ visited) as Hv1.
      { apply list_elem_of_lookup_2 in H1. apply Hvars in H1 as [H1 _]. by apply Hset in H1 as [? _]. }
      assert (v2 ∈ visited) as Hv2.
      { apply list_elem_of_lookup_2 in H2. apply Hvars in H2 as [H2 _]. by apply Hset in H2 as [? _]. }
      rewrite !discovery_app_l by assumption. auto. }
  unfold addContextVar. case_bool_decide as Hseen.
  { split; try assumption.
    - intros v. rewrite Hset, elem_of_app, list_elem_of_singleton.
      split; [intros [? ?]; auto|].
      intros [[?| ->] ?]; [auto|]. by apply Hset.
    - intros i j v1 v2 H1 H2 Hlt.
      destruct (Hord _ _ _ _ H1 H2 Hlt) as (a & b & Ha & Hb & Hab).
      exists a, b.
      assert (v1 ∈ visited) as Hv1.
      { apply list_elem_of_lookup_2 in H1. apply Hvars in H1 as [H1 _]. by apply Hset in H1 as [? _]. }
      assert (v2 ∈ visited) as Hv2.
      { apply list_elem_of_lookup_2 in H2. apply Hvars in H2 as [H2 _]. by apply Hset in H2 as [? _]. }
      rewrite !discovery_app_l by assumption. auto. }
  assert (arg ∉ visited) as Hnew.
  { intros Hv. apply Hseen, Hset. auto. }
  assert (∀ v, v ∈ contextVarsSet c ++ [arg]
               ↔ v ∈ visited ++ [arg] ∧ isDefinedInside op v = false) as Hset'.
  { intros v. rewrite !elem_of_app, !list_elem_of_singleton, Hset.
    split; [intros [[? ?]| ->]; auto|intros [[?| ->] ?]; auto]. }
  assert (∀ i j v1 v2,
            contextVars c !! i = Some v1 → contextVars c !! j = Some v2 →
            (i < j)%nat →
            ∃ a b, discovery v1 (visited ++ [arg]) = Some a
                   ∧ discovery v2 (visited ++ [arg]) = Some b ∧ (a < b)%nat) as Hord'.
  { intros i j v1 v2 H1 H2 Hlt.
    destruct (Hord _ _ _ _ H1 H2 Hlt) as (a & b & Ha & Hb & Hab).
    exists a, b.
    assert (v1 ∈ visited) as Hv1.
    { apply list_elem_of_lookup_2 in H1. apply Hvars in H1 as [H1 _]. by apply Hset in H1 as [? _]. }
    assert (v2 ∈ visited) as Hv2.
    { apply list_elem_of_lookup_2 in H2. apply Hvars in H2 as [H2 _]. by apply Hset in H2 as [? _]. }
    rewrite !discovery_app_l by assumption. auto. }
  destruct (definedByConstantLike arg) eqn:Hc; split; cbn; try assumption.
  - intros v. rewrite Hvars, !elem_of_app, list_elem_of_singleton.
    split; [intros [? ?]; auto|intros [[?| ->] ?]; [auto|congruence]].
  - intros v. rewrite !elem_of_app, list_elem_of_singleton, Hconst.
    split; [intros [[? ?]| ->]; auto|intros [[?| ->] ?]; auto].
  - apply NoDup_app. split; [assumption|]. split; [|apply NoDup_singleton].
    intros v Hv ->%list_elem_of_singleton. apply Hconst in Hv as [Hv _]. contradiction.
  - intros v. rewrite !elem_of_app, list_elem_of_singleton, Hvars.
    split; [intros [[? ?]| ->]; auto|intros [[?| ->] ?]; auto].
  - intros v. rewrite Hconst, !elem_of_app, list_elem_of_singleton.
    split; [intros [? ?]; auto|intros [[?| ->] ?]; [auto|congruence]].
  - apply NoDup_app. split; [assumption|]. split; [|apply NoDup_singleton].
    intros v Hv ->%list_elem_of_singleton. apply Hvars in Hv as [Hv _]. contradiction.
  - intros i j v1 v2 H1 H2 Hlt.
    destruct (decide (j < length (contextVars c))%nat) as [Hj|Hj].
    + rewrite lookup_app_l in H1 by lia. rewrite lookup_app_l in H2 by lia.
      eauto.
    + assert (i < length (contextVars c))%nat as Hi.
      { apply lookup_lt_Some in H2. rewrite length_app in H2. cbn in H2. lia. }
      rewrite lookup_app_l in H1 by lia.
      rewrite lookup_app_r in H2 by lia.
      apply list_lookup_singleton_Some in H2 as [_ <-].
      assert (v1 ∈ visited) as Hv1.
      { apply list_elem_of_lookup_2 in H1. apply Hvars in H1 as [H1 _]. by apply Hset in H1 as [? _]. }
      destruct (discovery_elem _ _ Hv1) as (a & Ha & Hlen).
      exists a, (length visited). rewrite discovery_app_l by assumption.
      rewrite discovery_new by assumption. auto.
Qed.

Lemma Walked_foldl visited c more :
  Walked visited c → Walked (visited ++ more) (foldl step c more).
Proof.
  revert visited c. induction more as [|arg more IH]; intros visited c HW.
  - by rewrite app_nil_r.
  - cbn [foldl]. rewrite cons_middle, app_assoc. apply IH. by apply Walked_step.
Qed.

Lemma captureWalk_Walked : Walked (visitedOperands op) (captureWalk op).
Proof.
  rewrite captureWalk_visited. apply (Walked_foldl [] _ _ Walked_nil).
Qed.

End Capture.

Section Lowering.
Import LowerParallel.
Variable convertType : Ty → option Ty.
Variable llvmIndexType : Ty.

Lemma filter_none {A} (p : A → bool) l :
  Forall (λ a, p a = false) l → List.filter p l = [].
Proof.
  induction 1 as [|a l Ha _ IH]; [reflexivity|]. cbn. by rewrite Ha.
Qed.

Lemma Forall_imap {A B} (P : B → Prop) (f : nat → A → B) l :
  (∀ i x, P (f i x)) → Forall P (imap f l).
Proof.
  intros Hf. apply Forall_forall. intros y Hy.
  apply list_elem_of_lookup in Hy as [i Hi]. rewrite list_lookup_imap in Hi.
  destruct (l !! i); [|discriminate]. injection Hi as <-. apply Hf.
Qed.

Lemma contextFields_Some vars fields :
  contextFields convertType vars = Some fields →
  Forall2 (λ var type, convertType (valueType var) = Some type) vars fields.
Proof. apply mapM_Some_1. Qed.

Lemma contextFields_None vars :
  contextFields convertType vars = None
  ↔ ∃ var, var ∈ vars ∧ convertType (valueType var) = None.
Proof.
  unfold contextFields. rewrite mapM_None, Exists_exists. reflexivity.
Qed.

Lemma matchAndRewrite_context op rewriter :
  match contextFields convertType (contextVars (captureWalk op)) with
  | None =>
      matchAndRewrite convertType llvmIndexType op rewriter
      = (failure, rewriter)
  | Some fields =>
      ∃ new,
        matchAndRewrite convertType llvmIndexType op rewriter
        = (success, rewriter ++ new)
        ∧ List.filter isCreateContextAlloca new
          = [CreateContextAlloca (LLVMStructType fields) (I32Constant 1)]
        ∧ (∀ i var type,
             contextVars (captureWalk op) !! i = Some var →
             fields !! i = Some type →
             CreateStoreToField (LLVMStructType fields) i
               (doCast (OfValue var) (valueType var) type) ∈ new)
        ∧ CreateBitcast LLVMPointerType Context ∈ new
        ∧ (∃ funcType loads,
             CreateOutlinedFunc funcType
               (contextConstants (captureWalk op)) loads ∈ new
             ∧ ∀ i var type,
                 contextVars (captureWalk op) !! i = Some var →
                 fields !! i = Some type → (i, type, var) ∈ loads)
        ∧ ∃ args,
            last new = Some (ReplaceOpWithCall "nmrtParallelFor" args)
            ∧ last args = Some ContextAbstract
  end.
Proof.
  unfold matchAndRewrite.
  destruct (contextFields convertType (contextVars (captureWalk op)))
    as [fields|]; [|reflexivity].
  eexists. split; [reflexivity|].
  split; [|split; [|split; [|split]]].
  - rewrite !List.filter_app. cbn [List.filter isCreateContextAlloca].
    rewrite !filter_none by (apply Forall_imap; reflexivity).
    reflexivity.
  - intros i var type Hvar Hty.
    apply elem_of_app. right. apply elem_of_app. left.
    apply list_elem_of_lookup. exists i.
    rewrite list_lookup_imap, lookup_zip_with, Hvar, Hty. reflexivity.
  - apply elem_of_app. right. apply elem_of_app. right.
    apply elem_of_app. left. constructor.
  - eexists _, _. split.
    + apply elem_of_app. right. apply elem_of_app. right.
      apply elem_of_app. left. right. left.
    + intros i var type Hvar Hty. apply list_elem_of_lookup. exists i.
      rewrite list_lookup_imap, lookup_zip_with, Hvar, Hty. reflexivity.
  - eexists. split.
    + rewrite !app_assoc. apply last_snoc.
    + reflexivity.
Qed.


End Lowering.

(** ** The function boundary: signatures, returns and thunks *)

Section FunctionBoundaryProperties.
Import FunctionBoundary.

Variable convertType : Ty → option Ty.
Variable printType : Ty → string.

Local Abbreviation processArg := (FunctionBoundary.processArg convertType printType).
Local Abbreviation processArgs := (FunctionBoundary.processArgs convertType printType).
Local Abbreviation convertVal := (FunctionBoundary.convertVal convertType printType).
Local Abbreviation insertOperands := (FunctionBoundary.insertOperands convertType printType).
Local Abbreviation matchAndRewrite := (FunctionBoundary.matchAndRewrite convertType printType).
Local Abbreviation getFromMemrefConversionFunc := (FunctionBoundary.getFromMemrefConversionFunc printType).
Local Abbreviation fixFuncSig := (FunctionBoundary.fixFuncSig convertType printType).
Local Abbreviation getToMemrefConversionFunc := (FunctionBoundary.getToMemrefConversionFunc printType).
Local Abbreviation flattenedParameter := (FunctionBoundary.flattenedParameter convertType).
Local Abbreviation flattenedParameters := (FunctionBoundary.flattenedParameters convertType).

Lemma bind_Ok {A B} (r : Result A) (f : A → Result B) b :
  bind r f = Ok b → ∃ a, r = Ok a ∧ f a = Ok b.
Proof. destruct r; cbn; [eauto|discriminate|discriminate]. Qed.

Lemma bind_Failed {A B} (r : Result A) (f : A → Result B) :
  bind r f = Failed → r = Failed ∨ ∃ a, r = Ok a ∧ f a = Failed.
Proof. destruct r; cbn; [eauto|auto|discriminate]. Qed.

Lemma assertSome_not_Failed {A} (x : option A) : assertSome x ≠ Failed.
Proof. by destruct x. Qed.

Lemma ptr_Ok type p : ptr convertType type = Ok p → p = LLVMPointerType.
Proof.
  unfold ptr. intros (? & _ & [= <-])%bind_Ok. reflexivity.
Qed.

Lemma ptr_not_Failed type : ptr convertType type ≠ Failed.
Proof. unfold ptr. by destruct (convertType type). Qed.

Lemma getArrayType_not_Failed m : getArrayType convertType m ≠ Failed.
Proof.
  unfold getArrayType. destruct (convertType (elementType m)); cbn; [|discriminate].
  by case_decide.
Qed.

Lemma getExceptInfoType_not_Failed : getExceptInfoType convertType ≠ Failed.
Proof.
  unfold getExceptInfoType, ptr. by destruct (convertType i8).
Qed.

Lemma itemSize_not_Failed type : itemSize type ≠ Failed.
Proof.
  induction type; cbn; try discriminate; try by case_decide.
  by destruct (itemSize type).
Qed.

Lemma getToMemrefConversionFunc_not_Failed module m src dst :
  getToMemrefConversionFunc module m src dst ≠ Failed.
Proof.
  unfold FunctionBoundary.getToMemrefConversionFunc.
  destruct (lookupFunc _ _) as [func|].
  - unfold assertResult. destruct (symResults func) as [|? [|? ?]]; try discriminate.
    cbn. by case_decide.
  - cbn. intros [H|(? & _ & [=])]%bind_Failed. by apply itemSize_not_Failed in H.
Qed.

Lemma argType_newArguments flat : argType <$> newArguments flat = flat.
Proof.
  unfold newArguments. rewrite <- list_fmap_compose. apply list_fmap_id.
Qed.

Lemma foldl_addArg st flat done rest :
  entry st = done ++ rest → length done = index st →
  foldl addArg st flat
  = mkSigState (args st ++ flat) (index st + length flat)
               (done ++ newArguments flat ++ rest)
               (prologue st) (module_ st).
Proof.
  revert st done. induction flat as [|type flat IH]; intros st done He Hl.
  - cbn. rewrite app_nil_r, Nat.add_0_r, <- He. by destruct st.
  - cbn [foldl].
    rewrite (IH (addArg st type) (done ++ [mkBlockArgument type None])).
    + cbn. rewrite <- !app_assoc. f_equal. lia.
    + cbn. rewrite He, <- Hl, take_app_length, drop_app_length, <- app_assoc.
      reflexivity.
    + cbn. rewrite length_app. cbn. lia.
Qed.

Lemma processArg_Ok st type st' done old olds :
  processArg st type = Ok st' →
  entry st = done ++ old :: olds → length done = index st →
  argType old = type →
  ∃ flat new,
    flattenedParameter type = Ok flat
    ∧ args st' = args st ++ flat
    ∧ entry st' = (done ++ new) ++ olds
    ∧ length (done ++ new) = index st'
    ∧ argType <$> new = flat.
Proof.
  unfold FunctionBoundary.processArg, FunctionBoundary.flattenedParameter.
  intros Hrun He Hl Hty.
  destruct (asMemRef type) as [m|].
  - apply bind_Ok in Hrun as (arrType & -> & Hrun). cbn [bind].
    apply bind_Ok in Hrun as (dstType & _ & Hrun).
    apply bind_Ok in Hrun as ([convFunc module'] & _ & [= <-]).
    rewrite (foldl_addArg st _ done (old :: olds) He Hl). cbn.
    exists (flattenType arrType), (newArguments (flattenType arrType)).
    split; [reflexivity|]. split; [reflexivity|].
    assert (length (done ++ newArguments (flattenType arrType))
            = (index st + length (flattenType arrType))%nat) as Hlen.
    { unfold newArguments. rewrite length_app, length_fmap. lia. }
    split; [|split; [exact Hlen|]].
    + rewrite app_assoc. rewrite <- Hlen.
      rewrite delete_middle. reflexivity.
    + apply argType_newArguments.
  - injection Hrun as <-. cbn.
    exists [type], [old]. split; [reflexivity|]. split; [reflexivity|].
    split; [by rewrite <- app_assoc|]. split.
    + rewrite length_app. cbn. lia.
    + cbn. by rewrite Hty.
Qed.

Lemma processArg_args st type st' :
  processArg st type = Ok st' →
  ∃ flat, flattenedParameter type = Ok flat ∧ args st' = args st ++ flat.
Proof.
  unfold FunctionBoundary.processArg, FunctionBoundary.flattenedParameter.
  destruct (asMemRef type) as [m|].
  - intros (arrType & -> & Hrun)%bind_Ok.
    apply bind_Ok in Hrun as (dstType & _ & Hrun).
    apply bind_Ok in Hrun as ([convFunc module'] & _ & [= <-]).
    exists (flattenType arrType). split; [reflexivity|]. cbn.
    generalize (flattenType arrType). intros flat. revert st.
    induction flat as [|t flat IH]; intros st; [by rewrite app_nil_r|].
    cbn [foldl]. rewrite IH. cbn. by rewrite <- app_assoc.
  - intros [= <-]. eauto.
Qed.

Lemma processArgs_args st types st' :
  processArgs st types = Ok st' →
  ∃ flat, flattenedParameters types = Ok flat ∧ args st' = args st ++ flat.
Proof.
  revert st. induction types as [|type types IH]; intros st Hrun.
  - injection Hrun as <-. exists []. by rewrite app_nil_r.
  - cbn in Hrun. apply bind_Ok in Hrun as (st1 & H1 & Hrun).
    destruct (processArg_args _ _ _ H1) as (flat & Hf & Ha).
    destruct (IH _ Hrun) as (rest & Hr & Ha').
    exists (flat ++ rest). cbn. rewrite Hf, Hr. cbn.
    split; [reflexivity|]. by rewrite Ha', Ha, <- app_assoc.
Qed.

Lemma processArg_not_Failed st type : processArg st type ≠ Failed.
Proof.
  unfold FunctionBoundary.processArg. destruct (asMemRef type) as [m|]; [|discriminate].
  intros [H|(arrType & _ & H)]%bind_Failed; [by apply getArrayType_not_Failed in H|].
  apply bind_Failed in H as [H|(dstType & _ & H)]; [by apply assertSome_not_Failed in H|].
  apply bind_Failed in H as [H|([? ?] & _ & [=])].
  by apply getToMemrefConversionFunc_not_Failed in H.
Qed.

Lemma processArgs_not_Failed st types : processArgs st types ≠ Failed.
Proof.
  revert st. induction types as [|type types IH]; intros st; [discriminate|].
  cbn. intros [H|(st' & _ & H)]%bind_Failed; [by apply processArg_not_Failed in H|].
  by apply IH in H.
Qed.

Lemma processArgs_Ok st types st' done olds :
  processArgs st types = Ok st' →
  entry st = done ++ olds → length done = index st →
  argType <$> olds = types →
  ∃ flat new,
    flattenedParameters types = Ok flat
    ∧ args st' = args st ++ flat
    ∧ entry st' = done ++ new
    ∧ argType <$> new = flat.
Proof.
  revert st done olds. induction types as [|type types IH];
    intros st done olds Hrun He Hl Hty.
  - injection Hrun as <-. destruct olds; [|discriminate].
    exists [], []. rewrite !app_nil_r in *. auto.
  - destruct olds as [|old olds]; [discriminate|]. injection Hty as Hty Htys.
    cbn in Hrun. apply bind_Ok in Hrun as (st1 & H1 & Hrun).
    destruct (processArg_Ok _ _ _ _ _ _ H1 He Hl Hty)
      as (flat & new1 & Hf & Ha & He1 & Hl1 & Hd1).
    destruct (IH _ _ _ Hrun He1 Hl1 Htys) as (rest & new & Hr & Ha' & He' & Hd').
    exists (flat ++ rest), (new1 ++ new). cbn. rewrite Hf, Hr. cbn.
    split; [reflexivity|]. rewrite Ha', Ha, He', fmap_app, Hd', Hd1, <- !app_assoc. auto.
Qed.

Lemma getFunctionResType_not_Failed types :
  getFunctionResType convertType types ≠ Failed.
Proof.
  unfold getFunctionResType. destruct types as [|type0 types0]; [discriminate|].
  generalize (type0 :: types0). intros types.
  intros [H|(res & _ & H)]%bind_Failed.
  - induction types as [|type types IH]; [discriminate|].
    cbn in H. apply bind_Failed in H as [H|(rest & _ & H)]; [by apply IH|].
    destruct (asMemRef type) as [m|]; [|discriminate].
    apply bind_Failed in H as [H|(? & _ & [=])].
    by apply getArrayType_not_Failed in H.
  - by destruct res as [|? [|? ?]].
Qed.

Lemma fixFuncSig_private module func :
  isPrivate func = true → fixFuncSig module func = Ok (func, [], module).
Proof. unfold FunctionBoundary.fixFuncSig. by intros ->. Qed.

Lemma fixFuncSig_Ok module func func' prologue module' :
  isPrivate func = false →
  fixFuncSig module func = Ok (func', prologue, module') →
  ∃ flat,
    flattenedParameters (funcInputs func) = Ok flat
    ∧ funcInputs func' = LLVMPointerType :: LLVMPointerType :: flat
    ∧ funcResults func' = [IntegerType 32]
    ∧ funcName func' = funcName func
    ∧ isPrivate func' = false
    ∧ (argType <$> entryArguments func = funcInputs func →
       ∃ new,
         entryArguments func'
         = mkBlockArgument LLVMPointerType None
             :: mkBlockArgument LLVMPointerType None :: new
         ∧ argType <$> new = flat).
Proof.
  unfold FunctionBoundary.fixFuncSig. intros -> Hrun.
  apply bind_Ok in Hrun as (origRetType & _ & Hrun).
  destruct origRetType as [origRetType|]; [|discriminate].
  destruct (convertType origRetType); [|discriminate].
  apply bind_Ok in Hrun as (retPtr & ->%ptr_Ok & Hrun).
  apply bind_Ok in Hrun as (exceptInfo & _ & Hrun).
  apply bind_Ok in Hrun as (p & _ & Hrun).
  apply bind_Ok in Hrun as (excPtr & ->%ptr_Ok & Hrun).
  apply bind_Ok in Hrun as (st & Hargs & [= <- <- <-]).
  cbn [funcInputs funcResults funcName FunctionBoundary.isPrivate entryArguments].
  destruct (processArgs_args _ _ _ Hargs) as (flat & Hf & Ha).
  exists flat. rewrite Ha. cbn. repeat (split; [done|]).
  intros Hwf.
  destruct (processArgs_Ok _ _ _
              [mkBlockArgument LLVMPointerType None;
               mkBlockArgument LLVMPointerType None]
              (entryArguments func) Hargs)
    as (flat' & new & Hf' & _ & He & Hd); [reflexivity|reflexivity|exact Hwf|].
  exists new. rewrite He. split; [reflexivity|]. congruence.
Qed.

Lemma fixFuncSig_Failed module func :
  isPrivate func = false →
  fixFuncSig module func = Failed
  ↔ ∃ origRetType,
      getFunctionResType convertType (funcResults func) = Ok origRetType
      ∧ (origRetType ≫= convertType) = None.
Proof.
  unfold FunctionBoundary.fixFuncSig. intros ->. split.
  - intros [H|(origRetType & Hres & H)]%bind_Failed;
      [by apply getFunctionResType_not_Failed in H|].
    exists origRetType. split; [exact Hres|].
    destruct origRetType as [origRetType|]; [|reflexivity]. cbn.
    destruct (convertType origRetType) eqn:Hc; [|reflexivity]. exfalso.
    apply bind_Failed in H as [H|(? & _ & H)]; [by apply ptr_not_Failed in H|].
    apply bind_Failed in H as [H|(? & _ & H)];
      [by apply getExceptInfoType_not_Failed in H|].
    apply bind_Failed in H as [H|(? & _ & H)]; [by apply ptr_not_Failed in H|].
    apply bind_Failed in H as [H|(? & _ & H)]; [by apply ptr_not_Failed in H|].
    apply bind_Failed in H as [H|(? & _ & [=])].
    by apply processArgs_not_Failed in H.
  - intros (origRetType & -> & Hc). cbn.
    destruct origRetType as [origRetType|]; [|reflexivity].
    cbn in Hc. by rewrite Hc.
Qed.

Lemma getFromMemrefConversionFunc_not_Failed module m src dst :
  getFromMemrefConversionFunc module m src dst ≠ Failed.
Proof.
  unfold FunctionBoundary.getFromMemrefConversionFunc.
  destruct (lookupFunc _ _) as [func|].
  - unfold assertResult. destruct (symResults func) as [|? [|? ?]]; try discriminate.
    cbn. by case_decide.
  - cbn. intros [H|(? & _ & [=])]%bind_Failed. by apply itemSize_not_Failed in H.
Qed.

Lemma convertVal_None module val type :
  convertVal module val type = Ok None → convertType type = None.
Proof.
  unfold FunctionBoundary.convertVal.
  destruct (convertType type) as [llRetType|] eqn:Hc; [|reflexivity].
  intros Hrun. exfalso.
  destruct (doCast val type llRetType) as [val1 casts].
  destruct type; try discriminate; cbn in Hrun.
  apply bind_Ok in Hrun as (? & _ & Hrun).
  apply bind_Ok in Hrun as (? & _ & Hrun).
  apply bind_Ok in Hrun as ([? ?] & _ & [=]).
Qed.

Lemma convertVal_not_Failed module val type :
  convertVal module val type ≠ Failed.
Proof.
  unfold FunctionBoundary.convertVal.
  destruct (convertType type) as [llRetType|]; [|discriminate].
  destruct (doCast val type llRetType) as [val1 casts].
  destruct type; try discriminate; cbn.
  intros [H|(? & _ & H)]%bind_Failed; [by apply assertSome_not_Failed in H|].
  apply bind_Failed in H as [H|(? & _ & H)]; [by apply getArrayType_not_Failed in H|].
  apply bind_Failed in H as [H|([? ?] & _ & [=])].
  by apply getFromMemrefConversionFunc_not_Failed in H.
Qed.

Lemma convertVal_plain module val type llRetType :
  convertType type = Some llRetType → asMemRef type = None →
  ∃ val' created, convertVal module val type = Ok (Some (val', created, module)).
Proof.
  unfold FunctionBoundary.convertVal. intros -> Hm.
  destruct (doCast val type llRetType) as [val1 casts].
  destruct type; try discriminate; eauto.
Qed.

Lemma insertOperands_Ok module val i types actions val' actions' module' :
  insertOperands module val i types actions = Ok (val', actions', module') →
  (∃ created, actions' = actions ++ created)
  ∧ (val' = None → ∃ type, type ∈ types ∧ convertType type = None).
Proof.
  revert module val i actions.
  induction types as [|type types IH]; intros module val i actions Hrun.
  - injection Hrun as <- <- <-. split; [exists []; by rewrite app_nil_r|discriminate].
  - cbn in Hrun. apply bind_Ok in Hrun as (converted & Hc & Hrun).
    destruct converted as [[[arg created] module1]|].
    + apply IH in Hrun as [(more & ->) Hnone]. split.
      * eexists. by rewrite <- !app_assoc.
      * intros Hv. destruct (Hnone Hv) as (t & Ht & Hct).
        exists t. split; [by right|exact Hct].
    + injection Hrun as <- <- <-. split; [exists []; by rewrite app_nil_r|].
      intros _. exists type. split; [by left|by eapply convertVal_None].
Qed.

Lemma insertOperands_not_Failed module val i types actions :
  insertOperands module val i types actions ≠ Failed.
Proof.
  revert module val i actions.
  induction types as [|type types IH]; intros module val i actions; [discriminate|].
  cbn. intros [H|(converted & _ & H)]%bind_Failed;
    [by apply convertVal_not_Failed in H|].
  destruct converted as [[[arg created] module1]|]; [|discriminate].
  by apply IH in H.
Qed.

Lemma insertOperands_plain module val i types actions :
  Forall (λ type, is_Some (convertType type) ∧ asMemRef type = None) types →
  ∃ val' created,
    insertOperands module val i types actions
    = Ok (Some val', actions ++ created, module).
Proof.
  intros Htypes. revert val i actions.
  induction Htypes as [|type types [[ll Hc] Hm] _ IH]; intros val i actions.
  - exists val, []. by rewrite app_nil_r.
  - cbn. destruct (convertVal_plain module (Operand i) type ll Hc Hm)
      as (arg & created & ->). cbn.
    destruct (IH (InsertValue val arg i) (S i)
                 (actions ++ created ++ [CreateOp (InsertValue val arg i)]))
      as (val' & more & ->).
    eexists _, _. by rewrite <- !app_assoc.
Qed.

Lemma getFunctionResType_plain types :
  Forall (λ type, asMemRef type = None) types →
  ∃ resType, getFunctionResType convertType types = Ok resType.
Proof.
  intros Htypes. unfold getFunctionResType.
  destruct types as [|type0 types0]; [eauto|].
  revert Htypes. generalize (type0 :: types0). intros types Htypes.
  assert (foldr (λ type acc,
                   bind acc (λ rest,
                     match asMemRef type with
                     | Some memreftype =>
                         bind (getArrayType convertType memreftype)
                              (λ t, Ok (t :: rest))
                     | None => Ok (type :: rest)
                     end)) (Ok []) types = Ok types) as ->.
  { induction Htypes as [|type types Hm _ IH]; [reflexivity|].
    cbn. rewrite IH. cbn. by rewrite Hm. }
  cbn. destruct types as [|? [|? ?]]; eauto.
Qed.

Lemma returnOp_private op rewriter parentFunc :
  parent op = Some parentFunc → isPrivate parentFunc = true →
  matchAndRewrite op rewriter = Ok (failure, rewriter, parentModule op).
Proof. unfold FunctionBoundary.matchAndRewrite. by intros -> ->. Qed.

Lemma returnOp_not_Failed op rewriter :
  matchAndRewrite op rewriter ≠ Failed.
Proof.
  unfold FunctionBoundary.matchAndRewrite.
  destruct (parent op) as [parentFunc|]; [|discriminate].
  destruct (isPrivate parentFunc); [discriminate|].
  destruct (parentModule op) as [mod_|]; [|discriminate].
  intros [H|(arg0 & _ & H)]%bind_Failed; [by apply assertSome_not_Failed in H|].
  destruct (operandTypes op) as [|type [|type' types]].
  - by destruct (argType arg0).
  - apply bind_Failed in H as [H|(converted & _ & H)];
      [by apply convertVal_not_Failed in H|].
    by destruct converted as [[[? ?] ?]|].
  - apply bind_Failed in H as [H|(resType & _ & H)];
      [by apply getFunctionResType_not_Failed in H|].
    apply bind_Failed in H as [H|([[val created] m] & _ & H)];
      [by apply insertOperands_not_Failed in H|].
    by destruct val.
Qed.

Lemma returnOp_Ok op rewriter result actions m :
  matchAndRewrite op rewriter = Ok (result, actions, m) →
  match result with
  | success =>
      ∃ parentFunc mod_ created val m',
        parent op = Some parentFunc ∧ isPrivate parentFunc = false
        ∧ parentModule op = Some mod_ ∧ m = Some m'
        ∧ actions = rewriter ++ created ++ returnOfStatus val
        ∧ match operandTypes op with
          | [] => val = Zero LLVMPointerType
          | [type] =>
              convertVal mod_ (Operand 0) type = Ok (Some (val, created, m'))
          | types =>
              ∃ resType,
                getFunctionResType convertType types = Ok resType
                ∧ insertOperands mod_ (Undef resType) 0 types
                                 [CreateOp (Undef resType)]
                  = Ok (Some val, created, m')
          end
  | failure =>
      parent op = None
      ∨ (∃ parentFunc, parent op = Some parentFunc ∧ isPrivate parentFunc = true)
      ∨ parentModule op = None
      ∨ ∃ type, type ∈ operandTypes op ∧ convertType type = None
  end.
Proof.
  unfold FunctionBoundary.matchAndRewrite.
  destruct (parent op) as [parentFunc|]; [|intros [= <- <- <-]; auto].
  destruct (isPrivate parentFunc) eqn:Hp; [intros [= <- <- <-]; eauto|].
  destruct (parentModule op) as [mod_|]; [|intros [= <- <- <-]; auto].
  intros (arg0 & _ & Hrun)%bind_Ok.
  destruct (operandTypes op) as [|type [|type' types]].
  - destruct (argType arg0); try discriminate.
    injection Hrun as <- <- <-.
    by exists parentFunc, mod_, [CreateOp (Zero LLVMPointerType)],
              (Zero LLVMPointerType), mod_.
  - apply bind_Ok in Hrun as (converted & Hc & Hrun).
    destruct converted as [[[val created] m1]|]; injection Hrun as <- <- <-.
    + by exists parentFunc, mod_, created, val, m1.
    + do 3 right. exists type. split; [by left|by eapply convertVal_None].
  - apply bind_Ok in Hrun as (resType & Hres & Hrun).
    apply bind_Ok in Hrun as ([[val created] m1] & Hins & Hrun).
    apply insertOperands_Ok in Hins as Hshape.
    destruct Hshape as [(more & ->) Hnone].
    destruct val as [val|]; injection Hrun as <- <- <-.
    + exists parentFunc, mod_, ([CreateOp (Undef resType)] ++ more), val, m1.
      split_and!; try done. by exists resType.
    + do 3 right. by apply Hnone.
Qed.

Lemma returnOp_plain op rewriter parentFunc mod_ arg0 args' :
  parent op = Some parentFunc → isPrivate parentFunc = false →
  parentModule op = Some mod_ →
  entryArguments parentFunc = arg0 :: args' → argType arg0 = LLVMPointerType →
  Forall (λ type, is_Some (convertType type) ∧ asMemRef type = None)
         (operandTypes op) →
  ∃ created val,
    matchAndRewrite op rewriter
    = Ok (success, rewriter ++ created ++ returnOfStatus val, Some mod_).
Proof.
  unfold FunctionBoundary.matchAndRewrite. intros -> -> -> -> Harg Htypes.
  cbn [head assertSome bind].
  destruct (operandTypes op) as [|type [|type' types]] eqn:Hops.
  - rewrite Harg. exists [CreateOp (Zero LLVMPointerType)], (Zero LLVMPointerType). reflexivity.
  - apply Forall_cons in Htypes as [[[ll Hc] Hm] _].
    destruct (convertVal_plain mod_ (Operand 0) type ll Hc Hm)
      as (val & created & ->). by exists created, val.
  - destruct (getFunctionResType_plain (type :: type' :: types))
      as (resType & Hres).
    { eapply Forall_impl; [exact Htypes|]. by intros ? [_ ?]. }
    rewrite Hres. cbn -[FunctionBoundary.insertOperands].
    destruct (insertOperands_plain mod_ (Undef resType) 0
                (type :: type' :: types) [CreateOp (Undef resType)] Htypes)
      as (val & created & ->).
    by exists ([CreateOp (Undef resType)] ++ created), val.
Qed.

Lemma lookupSymbol_app module more name :
  lookupSymbol (module ++ more) name
  = match lookupSymbol module name with
    | Some sym => Some sym
    | None => lookupSymbol more name
    end.
Proof.
  unfold lookupSymbol. induction module as [|sym module IH]; [reflexivity|].
  cbn. by destruct (bool_decide (symName sym = name)).
Qed.

Lemma funcsNamed_app name module more :
  funcsNamed name (module ++ more) = funcsNamed name module ++ funcsNamed name more.
Proof. apply List.filter_app. Qed.

Lemma funcsNamed_fresh name module :
  lookupSymbol module name = None → funcsNamed name module = [].
Proof.
  unfold lookupSymbol, funcsNamed.
  induction module as [|sym module IH]; [reflexivity|].
  cbn. destruct (bool_decide (symName sym = name)); [discriminate|].
  rewrite andb_false_r. exact IH.
Qed.

Lemma funcsNamed_getOrInserLLVMFunc name module runtime :
  funcsNamed name (getOrInserLLVMFunc module runtime) = funcsNamed name module.
Proof.
  unfold getOrInserLLVMFunc. destruct (lookupSymbol module runtime); [reflexivity|].
  rewrite funcsNamed_app. cbn. apply app_nil_r.
Qed.

Lemma lookupSymbol_getOrInserLLVMFunc name module runtime sym :
  lookupSymbol module name = Some sym →
  lookupSymbol (getOrInserLLVMFunc module runtime) name = Some sym.
Proof.
  unfold getOrInserLLVMFunc. intros Hsym.
  destruct (lookupSymbol module runtime); [exact Hsym|].
  by rewrite lookupSymbol_app, Hsym.
Qed.

(** A thunk that is not there is added, once. *)
Lemma thunk_added module name runtime src dst :
  lookupSymbol module name = None →
  let added := addFunction module name [src] [dst] in
  let module' := getOrInserLLVMFunc added.2 runtime in
  lookupFunc module' name = Some added.1
  ∧ funcsNamed name module' = [added.1]
  ∧ symResults added.1 = [dst].
Proof.
  intros Hfresh. cbn. split; [|split; [|reflexivity]].
  - unfold lookupFunc.
    rewrite (lookupSymbol_getOrInserLLVMFunc name _ runtime
               (mkSymbolOp name true true [src] [dst] ∅)); [reflexivity|].
    rewrite lookupSymbol_app, Hfresh. unfold lookupSymbol. cbn.
    by rewrite bool_decide_eq_true_2.
  - rewrite funcsNamed_getOrInserLLVMFunc, funcsNamed_app,
      (funcsNamed_fresh _ _ Hfresh).
    cbn. by rewrite bool_decide_eq_true_2.
Qed.

Lemma writeMemrefDesc_rank_elem m1 m2 :
  getRank m1 = getRank m2 → elementType m1 = elementType m2 →
  writeMemrefDesc printType m1 = writeMemrefDesc printType m2.
Proof. unfold writeMemrefDesc. by intros -> ->. Qed.

Lemma assertResult_Ok func dst :
  symResults func = [dst] → assertResult func dst = Ok tt.
Proof. unfold assertResult. intros ->. by rewrite decide_True. Qed.

Lemma getToMemrefConversionFunc_found module m src dst func :
  lookupFunc module (genToMemrefConversionFuncName printType m) = Some func →
  getToMemrefConversionFunc module m src dst
  = bind (assertResult func dst) (λ _, Ok (func, module)).
Proof. unfold FunctionBoundary.getToMemrefConversionFunc. by intros ->. Qed.

Lemma getFromMemrefConversionFunc_found module m src dst func :
  lookupFunc module (genFromMemrefConversionFuncName printType m) = Some func →
  getFromMemrefConversionFunc module m src dst
  = bind (assertResult func dst) (λ _, Ok (func, module)).
Proof. unfold FunctionBoundary.getFromMemrefConversionFunc. by intros ->. Qed.

Lemma lookupFunc_fresh module name :
  lookupSymbol module name = None → lookupFunc module name = None.
Proof. unfold lookupFunc. by intros ->. Qed.

Lemma getToMemrefConversionFunc_fresh module m src dst :
  lookupSymbol module (genToMemrefConversionFuncName printType m) = None →
  hasItemSize (elementType m) →
  ∃ func module',
    getToMemrefConversionFunc module m src dst = Ok (func, module')
    ∧ lookupFunc module' (genToMemrefConversionFuncName printType m) = Some func
    ∧ funcsNamed (genToMemrefConversionFuncName printType m) module' = [func]
    ∧ symResults func = [dst].
Proof.
  intros Hfresh Hsize.
  unfold FunctionBoundary.getToMemrefConversionFunc.
  rewrite (lookupFunc_fresh _ _ Hfresh).
  unfold hasItemSize in Hsize.
  destruct (itemSize (elementType m)) as [size| |]; try done.
  cbn [bind].
  eexists _, _. split; [reflexivity|].
  exact (thunk_added module _ "nmrtCreateAllocToken" src dst Hfresh).
Qed.

Lemma getFromMemrefConversionFunc_fresh module m src dst :
  lookupSymbol module (genFromMemrefConversionFuncName printType m) = None →
  hasItemSize (elementType m) →
  ∃ func module',
    getFromMemrefConversionFunc module m src dst = Ok (func, module')
    ∧ lookupFunc module' (genFromMemrefConversionFuncName printType m) = Some func
    ∧ funcsNamed (genFromMemrefConversionFuncName printType m) module' = [func]
    ∧ symResults func = [dst].
Proof.
  intros Hfresh Hsize.
  unfold FunctionBoundary.getFromMemrefConversionFunc.
  rewrite (lookupFunc_fresh _ _ Hfresh).
  unfold hasItemSize in Hsize.
  destruct (itemSize (elementType m)) as [size| |]; try done.
  cbn [bind].
  eexists _, _. split; [reflexivity|].
  exact (thunk_added module _ "nmrtDestroyAllocToken" src dst Hfresh).
Qed.


Lemma lookupFunc_found module name func :
  lookupFunc module name = Some func →
  func ∈ module ∧ isFuncOp func = true ∧ symName func = name.
Proof.
  unfold lookupFunc, lookupSymbol.
  destruct (find _ module) as [sym|] eqn:Hfind; [|done].
  apply find_some in Hfind as [Hin Hname%bool_decide_eq_true].
  destruct (isFuncOp sym) eqn:Hfunc; [|done]. intros [= <-].
  split; [by apply list_elem_of_In|done].
Qed.

Lemma getOrInserLLVMFunc_keeps module runtime sym :
  sym ∈ module → sym ∈ getOrInserLLVMFunc module runtime.
Proof.
  unfold getOrInserLLVMFunc. destruct (lookupSymbol module runtime); [done|].
  intros Hin. apply elem_of_app. by left.
Qed.

Lemma getFromMemrefConversionFunc_elem module m src dst func module' :
  getFromMemrefConversionFunc module m src dst = Ok (func, module') →
  func ∈ module' ∧ isFuncOp func = true
  ∧ symName func = genFromMemrefConversionFuncName printType m
  ∧ ∀ sym, sym ∈ module → sym ∈ module'.
Proof.
  unfold FunctionBoundary.getFromMemrefConversionFunc.
  destruct (lookupFunc module _) as [found|] eqn:Hfound.
  - intros (_ & _ & [= <- <-])%bind_Ok.
    apply lookupFunc_found in Hfound as (? & ? & ?). done.
  - cbn. intros (_ & _ & [= <- <-])%bind_Ok. split; [|split; [done|split]].
    + apply getOrInserLLVMFunc_keeps, elem_of_app. right. by left.
    + done.
    + intros sym Hsym. apply getOrInserLLVMFunc_keeps, elem_of_app. by left.
Qed.

Lemma hasFunc_mono module module' name :
  (∀ sym, sym ∈ module → sym ∈ module') →
  hasFunc module name → hasFunc module' name.
Proof. intros Hsub (func & Hin & ?). exists func. auto. Qed.

Lemma doCast_castTo src srcType dstType :
  (doCast src srcType dstType).1 = castTo src srcType dstType
  ∧ Forall (λ a, isCreateOp a = true) (doCast src srcType dstType).2.
Proof.
  unfold doCast, castTo. case_decide; cbn; split; by repeat constructor.
Qed.

Lemma convertVal_Some module i type val created module' :
  convertVal module (Operand i) type = Ok (Some (val, created, module')) →
  ∃ llType,
    convertType type = Some llType
    ∧ val = returnedOperand printType i type llType
    ∧ Forall (λ a, isCreateOp a = true) created
    ∧ (∀ sym, sym ∈ module → sym ∈ module')
    ∧ (∀ m, asMemRef type = Some m →
            hasFunc module' (genFromMemrefConversionFuncName printType m)).
Proof.
  unfold FunctionBoundary.convertVal.
  destruct (convertType type) as [llRetType|] eqn:Hc; [|discriminate].
  intros Hrun. exists llRetType. split; [done|].
  destruct (doCast_castTo (Operand i) type llRetType) as [Hcast Hcasts].
  destruct (doCast (Operand i) type llRetType) as [val1 casts].
  cbn in Hcast, Hcasts. subst val1.
  destruct type; cbn [asMemRef] in Hrun;
    try (injection Hrun as <- <- <-;
         split; [done|]; split; [by repeat constructor|];
         split; [done|discriminate]).
  apply bind_Ok in Hrun as (elemType & _ & Hrun).
  apply bind_Ok in Hrun as (dstType & _ & Hrun).
  apply bind_Ok in Hrun
    as ([func module1] & Hthunk & [= <- <- <-]).
  apply getFromMemrefConversionFunc_elem in Hthunk
    as (Hin & Hfunc & Hname & Hsub).
  rewrite Hname.
  split; [done|]. split.
  { apply Forall_app. split; [done|by repeat constructor]. }
  split; [done|]. intros m [= <-]. by exists func.
Qed.

Lemma insertOperands_Some module val i types actions val' actions' module' :
  insertOperands module val i types actions
  = Ok (Some val', actions', module') →
  ∃ llTypes created,
    Forall2 (λ type llType, convertType type = Some llType) types llTypes
    ∧ val'
      = foldl (λ container iv, InsertValue container iv.2 iv.1) val
              (imap (λ k tl, ((i + k)%nat,
                              returnedOperand printType (i + k) tl.1 tl.2))
                    (zip types llTypes))
    ∧ actions' = actions ++ created
    ∧ Forall (λ a, isCreateOp a = true) created
    ∧ (∀ sym, sym ∈ module → sym ∈ module')
    ∧ (∀ type m, type ∈ types → asMemRef type = Some m →
                 hasFunc module'
                   (genFromMemrefConversionFuncName printType m)).
Proof.
  revert module val i actions.
  induction types as [|type types IH]; intros module val i actions Hrun.
  - injection Hrun as <- <- <-. exists [], []. rewrite app_nil_r.
    split; [constructor|]. repeat split; try done.
    intros type m Hin. by apply elem_of_nil in Hin.
  - cbn in Hrun. apply bind_Ok in Hrun as (converted & Hc & Hrun).
    destruct converted as [[[arg created] module1]|]; [|discriminate].
    apply convertVal_Some in Hc
      as (llType & Hconv & -> & Hcreated & Hsub & Hthunk).
    apply IH in Hrun
      as (llTypes & more & Hall & -> & -> & Hmore & Hsub' & Hthunks).
    exists (llType :: llTypes), (created ++ [CreateOp (InsertValue val (returnedOperand printType i type llType) i)] ++ more).
    split; [by constructor|]. split.
    { cbn. rewrite Nat.add_0_r. f_equal. apply imap_ext.
      intros k [t l] _. cbn. by rewrite Nat.add_succ_r. }
    split; [by rewrite <- !app_assoc|]. split.
    { apply Forall_app. split; [done|].
      apply Forall_app. split; [by repeat constructor|done]. }
    split; [auto|].
    intros type' m [->|Hin]%elem_of_cons Hm; [|by eapply Hthunks].
    eapply hasFunc_mono; [exact Hsub'|]. by apply Hthunk.
Qed.

Lemma imap_imap {A B C} (f : nat → B → C) (g : nat → A → B) (l : list A) :
  imap f (imap g l) = imap (λ i x, f i (g i x)) l.
Proof.
  apply list_eq. intros i. rewrite !list_lookup_imap.
  by destruct (l !! i).
Qed.

Lemma returnOp_stores op rewriter actions m :
  matchAndRewrite op rewriter = Ok (success, actions, m) →
  ∃ mod_ m' created llTypes resType,
    parentModule op = Some mod_ ∧ m = Some m'
    ∧ Forall2 (λ type llType, convertType type = Some llType)
              (operandTypes op) llTypes
    ∧ ((2 ≤ length (operandTypes op))%nat →
       getFunctionResType convertType (operandTypes op) = Ok resType)
    ∧ actions
      = rewriter ++ created
          ++ returnOfStatus
               (storedValue resType
                  (returnedOperands printType (operandTypes op) llTypes))
    ∧ Forall (λ a, isCreateOp a = true) created
    ∧ (∀ sym, sym ∈ mod_ → sym ∈ m')
    ∧ (∀ type mr, type ∈ operandTypes op → asMemRef type = Some mr →
                  hasFunc m' (genFromMemrefConversionFuncName printType mr)).
Proof.
  unfold FunctionBoundary.matchAndRewrite.
  destruct (parent op) as [parentFunc|]; [|discriminate].
  destruct (isPrivate parentFunc) eqn:Hp; [discriminate|].
  destruct (parentModule op) as [mod_|]; [|discriminate].
  intros (arg0 & _ & Hrun)%bind_Ok. exists mod_.
  destruct (operandTypes op) as [|type [|type' types]] eqn:Htypes.
  - destruct (argType arg0); try discriminate.
    injection Hrun as <- <-.
    exists mod_, [CreateOp (Zero LLVMPointerType)], [], None.
    split; [done|]. split; [done|].
    split; [constructor|]. split; [cbn; lia|]. split; [done|].
    split; [by repeat constructor|]. split; [done|].
    intros type mr Hin. by apply elem_of_nil in Hin.
  - apply bind_Ok in Hrun as (converted & Hc & Hrun).
    destruct converted as [[[val created] m1]|]; [|discriminate].
    injection Hrun as <- <-.
    apply convertVal_Some in Hc
      as (llType & Hconv & -> & Hcreated & Hsub & Hthunk).
    exists m1, created, [llType], None. split; [done|]. split; [done|].
    split; [by repeat constructor|]. split; [cbn; lia|]. split; [done|].
    split; [done|]. split; [done|].
    intros type0 mr ->%list_elem_of_singleton. apply Hthunk.
  - apply bind_Ok in Hrun as (resType & Hres & Hrun).
    apply bind_Ok in Hrun as ([[val created] m1] & Hins & Hrun).
    destruct val as [val|]; [|discriminate]. injection Hrun as <- <-.
    apply insertOperands_Some in Hins
      as (llTypes & more & Hall & -> & -> & Hmore & Hsub & Hthunks).
    exists m1, ([CreateOp (Undef resType)] ++ more), llTypes, resType.
    split; [done|]. split; [done|]. split; [done|]. split; [done|].
    split.
    { f_equal. f_equal. f_equal.
      pose proof Hall as Hlen%Forall2_length.
      destruct llTypes as [|llType [|llType' llTypes]]; try discriminate.
      unfold storedValue, returnedOperands.
      remember (zip (type :: type' :: types) (llType :: llType' :: llTypes))
        as pairs eqn:Hpairs.
      assert (∃ p q rest, imap (λ i tl, returnedOperand printType i tl.1 tl.2)
                               pairs = p :: q :: rest) as (p & q & rest & Heq).
      { subst pairs. cbn. eauto. }
      rewrite Heq, <- Heq. by rewrite imap_imap. }
    split; [apply Forall_app; split; [by repeat constructor|done]|].
    split; [done|]. intros type0 mr Hin. by apply Hthunks.
Qed.

(** C8: the name of a conversion thunk is made of the rank and the
    element type of the memref type only; a thunk found under that name
    is returned and the module is left as it is; a thunk whose name is
    not in the module is added, after which the module has exactly one
    function of that name and a further conversion for a memref type of
    the same rank and element type returns that function and leaves the
    module as it is.  This holds for the thunks of both directions. *)
Theorem conversion_thunk_created_once
    (module : ModuleOp) (m1 m2 : MemRef) (src1 src2 dst : Ty) :
  (getRank m1 = getRank m2 → elementType m1 = elementType m2 →
     genToMemrefConversionFuncName printType m1
     = genToMemrefConversionFuncName printType m2
     ∧ genFromMemrefConversionFuncName printType m1
       = genFromMemrefConversionFuncName printType m2)
  ∧ (∀ func,
       lookupFunc module (genToMemrefConversionFuncName printType m1)
       = Some func →
       getToMemrefConversionFunc module m1 src1 dst
       = bind (assertResult func dst) (λ _, Ok (func, module)))
  ∧ (∀ func,
       lookupFunc module (genFromMemrefConversionFuncName printType m1)
       = Some func →
       getFromMemrefConversionFunc module m1 src1 dst
       = bind (assertResult func dst) (λ _, Ok (func, module)))
  ∧ (lookupSymbol module (genToMemrefConversionFuncName printType m1) = None →
     hasItemSize (elementType m1) →
     ∃ func module',
       getToMemrefConversionFunc module m1 src1 dst = Ok (func, module')
       ∧ funcsNamed (genToMemrefConversionFuncName printType m1) module'
         = [func]
       ∧ (getRank m1 = getRank m2 → elementType m1 = elementType m2 →
          getToMemrefConversionFunc module' m2 src2 dst = Ok (func, module')))
  ∧ (lookupSymbol module (genFromMemrefConversionFuncName printType m1) = None →
     hasItemSize (elementType m1) →
     ∃ func module',
       getFromMemrefConversionFunc module m1 src1 dst = Ok (func, module')
       ∧ funcsNamed (genFromMemrefConversionFuncName printType m1) module'
         = [func]
       ∧ (getRank m1 = getRank m2 → elementType m1 = elementType m2 →
          getFromMemrefConversionFunc module' m2 src2 dst
          = Ok (func, module'))).
Proof.
  assert (getRank m1 = getRank m2 → elementType m1 = elementType m2 →
          genToMemrefConversionFuncName printType m1
          = genToMemrefConversionFuncName printType m2
          ∧ genFromMemrefConversionFuncName printType m1
            = genFromMemrefConversionFuncName printType m2) as Hnames.
  { intros Hrank Helem.
    unfold genToMemrefConversionFuncName, genFromMemrefConversionFuncName.
    by rewrite (writeMemrefDesc_rank_elem m1 m2 Hrank Helem). }
  split; [exact Hnames|].
  split; [intros func; apply getToMemrefConversionFunc_found|].
  split; [intros func; apply getFromMemrefConversionFunc_found|].
  split.
  - intros Hfresh Hsize.
    destruct (getToMemrefConversionFunc_fresh module m1 src1 dst Hfresh Hsize)
      as (func & module' & Hrun & Hfound & Hone & Hres).
    exists func, module'. split; [exact Hrun|]. split; [exact Hone|].
    intros Hrank Helem. destruct (Hnames Hrank Helem) as [Hname _].
    rewrite Hname in Hfound.
    rewrite (getToMemrefConversionFunc_found _ _ _ _ _ Hfound).
    by rewrite (assertResult_Ok _ _ Hres).
  - intros Hfresh Hsize.
    destruct (getFromMemrefConversionFunc_fresh module m1 src1 dst Hfresh Hsize)
      as (func & module' & Hrun & Hfound & Hone & Hres).
    exists func, module'. split; [exact Hrun|]. split; [exact Hone|].
    intros Hrank Helem. destruct (Hnames Hrank Helem) as [_ Hname].
    rewrite Hname in Hfound.
    rewrite (getFromMemrefConversionFunc_found _ _ _ _ _ Hfound).
    by rewrite (assertResult_Ok _ _ Hres).
Qed.

End FunctionBoundaryProperties.

Section FunctionBoundaryScenarios.
Import FunctionBoundary.

(** [@kernel(f64, memref<?xf64>) -> i64] gets ten parameters; the
    conversion of its memref argument calls the thunk of rank 1, which
    is added to the module with the runtime function its body calls. *)
Lemma fixFuncSig_kernel :
  ∃ prologue module',
    fixFuncSig convertExample printExample [] kernel
    = Ok (kernelFixed, prologue, module')
    ∧ thunk <$> prologue = ["__convert_to_memref_1xf64"]
    ∧ symName <$> module'
      = ["__convert_to_memref_1xf64"; "nmrtCreateAllocToken"].
Proof.
  destruct (fixFuncSig convertExample printExample [] kernel)
    as [[[func' prologue] module']| |] eqn:Hrun; vm_compute in Hrun;
    try discriminate.
  injection Hrun as <- <- <-. eexists _, _. split; [reflexivity|].
  split; reflexivity.
Qed.

(** The private [@helper] keeps its signature. *)
Lemma fixFuncSig_helper :
  fixFuncSig convertExample printExample [] helper = Ok (helper, [], []).
Proof. reflexivity. Qed.

(** [return %r : i64] in [@kernel] after [fixFuncSig]. *)
Lemma return_in_kernel :
  matchAndRewrite convertExample printExample
                  (mkReturnOp [IntegerType 64] (Some kernelFixed) (Some [])) []
  = Ok (success, returnOfStatus (Operand 0), Some []).
Proof. vm_compute. reflexivity. Qed.

(** Two returns of arrays of rank 3 in one module: the first adds the
    thunk, the second finds it. *)
Lemma two_returns_share_one_thunk :
  let first :=
    matchAndRewrite convertExample printExample (firstReturn []) [] in
  let second :=
    matchAndRewrite convertExample printExample
                    (secondReturn (moduleAfter first)) [] in
  symName <$> funcsNamed "__convert_from_memref_3xf64" (moduleAfter first)
  = ["__convert_from_memref_3xf64"]
  ∧ moduleAfter second = moduleAfter first
  ∧ resultOf first = Some success
  ∧ resultOf second = Some success.
Proof. vm_compute. split_and!; reflexivity. Qed.


Lemma conversion_thunk_created_once_witness :
  ∃ func module',
    getFromMemrefConversionFunc printExample []
      (mkMemRef [2; 3; 4] f64 IdentityLayout 0)
      LLVMPointerType LLVMPointerType
    = Ok (func, module')
    ∧ funcsNamed "__convert_from_memref_3xf64" module' = [func]
    ∧ getFromMemrefConversionFunc printExample module'
        (mkMemRef [kDynamic; kDynamic; kDynamic] f64 IdentityLayout 0)
        (LLVMStructType []) LLVMPointerType
      = Ok (func, module').
Proof.
  destruct (conversion_thunk_created_once printExample []
              (mkMemRef [2; 3; 4] f64 IdentityLayout 0)
              (mkMemRef [kDynamic; kDynamic; kDynamic] f64 IdentityLayout 0)
              LLVMPointerType (LLVMStructType []) LLVMPointerType)
    as (_ & _ & _ & _ & Hfrom).
  destruct (Hfrom eq_refl I) as (func & module' & Hrun & Hone & Hreuse).
  exists func, module'. split; [exact Hrun|]. split; [exact Hone|].
  apply Hreuse; reflexivity.
Defined.

End FunctionBoundaryScenarios.

(** ** The allocation calls are replaced *)

Section ReplaceNRTAllocProperties.
Import ReplaceNRTAlloc.

#[local] Open Scope nat_scope.

Variable tapirTarget : option string.

(** The functions that replace the allocation function are not the
    allocation function. *)
Lemma memCalleeName_other name :
  memCalleeName tapirTarget = Some name →
  name ≠ "NRT_MemInfo_alloc_safe_aligned".
Proof.
  unfold memCalleeName. destruct tapirTarget as [target|]; [|done].
  intros [= <-]. by case_bool_decide.
Qed.

Lemma replaceCall_replacedBy declared i i' declared' :
  replaceCall tapirTarget declared i = inr (i', declared') →
  replacedBy i i'.
Proof.
  unfold replacedBy.
  destruct i as [[fname|] args|opcode operands]; cbn.
  - case_bool_decide as Hname.
    + destruct (getOperands _ _ !! 0) as [op0|]; [|done].
      destruct (getOperands _ _ !! 1) as [op1|]; [|done].
      destruct (memCalleeName tapirTarget) as [name|] eqn:Hcallee; [|done].
      intros [= <- <-]. cbn.
      by rewrite bool_decide_eq_false_2 by by eapply memCalleeName_other.
    + intros [= <- <-]. cbn. by rewrite bool_decide_eq_false_2.
  - by intros [= <- <-].
  - by intros [= <- <-].
Qed.

Lemma replaceBlock_replacedBy declared block block' declared' :
  replaceBlock tapirTarget declared block = inr (block', declared') →
  Forall2 replacedBy block block'.
Proof.
  revert declared block'.
  induction block as [|i block IH]; intros declared block'; cbn.
  - intros [= <- <-]. constructor.
  - destruct (replaceCall _ _ i) as [|[i1 declared1]] eqn:Hi; [done|].
    destruct (replaceBlock _ _ block) as [|[block1 declared2]] eqn:Hblock;
      [done|].
    intros [= <- <-]. constructor; eauto using replaceCall_replacedBy.
Qed.

Lemma replaceBlocks_replacedBy declared f f' declared' :
  replaceBlocks tapirTarget declared f = inr (f', declared') →
  Forall2 (Forall2 replacedBy) f f'.
Proof.
  revert declared f'.
  induction f as [|block f IH]; intros declared f'; cbn.
  - intros [= <- <-]. constructor.
  - destruct (replaceBlock _ _ block) as [|[block1 declared1]] eqn:Hblock;
      [done|].
    destruct (replaceBlocks _ _ f) as [|[f1 declared2]] eqn:Hf; [done|].
    intros [= <- <-]. constructor; eauto using replaceBlock_replacedBy.
Qed.

(** An instruction that does not call the allocation function directly
    stays as it is. *)
Lemma replaceCall_other declared i :
  callsAlloc i = false →
  replaceCall tapirTarget declared i = inr (i, declared).
Proof.
  destruct i as [[fname|] args|opcode operands]; cbn; try done.
  by intros ->.
Qed.

Lemma replaceBlock_other declared block :
  Forall (λ i, callsAlloc i = false) block →
  replaceBlock tapirTarget declared block = inr (block, declared).
Proof.
  induction 1 as [|i block Hi _ IH]; [done|].
  cbn. by rewrite replaceCall_other, IH.
Qed.

Lemma replaceBlocks_other declared f :
  Forall (λ i, callsAlloc i = false) (concat f) →
  replaceBlocks tapirTarget declared f = inr (f, declared).
Proof.
  induction f as [|block f IH]; [done|].
  cbn. intros [Hblock Hf]%Forall_app.
  by rewrite replaceBlock_other, IH.
Qed.

(** The first loop goes through exactly when no call is indirect. *)
Lemma replaceList_direct f :
  is_Some (replaceList f) ↔
  Forall (λ i, isIndirectCall i = false) (concat f).
Proof.
  unfold replaceList. rewrite mapM_is_Some.
  apply Forall_proper; [|done].
  intros [[fname|] args|opcode operands]; cbn;
    split; (done || eauto || by intros [??]).
Qed.

Lemma replacedBy_concat f f' :
  Forall2 (Forall2 replacedBy) f f' →
  Forall2 replacedBy (concat f) (concat f').
Proof. induction 1; cbn; [constructor|by apply Forall2_app]. Qed.

(** X11: when the pass goes through, no direct call of
    [NRT_MemInfo_alloc_safe_aligned] is left, the function keeps its
    blocks and every instruction that was no such call, and a second run
    changes nothing. *)
Theorem replaceNRTAlloc_leaves_no_allocation_call
    (f f' : Function) (declared declared' : list string) :
  run tapirTarget f declared = inr (f', declared') →
  Forall (λ i, callsAlloc i = false) (concat f') ∧
  Forall2 (Forall2 (λ i i', callsAlloc i = false → i' = i)) f f' ∧
  run tapirTarget f' declared' = inr (f', declared').
Proof.
  unfold run.
  destruct (replaceList f) as [calls|] eqn:Hcalls; [|done].
  intros Hf.
  pose proof (replaceBlocks_replacedBy _ _ _ _ Hf) as Hreplaced.
  pose proof (replacedBy_concat _ _ Hreplaced) as Hall.
  assert (Forall (λ i, callsAlloc i = false) (concat f')) as Hnone.
  { eapply Forall2_Forall_r; [exact Hall|].
    apply Forall_true. by intros i i' (? & _). }
  split; [done|]. split.
  { eapply Forall2_impl; [exact Hreplaced|].
    intros block block' Hblock. eapply Forall2_impl; [exact Hblock|].
    by intros i i' (_ & _ & ?). }
  assert (is_Some (replaceList f')) as [calls1 ->].
  { apply replaceList_direct.
    assert (Forall (λ i, isIndirectCall i = false) (concat f)) as Hdirect
      by by apply replaceList_direct.
    clear -Hall Hdirect. induction Hall as [|i i' ?? (_ & Hi & _) _ IH];
      [constructor|].
    apply Forall_cons in Hdirect as [??].
    constructor; [congruence|auto]. }
  by rewrite replaceBlocks_other.
Qed.

End ReplaceNRTAllocProperties.

Section ReplaceNRTAllocWithoutTarget.
Import ReplaceNRTAlloc.

Lemma replaceCall_None declared i i' declared' :
  replaceCall None declared i = inr (i', declared') →
  callsAlloc i = false ∧ i' = i ∧ declared' = declared.
Proof.
  destruct i as [[fname|] args|opcode operands]; cbn.
  - case_bool_decide as Hname.
    + destruct (getOperands _ _ !! 0%nat) as [op0|]; [|done].
      by destruct (getOperands _ _ !! 1%nat) as [op1|].
    + by intros [= <- <-].
  - by intros [= <- <-].
  - by intros [= <- <-].
Qed.

Lemma replaceBlock_None declared block block' declared' :
  replaceBlock None declared block = inr (block', declared') →
  Forall (λ i, callsAlloc i = false) block ∧
  block' = block ∧ declared' = declared.
Proof.
  revert block' declared'.
  induction block as [|i block IH]; intros block' declared'; cbn.
  - by intros [= <- <-].
  - destruct (replaceCall _ _ i) as [|[i1 declared1]] eqn:Hi; [done|].
    apply replaceCall_None in Hi as (Hi & -> & ->).
    destruct (replaceBlock _ _ block) as [|[block1 declared2]] eqn:Hblock;
      [done|].
    destruct (IH _ _ eq_refl) as (? & -> & ->).
    intros [= <- <-]. by repeat constructor.
Qed.

Lemma replaceBlocks_None declared f f' declared' :
  replaceBlocks None declared f = inr (f', declared') →
  Forall (λ i, callsAlloc i = false) (concat f) ∧
  f' = f ∧ declared' = declared.
Proof.
  revert f' declared'. induction f as [|block f IH]; intros f' declared'; cbn.
  - by intros [= <- <-].
  - destruct (replaceBlock _ _ block) as [|[block1 declared1]] eqn:Hblock;
      [done|].
    apply replaceBlock_None in Hblock as (Hblock & -> & ->).
    destruct (replaceBlocks _ _ f) as [|[f1 declared2]] eqn:Hf; [done|].
    destruct (IH _ _ eq_refl) as (? & -> & ->).
    intros [= <- <-]. split; [by apply Forall_app|done].
Qed.

(** X12: with NM_TAPIRTARGET unset the pass goes through exactly for the
    functions that have no indirect call and no call of the allocation
    function, and leaves them and the module as they are. *)
Theorem replaceNRTAlloc_needs_the_target
    (f f' : Function) (declared declared' : list string) :
  run None f declared = inr (f', declared') ↔
  Forall (λ i, callsAlloc i = false ∧ isIndirectCall i = false) (concat f) ∧
  f' = f ∧ declared' = declared.
Proof.
  unfold run. split.
  - destruct (replaceList f) as [calls|] eqn:Hcalls; [|done].
    intros (Hnone & -> & ->)%replaceBlocks_None.
    split; [|done]. apply Forall_and. split; [done|].
    by apply replaceList_direct.
  - intros ([Hnone Hdirect]%Forall_and & -> & ->).
    apply replaceList_direct in Hdirect as [calls ->].
    by apply replaceBlocks_other.
Qed.

End ReplaceNRTAllocWithoutTarget.

Section ReplaceNRTAllocScenarios.
Import ReplaceNRTAlloc.

Lemma replaceNRTAlloc_leaves_no_allocation_call_witness :
  run (Some "opencilk") allocating
    ["NRT_MemInfo_alloc_safe_aligned"; "NRT_decref"]
  = inr (allocatingReplaced,
         ["NRT_MemInfo_alloc_safe_aligned"; "NRT_decref";
          "__kitcuda_mem_alloc_managed_numba_oc"]) ∧
  Forall (λ i, callsAlloc i = false) (concat allocatingReplaced) ∧
  run (Some "opencilk") allocatingReplaced
    ["NRT_MemInfo_alloc_safe_aligned"; "NRT_decref";
     "__kitcuda_mem_alloc_managed_numba_oc"]
  = inr (allocatingReplaced,
         ["NRT_MemInfo_alloc_safe_aligned"; "NRT_decref";
          "__kitcuda_mem_alloc_managed_numba_oc"]).
Proof.
  split; [reflexivity|].
  pose proof (replaceNRTAlloc_leaves_no_allocation_call
                (Some "opencilk") allocating allocatingReplaced
                ["NRT_MemInfo_alloc_safe_aligned"; "NRT_decref"]
                ["NRT_MemInfo_alloc_safe_aligned"; "NRT_decref";
                 "__kitcuda_mem_alloc_managed_numba_oc"]
                eq_refl) as (Hnone & _ & Hagain).
  exact (conj Hnone Hagain).
Defined.

End ReplaceNRTAllocScenarios.

Section ReplaceNRTAllocStops.
Import ReplaceNRTAlloc.

Variable tapirTarget : option string.
Hypothesis target : is_Some tapirTarget.

Lemma replaceCall_stop declared i stopped :
  replaceCall tapirTarget declared i = inl stopped →
  stopped = OperandOutOfRange ∧ lacksOperand i = true.
Proof.
  destruct target as [name Hname]. unfold replaceCall, memCalleeName.
  rewrite Hname.
  destruct i as [[fname|] [|arg0 args]|opcode operands]; cbn; try done;
    case_bool_decide; try done.
  - by intros [= <-].
  - by destruct args.
Qed.

Lemma replaceBlock_stop declared block stopped :
  replaceBlock tapirTarget declared block = inl stopped →
  stopped = OperandOutOfRange ∧ Exists (λ i, lacksOperand i = true) block.
Proof.
  revert declared. induction block as [|i block IH]; intros declared; [done|].
  cbn. destruct (replaceCall _ _ i) as [stopped'|[i' declared']] eqn:Hi.
  - intros [= <-]. apply replaceCall_stop in Hi as [-> ?].
    split; [done|by left].
  - destruct (replaceBlock _ declared' block) as [stopped'|[? ?]] eqn:Hblock;
      [|done].
    intros [= <-]. apply IH in Hblock as [-> ?]. split; [done|by right].
Qed.

Lemma replaceBlocks_stop declared f stopped :
  replaceBlocks tapirTarget declared f = inl stopped →
  stopped = OperandOutOfRange ∧ Exists (λ i, lacksOperand i = true) (concat f).
Proof.
  revert declared. induction f as [|block f IH]; intros declared; [done|].
  cbn. destruct (replaceBlock _ _ block) as [stopped'|[? declared']] eqn:Hb.
  - intros [= <-]. apply replaceBlock_stop in Hb as [-> ?].
    split; [done|]. apply Exists_app. by left.
  - destruct (replaceBlocks _ declared' f) as [stopped'|[? ?]] eqn:Hf; [|done].
    intros [= <-]. apply IH in Hf as [-> ?]. split; [done|].
    apply Exists_app. by right.
Qed.

(** With NM_TAPIRTARGET set the pass stops in the call through the null
    pointer only for an indirect call, and in the assertion only for a
    call of the allocation function without arguments. *)
Lemma run_stop f declared stopped :
  run tapirTarget f declared = inl stopped →
  (stopped = NullDereference
   ∧ Exists (λ i, isIndirectCall i = true) (concat f))
  ∨ (stopped = OperandOutOfRange
     ∧ Exists (λ i, lacksOperand i = true) (concat f)).
Proof.
  unfold run. destruct (replaceList f) as [calls|] eqn:Hcalls.
  - intros Hstop%replaceBlocks_stop. by right.
  - intros [= <-]. left. split; [done|].
    destruct (decide (Exists (λ i, isIndirectCall i = true) (concat f)))
      as [|Hnone]; [done|].
    apply not_Exists_Forall in Hnone; [|intros i; apply _].
    assert (is_Some (replaceList f)) as [? ?]; [|congruence].
    apply replaceList_direct. eapply Forall_impl; [exact Hnone|].
    intros i Hi. cbn in Hi. by destruct (isIndirectCall i).
Qed.

Lemma run_runs f declared :
  Forall (λ i, isIndirectCall i = false ∧ lacksOperand i = false) (concat f) →
  ∃ result, run tapirTarget f declared = inr result.
Proof.
  intros Hall.
  destruct (run tapirTarget f declared) as [stopped|result] eqn:Hrun;
    [|by eexists].
  apply run_stop in Hrun as [[_ Hex]|[_ Hex]];
    apply Exists_exists in Hex as (i & Hin & Hi);
    rewrite Forall_forall in Hall; destruct (Hall i Hin); congruence.
Qed.

Lemma replaceCall_lacks declared i :
  lacksOperand i = true →
  replaceCall tapirTarget declared i = inl OperandOutOfRange.
Proof.
  destruct i as [[fname|] [|arg0 args]|opcode operands]; cbn; try done.
  by intros ->.
Qed.

Lemma replaceBlock_ran declared block result :
  replaceBlock tapirTarget declared block = inr result →
  Forall (λ i, lacksOperand i = false) block.
Proof.
  revert declared result.
  induction block as [|i block IH]; intros declared result; [constructor|].
  cbn. destruct (replaceCall _ _ i) as [|[i' declared']] eqn:Hi; [done|].
  destruct (replaceBlock _ declared' block) as [|[? ?]] eqn:Hblock; [done|].
  intros _. constructor; [|by eapply IH].
  destruct (lacksOperand i) eqn:Hlacks; [|done].
  rewrite replaceCall_lacks in Hi by done. discriminate.
Qed.

Lemma replaceBlocks_ran declared f result :
  replaceBlocks tapirTarget declared f = inr result →
  Forall (λ i, lacksOperand i = false) (concat f).
Proof.
  revert declared result.
  induction f as [|block f IH]; intros declared result; [constructor|].
  cbn. destruct (replaceBlock _ _ block) as [|[? declared']] eqn:Hb; [done|].
  destruct (replaceBlocks _ declared' f) as [|[? ?]] eqn:Hf; [done|].
  intros _. apply Forall_app. split; [by eapply replaceBlock_ran|by eapply IH].
Qed.

Lemma run_ran f declared result :
  run tapirTarget f declared = inr result →
  Forall (λ i, isIndirectCall i = false ∧ lacksOperand i = false) (concat f).
Proof.
  unfold run. destruct (replaceList f) as [calls|] eqn:Hcalls; [|done].
  intros Hran%replaceBlocks_ran. apply Forall_and. split; [|done].
  apply replaceList_direct. by eexists.
Qed.

End ReplaceNRTAllocStops.

(** ** The execution engine: error values and terminations *)

Section EngineProperties.
Import ExecutionEngine.
#[local] Open Scope nat_scope.

Variable world : World.

Lemma uniqueNameAt_inj : Inj (=) (=) uniqueNameAt.
Proof.
  intros j k Heq. unfold uniqueNameAt in Heq.
  apply (inj (String.app "module")) in Heq. by apply (inj pretty) in Heq.
Qed.

(** Among more uniqueNameAts than there are names, one is not a name. *)
Lemma uniqueNameAt_fresh (names : list string) (c : nat) :
  ∃ k, c ≤ k < c + S (length names) ∧ uniqueNameAt k ∉ names.
Proof.
  destruct (decide (Exists (λ k, uniqueNameAt k ∉ names)
                           (seq c (S (length names))))) as [Hex|Hall].
  - apply Exists_exists in Hex as (k & Hk & Hfresh).
    apply elem_of_seq in Hk. by exists k.
  - exfalso. apply not_Exists_Forall in Hall; [|intros k; apply _].
    assert (uniqueNameAt <$> seq c (S (length names)) ⊆+ names) as Hsub.
    { apply NoDup_submseteq.
      - apply (@NoDup_fmap_2 _ _ uniqueNameAt uniqueNameAt_inj), NoDup_seq.
      - intros name (k & -> & Hk)%list_elem_of_fmap.
        rewrite Forall_forall in Hall. specialize (Hall k Hk). cbn in Hall.
        by destruct (decide (uniqueNameAt k ∈ names)). }
    apply submseteq_length in Hsub.
    rewrite length_fmap, length_seq in Hsub. lia.
Qed.

Lemma createDylib_fuel fuel engine :
  (∃ k, uniqueNameCounter engine ≤ k < uniqueNameCounter engine + fuel
        ∧ uniqueNameAt k ∉ dylibs engine) →
  (createDylib world fuel engine).1 ≠ OutOfFuel.
Proof.
  revert engine. induction fuel as [|fuel IH]; intros engine (k & Hk & Hfresh).
  - lia.
  - cbn [createDylib].
    case_bool_decide as Hin.
    + apply IH. cbn. exists k. split; [|exact Hfresh].
      destruct (decide (k = uniqueNameCounter engine)) as [->|]; [done|lia].
    + by destruct (createJITDylib world _).
Qed.

Lemma createDylib_outcome fuel engine :
  match (createDylib world fuel engine).1 with
  | Returned uniqueName => createJITDylib world uniqueName = None
  | ErrorValue e => ∃ uniqueName, createJITDylib world uniqueName = Some e
  | OutOfFuel => True
  | _ => False
  end.
Proof.
  revert engine. induction fuel as [|fuel IH]; intros engine; [done|].
  cbn [createDylib]. case_bool_decide; [apply IH|].
  destruct (createJITDylib world _) eqn:Hcreate; cbn; eauto.
Qed.


Lemma createDylib_enough engine :
  (createDylib world (S (length (dylibs engine))) engine).1 ≠ OutOfFuel.
Proof. apply createDylib_fuel, uniqueNameAt_fresh. Qed.

Lemma cantFail_outcome result engine :
  cantFail result engine
  = match result with
    | None => (Returned tt, engine)
    | Some e => (Aborted (CantFail e), engine)
    end.
Proof. by destruct result. Qed.

Lemma addFunctions_outcome dlHandle fns notFound symMap engine :
  match (addFunctions world dlHandle fns notFound symMap engine).1 with
  | Returned _ => Forall (λ fn, is_Some (dlsym world dlHandle fn)) fns
  | Aborted reason =>
      reason = ReportFatalError notFound
      ∧ ∃ fn, fn ∈ fns ∧ dlsym world dlHandle fn = None
  | _ => False
  end.
Proof.
  revert symMap. induction fns as [|fn fns IH]; intros symMap; [by cbn|].
  cbn [addFunctions]. destruct (dlsym world dlHandle fn) as [funcAddr|] eqn:Hsym.
  - specialize (IH (<[Mangle world fn := funcAddr]> symMap)).
    destruct (addFunctions _ _ _ _ _ _).1; try done.
    + constructor; [by rewrite Hsym|exact IH].
    + destruct IH as (-> & fn' & Hin & Hnone). split; [done|].
      exists fn'. split; [by right|done].
  - cbn. split; [done|]. exists fn. split; [by left|done].
Qed.

Lemma addLibrary_outcome symMap library engine :
  match (addLibrary world symMap library engine).1 with
  | Returned _ => ¬ lacksFunction world library
  | Aborted reason =>
      reason = ReportFatalError (notFound library)
      ∧ lacksFunction world library
  | _ => False
  end.
Proof.
  unfold addLibrary, lacksFunction.
  destruct (dlopen world (path library)) as [dlHandle|] eqn:Hopen.
  - pose proof (addFunctions_outcome dlHandle (functions library)
                  (notFound library) symMap engine) as Hfns.
    destruct (addFunctions _ _ _ _ _ _).1; try done.
    + intros (dlHandle' & fn & [= <-] & Hin & Hnone).
      rewrite Forall_forall in Hfns. destruct (Hfns fn Hin) as [? Hsome].
      congruence.
    + destruct Hfns as (-> & fn & Hin & Hnone). split; [done|]. eauto.
  - cbn. by intros (dlHandle' & fn & [=] & _).
Qed.

Lemma addLibraries_outcome symMap libs engine :
  match (addLibraries world symMap libs engine).1 with
  | Returned _ => Forall (λ library, ¬ lacksFunction world library) libs
  | Aborted reason =>
      ∃ library, library ∈ libs
        ∧ reason = ReportFatalError (notFound library)
        ∧ lacksFunction world library
  | _ => False
  end.
Proof.
  revert symMap engine. induction libs as [|library libs IH];
    intros symMap engine; [by cbn|].
  cbn [addLibraries]. unfold bind.
  pose proof (addLibrary_outcome symMap library engine) as Hlib.
  destruct (addLibrary world symMap library engine) as [[symMap'| | | |] engine1];
    cbn in Hlib |- *; try done.
  - specialize (IH symMap' engine1).
    destruct (addLibraries _ _ _ _).1; try done.
    + by constructor.
    + destruct IH as (library' & Hin & -> & Hlacks).
      exists library'. split; [by right|done].
  - destruct Hlib as [-> Hlacks]. exists library. split; [by left|done].
Qed.


Lemma bind_wp {A B} (m : M A) (f : A → M B) engine
    (P : Outcome B → Prop) :
  match m engine with
  | (Returned a, engine1) => P (f a engine1).1
  | (ErrorValue e, _) => P (ErrorValue e)
  | (Aborted reason, _) => P (Aborted reason)
  | (NullDereference, _) => P NullDereference
  | (OutOfFuel, _) => P OutOfFuel
  end →
  P (bind m f engine).1.
Proof. unfold bind. by destruct (m engine) as [[]]. Qed.

Ltac wp := apply bind_wp.

Lemma replaceNRTAllocs_stop functions declared stopped :
  is_Some (getenv (compiler world) "NM_TAPIRTARGET") →
  replaceNRTAllocs world functions declared = inl stopped →
  ∃ f i,
    f ∈ functions ∧ i ∈ concat f
    ∧ match stopped with
      | ReplaceNRTAlloc.NullDereference =>
          ReplaceNRTAlloc.isIndirectCall i = true
      | ReplaceNRTAlloc.OperandOutOfRange =>
          ReplaceNRTAlloc.lacksOperand i = true
      end.
Proof.
  intros Htarget. revert declared.
  induction functions as [|f functions IH]; intros declared; [done|].
  cbn. destruct (ReplaceNRTAlloc.run _ f declared)
    as [stopped'|[f' declared']] eqn:Hf.
  - intros [= <-].
    apply (run_stop _ Htarget) in Hf as [[-> Hex]|[-> Hex]];
      apply Exists_exists in Hex as (i & Hin & Hi);
      exists f, i; (split; [by left|done]).
  - destruct (replaceNRTAllocs world functions declared')
      as [stopped'|[? ?]] eqn:Hrest; [|done].
    intros [= <-]. destruct (IH _ Hrest) as (f0 & i & Hin & Hi).
    exists f0, i. split; [by right|done].
Qed.

Lemma replaceNRTAllocs_runs functions declared :
  is_Some (getenv (compiler world) "NM_TAPIRTARGET") →
  Forall (λ f, Forall (λ i, ReplaceNRTAlloc.isIndirectCall i = false
                            ∧ ReplaceNRTAlloc.lacksOperand i = false)
                      (concat f)) functions →
  ∃ result, replaceNRTAllocs world functions declared = inr result.
Proof.
  intros Htarget Hall. revert declared.
  induction Hall as [|f functions Hf _ IH]; intros declared; [by eexists|].
  cbn. destruct (run_runs _ Htarget f declared Hf) as [[f' declared'] ->].
  destruct (IH declared') as [[? ?] ->]. by eexists.
Qed.

Lemma replaceNRTAllocs_ran functions declared result :
  replaceNRTAllocs world functions declared = inr result →
  Forall (λ f, Forall (λ i, ReplaceNRTAlloc.isIndirectCall i = false
                            ∧ ReplaceNRTAlloc.lacksOperand i = false)
                      (concat f)) functions.
Proof.
  revert declared result.
  induction functions as [|f functions IH]; intros declared result;
    [constructor|].
  cbn. destruct (ReplaceNRTAlloc.run _ f declared)
    as [|[f' declared']] eqn:Hf; [done|].
  destruct (replaceNRTAllocs world functions declared')
    as [|[? ?]] eqn:Hrest; [done|].
  intros _. constructor; [by eapply run_ran|by eapply IH].
Qed.

(** What [runOptimizationPasses] ends with, and why. *)
Lemma runOptimizationPasses_outcome llvmModule engine :
  match (runOptimizationPasses world llvmModule engine).1 with
  | Returned _ => passesRun world llvmModule
  | Aborted reason =>
      is_Some (getenv (compiler world) "NM_TAPIRTARGET")
      ∧ (firstPipeline (compiler world) llvmModule = inl reason
         ∨ laterPasses (compiler world) llvmModule = Some reason
         ∨ (reason = FailedAssertion "getOperand() out of range!"
            ∧ hasInstruction world llvmModule ReplaceNRTAlloc.lacksOperand))
  | NullDereference =>
      getenv (compiler world) "NM_TAPIRTARGET" = None
      ∨ hasInstruction world llvmModule ReplaceNRTAlloc.isIndirectCall
  | _ => False
  end.
Proof.
  unfold runOptimizationPasses, bind, writeErrs, passesRun, hasInstruction,
    functionsOf.
  destruct (getenv (compiler world) "NM_TAPIRTARGET") as [target|] eqn:Henv;
    [|by left].
  assert (is_Some (getenv (compiler world) "NM_TAPIRTARGET")) as Htarget
    by (rewrite Henv; eauto).
  destruct (firstPipeline (compiler world) llvmModule)
    as [reason|[functions declared]] eqn:Hfirst; cbn; [by auto|].
  destruct (replaceNRTAllocs world functions declared)
    as [stopped|result] eqn:Hpass.
  - destruct (replaceNRTAllocs_stop _ _ _ Htarget Hpass)
      as (f & i & Hf & Hi & Hkind).
    destruct stopped; cbn; [right; eauto|].
    split; [eauto|]. do 2 right. split; [done|]. eauto.
  - destruct (laterPasses (compiler world) llvmModule) as [reason|] eqn:Hlater;
      cbn; [by auto|].
    split; [eauto|]. split; [by eexists|]. split; [|done].
    by eapply replaceNRTAllocs_ran.
Qed.

Lemma runOptimizationPasses_runs llvmModule engine :
  passesRun world llvmModule →
  (runOptimizationPasses world llvmModule engine).1 = Returned tt.
Proof.
  intros (Htarget & [[functions declared] Hfirst] & Hall & Hlater).
  unfold functionsOf in Hall. rewrite Hfirst in Hall.
  unfold runOptimizationPasses, bind, writeErrs.
  destruct Htarget as [target Henv]. rewrite Henv, Hfirst.
  destruct (replaceNRTAllocs_runs functions declared) as [result ->];
    [by rewrite Henv|done|].
  by rewrite Hlater.
Qed.

Lemma runOptimizationPasses_unset llvmModule engine :
  getenv (compiler world) "NM_TAPIRTARGET" = None →
  (runOptimizationPasses world llvmModule engine).1 = NullDereference.
Proof.
  intros Henv. unfold runOptimizationPasses, bind, writeErrs.
  by rewrite Henv.
Qed.

Lemma CustomCompiler_explained llvmModule engine :
  compileExplained world llvmModule
                   (CustomCompiler world llvmModule engine).1.
Proof.
  unfold CustomCompiler, compileExplained.
  destruct (transformed world llvmModule) as [err|] eqn:Ht.
  { left. split; [eauto|done]. }
  pose proof (runOptimizationPasses_outcome llvmModule engine) as Hpasses.
  unfold bind.
  destruct (runOptimizationPasses world llvmModule engine)
    as [[[]|e|reason| |] engine1]; cbn in Hpasses |- *; try done.
  unfold emitted.
  destruct (asmPrinter (compiler world)
            && addPassesToEmitFile (compiler world) llvmModule);
    cbn; right; done.
Qed.

Lemma CustomCompiler_runs llvmModule engine :
  transformed world llvmModule = None → passesRun world llvmModule →
  (CustomCompiler world llvmModule engine).1
  = Returned (emitted world llvmModule).
Proof.
  intros Ht Hpasses. unfold CustomCompiler, bind. rewrite Ht.
  pose proof (runOptimizationPasses_runs llvmModule engine Hpasses) as Hrun.
  destruct (runOptimizationPasses world llvmModule engine)
    as [outcome engine1]. cbn in Hrun. subst outcome. unfold emitted.
  by destruct (asmPrinter (compiler world)
               && addPassesToEmitFile (compiler world) llvmModule).
Qed.

Lemma CustomCompiler_transformed llvmModule engine err :
  transformed world llvmModule = Some err →
  CustomCompiler world llvmModule engine = (Returned (Some err), engine).
Proof. intros Ht. unfold CustomCompiler. by rewrite Ht. Qed.

Lemma CustomCompiler_unset llvmModule engine :
  transformed world llvmModule = None →
  getenv (compiler world) "NM_TAPIRTARGET" = None →
  (CustomCompiler world llvmModule engine).1 = NullDereference.
Proof.
  intros Ht Henv. unfold CustomCompiler, bind. rewrite Ht.
  pose proof (runOptimizationPasses_unset llvmModule engine Henv) as Hrun.
  destruct (runOptimizationPasses world llvmModule engine)
    as [outcome engine1]. cbn in Hrun. by subst outcome.
Qed.

(** What a call of the JIT that may compile a module ends with. *)
Lemma materialized_outcome {A} pending (failed : Error → A) answer engine :
  match pending with
  | None => materialized world pending failed answer engine
            = (Returned answer, engine)
  | Some llvmModule =>
      match (CustomCompiler world llvmModule engine).1 with
      | Returned None =>
          (materialized world pending failed answer engine).1
          = Returned answer
      | Returned (Some err) =>
          (materialized world pending failed answer engine).1
          = Returned (failed (failedToMaterialize world err))
      | ErrorValue e =>
          (materialized world pending failed answer engine).1 = ErrorValue e
      | Aborted reason =>
          (materialized world pending failed answer engine).1
          = Aborted reason
      | NullDereference =>
          (materialized world pending failed answer engine).1
          = NullDereference
      | OutOfFuel =>
          (materialized world pending failed answer engine).1 = OutOfFuel
      end
  end.
Proof.
  destruct pending as [llvmModule|]; [|done]. unfold materialized, bind.
  by destruct (CustomCompiler world llvmModule engine)
    as [[[err|]|e|reason| |] engine1].
Qed.

(** What [jit->initialize] followed by [cantFail] ends with, and why. *)
Lemma jitInitialize_outcome dylib tsm engine :
  match (bind (jitInitialize world dylib tsm) cantFail engine).1 with
  | Returned _ => True
  | Aborted reason =>
      match reason with
      | CantFail e =>
          initialize world dylib = Some e
          ∨ ∃ err, e = failedToMaterialize world err
                   ∧ initializersEnd world (Returned (Some err))
      | _ => False
      end
      ∨ initializersEnd world (Aborted reason)
  | NullDereference => initializersEnd world NullDereference
  | _ => False
  end.
Proof.
  unfold jitInitialize, initializersEnd.
  destruct (hasInitializers world tsm) eqn:Hinit.
  - pose proof (materialized_outcome (Some tsm) Some (initialize world dylib)
                  engine) as Hcall.
    pose proof (CustomCompiler_explained tsm engine) as Hwhy.
    unfold bind at 1.
    destruct (materialized world (Some tsm) Some (initialize world dylib)
                engine) as [outcome engine1].
    cbn [fst] in Hcall.
    destruct (CustomCompiler world tsm engine).1
      as [[err|]|e|reason| |]; subst outcome; try done.
    + rewrite cantFail_outcome. cbn. left. right. eauto.
    + rewrite cantFail_outcome.
      destruct (initialize world dylib) as [e|]; cbn; auto.
    + cbn. right. eauto.
    + cbn. eauto.
  - cbn. unfold bind. cbn. rewrite cantFail_outcome.
    destruct (initialize world dylib) as [e|]; cbn; auto.
Qed.

Lemma loadModule_explained m engine :
  explained world engine m (loadModule world m engine).1.
Proof.
  unfold loadModule.
  destruct (translateModuleToLLVMIR world m) as [llvmModule|] eqn:Htr;
    [|by unfold explained; cbn; rewrite Htr; left].
  assert (is_Some (translateModuleToLLVMIR world m)) as Hsome
    by (rewrite Htr; eauto).
  wp. cbn [setOptions ret]. set (tsm := mkModule _ _ _ _ _).
  assert (∀ e, cantFailErrors world engine e →
               explained world engine m (Aborted (CantFail e))) as Hfatal.
  { intros e He. split; [done|by left]. }
  wp. assert (explained world engine m
    (bind (createDylib world (S (length (dylibs engine))))
       (λ dylib,
          bind (cantFail (getForCurrentProcess world)) (λ _,
          bind (if hasSymbolMap engine
                then cantFail (defineSymbolMap world dylib) else ret tt) (λ _,
          bind (cantFail (addIRModule world dylib tsm)) (λ _,
          bind (addLibraries world ∅ [kitcuda; openCilk; openCilkPers; timer])
               (λ symMap,
          bind (cantFail (defineAbsoluteSymbols world dylib symMap)) (λ _,
          bind (bind (jitInitialize world dylib tsm) cantFail) (λ _,
          ret dylib))))))) engine).1) as Hrest.
  { wp.
    pose proof (createDylib_enough engine) as Hfuel.
    pose proof (createDylib_outcome (S (length (dylibs engine))) engine)
      as Hcreate.
    destruct (createDylib world (S (length (dylibs engine))) engine)
      as [[dylib|e| | |] engine1]; cbn in Hfuel, Hcreate; try done.
    wp. rewrite cantFail_outcome.
    destruct (getForCurrentProcess world) as [e|] eqn:Hgen;
      [apply Hfatal; right; by left|].
    wp. assert (explained world engine m
      (bind (cantFail (addIRModule world dylib tsm)) (λ _,
       bind (addLibraries world ∅ [kitcuda; openCilk; openCilkPers; timer])
            (λ symMap,
       bind (cantFail (defineAbsoluteSymbols world dylib symMap)) (λ _,
       bind (bind (jitInitialize world dylib tsm) cantFail) (λ _,
       ret dylib)))) engine1).1) as Hrest.
    { wp. rewrite cantFail_outcome.
      destruct (addIRModule world dylib tsm) as [e|] eqn:Hadd;
        [apply Hfatal; do 3 right; left; eauto|].
      wp. pose proof (addLibraries_outcome ∅ libraries engine1) as Hlibs.
      unfold libraries in Hlibs at 1.
      destruct (addLibraries world ∅ _ engine1)
        as [[symMap|e|[e|message|message]| |] engine2]; cbn in Hlibs;
        try done.
      - wp. rewrite cantFail_outcome.
        destruct (defineAbsoluteSymbols world dylib symMap) as [e|] eqn:Habs;
          [apply Hfatal; do 4 right; left; eauto|].
        wp. pose proof (jitInitialize_outcome dylib tsm engine2) as Hinit.
        destruct (bind (jitInitialize world dylib tsm) cantFail engine2)
          as [[[]|e|reason| |] engine3]; cbn in Hinit |- *; try done.
        + split; [done|]. destruct Hinit as [Hinit|Hinit]; [|by right].
          destruct reason as [e| |]; try done. left.
          destruct Hinit as [Hinit|Hinit]; [do 5 right; left; eauto|].
          by do 6 right.
        + by right.
      - by destruct Hlibs as (? & _ & [=] & _).
      - destruct Hlibs as (library & Hin & [= ->] & Hlacks).
        split; [done|]. left. eauto.
      - by destruct Hlibs as (? & _ & [=] & _). }
    destruct (hasSymbolMap engine) eqn:Hmap; [|exact Hrest].
    rewrite cantFail_outcome.
    destruct (defineSymbolMap world dylib) as [e|] eqn:Hdef; [|exact Hrest].
    apply Hfatal. do 2 right. left. eauto. }
  destruct (hasTransformer engine) eqn:Hhas; [|exact Hrest].
  rewrite cantFail_outcome.
  destruct (transformer world tsm) as [e|] eqn:Ht; [|exact Hrest].
  apply Hfatal. left. eauto.
Qed.

Lemma loadModule_untranslated m engine :
  translateModuleToLLVMIR world m = None →
  loadModule world m engine = (NullDereference, engine).
Proof. unfold loadModule. by intros ->. Qed.

Lemma createDylib_fails fuel engine e :
  (∀ uniqueName, createJITDylib world uniqueName = Some e) →
  (createDylib world fuel engine).1 = ErrorValue e
  ∨ (createDylib world fuel engine).1 = OutOfFuel.
Proof.
  intros Hfails. revert engine.
  induction fuel as [|fuel IH]; intros engine; [by right|].
  cbn [createDylib]. case_bool_decide; [apply IH|].
  rewrite Hfails. by left.
Qed.

Lemma loadModule_ErrorValue m engine e :
  is_Some (translateModuleToLLVMIR world m) →
  (hasTransformer engine = true → ∀ tsm, transformer world tsm = None) →
  (∀ uniqueName, createJITDylib world uniqueName = Some e) →
  (loadModule world m engine).1 = ErrorValue e.
Proof.
  intros [llvmModule Htr] Htransformer Hfails. unfold loadModule.
  rewrite Htr. cbn [setOptions]. unfold bind at 1. cbn [ret].
  unfold bind at 1.
  assert ((if hasTransformer engine
           then cantFail (transformer world
                            (mkModule (source llvmModule) CodeModelLarge
                                      BigPIC PIELarge true))
           else ret tt) engine = (Returned tt, engine)) as ->.
  { destruct (hasTransformer engine); [|reflexivity].
    by rewrite Htransformer. }
  unfold bind at 1.
  pose proof (createDylib_enough engine) as Hfuel.
  destruct (createDylib_fails (S (length (dylibs engine))) engine e Hfails)
    as [Hcreate|Hcreate]; [|done].
  destruct (createDylib world (S (length (dylibs engine))) engine)
    as [outcome engine1]. cbn in Hcreate. by subst outcome.
Qed.

Lemma hasInstruction_passesRun llvmModule kind :
  passesRun world llvmModule →
  (∀ i, kind i = true →
        ReplaceNRTAlloc.isIndirectCall i = true
        ∨ ReplaceNRTAlloc.lacksOperand i = true) →
  ¬ hasInstruction world llvmModule kind.
Proof.
  intros (_ & _ & Hall & _) Hkind (f & i & Hf & Hi & Hk).
  rewrite Forall_forall in Hall. specialize (Hall f Hf).
  rewrite Forall_forall in Hall. destruct (Hall i Hi) as [Hcall Hlacks].
  destruct (Hkind i Hk); congruence.
Qed.

(** A module the compile function goes through for and emits: any other
    end is unexplained. *)
Lemma compileExplained_through llvmModule outcome :
  transformed world llvmModule = None → passesRun world llvmModule →
  compileExplained world llvmModule outcome →
  outcome = Returned (emitted world llvmModule).
Proof.
  intros Ht Hpasses.
  destruct outcome as [compiled|e|reason| |]; cbn; try done.
  - intros [[[err Herr] _]|(_ & _ & ->)]; [congruence|done].
  - intros (_ & _ & [Hfirst|[Hlater|[_ Hlacks]]]).
    + destruct Hpasses as (_ & [result Hresult] & _). congruence.
    + destruct Hpasses as (_ & _ & _ & Hnone). congruence.
    + by destruct (hasInstruction_passesRun llvmModule _ Hpasses
                     (λ i Hi, or_intror Hi)).
  - intros (_ & [Henv|Hcall]).
    + destruct Hpasses as ([target Htarget] & _). congruence.
    + by destruct (hasInstruction_passesRun llvmModule _ Hpasses
                     (λ i Hi, or_introl Hi)).
Qed.

Lemma loadModule_Returned m engine :
  is_Some (translateModuleToLLVMIR world m) → nothingFails world →
  ∃ dylib, (loadModule world m engine).1 = Returned dylib.
Proof.
  intros Hsome (Htransformer & Hcreate & Hgen & Hmap & Hadd & Hlibs & Habs
                & Hinit & Hcompile).
  assert (∀ outcome, initializersEnd world outcome →
                     outcome = Returned None) as Hends.
  { intros outcome (tsm & Hhas & Hwhy).
    destruct (Hcompile tsm Hhas) as (Ht & Hpasses & <-).
    by apply compileExplained_through. }
  pose proof (loadModule_explained m engine) as Hwhy.
  destruct (loadModule world m engine).1 as [dylib|e|reason| |];
    cbn in Hwhy.
  - by exists dylib.
  - destruct Hwhy as (_ & uniqueName & Hfail). congruence.
  - destruct Hwhy as (_ & [Hwhy|Hwhy%Hends]); [|done].
    destruct reason as [e|message|message]; [| |done].
    + destruct Hwhy as
        [(_ & tsm & He)|[He|[(_ & dylib & He)|[(dylib & tsm & He)
          |[(dylib & symMap & He)|[(dylib & He)|(err & _ & Hend%Hends)]]]]]];
        congruence.
    + destruct Hwhy as (library & Hin & _ & Hlacks).
      by destruct (Hlibs library Hin).
  - destruct Hwhy as [Hnone|Hend%Hends]; [|done].
    destruct Hsome as [? Hsome]. congruence.
  - done.
Qed.

(** C10: [loadModule] calls member functions through the pointer to the
    translated module before it tests the pointer.  When the translation
    gives the null pointer the call goes through it; no pointer that
    reaches the test is null, and an error value of [loadModule] is an
    error of [createJITDylib], for a module that was translated. *)
Theorem loadModule_never_reports_failed_translation
    (engine : Engine) (m : FunctionBoundary.ModuleOp) :
  (translateModuleToLLVMIR world m = None →
   loadModule world m engine = (NullDereference, engine))
  ∧ (∀ llvmModule engine',
       setOptions (translateModuleToLLVMIR world m) engine
       = (Returned llvmModule, engine') →
       is_Some llvmModule)
  ∧ (∀ e engine',
       loadModule world m engine = (ErrorValue e, engine') →
       is_Some (translateModuleToLLVMIR world m)
       ∧ ∃ uniqueName, createJITDylib world uniqueName = Some e).
Proof.
  split; [apply loadModule_untranslated|]. split.
  - intros llvmModule engine'.
    destruct (translateModuleToLLVMIR world m); [|discriminate].
    intros [= <- _]. eauto.
  - intros e engine' Hrun.
    pose proof (loadModule_explained m engine) as Hwhy.
    by rewrite Hrun in Hwhy.
Qed.

End EngineProperties.

Section EngineScenarios.
Import ExecutionEngine.

(** Every call succeeds: the module gets the library [module0]. *)
Lemma loadModule_sound :
  loadModule sound [] newEngine
  = (Returned "module0", mkEngine 1 ["module0"] false false []).
Proof. vm_compute. reflexivity. Qed.

(** [libkitrt.so] opens without [__cudaRegisterFatBinary]: the process is
    terminated. *)
Lemma missing_runtime_function_terminates :
  (loadModule missingFunction [] newEngine).1
  = Aborted (ReportFatalError
               ("error finding kitcuda function in libkitrt.so" +:+ newline))
  ∧ ¬ (∀ world engine m, reported (loadModule world m engine).1).
Proof.
  assert ((loadModule missingFunction [] newEngine).1
          = Aborted (ReportFatalError
                       ("error finding kitcuda function in libkitrt.so"
                          +:+ newline))) as Hrun
    by (vm_compute; reflexivity).
  split; [exact Hrun|]. intros Hall.
  specialize (Hall missingFunction newEngine []). by rewrite Hrun in Hall.
Qed.

(** A module that is not translated: no error value. *)
Lemma loadModule_untranslatable :
  loadModule untranslatable [] newEngine = (NullDereference, newEngine).
Proof. reflexivity. Qed.

Lemma loadModule_never_reports_failed_translation_witness :
  translateModuleToLLVMIR untranslatable [] = None
  ∧ loadModule untranslatable [] newEngine = (NullDereference, newEngine).
Proof.
  split; [reflexivity|].
  destruct (loadModule_never_reports_failed_translation untranslatable
              newEngine []) as (Hnull & _).
  exact (Hnull eq_refl).
Defined.

End EngineScenarios.

Section UnflattenProperties.
Import FunctionBoundary Unflatten.

(** Induction on a type through the bodies of structs and the elements
    of arrays. *)
Lemma Ty_aggregate_ind (P : Ty → Prop) :
  (∀ body, Forall P body → P (LLVMStructType body)) →
  (∀ elem size, P elem → P (LLVMArrayType elem size)) →
  (∀ type, (∀ body, type ≠ LLVMStructType body) →
           (∀ elem size, type ≠ LLVMArrayType elem size) → P type) →
  ∀ type, P type.
Proof.
  intros Hstruct Harray Hleaf.
  fix IH 1. intros type. destruct type as [| | | | | | |elems| | | |body|elem size].
  12: { apply Hstruct. induction body as [|t body IHbody]; constructor;
          [apply IH|exact IHbody]. }
  12: { apply Harray, IH. }
  all: apply Hleaf; discriminate.
Qed.


#[local] Open Scope nat_scope.

Lemma nextFunc_unflattened newArgs it :
  Forall isScalar newArgs →
  unflattened newArgs 1 it
    (match nextFunc newArgs it with
     | Some (ret, it') => Some (ret, [], it')
     | None => None
     end).
Proof.
  intros Hscalar. unfold nextFunc, unflattened.
  destruct (newArgs !! it) as [ret|] eqn:Hret.
  - split; [lia|]. split.
    + rewrite (drop_S _ _ _ Hret). cbn. rewrite take_0.
      rewrite Forall_lookup in Hscalar. specialize (Hscalar _ _ Hret).
      by destruct ret.
    + intros _. apply lookup_lt_Some in Hret. lia.
  - apply lookup_ge_None in Hret. lia.
Qed.

Lemma insertElements_unflattened {A} newArgs
    (element : A → nat → option (Val * list Action * nat))
    (leaves : A → list Ty) (elements : list A) :
  Forall (λ elem, ∀ it, unflattened newArgs (length (leaves elem)) it
                                    (element elem it)) elements →
  ∀ i val created it,
    match insertElements element elements i val created it with
    | Some (val', _, it') =>
        it' = it + length (elements ≫= leaves)
        ∧ insertedLeaves val'
          = insertedLeaves val
              ++ take (length (elements ≫= leaves)) (drop it newArgs)
        ∧ (0 < length (elements ≫= leaves) →
           it + length (elements ≫= leaves) ≤ length newArgs)
    | None => length newArgs < it + length (elements ≫= leaves)
    end.
Proof.
  induction 1 as [|elem elements Helem _ IH]; intros i val created it.
  - cbn. rewrite take_0, app_nil_r. split; [lia|]. split; [done|lia].
  - cbn [insertElements mbind list_bind]. rewrite length_app.
    specialize (Helem it). unfold unflattened in Helem.
    destruct (element elem it) as [[[elemVal more] it1]|]; [|lia].
    destruct Helem as (-> & Hleaves & Hn).
    specialize (IH (S i) (InsertValue val elemVal i)
                   (created ++ more ++ [CreateOp (InsertValue val elemVal i)])
                   (it + length (leaves elem))).
    destruct (insertElements _ _ _ _ _ _) as [[[val' created'] it']|]; [|lia].
    destruct IH as (-> & Hval' & Hm). split; [lia|]. split.
    + rewrite Hval'. cbn [insertedLeaves]. rewrite Hleaves, <- app_assoc.
      f_equal. rewrite <- take_take_drop, drop_drop. reflexivity.
    + intros Hpos.
      destruct (decide (0 < length (elements ≫= leaves))) as [?|?]; [lia|].
      assert (0 < length (leaves elem)) by lia. lia.
Qed.

Lemma unflatten_unflattened newArgs :
  Forall isScalar newArgs →
  ∀ type it,
    unflattened newArgs (length (flattenType type)) it
                (unflatten type newArgs it).
Proof.
  intros Hscalar type.
  induction type as [body IH|elem size IH|type Hstruct Harray]
    using Ty_aggregate_ind; intros it.
  - cbn [unflatten flattenType].
    pose proof (insertElements_unflattened newArgs
                  (λ elemType, unflatten elemType newArgs) flattenType body IH
                  0 (Undef (Some (LLVMStructType body)))
                  [CreateOp (Undef (Some (LLVMStructType body)))] it) as Hloop.
    unfold unflattened.
    by destruct (insertElements _ _ _ _ _ _) as [[[val' created'] it']|].
  - cbn [unflatten flattenType].
    pose proof (insertElements_unflattened newArgs
                  (λ _ : nat, unflatten elem newArgs) (λ _, flattenType elem)
                  (seq 0 size)
                  (proj2 (Forall_forall _ _) (λ _ _, IH))
                  0 (Undef (Some (LLVMArrayType elem size)))
                  [CreateOp (Undef (Some (LLVMArrayType elem size)))] it)
      as Hloop.
    unfold unflattened.
    by destruct (insertElements _ _ _ _ _ _) as [[[val' created'] it']|].
  - assert (flattenType type = [type]) as ->.
    { destruct type; try reflexivity;
        [by destruct (Hstruct body)|by destruct (Harray type numElements)]. }
    assert (unflatten type newArgs it
            = match nextFunc newArgs it with
              | Some (ret, it') => Some (ret, [], it')
              | None => None
              end) as ->.
    { destruct type; try reflexivity;
        [by destruct (Hstruct body)|by destruct (Harray type numElements)]. }
    by apply nextFunc_unflattened.
Qed.

(** X1: [unflatten] undoes [flattenType].  Given as many values as the
    type has leaves, it reads all of them, and the aggregate it builds
    holds them in their order; given fewer, it reads past the last
    one. *)
Theorem unflatten_rebuilds_flattened (type : Ty) (newArgs : list Val) :
  Forall isScalar newArgs →
  (length newArgs = length (flattenType type) →
   ∃ val created,
     unflatten type newArgs 0 = Some (val, created, length newArgs)
     ∧ insertedLeaves val = newArgs)
  ∧ (length newArgs < length (flattenType type) →
     unflatten type newArgs 0 = None).
Proof.
  intros Hscalar.
  pose proof (unflatten_unflattened newArgs Hscalar type 0) as Hrun.
  unfold unflattened in Hrun. split.
  - intros Hlength.
    destruct (unflatten type newArgs 0) as [[[val created] it']|]; [|lia].
    destruct Hrun as (-> & Hleaves & _). exists val, created.
    rewrite <- Hlength. split; [reflexivity|].
    rewrite Hleaves, drop_0. apply take_ge. lia.
  - intros Hlength.
    destruct (unflatten type newArgs 0) as [[[val created] it']|]; [|done].
    destruct Hrun as (_ & _ & Henough). lia.
Qed.

End UnflattenProperties.

Section UnflattenScenarios.
Import FunctionBoundary Unflatten.

Lemma unflatten_rebuilds_flattened_witness :
  ∃ val created,
    unflatten (LLVMStructType vectorLeavesType) (EntryArgument <$> seq 3 7) 0
    = Some (val, created, 7%nat)
    ∧ insertedLeaves val = EntryArgument <$> seq 3 7.
Proof.
  refine (proj1 (unflatten_rebuilds_flattened
                   (LLVMStructType vectorLeavesType)
                   (EntryArgument <$> seq 3 7) _) eq_refl).
  by repeat constructor.
Defined.

End UnflattenScenarios.

Section TupleTypes.
Import FunctionBoundary.

Variable convertType : Ty → option Ty.

Lemma forallb_same (elemType : Ty) (tail : list Ty) :
  forallb (λ t, bool_decide (t = elemType)) tail = true →
  tail = replicate (length tail) elemType.
Proof.
  induction tail as [|t tail IH]; [done|]. cbn.
  intros [->%bool_decide_eq_true Htail]%andb_true_iff. by rewrite <- IH.
Qed.

Lemma mapM_replicate {A B} (f : A → option B) n a b :
  f a = Some b → mapM f (replicate n a) = Some (replicate n b).
Proof.
  intros Hf. induction n as [|n IH]; [done|].
  cbn. rewrite Hf. cbn. by rewrite IH.
Qed.

Lemma bind_replicate {A B} (f : A → list B) n a :
  replicate n a ≫= f = seq 0 n ≫= λ _, f a.
Proof.
  generalize 0%nat. induction n as [|n IH]; intros start; [done|].
  cbn. by rewrite (IH (S start)).
Qed.

Lemma mapM_None_elem {A B} (f : A → option B) l :
  mapM f l = None ↔ ∃ a, a ∈ l ∧ f a = None.
Proof.
  rewrite eq_None_not_Some, mapM_is_Some, <- Exists_exists. split.
  - intros Hnot. apply not_Forall_Exists in Hnot; [|intros a; apply _].
    eapply Exists_impl; [exact Hnot|]. intros a Ha. cbn in Ha.
    by apply eq_None_not_Some.
  - intros Hex Hall. apply Exists_exists in Hex as (a & Hin & Hnone).
    rewrite Forall_forall in Hall. destruct (Hall a Hin) as [b Hb]. congruence.
Qed.

Lemma replicate_all_equal (elemType : Ty) (tail : list Ty) :
  (∃ t, elemType :: tail = replicate (S (length tail)) t) →
  forallb (λ t, bool_decide (t = elemType)) tail = true.
Proof.
  intros [t Ht]. cbn in Ht. injection Ht as -> Htail.
  rewrite Htail. clear Htail. induction (length tail) as [|n IH]; [done|].
  cbn. by rewrite bool_decide_eq_true_2, IH.
Qed.

(** X2: [convertTupleTypes] gives the null type exactly when one of the
    types has no conversion; otherwise the type it gives has the leaves
    of the converted types, in their order.  It is an array exactly when
    there is a type and the types themselves, before their conversion,
    are all the same; types that differ give a struct of the converted
    types, also when these are the same. *)
Theorem convertTupleTypes_leaves (types : list Ty) :
  match convertTupleTypes convertType types with
  | Some tuple =>
      ∃ newTypes,
        mapM convertType types = Some newTypes
        ∧ flattenType tuple = newTypes ≫= flattenType
        ∧ ((∃ elemType newType,
              types = replicate (length types) elemType
              ∧ types ≠ []
              ∧ convertType elemType = Some newType
              ∧ tuple = LLVMArrayType newType (length types))
           ∨ ((types = []
               ∨ ¬ ∃ elemType, types = replicate (length types) elemType)
              ∧ tuple = LLVMStructType newTypes))
  | None => ∃ type, type ∈ types ∧ convertType type = None
  end.
Proof.
  unfold convertTupleTypes. destruct types as [|elemType tail].
  { exists []. split; [done|]. split; [done|]. right. split; [by left|done]. }
  destruct (forallb _ tail) eqn:Hsame.
  - apply forallb_same in Hsame.
    destruct (convertType elemType) as [newType|] eqn:Hconv; cbn.
    + exists (replicate (S (length tail)) newType). split; [|split].
      * remember (length tail) as n eqn:Hn. rewrite Hsame.
        by apply (mapM_replicate convertType (S n)).
      * by rewrite bind_replicate.
      * left. exists elemType, newType. split; [|done].
        cbn. f_equal. exact Hsame.
    + exists elemType. split; [by left|done].
  - destruct (mapM convertType (elemType :: tail)) as [newTypes|] eqn:Hmap;
      cbn.
    + exists newTypes. split; [done|]. split; [reflexivity|].
      right. split; [|done]. right. intros Hex.
      apply replicate_all_equal in Hex. congruence.
    + by apply mapM_None_elem.
Qed.

End TupleTypes.

Section ThunkNameProperties.
Import FunctionBoundary ThunkNames.
#[local] Open Scope nat_scope.

Variable printType : Ty → string.

Lemma append_String c (a b : string) : String c a +:+ b = String c (a +:+ b).
Proof. reflexivity. Qed.

Lemma append_nil (b : string) : "" +:+ b = b.
Proof. reflexivity. Qed.

Lemma pretty_N_char_isDigit x : isDigit (pretty_N_char x) = true.
Proof. unfold pretty_N_char. by repeat case_match. Qed.

Lemma pretty_N_go_digits x s :
  ∃ digits, pretty_N_go x s = digits +:+ s ∧ allDigits digits = true
            ∧ ((0 < x)%N → digits ≠ "").
Proof.
  revert s. induction (N.lt_wf_0 x) as [x _ IH]; intros s.
  destruct (decide (x = 0%N)) as [->|Hpos].
  - exists "". rewrite pretty_N_go_0. split; [done|]. split; [done|intros ?; lia].
  - rewrite pretty_N_go_step by lia.
    destruct (IH (x `div` 10)%N) with
      (s := String (pretty_N_char (x `mod` 10)) s)
      as (digits & -> & Hall & _).
    { apply N.div_lt; lia. }
    exists (digits +:+ String (pretty_N_char (x `mod` 10)) "").
    split; [|split].
    + clear. induction digits as [|c digits IHd]; [done|].
      rewrite !append_String. congruence.
    + clear -Hall. induction digits as [|c digits IHd].
      * rewrite append_nil. simpl. by rewrite pretty_N_char_isDigit.
      * rewrite append_String. simpl in Hall |- *.
        apply andb_true_iff in Hall as [-> Hall]. by apply IHd.
    + intros _. by destruct digits.
Qed.

Lemma pretty_nat_digits (n : nat) :
  allDigits (pretty n) = true ∧ pretty n ≠ "".
Proof.
  unfold pretty, pretty_nat, pretty, pretty_N.
  case_decide as Hzero; [done|].
  destruct (pretty_N_go_digits (N.of_nat n) "") as (digits & -> & Hall & Hne).
  assert (digits +:+ "" = digits) as ->.
  { clear. induction digits as [|c digits IHd]; [done|].
    rewrite append_String. congruence. }
  split; [done|]. apply Hne. lia.
Qed.

(** Digits followed by [x]: the digits and what follows are determined. *)
Lemma digits_x_inj (u v s1 s2 : string) :
  allDigits u = true → allDigits v = true →
  u +:+ "x" +:+ s1 = v +:+ "x" +:+ s2 → u = v ∧ s1 = s2.
Proof.
  revert v. induction u as [|c u IH]; intros [|d v] Hu Hv Heq;
    rewrite ?append_String, ?append_nil in Heq; simpl in *.
  - by injection Heq.
  - injection Heq as <- _. by apply andb_true_iff in Hv as [[=] _].
  - injection Heq as -> _. by apply andb_true_iff in Hu as [[=] _].
  - injection Heq as -> Heq.
    apply andb_true_iff in Hu as [_ Hu]. apply andb_true_iff in Hv as [_ Hv].
    destruct (IH v Hu Hv Heq) as [-> ->]. done.
Qed.

Lemma string_app_assoc (a b c : string) : (a +:+ b) +:+ c = a +:+ b +:+ c.
Proof.
  induction a as [|ch a IH]; [done|]. rewrite !append_String. congruence.
Qed.

Lemma startsWithDigit_app (u s : string) :
  allDigits u = true → u ≠ "" → startsWithDigit (u +:+ s) = true.
Proof.
  destruct u as [|c u]; [done|]. rewrite append_String. simpl.
  by intros [-> _]%andb_true_iff.
Qed.

Lemma writeMemrefDesc_inj (m1 m2 : MemRef) :
  (∀ type, startsWithDigit (printType type) = false) →
  writeMemrefDesc printType m1 = writeMemrefDesc printType m2 →
  getRank m1 = getRank m2
  ∧ printType (elementType m1) = printType (elementType m2).
Proof.
  intros Hprint. unfold writeMemrefDesc.
  destruct (pretty_nat_digits (getRank m1)) as [Hd1 Hne1].
  destruct (pretty_nat_digits (getRank m2)) as [Hd2 Hne2].
  repeat case_decide; rewrite ?string_app_assoc, ?append_nil.
  - intros Heq. apply digits_x_inj in Heq as [Hrank Hprinted]; [|done..].
    split; [by apply (inj pretty)|done].
  - intros Heq. pose proof (Hprint (elementType m2)) as Hno.
    rewrite <- Heq, startsWithDigit_app in Hno; done.
  - intros Heq. pose proof (Hprint (elementType m1)) as Hno.
    rewrite Heq, startsWithDigit_app in Hno; done.
  - intros Heq. split; [lia|done].
Qed.

Lemma string_app_inv_l (a b c : string) : a +:+ b = a +:+ c → b = c.
Proof.
  induction a as [|ch a IH]; [done|]. rewrite !append_String.
  intros [= Heq]. auto.
Qed.

(** X3: the names of the thunks tell the rank and the printed element
    type, and the direction: a thunk to a memref never has the name of a
    thunk from a memref, and, for a printer whose output never starts
    with a digit, two memref types with the same thunk name have the
    same rank and element types that print alike. *)
Theorem thunk_names_tell_rank_and_element (m1 m2 : MemRef) :
  (∀ type, startsWithDigit (printType type) = false) →
  genToMemrefConversionFuncName printType m1
  ≠ genFromMemrefConversionFuncName printType m2
  ∧ (genToMemrefConversionFuncName printType m1
     = genToMemrefConversionFuncName printType m2 →
     getRank m1 = getRank m2
     ∧ printType (elementType m1) = printType (elementType m2))
  ∧ (genFromMemrefConversionFuncName printType m1
     = genFromMemrefConversionFuncName printType m2 →
     getRank m1 = getRank m2
     ∧ printType (elementType m1) = printType (elementType m2)).
Proof.
  intros Hprint.
  unfold genToMemrefConversionFuncName, genFromMemrefConversionFuncName.
  split; [discriminate|]. split.
  - intros Heq%string_app_inv_l. by apply writeMemrefDesc_inj.
  - intros Heq%string_app_inv_l. by apply writeMemrefDesc_inj.
Qed.

End ThunkNameProperties.

Section ThunkNameScenarios.
Import FunctionBoundary ThunkNames.

Lemma printExample_no_digit type : startsWithDigit (printExample type) = false.
Proof. by destruct type. Qed.

Lemma thunk_names_tell_rank_and_element_witness :
  startsWithDigit (printExample f64) = false
  ∧ genToMemrefConversionFuncName printExample
      (mkMemRef [2; 3; 4] f64 IdentityLayout 0)
    ≠ genFromMemrefConversionFuncName printExample
        (mkMemRef [2; 3; 4] f64 IdentityLayout 0).
Proof.
  split; [reflexivity|].
  exact (proj1 (thunk_names_tell_rank_and_element printExample
                  (mkMemRef [2; 3; 4] f64 IdentityLayout 0)
                  (mkMemRef [2; 3; 4] f64 IdentityLayout 0)
                  printExample_no_digit)).
Defined.

End ThunkNameScenarios.

Section SignatureProperties.
Import FunctionBoundary Signatures.

Variable convertType : Ty → option Ty.
Variable printType : Ty → string.

Local Abbreviation processArg := (FunctionBoundary.processArg convertType printType).
Local Abbreviation processArgs := (FunctionBoundary.processArgs convertType printType).
Local Abbreviation fixFuncSig := (FunctionBoundary.fixFuncSig convertType printType).
Local Abbreviation getToMemrefConversionFunc := (FunctionBoundary.getToMemrefConversionFunc printType).

Lemma lookupFunc_symName module name func :
  lookupFunc module name = Some func → symName func = name.
Proof.
  unfold lookupFunc, lookupSymbol.
  destruct (find _ module) as [sym|] eqn:Hfind; [|done].
  apply find_some in Hfind as [_ Hname%bool_decide_eq_true].
  destruct (isFuncOp sym); [|done]. by intros [= <-].
Qed.

Lemma getToMemrefConversionFunc_Ok module m src dst func module' :
  getToMemrefConversionFunc module m src dst = Ok (func, module') →
  symName func = genToMemrefConversionFuncName printType m
  ∧ ∃ more, module' = module ++ more.
Proof.
  unfold FunctionBoundary.getToMemrefConversionFunc.
  destruct (lookupFunc module _) as [found|] eqn:Hfound.
  - intros (_ & _ & [= <- <-])%bind_Ok. split.
    + by eapply lookupFunc_symName.
    + exists []. by rewrite app_nil_r.
  - cbn. intros (_ & _ & [= <- <-])%bind_Ok. split; [done|].
    unfold getOrInserLLVMFunc. destruct (lookupSymbol _ _).
    + by eexists.
    + rewrite <- app_assoc. by eexists.
Qed.

Lemma foldl_addArg_rest st flat :
  prologue (foldl addArg st flat) = prologue st
  ∧ module_ (foldl addArg st flat) = module_ st.
Proof.
  revert st. induction flat as [|type flat IH]; intros st; [done|].
  cbn [foldl]. destruct (IH (addArg st type)) as [-> ->]. done.
Qed.

Lemma processArg_prologue st type st' :
  processArg st type = Ok st' →
  ∃ new more,
    prologue st' = prologue st ++ new
    ∧ convertedType <$> new = conversionOf type
    ∧ thunk <$> new
      = genToMemrefConversionFuncName printType <$> conversionOf type
    ∧ module_ st' = module_ st ++ more.
Proof.
  unfold FunctionBoundary.processArg, conversionOf.
  destruct (asMemRef type) as [m|].
  - intros (arrType & _ & Hrun)%bind_Ok.
    apply bind_Ok in Hrun as (dstType & _ & Hrun).
    apply bind_Ok in Hrun as ([convFunc module'] & Hthunk & [= <-]).
    apply getToMemrefConversionFunc_Ok in Hthunk as [Hname [more Hmore]].
    destruct (foldl_addArg_rest st (flattenType arrType)) as [Hp Hm].
    rewrite Hm in Hmore. eexists _, more. cbn. rewrite Hp.
    split; [reflexivity|]. cbn. by rewrite Hname.
  - intros [= <-]. exists [], []. cbn. by rewrite !app_nil_r.
Qed.

Lemma processArgs_prologue st types st' :
  processArgs st types = Ok st' →
  ∃ new more,
    prologue st' = prologue st ++ new
    ∧ convertedType <$> new = types ≫= conversionOf
    ∧ thunk <$> new
      = genToMemrefConversionFuncName printType <$> (types ≫= conversionOf)
    ∧ module_ st' = module_ st ++ more.
Proof.
  revert st. induction types as [|type types IH]; intros st Hrun.
  - injection Hrun as <-. exists [], []. by rewrite !app_nil_r.
  - cbn in Hrun. apply bind_Ok in Hrun as (st1 & H1 & Hrun).
    apply processArg_prologue in H1 as (new1 & more1 & Hp1 & Hc1 & Ht1 & Hm1).
    apply IH in Hrun as (new & more & Hp & Hc & Ht & Hm).
    exists (new1 ++ new), (more1 ++ more).
    rewrite Hp, Hp1, Hm, Hm1, !fmap_app, Hc, Hc1, Ht, Ht1, <- !app_assoc.
    cbn [mbind list_bind]. by rewrite fmap_app.
Qed.

(** X4: [fixFuncSig] makes one conversion for each memref parameter, in
    the order of the parameters, each calling the thunk named after its
    memref type. *)
Theorem fixFuncSig_converts_each_memref_parameter
    (module : ModuleOp) (func func' : FuncOp)
    (prologue : list ArgConversion) (module' : ModuleOp) :
  isPrivate func = false →
  fixFuncSig module func = Ok (func', prologue, module') →
  convertedType <$> prologue = funcInputs func ≫= conversionOf
  ∧ thunk <$> prologue
    = genToMemrefConversionFuncName printType
        <$> (funcInputs func ≫= conversionOf).
Proof.
  unfold FunctionBoundary.fixFuncSig. intros -> Hrun.
  apply bind_Ok in Hrun as (origRetType & _ & Hrun).
  destruct origRetType as [origRetType|]; [|discriminate].
  destruct (convertType origRetType); [|discriminate].
  apply bind_Ok in Hrun as (retPtr & _ & Hrun).
  apply bind_Ok in Hrun as (exceptInfo & _ & Hrun).
  apply bind_Ok in Hrun as (p & _ & Hrun).
  apply bind_Ok in Hrun as (excPtr & _ & Hrun).
  apply bind_Ok in Hrun as (st & Hargs & [= <- <- <-]).
  apply processArgs_prologue in Hargs as (new & more & Hp & Hc & Ht & Hm).
  cbn in Hp. rewrite Hp. eauto.
Qed.

Lemma flattenType_array_scalar (elem : Ty) (size : nat) :
  Forall (λ t, asMemRef t = None) (flattenType elem) →
  Forall (λ t, asMemRef t = None) (flattenType (LLVMArrayType elem size)).
Proof.
  intros Helem. cbn [flattenType]. generalize 0%nat.
  induction size as [|size IH]; intros start; [constructor|].
  cbn. apply Forall_app. split; [exact Helem|apply IH].
Qed.

Lemma getArrayType_leaves m arrType :
  getArrayType convertType m = Ok arrType →
  Forall (λ t, asMemRef t = None) (flattenType arrType).
Proof.
  unfold getArrayType. intros (dataType & _ & Hrun)%bind_Ok.
  case_decide; injection Hrun as <-.
  - change (flattenType (LLVMStructType ?body)) with (body ≫= flattenType).
    cbn [mbind list_bind]. rewrite app_nil_r.
    repeat (apply Forall_app; split);
      try (apply flattenType_array_scalar); by repeat constructor.
  - by repeat constructor.
Qed.

Lemma flattenedParameters_leaves types flat :
  flattenedParameters convertType types = Ok flat →
  Forall (λ t, asMemRef t = None) flat.
Proof.
  revert flat. induction types as [|type types IH]; intros flat.
  - intros [= <-]. constructor.
  - cbn. intros (first & Hfirst & Hrun)%bind_Ok.
    apply bind_Ok in Hrun as (rest & Hrest & [= <-]).
    apply Forall_app. split; [|by apply IH].
    unfold flattenedParameter in Hfirst.
    destruct (asMemRef type) as [m|] eqn:Hm.
    + apply bind_Ok in Hfirst as (arrType & Harr & [= <-]).
      by eapply getArrayType_leaves.
    + injection Hfirst as <-. by constructor.
Qed.

Lemma processArgs_scalars st types :
  Forall (λ t, asMemRef t = None) types →
  processArgs st types
  = Ok (mkSigState (args st ++ types) (index st + length types) (entry st)
                   (prologue st) (module_ st)).
Proof.
  intros Htypes. revert st.
  induction Htypes as [|type types Hm _ IH]; intros st.
  - cbn. rewrite app_nil_r, Nat.add_0_r. by destruct st.
  - cbn. unfold FunctionBoundary.processArg at 1. rewrite Hm. cbn.
    rewrite IH. cbn. rewrite <- app_assoc. do 2 f_equal. lia.
Qed.

(** X5: [fixFuncSig] is not idempotent.  Applied to a function it has
    already fixed, it succeeds again when [i32] has a conversion, makes no
    conversion and adds nothing to the module, and puts two more pointers
    in front of the parameters. *)
Theorem fixFuncSig_twice_adds_pointers_twice
    (module : ModuleOp) (func func' : FuncOp)
    (prologue : list ArgConversion) (module' : ModuleOp) :
  isPrivate func = false →
  fixFuncSig module func = Ok (func', prologue, module') →
  is_Some (convertType (IntegerType 32)) →
  ∃ func'',
    fixFuncSig module' func' = Ok (func'', [], module')
    ∧ funcInputs func''
      = LLVMPointerType :: LLVMPointerType :: funcInputs func'.
Proof.
  intros Hpublic Hrun [i32' Hi32].
  destruct (fixFuncSig_Ok convertType printType _ _ _ _ _ Hpublic Hrun)
    as (flat & Hflat & Hinputs & Hresults & _ & Hpublic' & _).
  apply flattenedParameters_leaves in Hflat.
  unfold FunctionBoundary.fixFuncSig in Hrun |- *.
  rewrite Hpublic in Hrun. rewrite Hpublic', Hresults.
  apply bind_Ok in Hrun as (origRetType & _ & Hrun).
  destruct origRetType as [origRetType|]; [|discriminate].
  destruct (convertType origRetType); [|discriminate].
  apply bind_Ok in Hrun as (retPtr & _ & Hrun).
  apply bind_Ok in Hrun as (exceptInfo & Hinfo & Hrun).
  apply bind_Ok in Hrun as (p & Hp & Hrun).
  apply bind_Ok in Hrun as (excPtr & Hexc & _).
  cbn [getFunctionResType foldr bind asMemRef]. rewrite Hi32.
  unfold ptr at 1. rewrite Hi32. cbn [assertSome bind].
  rewrite Hinfo. cbn [bind]. rewrite Hp. cbn [bind]. rewrite Hexc.
  cbn [bind]. rewrite processArgs_scalars.
  - cbn. eexists. split; [reflexivity|]. cbn.
    by rewrite (ptr_Ok convertType _ _ Hexc).
  - rewrite Hinputs. by repeat constructor.
Qed.

End SignatureProperties.

Section SignatureScenarios.
Import FunctionBoundary Signatures.

Lemma fixFuncSig_converts_each_memref_parameter_witness :
  isPrivate kernel = false
  ∧ ∃ prologue module',
      fixFuncSig convertExample printExample [] kernel
      = Ok (kernelFixed, prologue, module')
      ∧ convertedType <$> prologue = funcInputs kernel ≫= conversionOf
      ∧ thunk <$> prologue = ["__convert_to_memref_1xf64"].
Proof.
  split; [reflexivity|].
  destruct fixFuncSig_kernel as (prologue & module' & Hrun & _).
  destruct (fixFuncSig_converts_each_memref_parameter
              convertExample printExample [] kernel kernelFixed
              prologue module' eq_refl Hrun) as (Hconverted & Hthunk).
  exists prologue, module'.
  split; [exact Hrun|]. split; [exact Hconverted|exact Hthunk].
Defined.

Lemma fixFuncSig_twice_adds_pointers_twice_witness :
  isPrivate kernel = false
  ∧ is_Some (convertExample (IntegerType 32))
  ∧ ∃ prologue module' func'',
      fixFuncSig convertExample printExample [] kernel
      = Ok (kernelFixed, prologue, module')
      ∧ fixFuncSig convertExample printExample module' kernelFixed
        = Ok (func'', [], module')
      ∧ length (funcInputs func'') = 12%nat.
Proof.
  split; [reflexivity|]. split; [by eexists|].
  destruct fixFuncSig_kernel as (prologue & module' & Hrun & _).
  destruct (fixFuncSig_twice_adds_pointers_twice
              convertExample printExample [] kernel kernelFixed
              prologue module' eq_refl Hrun (ex_intro _ _ eq_refl))
    as (func'' & Hagain & Hinputs).
  exists prologue, module', func''.
  split; [exact Hrun|]. split; [exact Hagain|].
  rewrite Hinputs. reflexivity.
Defined.

End SignatureScenarios.

Section FastmathProperties.
Import ApplyFastmathFlags.

Variable fast : Z.
Variable bitEnumContainsAny : Z → Z → bool.
Hypothesis fast_bits : 0 < fast.
Hypothesis bitEnumContainsAny_land :
  ∀ bits bit, bitEnumContainsAny bits bit = true ↔ Z.land bits bit ≠ 0.

Local Abbreviation matchAndRewrite :=
  (ApplyFastmathFlags.matchAndRewrite fast bitEnumContainsAny).

(** X6: the pattern fires exactly on an operation that has none of the
    bits of [fast], in a function with the fast-math attribute; it then
    sets all of them, and does not fire on its own result.  An operation
    that has some of the bits keeps its flags. *)
Theorem fastmath_flags_applied_once (op : Op) :
  match matchAndRewrite op with
  | (success, op') =>
      is_Some (parentAttrs op !! getFastmathName)
      ∧ Z.land (fastmathFlags op) fast = 0
      ∧ op' = mkOp (Z.lor (fastmathFlags op) fast) (parentAttrs op)
      ∧ matchAndRewrite op' = (failure, op')
  | (failure, op') =>
      op' = op
      ∧ (is_Some (parentAttrs op !! getFastmathName) →
         Z.land (fastmathFlags op) fast ≠ 0)
  end.
Proof.
  assert (∀ fmf, Z.land (Z.lor fmf fast) fast ≠ 0) as Hset.
  { intros fmf. rewrite Z.land_lor_distr_l, Z.land_diag.
    intros Hzero. apply Z.lor_eq_0_iff in Hzero as [_ ->]. lia. }
  unfold ApplyFastmathFlags.matchAndRewrite, getFastmathFlags.
  case_bool_decide as Hattr; cbn [foldl].
  - destruct (bitEnumContainsAny (fastmathFlags op) fast) eqn:Hany; cbn.
    + split; [done|]. intros _. by apply bitEnumContainsAny_land.
    + assert (Z.land (fastmathFlags op) fast = 0) as Hnone.
      { destruct (decide (Z.land (fastmathFlags op) fast = 0)) as [?|Hne];
          [done|]. apply bitEnumContainsAny_land in Hne. congruence. }
      split; [done|]. split; [done|]. split; [done|].
      rewrite bool_decide_eq_true_2 by done. cbn.
      by rewrite (proj2 (bitEnumContainsAny_land _ _) (Hset _)).
  - cbn. split; [done|]. by intros ?.
Qed.

End FastmathProperties.

Section FastmathScenarios.
Import ApplyFastmathFlags.

(** [fast] is the set of the seven flags; [bitEnumContainsAny] tests
    the intersection. *)
Lemma fastmath_flags_applied_once_witness :
  matchAndRewrite 127 (λ bits bit, negb (Z.land bits bit =? 0))
    (mkOp 0 {[getFastmathName := UnitAttr]})
  = (success, mkOp 127 {[getFastmathName := UnitAttr]}).
Proof.
  pose proof (fastmath_flags_applied_once 127
                (λ bits bit, negb (Z.land bits bit =? 0))
                ltac:(lia)
                ltac:(intros bits bit; rewrite negb_true_iff, Z.eqb_neq; done)
                (mkOp 0 {[getFastmathName := UnitAttr]})) as Hrun.
  destruct (matchAndRewrite _ _ _) as [[] op'].
  - destruct Hrun as (_ & _ & -> & _). reflexivity.
  - destruct Hrun as [_ Hne]. exfalso. apply Hne; [|reflexivity].
    exists UnitAttr. reflexivity.
Defined.

End FastmathScenarios.

Section OutlinedNameProperties.
Import FunctionBoundary OutlinedNames.
#[local] Open Scope nat_scope.

(** Among more candidates than there are names, one is not a name. *)
Lemma fresh_candidate (candidate : nat → string) (names : list string)
    (start : nat) :
  Inj (=) (=) candidate →
  ∃ k, start ≤ k < start + S (length names) ∧ candidate k ∉ names.
Proof.
  intros Hinj.
  destruct (decide (Exists (λ k, candidate k ∉ names)
                           (seq start (S (length names))))) as [Hex|Hall].
  - apply Exists_exists in Hex as (k & Hk & Hfresh).
    apply elem_of_seq in Hk. by exists k.
  - exfalso. apply not_Exists_Forall in Hall; [|intros k; apply _].
    assert (candidate <$> seq start (S (length names)) ⊆+ names) as Hsub.
    { apply NoDup_submseteq.
      - apply (NoDup_fmap_2 candidate), NoDup_seq.
      - intros name (k & -> & Hk)%list_elem_of_fmap.
        rewrite Forall_forall in Hall. specialize (Hall k Hk). cbn in Hall.
        by destruct (decide (candidate k ∈ names)). }
    apply submseteq_length in Hsub.
    rewrite length_fmap, length_seq in Hsub. lia.
Qed.

Lemma append_cancel (a b c : string) : a +:+ b = a +:+ c → b = c.
Proof.
  induction a as [|ch a IH]; [done|].
  change (String ch a +:+ ?s) with (String ch (a +:+ s)).
  intros [= Heq]. auto.
Qed.

Lemma outlinedName_inj oldName : Inj (=) (=) (outlinedName oldName).
Proof.
  intros i j. unfold outlinedName. repeat case_decide; subst.
  - done.
  - intros Heq%append_cancel. discriminate.
  - intros Heq%append_cancel. discriminate.
  - intros Heq%append_cancel.
    apply (append_cancel "_outlined_") in Heq. by apply (inj pretty) in Heq.
Qed.

Lemma lookupFunc_elem mod_ name func :
  lookupFunc mod_ name = Some func → name ∈ symName <$> mod_.
Proof.
  unfold lookupFunc, lookupSymbol.
  destruct (find _ mod_) as [sym|] eqn:Hfind; [|done].
  apply find_some in Hfind as [Hin Hname%bool_decide_eq_true]. intros _.
  apply list_elem_of_fmap. exists sym. split; [done|].
  by apply list_elem_of_In.
Qed.

Lemma funcNameFrom_first fuel mod_ oldName i k :
  i ≤ k < i + fuel → lookupFunc mod_ (outlinedName oldName k) = None →
  ∃ first,
    i ≤ first ≤ k
    ∧ funcNameFrom fuel mod_ oldName i = Some (outlinedName oldName first)
    ∧ lookupFunc mod_ (outlinedName oldName first) = None
    ∧ ∀ j, i ≤ j < first →
           is_Some (lookupFunc mod_ (outlinedName oldName j)).
Proof.
  revert i. induction fuel as [|fuel IH]; intros i Hk Hfree; [lia|].
  cbn [funcNameFrom].
  destruct (lookupFunc mod_ (outlinedName oldName i)) as [func|] eqn:Hi.
  - assert (k ≠ i) by congruence.
    destruct (IH (S i)) as (first & Hfirst & Hrun & Hnone & Htaken);
      [lia|done|].
    exists first. split; [lia|]. split; [done|]. split; [done|].
    intros j Hj. destruct (decide (j = i)) as [->|]; [by rewrite Hi|].
    apply Htaken. lia.
  - exists i. split; [lia|]. split; [done|]. split; [done|]. intros j ?. lia.
Qed.

(** X7: the loop that names an outlined function ends; the name it gives
    is the first of [f_outlined], [f_outlined_1], [f_outlined_2], ... that
    is not the name of a [func.func] of the module, so it is never the
    name of a function outlined before. *)
Theorem outlined_name_is_first_free (mod_ : ModuleOp) (oldName : string) :
  ∃ first,
    funcName mod_ oldName = Some (outlinedName oldName first)
    ∧ lookupFunc mod_ (outlinedName oldName first) = None
    ∧ (∀ j, j < first → is_Some (lookupFunc mod_ (outlinedName oldName j)))
    ∧ first ≤ length mod_.
Proof.
  destruct (fresh_candidate (outlinedName oldName) (symName <$> mod_) 0
              (outlinedName_inj oldName)) as (k & Hk & Hfresh).
  rewrite length_fmap in Hk.
  assert (lookupFunc mod_ (outlinedName oldName k) = None) as Hfree.
  { destruct (lookupFunc mod_ _) as [func|] eqn:Hfound; [|done].
    by apply lookupFunc_elem in Hfound. }
  destruct (funcNameFrom_first (S (length mod_)) mod_ oldName 0 k)
    as (first & Hfirst & Hrun & Hnone & Htaken); [lia|done|].
  exists first. split; [done|]. split; [done|]. split; [|lia].
  intros j Hj. apply Htaken. lia.
Qed.

End OutlinedNameProperties.

Section LifecycleProperties.
Import ExecutionEngine EngineLifecycle.
#[local] Open Scope nat_scope.

Variable world : World.

Lemma keeps_bind {A B} (m : M A) (f : A → M B) (b : option B) :
  keeps None m → (∀ a, keeps b (f a)) → keeps b (bind m f).
Proof.
  intros Hm Hf engine. unfold bind. destruct (Hm engine) as (Hc & Hd & _).
  destruct (m engine) as [[a| | | |] engine1]; cbn in Hc, Hd |- *;
    try (split; [done|]; split; [done|]; discriminate).
  destruct (Hf a engine1) as (-> & -> & Hret). done.
Qed.

Lemma keeps_ret {A} (a : A) : keeps (Some a) (ret a).
Proof.
  intros engine. split; [done|]. split; [done|].
  by intros a' b [= <-] [= <-].
Qed.

Lemma keeps_cantFail result : keeps None (cantFail result).
Proof. intros engine. by destruct result. Qed.

Lemma keeps_weaken {A} (a : option A) (m : M A) : keeps a m → keeps None m.
Proof.
  intros Hm engine. destruct (Hm engine) as (? & ? & _). done.
Qed.

Lemma keeps_addFunctions dlHandle fns notFound symMap :
  keeps None (addFunctions world dlHandle fns notFound symMap).
Proof.
  revert symMap. induction fns as [|fn fns IH]; intros symMap engine;
    [done|].
  cbn. destruct (dlsym world dlHandle fn); [apply IH|done].
Qed.

Lemma keeps_addLibraries symMap libs :
  keeps None (addLibraries world symMap libs).
Proof.
  revert symMap. induction libs as [|library libs IH]; intros symMap.
  { apply (keeps_weaken (Some symMap)), keeps_ret. }
  cbn [addLibraries]. apply keeps_bind; [|intros ?; apply IH].
  unfold addLibrary. destruct (dlopen world (path library)).
  - apply keeps_addFunctions.
  - apply keeps_bind; [by intros engine|].
    intros ?. apply (keeps_weaken (Some symMap)), keeps_ret.
Qed.

Lemma keeps_writeErrs message : keeps None (writeErrs message).
Proof. by intros engine. Qed.

Lemma keeps_stop {A} (outcome : Outcome A) :
  (∀ a, outcome ≠ Returned a) → keeps None (stop outcome).
Proof. by intros Hstopped engine. Qed.

Lemma keeps_runOptimizationPasses llvmModule :
  keeps None (runOptimizationPasses world llvmModule).
Proof.
  unfold runOptimizationPasses.
  apply keeps_bind; [apply keeps_writeErrs|intros _].
  repeat match goal with
         | |- keeps None (match ?x with _ => _ end) => destruct x
         end;
    first [by apply keeps_stop
          |apply (keeps_weaken (Some tt)), keeps_ret].
Qed.

Lemma keeps_CustomCompiler llvmModule :
  keeps None (CustomCompiler world llvmModule).
Proof.
  unfold CustomCompiler.
  destruct (transformed world llvmModule) as [err|].
  { apply (keeps_weaken (Some (Some err))), keeps_ret. }
  apply keeps_bind; [apply keeps_runOptimizationPasses|intros _].
  destruct (asmPrinter (compiler world) && _);
    eapply keeps_weaken, keeps_ret.
Qed.

Lemma keeps_materialized {A} pending (failed : Error → A) answer :
  keeps None (materialized world pending failed answer).
Proof.
  destruct pending as [llvmModule|];
    [|apply (keeps_weaken (Some answer)), keeps_ret].
  apply keeps_bind; [apply keeps_CustomCompiler|].
  intros [err|]; eapply keeps_weaken, keeps_ret.
Qed.

Lemma keeps_jitInitialize dylib tsm :
  keeps None (bind (jitInitialize world dylib tsm) cantFail).
Proof.
  apply keeps_bind; [apply keeps_materialized|apply keeps_cantFail].
Qed.

Lemma keeps_lookup handle name : keeps None (lookup world handle name).
Proof.
  apply keeps_bind; [apply keeps_materialized|].
  intros [e|fptr]; [by apply keeps_stop|].
  case_decide; [by apply keeps_stop|].
  apply (keeps_weaken (Some fptr)), keeps_ret.
Qed.

Lemma createDylib_named fuel engine :
  namedByCounter engine →
  namedByCounter (createDylib world (S fuel) engine).2
  ∧ uniqueNameCounter (createDylib world (S fuel) engine).2
    = S (uniqueNameCounter engine)
  ∧ match (createDylib world (S fuel) engine).1 with
    | Returned dylib =>
        dylib = uniqueNameAt (uniqueNameCounter engine)
        ∧ (dylib ∉ dylibs engine)
        ∧ dylibs (createDylib world (S fuel) engine).2
          = dylibs engine ++ [dylib]
    | ErrorValue _ =>
        dylibs (createDylib world (S fuel) engine).2 = dylibs engine
    | _ => False
    end.
Proof.
  intros Hnamed. cbn [createDylib].
  assert (uniqueNameAt (uniqueNameCounter engine) ∉ dylibs engine) as Hfree.
  { intros Hin. apply Hnamed in Hin. lia. }
  rewrite bool_decide_eq_false_2 by done.
  destruct (createJITDylib world _); cbn.
  - split; [|done]. intros k Hk. apply Hnamed in Hk. cbn. lia.
  - split; [|done]. intros k [Hk|Hk%list_elem_of_singleton]%elem_of_app; cbn.
    + apply Hnamed in Hk. lia.
    + apply uniqueNameAt_inj in Hk as ->. lia.
Qed.

Lemma bind_pair {A B} (m : M A) (f : A → M B) engine
    (P : Outcome B * Engine → Prop) :
  match m engine with
  | (Returned a, engine1) => P (f a engine1)
  | (ErrorValue e, engine1) => P (ErrorValue e, engine1)
  | (Aborted reason, engine1) => P (Aborted reason, engine1)
  | (NullDereference, engine1) => P (NullDereference, engine1)
  | (OutOfFuel, engine1) => P (OutOfFuel, engine1)
  end →
  P (bind m f engine).
Proof. unfold bind. by destruct (m engine) as [[]]. Qed.

Lemma loadModule_advanced (m : FunctionBoundary.ModuleOp) (engine : Engine) :
  namedByCounter engine → advanced engine (loadModule world m engine).
Proof.
  intros Hnamed. unfold loadModule.
  assert (∀ (outcome : Outcome ModuleHandle) engine',
            namedByCounter engine' →
            uniqueNameCounter engine ≤ uniqueNameCounter engine' →
            (∀ dylib, outcome ≠ Returned dylib) →
            advanced engine (outcome, engine')) as Hstopped.
  { intros outcome engine' Hn Hle Hcast. split; [done|].
    split; [done|]. intros dylib Hreturned. by destruct (Hcast dylib). }
  apply bind_pair.
  destruct (translateModuleToLLVMIR world m) as [llvmModule|]; cbn [setOptions];
    [|by apply Hstopped].
  cbn [ret]. set (tsm := mkModule _ _ _ _ _).
  apply bind_pair.
  assert (keeps None (if hasTransformer engine
                      then cantFail (transformer world tsm) else ret tt))
    as Htransformer.
  { destruct (hasTransformer engine); [apply keeps_cantFail|].
    apply (keeps_weaken (Some tt)), keeps_ret. }
  destruct (Htransformer engine) as (Hc & Hd & _).
  destruct ((if hasTransformer engine
             then cantFail (transformer world tsm) else ret tt) engine)
    as [[[]| | | |] engine0]; cbn in Hc, Hd;
    try (apply Hstopped;
         [intros k; rewrite Hc, Hd; apply Hnamed|lia|done]).
  assert (namedByCounter engine0) as Hnamed0.
  { intros k. rewrite Hc, Hd. apply Hnamed. }
  apply bind_pair.
  destruct (createDylib_named (length (dylibs engine)) engine0 Hnamed0)
    as (Hnamed1 & Hc1 & Hcreated).
  destruct (createDylib world (S (length (dylibs engine))) engine0)
    as [[dylib|e| | |] engine1]; cbn in Hnamed1, Hc1, Hcreated; try done.
  - destruct Hcreated as (Hdylib & Hfresh & Hd1).
    match goal with
    | |- advanced engine (?rest engine1) =>
        assert (keeps (Some dylib) rest) as Hrest
    end.
    { repeat (apply keeps_bind;
              [first [apply keeps_cantFail | apply keeps_addLibraries
                     | apply keeps_jitInitialize
                     | destruct (hasSymbolMap engine);
                       [apply keeps_cantFail
                       |apply (keeps_weaken (Some tt)), keeps_ret]]
              |intros ?]).
      apply keeps_ret. }
    destruct (Hrest engine1) as (Hc2 & Hd2 & Hret).
    split; [intros k; rewrite Hc2, Hd2; apply Hnamed1|].
    split; [rewrite Hc2, Hc1, Hc; lia|].
    intros dylib' Hreturned. rewrite (Hret dylib dylib' eq_refl Hreturned).
    rewrite Hd2, Hd1, Hc2, Hc1, Hdylib, Hc, <- Hd.
    rewrite Hdylib, Hc in Hfresh. done.
  - apply Hstopped; [done|lia|done].
Qed.


(** X8: in an engine whose libraries named [module<k>] were all named by
    its counter, [loadModule] never finds its candidate taken: a handle
    it returns is the name at the counter, which was not a library yet
    and is the one library added; the counter moves on and the engine
    stays such an engine, whatever [loadModule] ends with. *)
Theorem loadModule_names_by_counter
    (m : FunctionBoundary.ModuleOp) (engine : Engine)
    (outcome : Outcome ModuleHandle) (engine' : Engine) :
  namedByCounter engine →
  loadModule world m engine = (outcome, engine') →
  namedByCounter engine'
  ∧ uniqueNameCounter engine ≤ uniqueNameCounter engine'
  ∧ ∀ dylib,
      outcome = Returned dylib →
      dylib = uniqueNameAt (uniqueNameCounter engine)
      ∧ (dylib ∉ dylibs engine)
      ∧ dylibs engine' = dylibs engine ++ [dylib]
      ∧ uniqueNameCounter engine' = S (uniqueNameCounter engine).
Proof.
  intros Hnamed Hrun.
  pose proof (loadModule_advanced m engine Hnamed) as Hadvanced.
  rewrite Hrun in Hadvanced. exact Hadvanced.
Qed.

Variable releaseWorld : ReleaseWorld.

Lemma releaseModule_Returned handle engine engine' :
  releaseModule releaseWorld handle engine = (Returned tt, engine') →
  engine' = (forget handle engine).2.
Proof.
  unfold releaseModule, bind.
  destruct (deinitialize releaseWorld handle); [discriminate|]. cbn.
  destruct (removeJITDylib releaseWorld handle); [discriminate|]. cbn.
  by intros [= <-].
Qed.

Lemma forget_last handle engine names :
  handle ∉ names → dylibs engine = names ++ [handle] →
  dylibs (forget handle engine).2 = names.
Proof.
  intros Hfresh Hd. cbn. rewrite Hd. clear Hd.
  induction names as [|name names IH]; cbn.
  - by rewrite bool_decide_eq_true_2.
  - apply not_elem_of_cons in Hfresh as [Hne Hnot].
    rewrite bool_decide_eq_false_2 by done. cbn. by rewrite IH.
Qed.

(** X9: releasing the module that was loaded last gives back the
    libraries the engine had before, but not the counter: the library of
    the next module that is loaded gets another name. *)
Theorem released_handle_is_not_reused
    (m1 m2 : FunctionBoundary.ModuleOp) (engine engine1 engine2 : Engine)
    (handle1 : ModuleHandle) :
  namedByCounter engine →
  loadModule world m1 engine = (Returned handle1, engine1) →
  releaseModule releaseWorld handle1 engine1 = (Returned tt, engine2) →
  dylibs engine2 = dylibs engine
  ∧ uniqueNameCounter engine2 = S (uniqueNameCounter engine)
  ∧ ∀ handle2 engine3,
      loadModule world m2 engine2 = (Returned handle2, engine3) →
      handle2 ≠ handle1.
Proof.
  intros Hnamed Hload Hrelease.
  pose proof (loadModule_advanced m1 engine Hnamed) as (Hnamed1 & _ & Hone).
  rewrite Hload in Hnamed1, Hone. cbn in Hnamed1, Hone.
  destruct (Hone handle1 eq_refl) as (Hname & Hfresh & Hd1 & Hc1).
  apply releaseModule_Returned in Hrelease.
  assert (uniqueNameCounter engine2 = uniqueNameCounter engine1) as Hc2
    by (by rewrite Hrelease).
  assert (dylibs engine2 = dylibs engine) as Hd.
  { rewrite Hrelease. by apply forget_last. }
  split; [exact Hd|]. split; [congruence|].
  intros handle2 engine3 Hload2.
  assert (namedByCounter engine2) as Hnamed2.
  { intros k Hk. rewrite Hd in Hk. apply Hnamed in Hk. lia. }
  pose proof (loadModule_advanced m2 engine2 Hnamed2) as (_ & _ & Htwo).
  rewrite Hload2 in Htwo. destruct (Htwo handle2 eq_refl) as (-> & _).
  rewrite Hname, Hc2, Hc1. intros Heq%uniqueNameAt_inj. lia.
Qed.

End LifecycleProperties.

Section LifecycleScenarios.
Import ExecutionEngine EngineLifecycle.

Lemma namedByCounter_newEngine : namedByCounter newEngine.
Proof. intros k Hk. by apply elem_of_nil in Hk. Qed.

Lemma loadModule_names_by_counter_witness :
  namedByCounter newEngine
  ∧ (uniqueNameCounter newEngine
     ≤ uniqueNameCounter (mkEngine 1 ["module0"] false false []))%nat
  ∧ "module0" = uniqueNameAt 0.
Proof.
  split; [exact namedByCounter_newEngine|].
  destruct (loadModule_names_by_counter sound [] newEngine _ _
              namedByCounter_newEngine eq_refl) as (_ & Hle & Hone).
  split; [exact Hle|]. exact (proj1 (Hone "module0" eq_refl)).
Defined.

Lemma released_handle_is_not_reused_witness :
  namedByCounter newEngine
  ∧ dylibs (mkEngine 1 [] false false []) = dylibs newEngine
  ∧ uniqueNameCounter (mkEngine 1 [] false false []) = 1%nat.
Proof.
  split; [exact namedByCounter_newEngine|].
  destruct (released_handle_is_not_reused sound
              (mkReleaseWorld (λ _, None) (λ _, None))
              [] [] newEngine
              (mkEngine 1 ["module0"] false false [])
              (mkEngine 1 [] false false [])
              "module0" namedByCounter_newEngine eq_refl eq_refl)
    as (Hd & Hc & _).
  split; [exact Hd|exact Hc].
Defined.

End LifecycleScenarios.

(** ** The execution engine: what its calls end with *)

Section EngineReports.
Import ExecutionEngine EngineLifecycle.

Variable world : World.

Lemma reported_answered handle name : reported (answered world handle name).
Proof.
  unfold answered. destruct (jitLookup world handle name) as [e|fptr]; [done|].
  by case_decide.
Qed.

Lemma answered_not_null handle name fptr :
  answered world handle name = Returned fptr → fptr ≠ 0%N.
Proof.
  unfold answered. destruct (jitLookup world handle name) as [e|fptr'];
    [done|].
  case_decide; [done|]. by intros [= <-].
Qed.

(** [lookup] on what [jit->lookup] gives. *)
Lemma lookup_finish handle name engine :
  match (jitLookupSymbol world handle name engine).1 with
  | Returned (inl e) =>
      (lookup world handle name engine).1
      = ErrorValue (makeStringError (log e))
  | Returned (inr fptr) =>
      (lookup world handle name engine).1
      = if decide (fptr = 0%N)
        then ErrorValue (makeStringError "looked up function is null")
        else Returned fptr
  | ErrorValue e => (lookup world handle name engine).1 = ErrorValue e
  | Aborted reason => (lookup world handle name engine).1 = Aborted reason
  | NullDereference => (lookup world handle name engine).1 = NullDereference
  | OutOfFuel => (lookup world handle name engine).1 = OutOfFuel
  end.
Proof.
  unfold lookup, bind.
  destruct (jitLookupSymbol world handle name engine)
    as [[[e|fptr]|e|reason| |] engine1]; try done.
  cbn. by case_decide.
Qed.

Lemma lookup_compiled handle name engine :
  materializes world handle name = None →
  lookup world handle name engine = (answered world handle name, engine).
Proof.
  intros Hnone. unfold lookup, bind, jitLookupSymbol, answered.
  rewrite Hnone. cbn.
  destruct (jitLookup world handle name) as [e|fptr]; [done|].
  by case_decide.
Qed.

Lemma lookup_compiles handle name engine llvmModule :
  materializes world handle name = Some llvmModule →
  match (CustomCompiler world llvmModule engine).1 with
  | Returned None =>
      (lookup world handle name engine).1 = answered world handle name
  | Returned (Some err) =>
      (lookup world handle name engine).1
      = ErrorValue (makeStringError (log (failedToMaterialize world err)))
  | outcome =>
      match (lookup world handle name engine).1 with
      | Returned _ => False
      | stopped =>
          match outcome, stopped with
          | ErrorValue e, ErrorValue e' => e = e'
          | Aborted reason, Aborted reason' => reason = reason'
          | NullDereference, NullDereference => True
          | OutOfFuel, OutOfFuel => True
          | _, _ => False
          end
      end
  end.
Proof.
  intros Hsome.
  pose proof (lookup_finish handle name engine) as Hfinish.
  pose proof (materialized_outcome world (Some llvmModule) inl
                (jitLookup world handle name) engine) as Hcall.
  unfold jitLookupSymbol in Hfinish. rewrite Hsome in Hfinish.
  cbn match in Hcall.
  destruct (CustomCompiler world llvmModule engine).1
    as [[err|]|e|reason| |]; rewrite Hcall in Hfinish;
    try (by rewrite Hfinish).
  unfold answered. by destruct (jitLookup world handle name).
Qed.

Lemma lookup_explained handle name engine :
  lookupExplained world handle name (lookup world handle name engine).1.
Proof.
  unfold lookupExplained.
  destruct (materializes world handle name) as [llvmModule|] eqn:Hpending;
    [|by rewrite lookup_compiled].
  pose proof (lookup_compiles handle name engine llvmModule Hpending)
    as Hlookup.
  pose proof (CustomCompiler_explained world llvmModule engine) as Hwhy.
  destruct (CustomCompiler world llvmModule engine).1
    as [[err|]|e|reason| |].
  - rewrite Hlookup. right. by exists err.
  - rewrite Hlookup. pose proof (reported_answered handle name) as Hr.
    destruct (answered world handle name) as [fptr|e|reason| |] eqn:Hanswer;
      try done.
    by left.
  - done.
  - destruct (lookup world handle name engine).1; cbn in Hlookup; try done.
    by subst.
  - by destruct (lookup world handle name engine).1.
  - done.
Qed.

(** C9, amended.  [lookup] leaves the counter and the libraries of the
    engine, and a pointer it returns is not null.  When the JIT has
    nothing to compile for the symbol, [lookup] ends with the pointer or
    with a string error, made of what the error of the JIT logs or
    saying that the function looked up is null.  When the JIT has to
    compile a module and the late transformer returns an error for it,
    [lookup] ends with the error of the JIT for that error; when it
    returns none, the compile function of the engine reads
    NM_TAPIRTARGET: if the
    variable is not set, [lookup] ends in a read through the null
    pointer; if the passes run through, [lookup] ends with an error that
    logs the error of the JIT for the error the compile function returned,
    or as when nothing is compiled; what [lookup] ends with always has
    its reason among these.  [loadModule] ends with an error value
    exactly for an error of [createJITDylib], which it returns; an error
    of the transformer, of the search generator, of a definition of
    symbols, of [addIRModule] or of [initialize] goes to [cantFail], and
    a runtime library that opens without one of its functions to
    [report_fatal_error], which end the process, as does the compile
    function for the static initializers of the module; when none of
    these fails, [loadModule] returns the handle. *)
Theorem engine_reports_errors_or_terminates
    (engine : Engine) (m : FunctionBoundary.ModuleOp)
    (handle : ModuleHandle) (name : string) :
  let result := lookup world handle name engine in
  uniqueNameCounter result.2 = uniqueNameCounter engine
  ∧ dylibs result.2 = dylibs engine
  ∧ (∀ fptr, result.1 = Returned fptr → fptr ≠ 0%N)
  ∧ lookupExplained world handle name result.1
  ∧ (materializes world handle name = None →
     result = (answered world handle name, engine) ∧ reported result.1)
  ∧ (∀ llvmModule err,
       materializes world handle name = Some llvmModule →
       transformed world llvmModule = Some err →
       result
       = (ErrorValue (makeStringError (log (failedToMaterialize world err))),
          engine))
  ∧ (∀ llvmModule,
       materializes world handle name = Some llvmModule →
       transformed world llvmModule = None →
       (getenv (compiler world) "NM_TAPIRTARGET" = None →
        result.1 = NullDereference)
       ∧ (passesRun world llvmModule →
          reported result.1
          ∧ result.1
            = match emitted world llvmModule with
              | Some err =>
                  ErrorValue
                    (makeStringError (log (failedToMaterialize world err)))
              | None => answered world handle name
              end))
  ∧ explained world engine m (loadModule world m engine).1
  ∧ (∀ e,
       is_Some (translateModuleToLLVMIR world m) →
       (hasTransformer engine = true → ∀ tsm, transformer world tsm = None) →
       (∀ uniqueName, createJITDylib world uniqueName = Some e) →
       (loadModule world m engine).1 = ErrorValue e)
  ∧ (is_Some (translateModuleToLLVMIR world m) → nothingFails world →
     ∃ dylib, (loadModule world m engine).1 = Returned dylib).
Proof.
  intros result.
  destruct (keeps_lookup world handle name engine) as (Hcounter & Hdylibs & _).
  split; [exact Hcounter|]. split; [exact Hdylibs|].
  pose proof (lookup_explained handle name engine) as Hwhy.
  fold result in Hwhy.
  split; [|split; [exact Hwhy|split; [|split; [|split]]]].
  - intros fptr Hreturned. rewrite Hreturned in Hwhy.
    unfold lookupExplained in Hwhy.
    destruct (materializes world handle name) as [llvmModule|].
    + destruct Hwhy as [_ Hanswer]. by eapply answered_not_null.
    + by eapply answered_not_null.
  - intros Hnone. unfold result. rewrite lookup_compiled by done.
    split; [done|apply reported_answered].
  - intros llvmModule err Hpending Ht. unfold result.
    unfold lookup, bind, jitLookupSymbol, materialized. rewrite Hpending.
    unfold bind. by rewrite (CustomCompiler_transformed world _ _ _ Ht).
  - intros llvmModule Hpending Ht. split.
    + intros Henv.
      pose proof (lookup_compiles handle name engine llvmModule Hpending)
        as Hlookup.
      rewrite (CustomCompiler_unset world llvmModule engine Ht Henv)
        in Hlookup.
      unfold result. by destruct (lookup world handle name engine).1.
    + intros Hpasses.
      pose proof (lookup_compiles handle name engine llvmModule Hpending)
        as Hlookup.
      rewrite (CustomCompiler_runs world llvmModule engine Ht Hpasses)
        in Hlookup.
      unfold result.
      destruct (emitted world llvmModule) as [err|]; rewrite Hlookup;
        [done|]. split; [apply reported_answered|done].
  - split; [apply loadModule_explained|].
    split; [intros e; apply loadModule_ErrorValue|apply loadModule_Returned].
Qed.

End EngineReports.

Section EngineReportsScenarios.
Import ExecutionEngine.

Lemma passesRun_sound llvmModule : passesRun sound llvmModule.
Proof.
  split; [by eexists|]. split; [by eexists|]. split; [|done].
  cbn. by repeat constructor.
Qed.

Lemma nothingFails_sound : nothingFails sound.
Proof.
  repeat (split; [done|]). split; [|done].
  intros library _ (dlHandle & fn & _ & _ & [=]).
Qed.

(** In the first world a lookup compiles the module and returns the
    address; without NM_TAPIRTARGET it reads through the null pointer
    that [getenv] returns. *)
Lemma lookup_sound :
  (lookup sound "module0" "main" newEngine).1 = Returned 4096%N.
Proof. vm_compute. reflexivity. Qed.

Lemma lookup_withoutTarget :
  (lookup withoutTarget "module0" "main" newEngine).1 = NullDereference.
Proof. vm_compute. reflexivity. Qed.

Lemma engine_reports_errors_or_terminates_witness :
  is_Some (translateModuleToLLVMIR sound []) ∧ nothingFails sound
  ∧ (∃ dylib, (loadModule sound [] newEngine).1 = Returned dylib)
  ∧ passesRun sound (translated [])
  ∧ (lookup sound "module0" "main" newEngine).1 = Returned 4096%N.
Proof.
  assert (is_Some (translateModuleToLLVMIR sound [])) as Hsome by (cbn; eauto).
  split; [exact Hsome|]. split; [exact nothingFails_sound|].
  destruct (engine_reports_errors_or_terminates sound newEngine []
              "module0" "main")
    as (_ & _ & _ & _ & _ & _ & Hlookup & _ & _ & Hreturned).
  split; [exact (Hreturned Hsome nothingFails_sound)|].
  split; [exact (passesRun_sound (translated []))|].
  destruct (Hlookup (translated []) eq_refl eq_refl) as [_ Hruns].
  exact (proj2 (Hruns (passesRun_sound (translated [])))).
Defined.

End EngineReportsScenarios.

Section SetupModuleProperties.
Import SetupModule.

Lemma setupFunction_cpu TM func :
  is_Some (setupFunction TM func !! "target-cpu").
Proof.
  unfold setupFunction.
  assert (is_Some ((if bool_decide (is_Some (func !! "target-cpu")) then func
                    else <["target-cpu" := getTargetCPU TM]> func)
                   !! "target-cpu")) as Hcpu.
  { case_bool_decide; [done|]. rewrite lookup_insert_eq. eauto. }
  revert Hcpu. generalize (if bool_decide (is_Some (func !! "target-cpu"))
                           then func
                           else <["target-cpu" := getTargetCPU TM]> func).
  intros func1 Hcpu. do 2 (case_bool_decide; [done|]).
  by rewrite lookup_insert_ne.
Qed.

Lemma setupFunction_keeps TM func name value :
  func !! name = Some value → setupFunction TM func !! name = Some value.
Proof.
  intros Hname. unfold setupFunction.
  assert ((if bool_decide (is_Some (func !! "target-cpu")) then func
           else <["target-cpu" := getTargetCPU TM]> func) !! name
          = Some value) as Hfirst.
  { case_bool_decide as Hcpu; [done|].
    rewrite lookup_insert_ne; [done|]. intros <-. apply Hcpu. eauto. }
  revert Hfirst. generalize (if bool_decide (is_Some (func !! "target-cpu"))
                             then func
                             else <["target-cpu" := getTargetCPU TM]> func).
  intros func1 Hfirst. case_bool_decide as Hfeat; [done|].
  case_bool_decide; [done|].
  rewrite lookup_insert_ne; [done|]. intros <-. apply Hfeat. eauto.
Qed.

Lemma setupFunction_again TM1 TM2 func :
  getTargetFeatureString TM1 ≠ "" ∨ getTargetFeatureString TM2 = "" →
  setupFunction TM2 (setupFunction TM1 func) = setupFunction TM1 func.
Proof.
  intros Hfeatures.
  pose proof (setupFunction_cpu TM1 func) as Hcpu.
  unfold setupFunction at 1.
  rewrite (bool_decide_eq_true_2 _ Hcpu).
  case_bool_decide as Hhas; [done|].
  case_bool_decide as Hempty; [done|]. exfalso.
  destruct Hfeatures as [Hfirst|Hsecond]; [|done].
  apply Hhas. unfold setupFunction.
  case_bool_decide as Hf; [done|].
  rewrite bool_decide_eq_false_2 by done. rewrite lookup_insert_eq. eauto.
Qed.

(** X10: [setupModule] never changes an attribute a function has, and a
    second call changes no function when the first machine has target
    features or the second has none: set up for one machine and then for
    another, the module has the data layout and the triple of the second
    and the [target-cpu] of the first.  With the same machine it changes
    nothing. *)
Theorem setupModule_first_machine_wins (M : Module) (TM1 TM2 : TargetMachine) :
  (∀ i func name value,
     functions M !! i = Some func → func !! name = Some value →
     ∃ func', functions (setupModule M TM1) !! i = Some func'
              ∧ func' !! name = Some value)
  ∧ dataLayout (setupModule (setupModule M TM1) TM2) = createDataLayout TM2
  ∧ targetTriple (setupModule (setupModule M TM1) TM2) = getTargetTriple TM2
  ∧ (getTargetFeatureString TM1 ≠ "" ∨ getTargetFeatureString TM2 = "" →
     functions (setupModule (setupModule M TM1) TM2)
     = functions (setupModule M TM1))
  ∧ setupModule (setupModule M TM1) TM1 = setupModule M TM1.
Proof.
  assert (∀ TM, getTargetFeatureString TM1 ≠ "" ∨ getTargetFeatureString TM = "" →
                setupFunction TM <$> (setupFunction TM1 <$> functions M)
                = setupFunction TM1 <$> functions M) as Hagain.
  { intros TM Hfeatures. rewrite <- list_fmap_compose.
    apply list_fmap_ext. intros i func _. cbn.
    by apply setupFunction_again. }
  split; [|split; [done|split; [done|split]]].
  - intros i func name value Hfunc Hname. exists (setupFunction TM1 func).
    split; [|by apply setupFunction_keeps].
    cbn. by rewrite list_lookup_fmap, Hfunc.
  - apply Hagain.
  - unfold setupModule. cbn. f_equal. apply Hagain.
    destruct (decide (getTargetFeatureString TM1 = "")); auto.
Qed.

End SetupModuleProperties.

Section ObjectCacheProperties.
Import SimpleObjectCache.

#[local] Open Scope nat_scope.

Lemma getMemBufferCopy_same (objBuffer : MemoryBuffer) :
  getMemBufferCopy (getBuffer objBuffer) (getBufferIdentifier objBuffer)
  = objBuffer.
Proof. by destruct objBuffer. Qed.

Lemma compiled_snoc objects moduleIdentifier objBuffer :
  compiled (objects ++ [(moduleIdentifier, objBuffer)])
  = <[moduleIdentifier := objBuffer]> (compiled objects).
Proof.
  unfold compiled. rewrite foldl_app. cbn. unfold notifyObjectCompiled.
  by rewrite getMemBufferCopy_same.
Qed.

Lemma compiled_dom objects :
  dom (compiled objects) = list_to_set objects.*1.
Proof.
  induction objects as [|[moduleIdentifier objBuffer] objects IH]
    using rev_ind.
  - unfold compiled. cbn. apply dom_empty_L.
  - rewrite compiled_snoc, dom_insert_L, IH, fmap_app, list_to_set_app_L.
    cbn. rewrite union_empty_r_L. apply (comm_L _).
Qed.

(** X13: after any compilations, the dump writes a file exactly when
    every object compiled had the same module identifier, and then
    writes the last one; after none, or after modules of two
    identifiers, it fails its assertion. *)
Theorem dump_writes_the_only_module
    (objects : list (string * MemoryBuffer)) :
  dumpToObjectFile (inr ()) (compiled objects)
  = match last objects with
    | Some (moduleIdentifier, objBuffer) =>
        if forallb (λ object, bool_decide (object.1 = moduleIdentifier))
             objects
        then FileKept (getBuffer objBuffer)
        else AssertionFailed
    | None => AssertionFailed
    end.
Proof.
  destruct objects as [|[moduleIdentifier objBuffer] objects _]
    using rev_ind.
  - unfold compiled, dumpToObjectFile. cbn.
    by rewrite bool_decide_eq_false_2 by by rewrite map_size_empty.
  - rewrite last_snoc.
    destruct (forallb _ _) eqn:Hsame.
    + rewrite forallb_forall in Hsame.
      assert (compiled (objects ++ [(moduleIdentifier, objBuffer)])
              = {[moduleIdentifier := objBuffer]}) as ->.
      { rewrite compiled_snoc. apply map_eq. intros other.
        destruct (decide (other = moduleIdentifier)) as [->|Hother].
        - by rewrite lookup_insert_eq, lookup_singleton_eq.
        - rewrite lookup_insert_ne, lookup_singleton_ne by done.
          apply not_elem_of_dom. rewrite compiled_dom.
          rewrite elem_of_list_to_set, list_elem_of_fmap.
          intros ([other' object] & -> & Hin).
          specialize (Hsame (other', object)). cbn in Hsame.
          apply Hother. eapply bool_decide_eq_true_1, Hsame.
          apply list_elem_of_In, elem_of_app. by left. }
      unfold dumpToObjectFile.
      by rewrite map_size_singleton, map_to_list_singleton.
    + unfold dumpToObjectFile.
      rewrite bool_decide_eq_false_2; [done|].
      intros Hsize. rewrite <- (size_dom (D := gset string)) in Hsize.
      rewrite compiled_dom in Hsize.
      apply not_true_iff_false in Hsame. apply Hsame.
      apply forallb_forall. intros [other object] Hin%list_elem_of_In. cbn.
      apply bool_decide_eq_true_2.
      apply (size_singleton_inv _ _ _ Hsize).
      * apply elem_of_list_to_set, list_elem_of_fmap.
        by exists (other, object).
      * apply elem_of_list_to_set, list_elem_of_fmap.
        exists (moduleIdentifier, objBuffer).
        split; [done|]. apply elem_of_app. right. by apply list_elem_of_singleton.
Qed.

(** X14: the cache gives for a module identifier the object of its
    latest compilation, and the null pointer for a module never
    compiled. *)
Theorem getObject_gives_latest_object
    (objects : list (string * MemoryBuffer)) (moduleIdentifier : string) :
  getObject moduleIdentifier (compiled objects)
  = snd <$> last (filter (λ object, object.1 = moduleIdentifier) objects).
Proof.
  assert (∀ cachedObjects : Cache,
            getObject moduleIdentifier cachedObjects
            = cachedObjects !! moduleIdentifier) as ->.
  { intros cachedObjects. unfold getObject. by destruct (_ !! _). }
  induction objects as [|[other objBuffer] objects IH] using rev_ind.
  - done.
  - rewrite compiled_snoc, filter_app, filter_cons, filter_nil. cbn.
    case_decide as Hother.
    + subst other. by rewrite lookup_insert_eq, last_snoc.
    + by rewrite lookup_insert_ne, app_nil_r.
Qed.

End ObjectCacheProperties.

Section FixLLVMStructABIProperties.
Import FixLLVMStructABI.
#[local] Open Scope nat_scope.

Lemma newFuncTypes_no_struct params type :
  type ∈ newFuncTypes params → isLLVMStruct type = false.
Proof.
  unfold newFuncTypes. intros (old & -> & _)%list_elem_of_fmap.
  by destruct (isLLVMStruct old) eqn:Hold.
Qed.

Lemma changed_false params :
  changed params = false ↔ Forall (λ type, isLLVMStruct type = false) params.
Proof.
  unfold changed. induction params as [|type params IH]; cbn.
  - split; [constructor|done].
  - rewrite orb_false_iff, Forall_cons. by rewrite IH.
Qed.

Lemma newFuncTypes_unchanged params :
  changed params = false → newFuncTypes params = params.
Proof.
  rewrite changed_false. unfold newFuncTypes.
  induction 1 as [|type params Htype _ IH]; [done|].
  cbn. by rewrite Htype, IH.
Qed.

Lemma changed_newFuncTypes params : changed (newFuncTypes params) = false.
Proof.
  apply changed_false, Forall_forall. apply newFuncTypes_no_struct.
Qed.

Lemma fixed_unchanged func :
  changed (getParams func) = false → fixed func = func.
Proof.
  intros Hsame. unfold fixed, setFunctionType.
  rewrite newFuncTypes_unchanged by done. by destruct func, isExternal0.
Qed.

(** The new arguments of a call that passes what the parameters ask
    for have the new parameter types. *)
Lemma newArgs_types next operands params :
  getType <$> operands = params →
  getType <$> (newArgs next operands (newFuncTypes params)).1.1
  = newFuncTypes params.
Proof.
  intros <-. revert next.
  induction operands as [|arg operands IH]; intros next; [done|].
  cbn. case_decide as Htype.
  - specialize (IH next).
    destruct (newArgs next operands _) as [[args values] next'].
    cbn in *. by rewrite IH, <- Htype.
  - specialize (IH (S (S next))).
    destruct (newArgs (S (S next)) operands _) as [[args values] next'].
    cbn in *. by rewrite IH.
Qed.

Lemma stores_no_call funcs operands args :
  callsMatch funcs (stores operands args).
Proof.
  revert args. induction operands as [|arg operands IH]; intros [|newArg args];
    cbn; try constructor.
  case_decide; [apply IH|]. constructor; [done|apply IH].
Qed.

Lemma symName_unique (funcs : list LLVMFuncOp) func func' :
  NoDup (symName <$> funcs) → func ∈ funcs → func' ∈ funcs →
  symName func = symName func' → func = func'.
Proof.
  induction funcs as [|first funcs IH]; cbn; [by intros _ ?%elem_of_nil|].
  intros [Hfirst Hrest]%NoDup_cons.
  intros [->|Hin]%elem_of_cons [->|Hin']%elem_of_cons Hname; [done| | |by auto].
  - destruct Hfirst. rewrite Hname. by apply list_elem_of_fmap_2.
  - destruct Hfirst. rewrite <- Hname. by apply list_elem_of_fmap_2.
Qed.

Lemma rewriteUses_matches prefix func todo next body body' values next' :
  NoDup (symName <$> (prefix ++ func :: todo)) →
  isExternal func = true →
  callsMatch (prefix ++ func :: todo) body →
  rewriteUses (symName func) (newFuncTypes (getParams func)) next body
  = Some (body', values, next') →
  callsMatch (prefix ++ fixed func :: todo) body'.
Proof.
  intros Hnames Hexternal Hbody. revert next body' values next'.
  assert (∀ other, other ∈ prefix ++ fixed func :: todo →
                   symName other ≠ symName func →
                   other ∈ prefix ++ func :: todo) as Hother.
  { intros other [?|[->|?]%elem_of_cons]%elem_of_app Hname.
    - apply elem_of_app. by left.
    - destruct Hname. unfold fixed. by rewrite Hexternal.
    - apply elem_of_app. right. by right. }
  assert (∀ other, other ∈ prefix ++ fixed func :: todo →
                   symName other = symName func →
                   other = fixed func) as Hsame.
  { intros other Hin Hname.
    assert (symName (fixed func) = symName func) as Hfixed
      by (unfold fixed; by rewrite Hexternal).
    eapply (symName_unique (prefix ++ fixed func :: todo)); [|done| |congruence].
    - revert Hnames. by rewrite !fmap_app, !fmap_cons, Hfixed.
    - apply elem_of_app. right. by left. }
  induction Hbody as [|op body Hop _ IH]; intros next body' values next'; cbn.
  { intros [= <- <- <-]. constructor. }
  assert (∀ body1 values1 next1,
            rewriteUses (symName func) (newFuncTypes (getParams func)) next body
            = Some (body1, values1, next1) →
            callMatches (prefix ++ fixed func :: todo) op →
            callsMatch (prefix ++ fixed func :: todo) (op :: body1)) as Hkeep.
  { intros ??? Hrest ?. constructor; [done|by eapply IH]. }
  destruct op as [[callee|] operands|value addr|symbols operands].
  - case_decide as Hcallee.
    + subst callee.
      pose proof (newArgs_types next operands (getParams func)) as Htypes.
      destruct (newArgs next operands _) as [[args values1] next1].
      destruct (rewriteUses _ _ next1 body) as [[[body2 values2] next2]|]
        eqn:Hrest; [|done].
      intros [= <- <- <-]. apply Forall_app. split; [apply stores_no_call|].
      constructor; [|by eapply IH].
      intros other Hin Hname _. rewrite (Hsame other Hin Hname).
      unfold fixed. rewrite Hexternal. cbn. apply Htypes.
      apply Hop; [|done..]. apply elem_of_app. right. by left.
    + destruct (rewriteUses _ _ next body) as [[[body2 values2] next2]|]
        eqn:Hrest; [|done].
      intros [= <- <- <-]. eapply Hkeep; [done|].
      intros other Hin Hname. apply Hop; [|done].
      apply Hother; [done|congruence].
  - destruct (rewriteUses _ _ next body) as [[[body2 values2] next2]|]
      eqn:Hrest; [|done].
    intros [= <- <- <-]. by eapply Hkeep.
  - destruct (rewriteUses _ _ next body) as [[[body2 values2] next2]|]
      eqn:Hrest; [|done].
    intros [= <- <- <-]. by eapply Hkeep.
  - case_decide; [done|].
    destruct (rewriteUses _ _ next body) as [[[body2 values2] next2]|]
      eqn:Hrest; [|done].
    intros [= <- <- <-]. by eapply Hkeep.
Qed.

Lemma walk_matches prefix todo body values next done body' values' next' :
  NoDup (symName <$> (prefix ++ todo)) →
  callsMatch (prefix ++ todo) body →
  walk todo body values next = Some (done, body', values', next') →
  done = fixed <$> todo ∧ callsMatch (prefix ++ done) body'.
Proof.
  revert prefix body values next done body' values' next'.
  induction todo as [|func todo IH];
    intros prefix body values next done body' values' next' Hnames Hbody; cbn.
  { by intros [= <- <- <- <-]. }
  assert (∀ body1 values1 next1,
            NoDup (symName <$> ((prefix ++ [fixed func]) ++ todo)) →
            callsMatch ((prefix ++ [fixed func]) ++ todo) body1 →
            match walk todo body1 values1 next1 with
            | Some (done, body', values', next') =>
                Some (fixed func :: done, body', values', next')
            | None => None
            end = Some (done, body', values', next') →
            done = fixed <$> func :: todo ∧ callsMatch (prefix ++ done) body')
    as Hrest.
  { intros body1 values1 next1 Hnames1 Hbody1.
    destruct (walk todo body1 values1 next1)
      as [[[[done1 body2] values2] next2]|] eqn:Hwalk; [|done].
    intros [= <- <- <- <-].
    destruct (IH _ _ _ _ _ _ _ _ Hnames1 Hbody1 Hwalk) as [-> Hdone].
    split; [done|]. revert Hdone. by rewrite <- app_assoc. }
  destruct (isExternal func) eqn:Hexternal; cbn [negb].
  - destruct (changed (getParams func)) eqn:Hchanged; cbn [negb].
    + destruct (rewriteUses _ _ next body) as [[[body1 values1] next1]|]
        eqn:Huses; [|done].
      replace (setFunctionType func (newFuncTypes (getParams func)))
        with (fixed func) by (unfold fixed; by rewrite Hexternal).
      apply Hrest.
      * revert Hnames. rewrite <- app_assoc, !fmap_app, !fmap_cons.
        unfold fixed. by rewrite Hexternal.
      * rewrite <- app_assoc. by eapply rewriteUses_matches.
    + rewrite (fixed_unchanged _ Hchanged) in Hrest.
      apply Hrest; rewrite <- app_assoc; done.
  - assert (fixed func = func) as Hfixed
      by (unfold fixed; by rewrite Hexternal).
    rewrite Hfixed in Hrest.
    apply Hrest; rewrite <- app_assoc; done.
Qed.

(** A second walk finds nothing to change. *)
Lemma walk_fixed todo body values next :
  walk (fixed <$> todo) body values next
  = Some (fixed <$> todo, body, values, next).
Proof.
  induction todo as [|func todo IH]; [done|].
  rewrite fmap_cons. cbn [walk]. rewrite IH.
  destruct (isExternal func) eqn:Hexternal.
  - assert (isExternal (fixed func) = true
            ∧ changed (getParams (fixed func)) = false) as [-> ->]; [|done].
    unfold fixed. rewrite Hexternal. cbn.
    split; [done|apply changed_newFuncTypes].
  - assert (fixed func = func) as ->
      by (unfold fixed; by rewrite Hexternal).
    by rewrite Hexternal.
Qed.

(** X15: in a module whose symbols are distinct and whose calls of
    external functions pass what the parameters ask for, the pass, when
    it goes through, turns the struct parameters of the external
    functions into pointers and leaves the other functions; the calls
    pass again what the parameters ask for, and a second run changes
    nothing. *)
Theorem struct_parameters_become_pointers (mod_ mod' : ModuleOp) :
  NoDup (symName <$> funcs mod_) →
  callsMatch (funcs mod_) (ops mod_) →
  runOnOperation mod_ = Some mod' →
  funcs mod' = fixed <$> funcs mod_
  ∧ noStructParams (funcs mod')
  ∧ callsMatch (funcs mod') (ops mod')
  ∧ runOnOperation mod' = Some mod'.
Proof.
  intros Hnames Hbody. unfold runOnOperation.
  destruct (walk _ _ _ _) as [[[[funcs' body'] values'] next']|] eqn:Hwalk;
    [|done].
  intros [= <-]. cbn.
  destruct (walk_matches [] _ _ _ _ _ _ _ _ Hnames Hbody Hwalk) as [-> Hdone].
  split; [done|]. split; [|split; [done|]].
  - intros func type (old & -> & _)%list_elem_of_fmap. unfold fixed.
    destruct (isExternal old) eqn:Hexternal; cbn; [|congruence].
    intros _. apply newFuncTypes_no_struct.
  - by rewrite walk_fixed.
Qed.

Lemma newArgs_lookup next operands types i arg newType :
  operands !! i = Some arg → types !! i = Some newType →
  ∃ newArg,
    (newArgs next operands types).1.1 !! i = Some newArg
    ∧ getType newArg = newType
    ∧ if decide (getType arg = newType) then newArg = arg
      else ∃ id one,
             newArg = AllocaResult id newType (getType arg) one 0.
Proof.
  revert next types i.
  induction operands as [|first operands IH]; intros next [|type types] [|i];
    try done; cbn.
  - intros [= ->] [= ->]. case_decide as Htype.
    + destruct (newArgs next operands types) as [[args values] next'].
      by exists arg.
    + destruct (newArgs _ operands types) as [[args values] next'].
      eexists. cbn. eauto.
  - intros Harg Htype.
    destruct (decide (getType first = type)).
    + destruct (IH next _ _ Harg Htype) as (newArg & Hnew & Hrest).
      destruct (newArgs next operands types) as [[args values] next'].
      exists newArg. split; [exact Hnew|exact Hrest].
    + destruct (IH (S (S next)) _ _ Harg Htype) as (newArg & Hnew & Hrest).
      destruct (newArgs _ operands types) as [[args values] next'].
      exists newArg. split; [exact Hnew|exact Hrest].
Qed.

Lemma newArgs_length next operands types :
  length (newArgs next operands types).1.1
  = length operands `min` length types.
Proof.
  revert next types.
  induction operands as [|first operands IH]; intros next [|type types];
    try done; cbn.
  case_decide.
  - specialize (IH next types).
    destruct (newArgs next operands types) as [[args values] next'].
    cbn in *. by rewrite IH.
  - specialize (IH (S (S next)) types).
    destruct (newArgs _ operands types) as [[args values] next'].
    cbn in *. by rewrite IH.
Qed.

Lemma stores_lookup operands args value addr :
  StoreOp value addr ∈ stores operands args ↔
  ∃ i, operands !! i = Some value ∧ args !! i = Some addr
       ∧ getType value ≠ getType addr.
Proof.
  revert args.
  induction operands as [|arg operands IH]; intros [|newArg args]; cbn.
  - split; [by intros ?%elem_of_nil|by intros (? & ? & _)].
  - split; [by intros ?%elem_of_nil|by intros (? & ? & _)].
  - split; [by intros ?%elem_of_nil|by intros ([|?] & _ & ? & _)].
  - case_decide as Htype.
    + rewrite IH. split.
      * intros (i & ? & ? & ?). by exists (S i).
      * intros ([|i] & Hvalue & Haddr & Hne); [|by exists i].
        cbn in *. congruence.
    + rewrite elem_of_cons, IH. split.
      * intros [[= -> ->]|(i & ? & ? & ?)]; [by exists 0|by exists (S i)].
      * intros ([|i] & Hvalue & Haddr & Hne); [left|right; by exists i].
        cbn in *. congruence.
Qed.

(** X16: the call of a function whose type the pass has changed gets one
    operand for each operand that has a parameter: the operand itself
    where it has the type of the parameter, and otherwise a new stack
    slot of that type, into which a store before the call puts the
    operand.  Operands beyond the parameters, as a call of a variadic
    function has them, are dropped. *)
Theorem call_operands_follow_parameters
    (name : string) (types : list Ty) (next : nat) (operands : list Val) :
  ∃ args values next',
    rewriteUses name types next [CallOp (Some name) operands]
    = Some (stores operands args ++ [CallOp (Some name) args], values, next')
    ∧ length args = length operands `min` length types
    ∧ ∀ i arg newType,
        operands !! i = Some arg → types !! i = Some newType →
        ∃ newArg,
          args !! i = Some newArg
          ∧ getType newArg = newType
          ∧ if decide (getType arg = newType)
            then newArg = arg ∧ StoreOp arg newArg ∉ stores operands args
            else (∃ id one,
                    newArg = AllocaResult id newType (getType arg) one 0)
                 ∧ StoreOp arg newArg ∈ stores operands args.
Proof.
  pose proof (newArgs_length next operands types) as Hlength.
  pose proof (newArgs_lookup next operands types) as Hlookup.
  cbn. rewrite decide_True by done.
  destruct (newArgs next operands types) as [[args values] next'].
  exists args, values, next'. cbn in *. rewrite app_nil_r.
  split; [done|]. split; [done|].
  intros i arg newType Harg Htype.
  destruct (Hlookup i arg newType Harg Htype) as (newArg & Hnew & Hty & Hcase).
  exists newArg. split; [done|]. split; [done|].
  case_decide as Hsame.
  - split; [done|]. subst newArg.
    intros (j & _ & _ & Hne)%stores_lookup. done.
  - split; [done|]. apply stores_lookup. exists i.
    split; [done|]. split; [done|]. congruence.
Qed.

Lemma others_stores operands args : others (stores operands args) = [].
Proof.
  revert args. induction operands as [|arg operands IH]; intros [|newArg args];
    cbn; try done.
  case_decide; cbn; apply IH.
Qed.

Lemma others_app body1 body2 :
  others (body1 ++ body2) = others body1 ++ others body2.
Proof. apply List.filter_app. Qed.

Lemma elem_of_others symbols operands body :
  OtherOp symbols operands ∈ others body ↔ OtherOp symbols operands ∈ body.
Proof.
  unfold others. rewrite !list_elem_of_In, List.filter_In.
  split; [by intros [? _]|done].
Qed.

Lemma rewriteUses_others name types next body body' values next' :
  rewriteUses name types next body = Some (body', values, next') →
  others body' = others body.
Proof.
  revert next body' values next'.
  induction body as [|op body IH]; intros next body' values next'; cbn.
  { by intros [= <- <- <-]. }
  destruct op as [[callee|] operands|value addr|symbols operands].
  - case_decide.
    + destruct (newArgs next operands types) as [[args values1] next1].
      destruct (rewriteUses _ _ next1 body) as [[[body2 values2] next2]|]
        eqn:Hrest; [|done].
      intros [= <- <- <-]. rewrite others_app, others_stores. cbn.
      by eapply IH.
    + destruct (rewriteUses _ _ next body) as [[[body2 values2] next2]|]
        eqn:Hrest; [|done].
      intros [= <- <- <-]. cbn. by eapply IH.
  - destruct (rewriteUses _ _ next body) as [[[body2 values2] next2]|]
      eqn:Hrest; [|done].
    intros [= <- <- <-]. cbn. by eapply IH.
  - destruct (rewriteUses _ _ next body) as [[[body2 values2] next2]|]
      eqn:Hrest; [|done].
    intros [= <- <- <-]. cbn. by eapply IH.
  - case_decide; [done|].
    destruct (rewriteUses _ _ next body) as [[[body2 values2] next2]|]
      eqn:Hrest; [|done].
    intros [= <- <- <-]. cbn. f_equal. by eapply IH.
Qed.

Lemma rewriteUses_None name types next body :
  rewriteUses name types next body = None ↔
  ∃ symbols operands, OtherOp symbols operands ∈ body ∧ name ∈ symbols.
Proof.
  revert next. induction body as [|op body IH]; intros next; cbn.
  { split; [done|]. by intros (? & ? & ?%elem_of_nil & _). }
  assert (∀ base : Prop,
            (base ↔
             ∃ symbols operands,
               OtherOp symbols operands ∈ body ∧ name ∈ symbols) →
            (∀ symbols operands,
               op = OtherOp symbols operands → name ∉ symbols) →
            base ↔
            ∃ symbols operands,
              OtherOp symbols operands ∈ op :: body ∧ name ∈ symbols)
    as Hskip.
  { intros base -> Hop. split.
    - intros (symbols & operands & Hin & Hname).
      exists symbols, operands. split; [by right|done].
    - intros (symbols & operands & [<-|Hin]%elem_of_cons & Hname).
      + by destruct (Hop symbols operands).
      + by exists symbols, operands. }
  assert (∀ next (op' : Operation),
            match rewriteUses name types next body with
            | Some (body', values', next') =>
                Some (op' :: body', values', next')
            | None => None
            end = None ↔
            ∃ symbols operands,
              OtherOp symbols operands ∈ body ∧ name ∈ symbols) as Hrest.
  { intros next1 op'. rewrite <- (IH next1).
    by destruct (rewriteUses _ _ next1 body) as [[[??]?]|]. }
  destruct op as [[callee|] operands|value addr|symbols operands].
  - case_decide.
    + destruct (newArgs next operands types) as [[args values1] next1].
      apply Hskip; [|done]. rewrite <- (IH next1).
      by destruct (rewriteUses _ _ next1 body) as [[[??]?]|].
    + by apply Hskip.
  - by apply Hskip.
  - by apply Hskip.
  - case_decide as Hname.
    + split; [|done]. intros _. exists symbols, operands.
      split; [by left|done].
    + apply Hskip; [done|]. by intros ?? [= <- <-].
Qed.

Lemma walk_None todo body values next :
  walk todo body values next = None ↔
  ∃ func symbols operands,
    func ∈ todo ∧ isExternal func = true ∧ changed (getParams func) = true
    ∧ OtherOp symbols operands ∈ body ∧ symName func ∈ symbols.
Proof.
  revert body values next.
  induction todo as [|func todo IH]; intros body values next; cbn.
  { split; [done|]. by intros (? & ? & ? & ?%elem_of_nil & _). }
  assert (∀ (func' : LLVMFuncOp) body1 values1 next1,
            others body1 = others body →
            match walk todo body1 values1 next1 with
            | Some (done, body', values', next') =>
                Some (func' :: done, body', values', next')
            | None => None
            end = None ↔
            ∃ func symbols operands,
              func ∈ todo ∧ isExternal func = true
              ∧ changed (getParams func) = true
              ∧ OtherOp symbols operands ∈ body ∧ symName func ∈ symbols)
    as Hrest.
  { intros func' body1 values1 next1 Hothers.
    transitivity (walk todo body1 values1 next1 = None).
    { by destruct (walk todo body1 values1 next1) as [[[[??]?]?]|]. }
    rewrite IH. do 3 (apply exist_proper; intros ?).
    by rewrite <- (elem_of_others _ _ body1), Hothers, elem_of_others. }
  assert (∀ base : Prop,
            (base ↔
             ∃ func symbols operands,
               func ∈ todo ∧ isExternal func = true
               ∧ changed (getParams func) = true
               ∧ OtherOp symbols operands ∈ body ∧ symName func ∈ symbols) →
            ¬ (isExternal func = true ∧ changed (getParams func) = true
               ∧ ∃ symbols operands,
                   OtherOp symbols operands ∈ body
                   ∧ symName func ∈ symbols) →
            base ↔
            ∃ func' symbols operands,
              func' ∈ func :: todo ∧ isExternal func' = true
              ∧ changed (getParams func') = true
              ∧ OtherOp symbols operands ∈ body ∧ symName func' ∈ symbols)
    as Hskip.
  { intros base -> Hfunc. split.
    - intros (func' & symbols & operands & Hin & Hfound).
      exists func', symbols, operands. split; [by right|done].
    - intros (func' & symbols & operands & [->|Hin]%elem_of_cons & Hfound).
      + destruct Hfunc. destruct Hfound as (? & ? & ? & ?). eauto 10.
      + exists func', symbols, operands. by split. }
  destruct (isExternal func) eqn:Hexternal; cbn [negb].
  - destruct (changed (getParams func)) eqn:Hchanged; cbn [negb].
    + destruct (rewriteUses _ _ next body) as [[[body1 values1] next1]|]
        eqn:Huses.
      * apply Hskip; [apply Hrest; by eapply rewriteUses_others|].
        intros (_ & _ & Hfound).
        apply (rewriteUses_None _ (newFuncTypes (getParams func)) next)
          in Hfound.
        by rewrite Huses in Hfound.
      * apply rewriteUses_None in Huses as (symbols & operands & ? & ?).
        split; [|done]. intros _. exists func, symbols, operands.
        split; [by left|done].
    + apply Hskip; [by apply Hrest|]. by intros (_ & ? & _).
  - apply Hskip; [by apply Hrest|]. by intros (? & _).
Qed.

(** X17: the pass ends in the call through a null pointer exactly when
    an external function with a struct parameter is referred to by an
    operation that is no call. *)
Theorem non_call_user_is_dereferenced (mod_ : ModuleOp) :
  runOnOperation mod_ = None ↔
  ∃ func symbols operands,
    func ∈ funcs mod_ ∧ isExternal func = true
    ∧ changed (getParams func) = true
    ∧ OtherOp symbols operands ∈ ops mod_ ∧ symName func ∈ symbols.
Proof.
  rewrite <- walk_None with (values := allocas mod_) (next := created mod_).
  unfold runOnOperation. by destruct (walk _ _ _ _) as [[[[??]?]?]|].
Qed.

End FixLLVMStructABIProperties.

Section FixLLVMStructABIScenarios.
Import FixLLVMStructABI.

Lemma showsPoint_symbols : NoDup (symName <$> funcs showsPoint).
Proof. apply (bool_decide_unpack _). reflexivity. Qed.

Lemma showsPoint_calls : callsMatch (funcs showsPoint) (ops showsPoint).
Proof.
  repeat constructor. cbn.
  intros func [->|[->|[]%elem_of_nil]%elem_of_cons]%elem_of_cons; done.
Qed.

Lemma struct_parameters_become_pointers_witness :
  NoDup (symName <$> funcs showsPoint)
  ∧ callsMatch (funcs showsPoint) (ops showsPoint)
  ∧ runOnOperation showsPoint = Some showsPointFixed
  ∧ getParams <$> funcs showsPointFixed
    = [[LLVMPointerType; IntegerType 32]; []]
  ∧ runOnOperation showsPointFixed = Some showsPointFixed.
Proof.
  split; [exact showsPoint_symbols|]. split; [exact showsPoint_calls|].
  split; [reflexivity|]. split; [reflexivity|].
  exact (proj2 (proj2 (proj2
           (struct_parameters_become_pointers showsPoint showsPointFixed
              showsPoint_symbols showsPoint_calls eq_refl)))).
Defined.

End FixLLVMStructABIScenarios.

Section PropagateProperties.
Import EnvironmentRegion.
#[local] Open Scope nat_scope.

Variable op : EnvironmentRegionOp.

(** The yielded values defined in the region. *)
Local Abbreviation inside :=
  (List.filter (λ arg, isAncestor (region op) arg)).

(** A yielded value in [newResults] after the first loop. *)
Local Abbreviation outer :=
  (λ arg : Value,
     if negb (isAncestor (region op) arg) then Some arg else None).

Lemma Propagate_visit count n :
  n ≤ count → n ≤ length (yieldArgs op) →
  foldl (Propagate.visit op) (replicate count None, []) (seq 0 n)
  = ((outer <$> take n (yieldArgs op)) ++ replicate (count - n) None,
     inside (take n (yieldArgs op))).
Proof.
  induction n as [|n IH]; intros Hcount Hlength.
  - cbn. by rewrite Nat.sub_0_r.
  - rewrite seq_S, foldl_app, IH by lia. cbn.
    destruct (lookup_lt_is_Some_2 (yieldArgs op) n) as [arg Harg]; [lia|].
    unfold Propagate.visit. rewrite Harg. cbn.
    rewrite (take_S_r _ _ _ Harg), fmap_app, List.filter_app. cbn.
    replace (count - n) with (S (count - S n)) by lia. cbn.
    destruct (isAncestor (region op) arg); cbn.
    + by rewrite <- app_assoc.
    + rewrite app_nil_r, <- app_assoc. cbn. f_equal.
      rewrite insert_app_r_alt; rewrite length_fmap, length_take; [|lia].
      by replace (n - n `min` length (yieldArgs op)) with 0 by lia.
Qed.

Lemma Propagate_fill (before rest : list Value) :
  ∃ filled,
    Propagate.fill (outer <$> rest) (length (inside before))
                   (length (inside (before ++ rest)))
    = Some (filled, length (inside (before ++ rest)))
    ∧ Forall2 (λ arg r,
                 standsFor (inside (before ++ rest)) r = Some arg
                 ∧ (r = Direct arg ↔ isAncestor (region op) arg = false))
              rest filled.
Proof.
  revert before. induction rest as [|arg rest IH]; intros before.
  - exists []. rewrite app_nil_r. by split.
  - destruct (IH (before ++ [arg])) as (filled & Hfill & Hfilled).
    rewrite <- app_assoc in Hfill, Hfilled. cbn in Hfill, Hfilled.
    rewrite List.filter_app in Hfill. cbn in Hfill |- *.
    destruct (isAncestor (region op) arg) eqn:Harg; cbn in Hfill |- *.
    + rewrite length_app in Hfill. cbn in Hfill.
      rewrite Nat.add_1_r in Hfill.
      rewrite decide_True.
      2:{ rewrite List.filter_app, length_app. cbn. rewrite Harg. cbn. lia. }
      rewrite Hfill. eexists. split; [done|].
      constructor; [|done]. split; [|split; [done|congruence]]. cbn.
      rewrite List.filter_app. cbn. rewrite Harg.
      by rewrite lookup_app_r, Nat.sub_diag.
    + rewrite app_nil_r in Hfill. rewrite Hfill. eexists. split; [done|].
      constructor; [|done]. split; [done|by split].
Qed.

End PropagateProperties.

Section PropagateResults.
Import EnvironmentRegion.
#[local] Open Scope nat_scope.

(** X18: [EnvRegionPropagateOutsideValues] fails exactly when every
    yielded value is defined in the region.  Otherwise the new operation
    yields the values defined in the region, in their order; a result
    that yielded a value from outside is replaced by that value, any
    other by the result of the new operation that yields its value; and
    the pattern fails on the new operation. *)
Theorem propagated_results_keep_their_values (op : EnvironmentRegionOp) :
  length (resultUsed op) = length (yieldArgs op) →
  (Propagate.matchAndRewrite op = Failed
   ↔ Forall (λ arg, isAncestor (region op) arg = true) (yieldArgs op))
  ∧ match Propagate.matchAndRewrite op with
    | Rewritten newYieldArgs newResults =>
        Exists (λ arg, isAncestor (region op) arg = false) (yieldArgs op)
        ∧ newYieldArgs
          = List.filter (λ arg, isAncestor (region op) arg) (yieldArgs op)
        ∧ Forall2 (λ arg r,
                     standsFor newYieldArgs r = Some arg
                     ∧ (r = Direct arg ↔ isAncestor (region op) arg = false))
                  (yieldArgs op) newResults
        ∧ Propagate.matchAndRewrite (newOp op newYieldArgs newResults)
          = Failed
    | Failed =>
        Forall (λ arg, isAncestor (region op) arg = true) (yieldArgs op)
    | AssertionFailed => False
    end.
Proof.
  intros Hcount.
  assert (length (List.filter (λ arg, isAncestor (region op) arg)
                              (yieldArgs op))
          = length (yieldArgs op)
          ↔ Forall (λ arg, isAncestor (region op) arg = true) (yieldArgs op))
    as Hall.
  { split.
    - intros Hsame. apply Forall_forall. intros arg Harg%list_elem_of_In.
      apply List.filter_length_forallb in Hsame.
      by apply (proj1 (forallb_forall _ _) Hsame).
    - intros Hin. f_equal. apply List.forallb_filter_id, forallb_forall.
      intros arg Harg%list_elem_of_In.
      by apply (proj1 (Forall_forall _ _) Hin). }
  unfold Propagate.matchAndRewrite at 1 2.
  rewrite bool_decide_eq_true_2 by done. cbn [negb].
  rewrite Propagate_visit by lia.
  rewrite Hcount, Nat.sub_diag, app_nil_r, firstn_all.
  case_bool_decide as Hsame.
  - split; [|by apply Hall]. split; [intros _; by apply Hall|done].
  - destruct (Propagate_fill op [] (yieldArgs op))
      as (filled & Hfill & Hfilled).
    cbn in Hfill, Hfilled. rewrite Hfill.
    rewrite bool_decide_eq_true_2 by done. cbn [negb].
    split; [split; [done|]; intros Hin; by apply Hall in Hin|].
    split.
    { destruct (decide (Exists (λ arg, isAncestor (region op) arg = false)
                               (yieldArgs op))) as [Hout|Hin]; [done|].
      destruct Hsame. apply Hall.
      apply not_Exists_Forall in Hin; [|intros arg; apply _].
      eapply Forall_impl; [exact Hin|].
      intros arg Harg. cbn in Harg.
      by destruct (isAncestor (region op) arg). }
    split; [done|]. split; [done|].
    set (new := newOp _ _ _).
    assert (length (resultUsed new) = length (yieldArgs new)) as Hnew.
    { unfold new, newOp. cbn. by rewrite length_fmap, length_seq. }
    unfold Propagate.matchAndRewrite.
    rewrite bool_decide_eq_true_2 by done. cbn [negb].
    rewrite Propagate_visit by lia.
    rewrite Hnew, Nat.sub_diag, app_nil_r, firstn_all.
    rewrite bool_decide_eq_true_2; [done|].
    unfold new, newOp. cbn. f_equal.
    apply List.forallb_filter_id, forallb_forall.
    by intros arg [_ ?]%List.filter_In.
Qed.

End PropagateResults.

Section CleanupProperties.
Import EnvironmentRegion.
#[local] Open Scope nat_scope.

Lemma find_as_cons arg ind argsMap other :
  Cleanup.find_as ((arg, ind) :: argsMap) other
  = if decide (arg = other) then Some ind else Cleanup.find_as argsMap other.
Proof.
  unfold Cleanup.find_as. cbn. case_bool_decide; by case_decide.
Qed.

Lemma visited_start (op : EnvironmentRegionOp) :
  visited op 0
    (Cleanup.mkState [] (replicate (length (resultUsed op)) (-1)%Z) []).
Proof.
  split; cbn.
  - constructor.
  - intros arg. apply not_elem_of_nil.
  - apply length_replicate.
  - lia.
  - intros i _ Hi. by apply lookup_replicate_2.
  - by intros [|k] arg.
  - lia.
  - split; [|done]. intros _. split; [lia|constructor].
Qed.

Lemma visited_step (op : EnvironmentRegionOp) n st :
  length (resultUsed op) = length (yieldArgs op) →
  n < length (resultUsed op) →
  visited op n st → visited op (S n) (Cleanup.visit op st n).
Proof.
  intros Hcount Hn [Hnodup Hmap Hlength Hused Hunused Hfrom Hle Hall].
  destruct (lookup_lt_is_Some_2 (resultUsed op) n) as [used Hu]; [lia|].
  destruct (lookup_lt_is_Some_2 (yieldArgs op) n) as [arg Harg]; [lia|].
  unfold Cleanup.visit. rewrite Hu, Harg.
  assert (∀ i, i < S n → resultUsed op !! i = Some true →
               i ≠ n → i < n) as Hbefore by lia.
  destruct used.
  - pose proof (Hmap arg) as Hfound.
    destruct (Cleanup.find_as (Cleanup.argsMap st) arg) as [ind|].
    + destruct Hfound as (k & -> & Hk).
      split;
        cbn [Cleanup.newYieldArgs Cleanup.newResultsMapping Cleanup.argsMap];
        try done.
      * by rewrite length_insert.
      * intros i Hi Hiu. destruct (decide (i = n)) as [->|Hne].
        -- exists k, arg. rewrite list_lookup_insert_eq by lia. done.
        -- rewrite list_lookup_insert_ne by done. apply Hused; [lia|done].
      * intros i Hi Hlt. rewrite list_lookup_insert_ne.
        -- apply Hunused; [|done]. destruct Hi; [left; lia|by right].
        -- intros <-. destruct Hi; [lia|congruence].
      * intros k' arg' Hk'.
        destruct (Hfrom k' arg' Hk') as (i & ? & ? & ? & ?).
        exists i. rewrite list_lookup_insert_ne by lia.
        split; [lia|done].
      * lia.
      * split; [lia|]. intros [_ Hdup]. exfalso.
        rewrite (take_S_r _ _ _ Harg) in Hdup.
        apply NoDup_app in Hdup as (_ & Hdup & _).
        destruct (Hfrom k arg Hk) as (i & Hi & _ & Hyi & _).
        eapply Hdup; [|by apply list_elem_of_singleton].
        apply list_elem_of_lookup. exists i.
        by rewrite lookup_take_lt.
    + split;
        cbn [Cleanup.newYieldArgs Cleanup.newResultsMapping Cleanup.argsMap].
      * apply NoDup_app. split; [done|]. split; [|apply NoDup_singleton].
        by intros arg' Hin ->%list_elem_of_singleton.
      * intros other. rewrite find_as_cons. case_decide as Hother.
        -- subst other. exists (length (Cleanup.newYieldArgs st)).
           split; [done|]. by rewrite lookup_app_r, Nat.sub_diag.
        -- pose proof (Hmap other) as Hold.
           destruct (Cleanup.find_as (Cleanup.argsMap st) other).
           ++ destruct Hold as (k & -> & Hk). exists k. split; [done|].
              by apply lookup_app_l_Some.
           ++ rewrite elem_of_app, list_elem_of_singleton.
              intros [?|?]; [done|congruence].
      * by rewrite length_insert.
      * intros i Hi Hiu. destruct (decide (i = n)) as [->|Hne].
        -- exists (length (Cleanup.newYieldArgs st)), arg.
           rewrite list_lookup_insert_eq by lia.
           by rewrite lookup_app_r, Nat.sub_diag.
        -- rewrite list_lookup_insert_ne by done.
           destruct (Hused i) as (k & arg' & ? & ? & ?); [lia|done|].
           exists k, arg'. split; [done|]. split; [|done].
           by apply lookup_app_l_Some.
      * intros i Hi Hlt. rewrite list_lookup_insert_ne.
        -- apply Hunused; [|done]. destruct Hi; [left; lia|by right].
        -- intros <-. destruct Hi; [lia|congruence].
      * intros k' arg' Hk'.
        destruct (decide (k' < length (Cleanup.newYieldArgs st))) as [Hlt|Hge].
        -- rewrite lookup_app_l in Hk' by done.
           destruct (Hfrom k' arg' Hk') as (i & ? & ? & ? & ?).
           exists i. rewrite list_lookup_insert_ne by lia.
           split; [lia|done].
        -- rewrite lookup_app_r in Hk' by lia.
           apply list_lookup_singleton_Some in Hk' as [Hk' <-].
           exists n. rewrite list_lookup_insert_eq by lia.
           split; [lia|]. split; [done|]. split; [done|].
           do 2 f_equal. lia.
      * rewrite length_app. cbn. lia.
      * rewrite length_app. cbn. rewrite (take_S_r _ _ _ Harg). split.
        -- intros Hfull.
           assert (length (Cleanup.newYieldArgs st) = n) as Hfull' by lia.
           apply Hall in Hfull' as [Hallused Hdistinct]. split.
           ++ intros i Hi. destruct (decide (i = n)) as [->|]; [done|].
              apply Hallused. lia.
           ++ apply NoDup_app. split; [done|].
              split; [|apply NoDup_singleton].
              intros arg' Hin ->%list_elem_of_singleton.
              apply list_elem_of_lookup in Hin as [i Hi].
              apply lookup_take_Some in Hi as [Hi Hlt].
              destruct (Hused i Hlt (Hallused i Hlt))
                as (k & arg' & _ & Hk & Hyi).
              apply Hfound. apply list_elem_of_lookup. exists k.
              congruence.
        -- intros [Hallused Hdistinct].
           apply NoDup_app in Hdistinct as (Hdistinct & _ & _).
           assert (length (Cleanup.newYieldArgs st) = n); [|lia].
           apply Hall. split; [|done]. intros i Hi. apply Hallused. lia.
  - split; try done.
    + intros i Hi Hiu. apply Hused; [|done].
      apply Hbefore; [done..|]. intros ->. congruence.
    + intros i Hi Hlt. apply Hunused; [|done].
      destruct Hi as [Hi|Hi]; [|by right].
      destruct (decide (i = n)) as [->|]; [by right|left; lia].
    + intros k arg' Hk. destruct (Hfrom k arg' Hk) as (i & ? & ?).
      exists i. split; [lia|done].
    + lia.
    + split; [lia|]. intros [Hallused _].
      specialize (Hallused n). rewrite Hu in Hallused.
      by discriminate Hallused; lia.
Qed.

Lemma visited_fold (op : EnvironmentRegionOp) n :
  length (resultUsed op) = length (yieldArgs op) →
  n ≤ length (resultUsed op) →
  visited op n
    (foldl (Cleanup.visit op)
           (Cleanup.mkState [] (replicate (length (resultUsed op)) (-1)%Z) [])
           (seq 0 n)).
Proof.
  intros Hcount. induction n as [|n IH]; intros Hn.
  - apply visited_start.
  - rewrite seq_S, foldl_app. cbn. apply visited_step; [done|lia|].
    apply IH. lia.
Qed.

(** X19: [CleanupRegionYieldArgs] fails exactly when every result has
    uses and the yielded values are distinct.  Otherwise the new
    operation yields distinct values, each one yielded before for a
    result with uses; a result with uses is replaced by the result of
    the new operation that yields its value, a result without by the
    null value; and the pattern fails on the new operation. *)
Theorem cleaned_results_keep_their_values (op : EnvironmentRegionOp) :
  length (resultUsed op) = length (yieldArgs op) →
  (Cleanup.matchAndRewrite op = Failed
   ↔ Forall (λ used, used = true) (resultUsed op) ∧ NoDup (yieldArgs op))
  ∧ match Cleanup.matchAndRewrite op with
    | Rewritten newYieldArgs newResults =>
        ¬ (Forall (λ used, used = true) (resultUsed op)
           ∧ NoDup (yieldArgs op))
        ∧ NoDup newYieldArgs
        ∧ length newResults = length (resultUsed op)
        ∧ (∀ i arg,
             resultUsed op !! i = Some true → yieldArgs op !! i = Some arg →
             ∃ k, newResults !! i = Some (NewResult k)
                  ∧ newYieldArgs !! k = Some arg)
        ∧ (∀ i, resultUsed op !! i = Some false →
                newResults !! i = Some NullValue)
        ∧ (∀ arg, arg ∈ newYieldArgs →
                  ∃ i, resultUsed op !! i = Some true
                       ∧ yieldArgs op !! i = Some arg)
        ∧ Cleanup.matchAndRewrite (newOp op newYieldArgs newResults) = Failed
    | Failed =>
        Forall (λ used, used = true) (resultUsed op) ∧ NoDup (yieldArgs op)
    | AssertionFailed => False
    end.
Proof.
  intros Hcount. unfold Cleanup.matchAndRewrite at 1 2.
  rewrite bool_decide_eq_true_2 by done. cbn [negb].
  pose proof (visited_fold op (length (resultUsed op)) Hcount (le_n _))
    as [Hnodup Hmap Hlength Hused Hunused Hfrom Hle Hall].
  set (st := foldl _ _ _) in *.
  assert (length (Cleanup.newYieldArgs st) = length (resultUsed op)
          ↔ Forall (λ used, used = true) (resultUsed op)
            ∧ NoDup (yieldArgs op)) as Hfull.
  { split.
    - intros Hlen. apply Hall in Hlen as [Hallused Hdistinct]. split.
      + apply Forall_lookup. intros i used Hi.
        rewrite Hallused in Hi by by eapply lookup_lt_Some. congruence.
      + revert Hdistinct. rewrite Hcount. by rewrite firstn_all.
    - intros [Hallused Hdistinct]. apply Hall. split.
      + intros i Hi. destruct (lookup_lt_is_Some_2 _ _ Hi) as [used Hu].
        rewrite Hu. f_equal.
        exact (proj1 (Forall_lookup _ _) Hallused i used Hu).
      + by rewrite Hcount, firstn_all. }
  case_bool_decide as Hsame.
  - split; [|by apply Hfull]. split; [intros _; by apply Hfull|done].
  - assert (∀ i k, Cleanup.newResultsMapping st !! i = Some (Z.of_nat k) →
                   ((λ mapInd : Z,
                       if bool_decide (mapInd ≠ (-1)%Z)
                       then NewResult (Z.to_nat mapInd) else NullValue)
                      <$> Cleanup.newResultsMapping st) !! i
                   = Some (NewResult k)) as Hnew.
    { intros i k Hi. rewrite list_lookup_fmap, Hi. cbn.
      rewrite bool_decide_eq_true_2 by lia. by rewrite Nat2Z.id. }
    split; [split; [done|]; intros Hin; by apply Hfull in Hin|].
    split; [intros Hin; by apply Hfull in Hin|].
    split; [done|]. split; [by rewrite length_fmap|].
    split; [|split; [|split]].
    + intros i arg Hi Harg.
      destruct (Hused i) as (k & arg' & Hk & Hk' & Harg');
        [by eapply lookup_lt_Some|done|].
      exists k. split; [by apply Hnew|congruence].
    + intros i Hi. rewrite list_lookup_fmap, Hunused; [done|by right|].
      by eapply lookup_lt_Some.
    + intros arg [k Hk]%list_elem_of_lookup.
      destruct (Hfrom k arg Hk) as (i & _ & ? & ? & _). by exists i.
    + set (new := newOp _ _ _).
      assert (length (resultUsed new) = length (yieldArgs new)) as Hcount'.
      { unfold new, newOp. cbn. by rewrite length_fmap, length_seq. }
      unfold Cleanup.matchAndRewrite.
      rewrite bool_decide_eq_true_2 by done. cbn [negb].
      rewrite bool_decide_eq_true_2; [done|].
      apply (visited_all _ _ _ (visited_fold new _ Hcount' (le_n _))).
      split.
      * intros k Hk. unfold new, newOp in Hk |- *.
        cbn [resultUsed] in Hk |- *.
        rewrite length_fmap, length_seq in Hk.
        rewrite list_lookup_fmap, lookup_seq_lt by done. cbn. f_equal.
        apply existsb_exists.
        destruct (lookup_lt_is_Some_2 _ _ Hk) as [arg Harg].
        destruct (Hfrom k arg Harg) as (i & Hi & Hiu & _ & Him).
        exists i. split; [apply in_seq; lia|].
        rewrite Hiu, (Hnew _ _ Him). by apply bool_decide_eq_true_2.
      * rewrite Hcount', firstn_all. done.
Qed.

End CleanupProperties.

Section EnvironmentRegionScenarios.
Import EnvironmentRegion.

Lemma propagated_results_keep_their_values_witness :
  length (resultUsed yieldsFour) = length (yieldArgs yieldsFour)
  ∧ Propagate.matchAndRewrite yieldsFour
    = Rewritten [valueIn [7; 1]%nat 0; valueIn [7; 1]%nat 0;
                 valueIn [7; 1]%nat 1]
                [NewResult 0; Direct (valueIn [1%nat] 2); NewResult 1;
                 NewResult 2]
  ∧ Propagate.matchAndRewrite
      (newOp yieldsFour
             [valueIn [7; 1]%nat 0; valueIn [7; 1]%nat 0;
              valueIn [7; 1]%nat 1]
             [NewResult 0; Direct (valueIn [1%nat] 2); NewResult 1;
              NewResult 2])
    = Failed.
Proof.
  split; [reflexivity|]. split; [reflexivity|].
  exact (proj2 (proj2 (proj2 (proj2
           (propagated_results_keep_their_values yieldsFour eq_refl))))).
Defined.

Lemma cleaned_results_keep_their_values_witness :
  length (resultUsed yieldsFour) = length (yieldArgs yieldsFour)
  ∧ Cleanup.matchAndRewrite yieldsFour
    = Rewritten [valueIn [7; 1]%nat 0; valueIn [1%nat] 2]
                [NewResult 0; NewResult 1; NewResult 0; NullValue]
  ∧ Cleanup.matchAndRewrite
      (newOp yieldsFour
             [valueIn [7; 1]%nat 0; valueIn [1%nat] 2]
             [NewResult 0; NewResult 1; NewResult 0; NullValue])
    = Failed.
Proof.
  split; [reflexivity|]. split; [reflexivity|].
  exact (proj2 (proj2 (proj2 (proj2 (proj2 (proj2 (proj2
           (cleaned_results_keep_their_values yieldsFour eq_refl)))))))).
Defined.

End EnvironmentRegionScenarios.

Section PromoteLoadsProperties.
Import PromoteLoads.
#[local] Open Scope nat_scope.

Variable address : Z → list Z → Z.
Variable effect : ValueId → list Z → Memory → Z * Memory.

Local Abbreviation step := (PromoteLoads.step address effect).
Local Abbreviation run := (PromoteLoads.run address effect).
Local Abbreviation simulates := (PromoteLoads.simulates address effect).
Local Abbreviation declared := (PromoteLoads.declared effect).

Lemma run_snoc ops op s : run (ops ++ [op]) s = step (run ops s) op.
Proof. unfold PromoteLoads.run. by rewrite foldl_app. Qed.

Lemma delete_snoc {A} (l : list A) x : delete (length l) (l ++ [x]) = l.
Proof. induction l as [|y l IH]; cbn; [done|]. f_equal. exact IH. Qed.

Lemma delete_app_lt {A} (l k : list A) i :
  i < length l → delete i (l ++ k) = delete i l ++ k.
Proof.
  revert i. induction l as [|y l IH]; intros [|i] Hi; cbn in *;
    try done; try lia.
  f_equal. apply IH. lia.
Qed.

Lemma define_eq result x e : define result x e result = x.
Proof. unfold define. by rewrite decide_True. Qed.

Lemma define_ne result x e v : v ≠ result → define result x e v = e v.
Proof. intros ?. unfold define. by rewrite decide_False. Qed.

Lemma current_seen (replaced : Replaced) (seen : list ValueId) v :
  (∀ v v', replaced !! v = Some v' → v ∈ seen ∧ v' ∈ seen) →
  v ∈ seen → current replaced v ∈ seen.
Proof.
  intros Hreplaced Hv. unfold current.
  destruct (replaced !! v) as [v'|] eqn:Hv'; [|done].
  by apply (Hreplaced _ _ Hv').
Qed.

(** A value defined now is no value that stands for another, and stands
    for itself. *)
Lemma current_fresh (replaced : Replaced) (seen : list ValueId) result :
  (∀ v v', replaced !! v = Some v' → v ∈ seen ∧ v' ∈ seen) →
  result ∉ seen →
  current replaced result = result
  ∧ ∀ v, v ≠ result → current replaced v ≠ result.
Proof.
  intros Hreplaced Hfresh. unfold current. split.
  - destruct (replaced !! result) as [v'|] eqn:Hv'; [|done].
    by destruct (Hreplaced _ _ Hv').
  - intros v Hv. destruct (replaced !! v) as [v'|] eqn:Hv'; [|done].
    cbn. intros ->. by destruct (Hreplaced _ _ Hv').
Qed.

Lemma current_insert_eq (replaced : Replaced) result value :
  current (<[result := value]> replaced) result = value.
Proof. unfold current. by rewrite lookup_insert_eq. Qed.

Lemma current_insert_ne (replaced : Replaced) result value v :
  v ≠ result → current (<[result := value]> replaced) v = current replaced v.
Proof. intros ?. unfold current. by rewrite lookup_insert_ne. Qed.

Lemma env_current (e e' : ValueId → Z) (replaced : Replaced)
    (vs : list ValueId) :
  (∀ v, e v = e' (current replaced v)) →
  e <$> vs = e' <$> (current replaced <$> vs).
Proof.
  intros He. rewrite <- list_fmap_compose. apply list_fmap_ext.
  intros ? v _. apply He.
Qed.

Lemma simulates_start s0 :
  simulates s0 [] [] (mkState false false false false None [] ∅).
Proof. by split. Qed.

(** The values seen stay as they are when a new value is defined. *)
Lemma define_seen (seen : list ValueId) result x e vs :
  result ∉ seen → Forall (λ v, v ∈ seen) vs →
  define result x e <$> vs = e <$> vs.
Proof.
  intros Hfresh Hvs. apply list_fmap_ext. intros i v Hv.
  apply define_ne. intros ->. apply Hfresh.
  by apply (proj1 (Forall_lookup _ _) Hvs i).
Qed.

(** An operation put at the end of the block, which does there what
    the operation visited does: it defines [result] as [x] and leaves the
    memory [mem'].  The store is kept only if the memory stays as it is,
    and stays dead only if the operation does the same wherever the values
    are the same. *)
Lemma simulates_append s0 (seen seen' : list ValueId) visited st op op'
    result x mem' changed' writes' reads' dead' store' :
  simulates s0 seen visited st →
  result ∉ seen →
  (∀ v, v ∈ seen → v ∈ seen') →
  step (run visited s0) op
  = mkMachine (define result x (env (run visited s0))) mem' →
  step (run (block st) s0) op'
  = mkMachine (define result x (env (run (block st) s0))) mem' →
  store' = None
  ∨ (store' = currentStore st
     ∧ mem' = mem (run (block st) s0)
     ∧ (dead' = true →
        storeDead st = true
        ∧ ∀ s, (∀ v, env s v = env (run (block st) s0) v) →
               step s op' = mkMachine (define result x (env s)) (mem s))) →
  simulates s0 seen' (visited ++ [op])
            (mkState changed' writes' reads' dead' store'
                     (block st ++ [op']) (replaced st)).
Proof.
  intros [Henv Hmem Hreplaced Hstore Hdead] Hfresh Hseen HsP HsO Hkept.
  destruct (current_fresh _ _ _ Hreplaced Hfresh) as [Hself Hothers].
  split; cbn [block replaced currentStore storeDead].
  - intros v. rewrite !run_snoc, HsP, HsO. cbn [env].
    destruct (decide (v = result)) as [->|Hv].
    + by rewrite Hself, !define_eq.
    + rewrite !define_ne by auto. apply Henv.
  - by rewrite !run_snoc, HsP, HsO.
  - intros v v' [??]%Hreplaced. auto.
  - intros place value memref indices Hstore'.
    destruct Hkept as [->|(-> & -> & _)]; [done|].
    destruct (Hstore _ _ _ _ Hstore') as (Hplace & Hcell & Hvalues).
    pose proof Hvalues as [Hv [Hm Hi]%Forall_cons]%Forall_cons.
    rewrite run_snoc, HsO. cbn [env mem].
    split; [by apply lookup_app_l_Some|]. split.
    + rewrite !define_ne by (intros ->; done).
      by rewrite (define_seen seen).
    + eapply Forall_impl; [exact Hvalues|]. auto.
  - intros place value memref indices Hstore' ->.
    destruct Hkept as [->|(-> & -> & Hsame)]; [done|].
    destruct (Hsame eq_refl) as [Hwas Hstep].
    destruct (Hstore _ _ _ _ Hstore') as (Hplace & _ & Hvalues).
    pose proof Hvalues as [Hv [Hm Hi]%Forall_cons]%Forall_cons.
    destruct (Hdead _ _ _ _ Hstore' Hwas) as [Henv' Hmem'].
    rewrite delete_app_lt by by eapply lookup_lt_Some.
    rewrite !run_snoc, HsO, (Hstep _ Henv'). cbn [env mem]. split.
    + intros v. unfold define. case_decide; [done|apply Henv'].
    + rewrite !define_ne by (intros ->; done).
      by rewrite (define_seen seen).
Qed.

(** What a load reads, in the block built so far. *)
Lemma load_reads s0 seen visited st result memref indices :
  simulates s0 seen visited st →
  step (run visited s0) (LoadOp result memref indices)
  = mkMachine
      (define result
         (default 0%Z
            (mem (run (block st) s0)
               !! address
                    (env (run (block st) s0) (current (replaced st) memref))
                    (env (run (block st) s0)
                       <$> (current (replaced st) <$> indices))))
         (env (run visited s0)))
      (mem (run (block st) s0)).
Proof.
  intros [Henv Hmem _ _ _]. cbn.
  by rewrite Henv, (env_current _ _ _ _ Henv), Hmem.
Qed.

Lemma simulates_forward s0 seen visited st result memref indices
    place value writes' :
  simulates s0 seen visited st →
  result ∉ seen →
  currentStore st
  = Some (place, (value, current (replaced st) memref,
                  current (replaced st) <$> indices)) →
  simulates s0 (mentions (LoadOp result memref indices) ++ seen)
            (visited ++ [LoadOp result memref indices])
            (mkState true writes' true (storeDead st) (currentStore st)
                     (block st) (<[result := value]> (replaced st))).
Proof.
  intros Hsim Hfresh Hcs. pose proof (load_reads _ _ _ _ result memref indices Hsim) as HsP.
  destruct Hsim as [Henv Hmem Hreplaced Hstore Hdead].
  destruct (Hstore _ _ _ _ Hcs) as (Hplace & Hcell & Hvalues).
  assert (∀ v : ValueId, v ∈ seen →
            v ∈ mentions (LoadOp result memref indices) ++ seen) as Hseen.
  { intros v ?. apply elem_of_app. by right. }
  split; cbn [block replaced currentStore storeDead].
  - intros v. rewrite run_snoc, HsP. cbn [env].
    destruct (decide (v = result)) as [->|Hv].
    + rewrite define_eq, current_insert_eq.
      cbn zeta in Hcell. by rewrite Hcell.
    + rewrite define_ne, current_insert_ne by done. apply Henv.
  - by rewrite run_snoc, HsP.
  - intros v v' [[-> ->]|[_ Hold]]%lookup_insert_Some.
    + split; [by left|]. apply Hseen.
      by apply Forall_cons in Hvalues as [? _].
    + destruct (Hreplaced _ _ Hold). auto.
  - intros place' value' memref' indices' Hcs'.
    destruct (Hstore _ _ _ _ Hcs') as (? & ? & Hvalues').
    split; [done|]. split; [done|].
    eapply Forall_impl; [exact Hvalues'|]. auto.
  - apply Hdead.
Qed.

Lemma simulates_StoreOp s0 seen visited st value memref indices :
  simulates s0 seen visited st →
  simulates s0 (mentions (StoreOp value memref indices) ++ seen)
            (visited ++ [StoreOp value memref indices])
            (visit (StoreOp value memref indices) st).
Proof.
  intros [Henv Hmem Hreplaced Hstore Hdead].
  set (now := current (replaced st)).
  set (sO := run (block st) s0) in *.
  set (cell := address (env sO (now memref)) (env sO <$> (now <$> indices))).
  assert (∀ v : ValueId, v ∈ seen →
            v ∈ mentions (StoreOp value memref indices) ++ seen) as Hseen.
  { intros v ?. apply elem_of_app. by right. }
  assert (∀ v v', replaced st !! v = Some v' →
            v ∈ mentions (StoreOp value memref indices) ++ seen
            ∧ v' ∈ mentions (StoreOp value memref indices) ++ seen)
    as Hreplaced'.
  { intros v v' [??]%Hreplaced. auto. }
  (* The block the store is put at the end of. *)
  cbn [visit]. fold now.
  set (erased := match currentStore st with
                 | Some (place, (_, storeMemref, storeIndices)) =>
                     if storeDead st
                        && bool_decide (storeMemref = now memref
                                        ∧ storeIndices = now <$> indices)
                     then delete place (block st) else block st
                 | None => block st
                 end).
  assert ((∀ v, env (run erased s0) v = env sO v)
          ∧ ∀ a, a ≠ cell → mem (run erased s0) !! a = mem sO !! a)
    as [Henv' Hmem'].
  { unfold erased.
    destruct (currentStore st) as [[place [[value' memref'] indices']]|]
      eqn:Hcs; [|done].
    destruct (storeDead st) eqn:Hsd; [|done]. cbn [andb].
    case_bool_decide as Hsame; [|done]. destruct Hsame as [-> ->].
    by apply (Hdead _ _ _ _ eq_refl). }
  assert (env (run erased s0) <$> (now <$> indices)
          = env sO <$> (now <$> indices)) as Hindices.
  { apply list_fmap_ext. intros ???. apply Henv'. }
  split; cbn [block replaced currentStore storeDead].
  - intros v. rewrite !run_snoc. cbn [step env]. fold now.
    by rewrite Henv, Henv'.
  - rewrite !run_snoc. cbn [step mem].
    rewrite !Henv, (env_current _ _ _ _ Henv), Hmem, !Henv', Hindices.
    fold now sO cell. apply map_eq. intros a.
    destruct (decide (a = cell)) as [->|Ha].
    + by rewrite !lookup_insert_eq.
    + rewrite !lookup_insert_ne by done. symmetry. by apply Hmem'.
  - done.
  - intros place value' memref' indices' [= <- <- <- <-].
    rewrite run_snoc. cbn [step env mem].
    split; [by rewrite lookup_app_r, Nat.sub_diag|].
    split; [by rewrite lookup_insert_eq|].
    assert (∀ v, v ∈ value :: memref :: indices →
                 now v ∈ mentions (StoreOp value memref indices) ++ seen)
      as Hnow.
    { intros v Hv. apply (current_seen _ _ _ Hreplaced').
      apply elem_of_app. by left. }
    constructor; [apply Hnow; by left|].
    constructor; [apply Hnow; right; by left|].
    apply Forall_fmap, Forall_forall. intros v Hv.
    apply Hnow. by do 2 right.
  - intros place value' memref' indices' [= <- <- <- <-] _.
    rewrite delete_snoc, run_snoc. cbn [step env mem]. split; [done|].
    intros a Ha. by rewrite lookup_insert_ne.
Qed.

Lemma simulates_LoadOp s0 seen visited st result memref indices :
  simulates s0 seen visited st →
  result ∉ seen →
  simulates s0 (mentions (LoadOp result memref indices) ++ seen)
            (visited ++ [LoadOp result memref indices])
            (visit (LoadOp result memref indices) st).
Proof.
  intros Hsim Hfresh.
  pose proof (load_reads _ _ _ _ result memref indices Hsim) as HsP.
  assert (∀ v : ValueId, v ∈ seen →
            v ∈ mentions (LoadOp result memref indices) ++ seen) as Hseen.
  { intros v ?. apply elem_of_app. by right. }
  cbn [visit].
  destruct (currentStore st) as [[place [[value memref'] indices']]|] eqn:Hcs.
  - case_bool_decide as Hsame.
    + destruct Hsame as [<- <-].
      pose proof (simulates_forward _ _ _ _ _ _ _ _ _ (st_hasWrites st)
                    Hsim Hfresh Hcs) as Hforward.
      by rewrite Hcs in Hforward.
    + rewrite <- Hcs.
      eapply simulates_append; [done..|by apply HsP|reflexivity|].
      right. by split.
  - eapply simulates_append; [done..|by apply HsP|reflexivity|]. by left.
Qed.

Lemma simulates_OtherOp s0 seen visited st result operands effects recursive
    regions :
  simulates s0 seen visited st →
  result ∉ seen →
  declared (OtherOp result operands effects recursive regions) →
  simulates s0
    (mentions (OtherOp result operands effects recursive regions) ++ seen)
    (visited ++ [OtherOp result operands effects recursive regions])
    (visit (OtherOp result operands effects recursive regions) st).
Proof.
  intros Hsim Hfresh (-> & write & read & -> & Hwrite & Hpure).
  assert (∀ v : ValueId, v ∈ seen →
            v ∈ mentions (OtherOp result operands (Some (write, read))
                                  recursive []) ++ seen) as Hseen.
  { intros v ?. apply elem_of_app. by right. }
  set (now := current (replaced st)).
  set (sO := run (block st) s0).
  destruct (effect result (env sO <$> (now <$> operands)) (mem sO))
    as [x mem'] eqn:Heffect.
  assert (step (run visited s0)
               (OtherOp result operands (Some (write, read)) recursive [])
          = mkMachine (define result x (env (run visited s0))) mem') as HsP.
  { destruct Hsim as [Henv Hmem _ _ _]. cbn.
    rewrite (env_current _ _ _ _ Henv), Hmem. fold now sO.
    by rewrite Heffect. }
  assert (step sO (OtherOp result (now <$> operands) (Some (write, read))
                           recursive [])
          = mkMachine (define result x (env sO)) mem') as HsO.
  { cbn. by rewrite Heffect. }
  cbn [visit isWrite isRead]. fold now.
  destruct write.
  { eapply simulates_append; [done..|by left]. }
  assert (mem' = mem sO) as ->.
  { by rewrite <- (Hwrite eq_refl (env sO <$> (now <$> operands)) (mem sO)),
      Heffect. }
  destruct read.
  { eapply simulates_append; [done..|]. right. by split. }
  destruct recursive.
  { eapply simulates_append; [done..|by left]. }
  eapply simulates_append; [done..|]. right. split; [done|]. split; [done|].
  intros Hdead. split; [done|]. intros s Hs. cbn.
  assert (env s <$> (now <$> operands) = env sO <$> (now <$> operands)) as ->.
  { apply list_fmap_ext. intros ???. apply Hs. }
  pose proof (Hwrite eq_refl (env sO <$> (now <$> operands)) (mem s)) as Hm.
  pose proof (Hpure eq_refl eq_refl (env sO <$> (now <$> operands))
                (mem s) (mem sO)) as Hx.
  destruct (effect result _ (mem s)) as [x' mem'']. cbn in Hm, Hx.
  rewrite Heffect in Hx. cbn in Hx. by subst.
Qed.

Lemma simulates_visit s0 seen visited st op :
  simulates s0 seen visited st →
  (∀ result, resultOf op = Some result → result ∉ seen) →
  declared op →
  simulates s0 (mentions op ++ seen) (visited ++ [op]) (visit op st).
Proof.
  intros Hsim Hfresh Hdeclared.
  destruct op as [result memref indices|value memref indices
                  |result operands effects recursive regions].
  - apply simulates_LoadOp; [done|]. by apply Hfresh.
  - by apply simulates_StoreOp.
  - apply simulates_OtherOp; [done| |done]. by apply Hfresh.
Qed.

Lemma simulates_opsLoop s0 ops seen visited st :
  simulates s0 seen visited st →
  ssa seen ops →
  Forall declared ops →
  ∃ seen', simulates s0 seen' (visited ++ ops) (opsLoop visit ops st).
Proof.
  revert seen visited st.
  induction ops as [|op ops IH]; intros seen visited st Hsim Hssa Hdeclared.
  - exists seen. by rewrite app_nil_r.
  - destruct Hssa as [Hfresh Hssa].
    apply Forall_cons in Hdeclared as [Hop Hdeclared].
    cbn [opsLoop].
    destruct (IH _ _ _ (simulates_visit _ _ _ _ _ Hsim Hfresh Hop)
                 Hssa Hdeclared) as [seen' Hsim'].
    exists seen'. revert Hsim'. by rewrite <- app_assoc.
Qed.

(** X20: on a block in SSA form of loads, stores and operations that
    declare their effects and keep to them, [promoteLoads] leaves a block
    that computes the same: run from any state, it leaves the same
    memory, and every value of the block has its value, a load that was
    replaced in the value that replaces it.  This holds for any
    addresses, also when memrefs alias. *)
Theorem promoted_block_computes_the_same
    (ops : Block) (s0 : Machine)
    (res : Result) (ops' : Block) (replaced : Replaced) :
  ssa [] ops →
  Forall declared ops →
  promoteLoadsImpl [ops] ∅ = (res, [ops'], replaced) →
  mem (run ops' s0) = mem (run ops s0)
  ∧ ∀ v, env (run ops' s0) (current replaced v) = env (run ops s0) v.
Proof.
  intros Hssa Hdeclared.
  unfold promoteLoadsImpl, regionImpl. cbn [blocksLoop app].
  intros [= <- <- <-].
  destruct (simulates_opsLoop s0 ops [] [] _ (simulates_start s0)
              Hssa Hdeclared) as [seen' [Henv Hmem _ _ _]].
  cbn [app] in Henv, Hmem. split; [done|]. intros v. by rewrite Henv.
Qed.

End PromoteLoadsProperties.

Section PromoteLoadsFlags.
Import PromoteLoads.

Lemma regionsLoop_flags visit regions st built :
  let st' := (regionsLoop visit regions st built).1 in
  st_hasWrites st' = st_hasWrites st ∧ st_hasReads st' = st_hasReads st.
Proof.
  revert st built. induction regions as [|region regions IH]; intros st built;
    cbn; [done|].
  destruct (regionImpl visit region (replaced st)) as [[res region'] replaced'].
  apply (IH (mkState _ _ _ _ _ _ _)).
Qed.

Lemma visit_flags op st :
  st_hasWrites (visit op st) = st_hasWrites st || writesDirectly op
  ∧ st_hasReads (visit op st) = st_hasReads st || readsDirectly op.
Proof.
  destruct op as [result memref indices|value memref indices
                  |result operands effects recursive [|region regions]].
  - cbn. destruct (currentStore st) as [[place [[??]?]]|];
      [case_bool_decide|]; cbn;
      by rewrite orb_true_r, orb_false_r.
  - cbn. by rewrite orb_true_r, orb_false_r.
  - cbn [visit writesDirectly readsDirectly].
    destruct (isWrite effects), (isRead effects), recursive; cbn;
      by rewrite ?orb_true_r, ?orb_false_r.
  - cbn [visit writesDirectly readsDirectly].
    match goal with
    | |- context [regionsLoop visit ?nested st []] =>
        pose proof (regionsLoop_flags visit nested st []) as Hflags;
        destruct (regionsLoop visit nested st []) as [st' regions']
    end.
    cbn in Hflags |- *. rewrite !orb_false_r. exact Hflags.
Qed.

Lemma opsLoop_flags ops st :
  st_hasWrites (opsLoop visit ops st)
  = st_hasWrites st || existsb writesDirectly ops
  ∧ st_hasReads (opsLoop visit ops st)
    = st_hasReads st || existsb readsDirectly ops.
Proof.
  revert st. induction ops as [|op ops IH]; intros st; cbn.
  - by rewrite !orb_false_r.
  - destruct (IH (visit op st)) as [-> ->].
    destruct (visit_flags op st) as [-> ->]. by rewrite !orb_assoc.
Qed.

Lemma blocksLoop_flags blocks st built :
  let st' := (blocksLoop visit blocks st built).1 in
  st_hasWrites st'
  = st_hasWrites st || existsb (existsb writesDirectly) blocks
  ∧ st_hasReads st'
    = st_hasReads st || existsb (existsb readsDirectly) blocks.
Proof.
  revert st built. induction blocks as [|ops blocks IH]; intros st built; cbn.
  - by rewrite !orb_false_r.
  - destruct (IH (opsLoop visit ops
                    (mkState (st_changed st) (st_hasWrites st)
                             (st_hasReads st) (storeDead st) None []
                             (replaced st)))
                 (built ++ [block (opsLoop visit ops
                    (mkState (st_changed st) (st_hasWrites st)
                             (st_hasReads st) (storeDead st) None []
                             (replaced st)))])) as [Hw Hr].
    cbn in Hw, Hr. rewrite Hw, Hr.
    destruct (opsLoop_flags ops
                (mkState (st_changed st) (st_hasWrites st)
                         (st_hasReads st) (storeDead st) None []
                         (replaced st))) as [-> ->].
    cbn. by rewrite !orb_assoc.
Qed.

Lemma promoteLoadsImpl_flags region replaced :
  hasWrites (promoteLoadsImpl region replaced).1.1
  = existsb (existsb writesDirectly) region
  ∧ hasReads (promoteLoadsImpl region replaced).1.1
    = existsb (existsb readsDirectly) region.
Proof.
  unfold promoteLoadsImpl, regionImpl.
  pose proof (blocksLoop_flags region
                (mkState false false false false None [] replaced) [])
    as Hflags.
  destruct (blocksLoop _ _ _ _) as [st blocks]. exact Hflags.
Qed.

Lemma existsb_hasRegions (ops : Block) :
  forallb hasRegions ops = true →
  existsb writesDirectly ops = false ∧ existsb readsDirectly ops = false.
Proof.
  induction ops as [|op ops IH]; cbn; [done|].
  intros [Hop [-> ->]%IH]%andb_true_iff.
  by destruct op as [| |????[|??]].
Qed.

Lemma regionsLoop_store regions st built :
  forallb (forallb (forallb hasRegions)) regions = true →
  let st' := (regionsLoop visit regions st built).1 in
  currentStore st' = currentStore st ∧ storeDead st' = storeDead st.
Proof.
  revert st built. induction regions as [|region regions IH]; intros st built;
    cbn; [done|].
  intros [Hregion Hregions]%andb_true_iff.
  pose proof (promoteLoadsImpl_flags region (replaced st)) as [Hw Hr].
  unfold promoteLoadsImpl in Hw, Hr.
  destruct (regionImpl visit region (replaced st)) as [[res region'] replaced'].
  cbn in Hw, Hr.
  assert (existsb (existsb writesDirectly) region = false
          ∧ existsb (existsb readsDirectly) region = false) as [Hw' Hr'].
  { clear -Hregion. induction region as [|ops region IH]; cbn; [done|].
    apply andb_true_iff in Hregion as [[-> ->]%existsb_hasRegions Hrest].
    apply (IH Hrest). }
  rewrite Hw' in Hw. rewrite Hr' in Hr. rewrite Hw, Hr.
  apply (IH (mkState _ _ _ _ _ _ _) _ Hregions).
Qed.

(** X21: the flags that [promoteLoadsImpl] returns for a region tell of
    the operations without regions in its blocks only: a region reports a
    write when one of them is a store, writes or has recursive side
    effects without reading, and likewise a read.  So an operation whose
    regions hold nothing but operations with regions leaves
    [currentStore] and [storeDead] as they are, whatever is nested in
    those. *)
Theorem nested_effects_are_not_reported
    (region : Region) (replaced : Replaced)
    (result : ValueId) (operands : list ValueId)
    (effects : option (bool * bool)) (recursive : bool)
    (regions : list Region) (st : State) :
  (hasWrites (promoteLoadsImpl region replaced).1.1
   = existsb (existsb writesDirectly) region
   ∧ hasReads (promoteLoadsImpl region replaced).1.1
     = existsb (existsb readsDirectly) region)
  ∧ (regions ≠ [] →
     forallb (forallb (forallb hasRegions)) regions = true →
     currentStore (visit (OtherOp result operands effects recursive regions)
                         st)
     = currentStore st
     ∧ storeDead (visit (OtherOp result operands effects recursive regions)
                        st)
       = storeDead st).
Proof.
  split; [apply promoteLoadsImpl_flags|].
  intros Hregions Hnested.
  destruct regions as [|nestedRegion regions]; [done|].
  cbn [visit].
  match goal with
  | |- context [regionsLoop visit ?nested st []] =>
      pose proof (regionsLoop_store nested st [] Hnested) as Hstore;
      destruct (regionsLoop visit nested st []) as [st' regions']
  end.
  exact Hstore.
Qed.

End PromoteLoadsFlags.

Section PromoteLoadsScenarios.
Import PromoteLoads.

Lemma adds_declared : Forall (declared adds) storesTwice.
Proof.
  repeat constructor. by exists false, false.
Qed.

Lemma storesTwice_ssa : ssa [] storesTwice.
Proof.
  cbn. repeat split; try done; intros result [= <-];
    apply (bool_decide_unpack _); reflexivity.
Qed.

Lemma promoted_block_computes_the_same_witness :
  ssa [] storesTwice
  ∧ Forall (declared adds) storesTwice
  ∧ promoteLoadsImpl [storesTwice] ∅
    = (mkResult true true true,
       [[StoreOp 11 1 [2%nat];
         OtherOp 4 [10%nat; 10%nat] (Some (false, false)) false []]],
       {[3%nat := 10%nat]})
  ∧ mem (run rowMajor adds
           [StoreOp 11 1 [2%nat];
            OtherOp 4 [10%nat; 10%nat] (Some (false, false)) false []]
           (mkMachine Z.of_nat ∅))
    = mem (run rowMajor adds storesTwice (mkMachine Z.of_nat ∅)).
Proof.
  split; [exact storesTwice_ssa|]. split; [exact adds_declared|].
  split; [reflexivity|].
  exact (proj1 (promoted_block_computes_the_same
                  rowMajor adds storesTwice (mkMachine Z.of_nat ∅)
                  _ _ _ storesTwice_ssa adds_declared eq_refl)).
Defined.

End PromoteLoadsScenarios.

Section ThunkBodyProperties.
Import FunctionBoundary Thunks.
#[local] Open Scope nat_scope.

Variable sizeOf : Ty → Z.
Variable createToken : Heap → Z.

Local Abbreviation eval := (Thunks.eval sizeOf).
Local Abbreviation call := (Thunks.call sizeOf createToken).

(** The loop of [divStrides] and [mulStrides], for an operation [scale]
    that computes [f]. *)
Lemma eval_scaled env (scale : Value → Value → Value) (f : Z → Z)
    elementType count stridesV mV (strides : list Z) :
  eval env stridesV = Array (Int <$> strides) →
  length strides = count →
  (∀ i s, strides !! i = Some s →
          eval env (scale (ExtractValueOp elementType stridesV i) mV)
          = Int (f s)) →
  eval env
       (foldl (λ array i,
                 InsertValueOp array
                   (scale (ExtractValueOp elementType stridesV i) mV) i)
              (UndefOp (LLVMArrayType elementType count)) (seq 0 count))
  = Array (Int <$> (f <$> strides)).
Proof.
  intros Hstrides Hcount Hscale.
  assert (∀ n, n ≤ count →
            eval env
              (foldl (λ array i,
                        InsertValueOp array
                          (scale (ExtractValueOp elementType stridesV i) mV) i)
                     (UndefOp (LLVMArrayType elementType count)) (seq 0 n))
            = Array ((Int <$> (f <$> take n strides))
                       ++ replicate (count - n) Undef)) as Hloop.
  { induction n as [|n IH]; intros Hn.
    - cbn. by rewrite Nat.sub_0_r.
    - rewrite seq_S, foldl_app. cbn [foldl Thunks.eval plus].
      rewrite IH by lia.
      destruct (lookup_lt_is_Some_2 strides n) as [s Hs]; [lia|].
      rewrite (Hscale _ _ Hs), (take_S_r _ _ _ Hs), !fmap_app. cbn.
      replace (count - n) with (S (count - S n)) by lia. cbn.
      rewrite <- app_assoc. cbn. f_equal.
      rewrite insert_app_r_alt; rewrite !length_fmap, length_take; [|lia].
      by replace (n - n `min` length strides) with 0 by lia. }
  rewrite (Hloop count (le_n _)), Nat.sub_diag, app_nil_r.
  by rewrite <- Hcount, firstn_all.
Qed.

(** The loop that multiplies the extents. *)
Lemma eval_nitems env shapeV (extents : list Z) :
  eval env shapeV = Array (Int <$> extents) →
  eval env
       (foldl (λ nitems i,
                 MulOp nitems (ExtractValueOp (getType nitems) shapeV i))
              (ConstantOp i64 1) (seq 0 (length extents)))
  = Int (countItems extents).
Proof.
  intros Hshape.
  assert (∀ n, n ≤ length extents →
            eval env
              (foldl (λ nitems i,
                        MulOp nitems
                              (ExtractValueOp (getType nitems) shapeV i))
                     (ConstantOp i64 1) (seq 0 n))
            = Int (countItems (take n extents))) as Hloop.
  { induction n as [|n IH]; intros Hn; [done|].
    rewrite seq_S, foldl_app. cbn [foldl Thunks.eval plus].
    rewrite IH by lia.
    destruct (lookup_lt_is_Some_2 extents n) as [dim Hdim]; [lia|].
    rewrite Hshape, list_lookup_fmap, Hdim. cbn.
    rewrite (take_S_r _ _ _ Hdim). unfold countItems.
    by rewrite foldl_app. }
  by rewrite (Hloop _ (le_n _)), firstn_all.
Qed.

Hypothesis createToken_fresh : ∀ heap, heap !! createToken heap = None.

Lemma getArrayType_body convertType memrefType arrayType :
  getArrayType convertType memrefType = Ok (LLVMStructType arrayType) →
  arrayType
  = [ptrType; ptrType; i64; i64; ptrType]
      ++ if decide (0 < getRank memrefType)
         then [LLVMArrayType i64 (getRank memrefType);
               LLVMArrayType i64 (getRank memrefType)]
         else [].
Proof.
  unfold getArrayType. intros (dataType & _ & Hbody)%bind_Ok.
  case_decide; by injection Hbody as <-.
Qed.

Lemma wrap64_small z : (- 2 ^ 63 ≤ z < 2 ^ 63)%Z → wrap64 z = z.
Proof.
  intros Hz. unfold wrap64. rewrite Z.mod_small; lia.
Qed.

Lemma roundStride_multiple size stride :
  (0 < size)%Z → (- 2 ^ 63 ≤ stride < 2 ^ 63)%Z → (size | stride)%Z →
  roundStride size stride = stride.
Proof.
  intros Hsize Hstride [q ->]. unfold roundStride.
  rewrite Z.quot_mul by lia.
  rewrite (wrap64_small q) by nia. by apply wrap64_small.
Qed.

Lemma roundStride_truncates size stride :
  (0 < size)%Z → (- 2 ^ 63 ≤ stride < 2 ^ 63)%Z →
  roundStride size stride = (stride - Z.rem stride size)%Z.
Proof.
  intros Hsize Hstride. unfold roundStride.
  pose proof (Z.quot_rem' stride size) as Hqr.
  remember (stride ÷ size)%Z as q eqn:Hq.
  remember (Z.rem stride size) as r eqn:Hr.
  assert ((- 2 ^ 63 ≤ q < 2 ^ 63)%Z ∧ (- 2 ^ 63 ≤ q * size < 2 ^ 63)%Z)
    as [Hquot Hmul].
  { destruct (Z.le_gt_cases 0 stride) as [Hpos|Hneg].
    - pose proof (Z.rem_bound_pos stride size Hpos Hsize) as Hb.
      rewrite <- Hr in Hb.
      pose proof (Z.quot_pos stride size Hpos Hsize) as Hp.
      rewrite <- Hq in Hp.
      assert (q ≤ size * q)%Z by nia. lia.
    - pose proof (Z.rem_bound_pos_neg stride size Hsize) as Hb.
      rewrite <- Hr in Hb. specialize (Hb ltac:(lia)).
      assert (q ≤ 0)%Z by nia.
      assert (size * q ≤ q)%Z by nia. lia. }
  rewrite (wrap64_small q) by done. rewrite wrap64_small by done. lia.
Qed.

Lemma perform_create env heap args :
  perform sizeOf createToken (env, heap)
          (CallEffect "nmrtCreateAllocToken" args)
  = (mkEnv (argument env) (createToken heap) (loaded env),
     <[createToken heap := Undef]> heap).
Proof. reflexivity. Qed.

Lemma perform_destroy env heap addr p :
  eval env addr = Ptr p →
  perform sizeOf createToken (env, heap)
          (CallEffect "nmrtDestroyAllocToken" [addr])
  = (env, delete p heap).
Proof. intros Haddr. cbn. by rewrite Haddr. Qed.

Lemma perform_store env heap value addr p :
  eval env addr = Ptr p →
  perform sizeOf createToken (env, heap) (StoreEffect value addr)
  = (env, <[p := eval env value]> heap).
Proof. intros Haddr. cbn. by rewrite Haddr. Qed.

Lemma perform_load env heap addr p :
  eval env addr = Ptr p →
  perform sizeOf createToken (env, heap) (LoadEffect addr)
  = (mkEnv (argument env) (token env) (default Undef (heap !! p)), heap).
Proof. intros Haddr. cbn. by rewrite Haddr. Qed.

(** What the thunk to a memref descriptor computes. *)
Lemma call_toMemrefBody memrefType arrayType size
    meminfo parent nitems itemsize data extents strides heap :
  arrayType
  = [ptrType; ptrType; i64; i64; ptrType]
      ++ (if decide (0 < getRank memrefType)
          then [LLVMArrayType i64 (getRank memrefType);
                LLVMArrayType i64 (getRank memrefType)]
          else []) →
  itemSize (elementType memrefType) = Ok size →
  (0 < size)%N →
  length extents = getRank memrefType →
  length strides = getRank memrefType →
  ∃ toBody,
    toMemrefBody memrefType arrayType
                 (memrefDescriptor (getRank memrefType)) = Ok toBody
    ∧ call toBody
           (arrayValue meminfo parent nitems itemsize data extents strides)
           heap
      = (memrefValue (createToken heap) data 0 extents
                     ((λ stride, wrap64 (stride ÷ Z.of_N size)) <$> strides),
         <[createToken heap := Ptr meminfo]> heap).
Proof.
  intros -> Hsize Hpos Hextents Hstrides.
  unfold toMemrefBody, extractRanked. rewrite Hsize.
  set (rank := getRank memrefType) in *.
  destruct extents as [|extent extents].
  - cbn in Hextents. rewrite <- Hextents.
    destruct strides; [|by rewrite <- Hextents in Hstrides].
    eexists. split; [reflexivity|].
    unfold Thunks.call. cbn [effects returned foldl].
    rewrite perform_create, (perform_store _ _ _ _ (createToken heap)) by done.
    cbn. by rewrite insert_insert_eq.
  - assert (0 < rank) as Hrank by (cbn in Hextents; lia).
    rewrite !decide_True by done.
    cbn [bind assertSome extract app lookup list_lookup].
    unfold divStrides. cbn [getType bind].
    eexists. split; [reflexivity|].
    unfold Thunks.call. cbn [effects returned foldl].
    rewrite perform_create, (perform_store _ _ _ _ (createToken heap)) by done.
    cbn [Thunks.eval argument token loaded].
    unfold memrefDescriptor. rewrite decide_True by done.
    cbn [undefOf app length replicate].
    set (env := mkEnv _ _ _).
    erewrite (eval_scaled env SDivOp
                (λ stride, wrap64 (stride ÷ Z.of_N size)) _ _ _ _ strides);
      [|done|done|].
    + cbn. by rewrite insert_insert_eq.
    + intros i stride Hi. cbn. rewrite list_lookup_fmap, Hi. cbn.
      rewrite decide_False by lia. done.
Qed.

(** What the thunk from a memref descriptor computes, when the cell of
    the token holds the memory info. *)
Lemma call_fromMemrefBody memrefType elemType arrayType size
    allocated meminfo aligned extents strides heap :
  arrayType
  = [ptrType; ptrType; i64; i64; ptrType]
      ++ (if decide (0 < getRank memrefType)
          then [LLVMArrayType i64 (getRank memrefType);
                LLVMArrayType i64 (getRank memrefType)]
          else []) →
  itemSize (elementType memrefType) = Ok size →
  length extents = getRank memrefType →
  length strides = getRank memrefType →
  heap !! allocated = Some (Ptr meminfo) →
  ∃ fromBody,
    fromMemrefBody memrefType elemType
                   (memrefDescriptor (getRank memrefType)) arrayType
    = Ok fromBody
    ∧ call fromBody (memrefValue allocated aligned 0 extents strides) heap
      = (arrayValue meminfo 0 (countItems extents) (Z.of_N size) aligned
                    extents
                    ((λ stride, wrap64 (stride * Z.of_N size)) <$> strides),
         delete allocated heap).
Proof.
  intros -> Hsize Hextents Hstrides Hcell.
  unfold fromMemrefBody, extractRanked. rewrite Hsize.
  set (rank := getRank memrefType) in *.
  destruct extents as [|extent extents].
  - cbn in Hextents. rewrite <- Hextents.
    destruct strides; [|by rewrite <- Hextents in Hstrides].
    eexists. split; [reflexivity|].
    unfold Thunks.call. cbn [effects returned foldl].
    rewrite (perform_load _ _ _ allocated),
      (perform_destroy _ _ _ allocated) by done.
    cbn. rewrite Hcell. cbn. by rewrite Z.add_0_r.
  - assert (0 < rank) as Hrank by (cbn in Hextents; lia).
    unfold memrefDescriptor. rewrite !decide_True by done.
    cbn [bind assertSome extract app lookup list_lookup].
    unfold mulStrides. cbn [getType bind].
    eexists. split; [reflexivity|].
    unfold Thunks.call. cbn [effects returned foldl].
    rewrite (perform_load _ _ _ allocated),
      (perform_destroy _ _ _ allocated) by done.
    cbn [Thunks.eval argument token loaded].
    cbn [undefOf app length replicate].
    set (env := mkEnv _ _ _).
    erewrite (eval_scaled env MulOp
                (λ stride, wrap64 (stride * Z.of_N size)) _ _ _ _ strides);
      [|done|done|].
    + rewrite <- Hextents.
      erewrite (eval_nitems env _ (extent :: extents)); [|done].
      cbn. rewrite Hcell. cbn. by rewrite Z.add_0_r.
    + intros i stride Hi. cbn. by rewrite list_lookup_fmap, Hi.
Qed.

(** X22: the thunk from an array descriptor to a memref descriptor and
    the thunk back give the array back: for every memref type whose
    element has a size, both bodies are built, and an array descriptor
    that goes through the first and then the second comes back with its
    memory info, its data pointer and its extents; its parent is null,
    its number of items the product of the extents, its item size the
    size of the element, and every stride is rounded towards zero to a
    multiple of that size, as the signed division of [divStrides] does:
    a stride loses its remainder, which has the sign of the stride, so
    that -12 becomes -8 for elements of 8 bytes and strides that are
    multiples come back as they were.  The token made on the way there is
    destroyed on the way back: the heap is as before. *)
Theorem thunks_give_the_array_back
    (convertType : Ty → option Ty) (memrefType : MemRef) (elemType : Ty)
    (arrayType : list Ty) (size : N)
    (meminfo parent nitems itemsize data : Z) (extents strides : list Z)
    (heap : Heap) :
  getArrayType convertType memrefType = Ok (LLVMStructType arrayType) →
  itemSize (elementType memrefType) = Ok size →
  (0 < size)%N →
  length extents = getRank memrefType →
  length strides = getRank memrefType →
  ∃ toBody fromBody,
    toMemrefBody memrefType arrayType
                 (memrefDescriptor (getRank memrefType)) = Ok toBody
    ∧ fromMemrefBody memrefType elemType
                     (memrefDescriptor (getRank memrefType)) arrayType
      = Ok fromBody
    ∧ let there :=
        call toBody
             (arrayValue meminfo parent nitems itemsize data extents strides)
             heap in
      let back := call fromBody there.1 there.2 in
      back.2 = heap
      ∧ back.1
        = arrayValue meminfo 0 (countItems extents) (Z.of_N size) data
                     extents (roundStride (Z.of_N size) <$> strides)
      ∧ (∀ stride,
           stride ∈ strides → (- 2 ^ 63 ≤ stride < 2 ^ 63)%Z →
           roundStride (Z.of_N size) stride
           = (stride - Z.rem stride (Z.of_N size))%Z)
      ∧ (Forall (λ stride, (- 2 ^ 63 ≤ stride < 2 ^ 63)%Z
                           ∧ (Z.of_N size | stride)%Z) strides →
         roundStride (Z.of_N size) <$> strides = strides).
Proof.
  intros Harray%getArrayType_body Hsize Hpos Hextents Hstrides.
  destruct (call_toMemrefBody memrefType arrayType size meminfo parent nitems
              itemsize data extents strides heap Harray Hsize Hpos Hextents
              Hstrides) as (toBody & HtoBody & Hthere).
  destruct (call_fromMemrefBody memrefType elemType arrayType size
              (createToken heap) meminfo data extents
              ((λ stride, wrap64 (stride ÷ Z.of_N size)) <$> strides)
              (<[createToken heap := Ptr meminfo]> heap) Harray Hsize
              Hextents)
    as (fromBody & HfromBody & Hback).
  { by rewrite length_fmap. }
  { apply lookup_insert_eq. }
  exists toBody, fromBody. split; [done|]. split; [done|].
  cbn zeta. rewrite Hthere. cbn [fst snd]. rewrite Hback. cbn [fst snd].
  split; [|split; [|split]].
  - apply delete_insert_id, createToken_fresh.
  - by rewrite <- list_fmap_compose.
  - intros stride _ Hstride. apply roundStride_truncates; [lia|done].
  - intros Hall. rewrite <- (list_fmap_id strides) at 2.
    apply list_fmap_ext. intros i stride Hi.
    destruct (proj1 (Forall_lookup _ _) Hall i stride Hi).
    apply roundStride_multiple; [lia|done..].
Qed.

End ThunkBodyProperties.

Section ThunkBodyScenarios.
Import FunctionBoundary Thunks.

Lemma freshToken_fresh (heap : Heap) : heap !! freshToken heap = None.
Proof.
  apply (not_elem_of_dom (D := gset Z)). unfold freshToken. apply is_fresh.
Qed.

Lemma thunks_give_the_array_back_witness :
  getArrayType convertExample matrixOfF64
  = Ok (LLVMStructType [ptrType; ptrType; i64; i64; ptrType;
                        LLVMArrayType i64 2; LLVMArrayType i64 2])
  ∧ itemSize (elementType matrixOfF64) = Ok 8%N
  ∧ ∃ toBody fromBody,
      toMemrefBody matrixOfF64
                   [ptrType; ptrType; i64; i64; ptrType;
                    LLVMArrayType i64 2; LLVMArrayType i64 2]
                   (memrefDescriptor 2) = Ok toBody
      ∧ fromMemrefBody matrixOfF64 f64 (memrefDescriptor 2)
                       [ptrType; ptrType; i64; i64; ptrType;
                        LLVMArrayType i64 2; LLVMArrayType i64 2]
        = Ok fromBody
      ∧ (call (λ _, 8) freshToken fromBody
           (call (λ _, 8) freshToken toBody
                 (arrayValue 100 7 0 0 200 [2; 3] [24; 8]) ∅).1
           (call (λ _, 8) freshToken toBody
                 (arrayValue 100 7 0 0 200 [2; 3] [24; 8]) ∅).2).1
        = arrayValue 100 0 6 8 200 [2; 3] [24; 8].
Proof.
  split; [reflexivity|]. split; [reflexivity|].
  destruct (thunks_give_the_array_back (λ _, 8) freshToken freshToken_fresh
              convertExample matrixOfF64 f64 _ 8 100 7 0 0 200 [2; 3] [24; 8]
              ∅ eq_refl eq_refl eq_refl eq_refl eq_refl)
    as (toBody & fromBody & HtoBody & HfromBody & _ & Hback & _).
  exists toBody, fromBody. split; [exact HtoBody|]. split; [exact HfromBody|].
  exact Hback.
Defined.

End ThunkBodyScenarios.
